(** * TrendRadar configuration editor: format-preserving text patching

    Shallow embedding of the editing engine of [docs/assets/script.js]:
    the indentation navigator ([findChildKey], [findBlockEnd],
    [findPresetSection]), the scalar patcher ([replaceLineValue],
    [insertTimelineField], [updateTimelineField]), the day-plan list
    mutations ([addPeriodToDayPlan], [removePeriodFromDayPlans],
    [deleteTlPeriod]) and the frequency rule parser and builder
    ([parseFrequencyText], [buildFrequencyText]).

    Conventions.
    - A JavaScript string is the list of its UTF-16 code units ([list N]).
    - A JavaScript array of lines is a [list] of such strings; indices and
      the sentinel [-1] are integers ([Z]).
    - A function that can raise a [TypeError] (reading a property of
      [undefined]) returns an [option]: [None] is the raised exception.
    - Every regular expression of the source is replaced by the function
      that computes its leftmost, greedy (or lazy) backtracking match; the
      comment above each such function gives the regular expression. *)

From Stdlib Require Import ZArith NArith Lia Bool String Ascii DecimalString.
From stdpp Require Import base option numbers list.

Set Default Proof Using "Type".

(** ** Code units and strings *)

Abbreviation jstr := (list N).

(** A string literal of the source (ASCII only) as code units. *)
Definition str (s : string) : jstr :=
  List.map N_of_ascii (list_ascii_of_string s).

Definition c_nl : N := 10.
Definition c_space : N := 32.
Definition c_dquote : N := 34.
Definition c_hash : N := 35.
Definition c_squote : N := 39.
Definition c_comma : N := 44.
Definition c_dash : N := 45.
Definition c_dot : N := 46.
Definition c_colon : N := 58.
Definition c_eq : N := 61.
Definition c_gt : N := 62.
Definition c_lbracket : N := 91.
Definition c_rbracket : N := 93.

(** The class [\s] of a regular expression, which is also the set of code
    units removed by [String.prototype.trim]: WhiteSpace and LineTerminator
    of ECMAScript. *)
Definition is_space (c : N) : bool :=
  (c =? 9)%N || (c =? 10)%N || (c =? 11)%N || (c =? 12)%N || (c =? 13)%N
  || (c =? 32)%N || (c =? 160)%N || (c =? 5760)%N
  || ((8192 <=? c)%N && (c <=? 8202)%N)
  || (c =? 8232)%N || (c =? 8233)%N || (c =? 8239)%N || (c =? 8287)%N
  || (c =? 12288)%N || (c =? 65279)%N.

(** The line terminators, which [.] does not match. *)
Definition is_lt (c : N) : bool :=
  (c =? 10)%N || (c =? 13)%N || (c =? 8232)%N || (c =? 8233)%N.

Definition not_space (c : N) : bool := negb (is_space c).
Definition not_lt (c : N) : bool := negb (is_lt c).

(** [span p l]: the longest prefix of [l] whose elements satisfy [p], and
    what follows it. *)
Fixpoint span {A} (p : A → bool) (l : list A) : list A * list A :=
  match l with
  | [] => ([], [])
  | x :: l' =>
      if p x then let '(a, b) := span p l' in (x :: a, b) else ([], l)
  end.

Definition skip_space (s : jstr) : jstr := (span is_space s).2.

Definition trimStart (s : jstr) : jstr := skip_space s.
Definition trimEnd (s : jstr) : jstr := rev (skip_space (rev s)).
Definition trim (s : jstr) : jstr := trimEnd (trimStart s).

Definition eqb_str (a b : jstr) : bool := bool_decide (a = b).

Fixpoint startsWith (s p : jstr) : bool :=
  match p, s with
  | [], _ => true
  | c :: p', d :: s' => (c =? d)%N && startsWith s' p'
  | _ :: _, [] => false
  end.

Definition endsWith (s p : jstr) : bool := startsWith (rev s) (rev p).

(** [s.includes(c)] for a one-character string [c]. *)
Definition includes (s : jstr) (c : N) : bool := existsb (N.eqb c) s.

(** [s.search(/\S/)]: the index of the first code unit that is not white
    space, [-1] when there is none. *)
Fixpoint search_nonspace (s : jstr) : Z :=
  match s with
  | [] => -1
  | c :: s' =>
      if is_space c then
        let r := search_nonspace s' in if (r <? 0)%Z then -1 else (r + 1)%Z
      else 0
  end.

(** [s.split(sep)] for a one-character separator: never the empty array. *)
Fixpoint split_on (sep : N) (s : jstr) : list jstr :=
  match s with
  | [] => [[]]
  | c :: s' =>
      if (c =? sep)%N then [] :: split_on sep s'
      else match split_on sep s' with
           | l :: ls => (c :: l) :: ls
           | [] => [[c]]
           end
  end.

(** [a.join(sep)]. *)
Fixpoint join (sep : jstr) (ls : list jstr) : jstr :=
  match ls with
  | [] => []
  | [l] => l
  | l :: ls' => l ++ sep ++ join sep ls'
  end.

Definition split_lines (text : jstr) : list jstr := split_on c_nl text.
Definition join_lines (lines : list jstr) : jstr := join [c_nl] lines.

(** [' '.repeat(n)]. *)
Definition spaces (n : Z) : jstr := replicate (Z.to_nat n) c_space.

(** [a[i]] for an integer index: [None] is [undefined]. *)
Definition lookupZ {A} (l : list A) (i : Z) : option A :=
  if (i <? 0)%Z then None else l !! Z.to_nat i.

(** [a.splice(i, 0, ...items)] for [0 <= i]; an index past the end inserts
    at the end. *)
Definition splice_in {A} (l : list A) (i : Z) (items : list A) : list A :=
  take (Z.to_nat i) l ++ items ++ drop (Z.to_nat i) l.

(** [a.splice(i, n)] for [0 <= i] and [0 <= n]. *)
Definition splice_out {A} (l : list A) (i n : Z) : list A :=
  take (Z.to_nat i) l ++ drop (Z.to_nat i + Z.to_nat n) l.

(** The values the patchers receive from the form controls: the state of a
    checkbox, the text of an input or select, or a number.  The patchers
    read nothing of a number but the text that [String(value)] yields for
    it, so a number is given by that text. *)
Inductive jsvalue :=
  | VBool (b : bool)
  | VString (s : jstr)
  | VNumber (text : jstr).

(** [String(d)] for a day of the week, [1] to [7]: the decimal numeral. *)
Definition string_of_day (d : Z) : jstr :=
  str (NilZero.string_of_int (Z.to_int d)).

(** ** Regular expressions of the navigator and patcher *)

(** [split_last_colon run]: [Some (k, a)] when [run = k ++ ":" ++ a] and
    [a] has no colon (the split at the last colon of [run]). *)
Fixpoint split_last_colon (run : jstr) : option (jstr * jstr) :=
  match run with
  | [] => None
  | c :: run' =>
      match split_last_colon run' with
      | Some (k, a) => Some (c :: k, a)
      | None => if (c =? c_colon)%N then Some ([], run') else None
      end
  end.

(** The common start of the key patterns: white space, a group of one or
    more non-space code units, a colon.  The leading white space is taken
    whole (the key must start right after it); the key group is greedy, so
    it first takes the whole run of non-space code units and backtracks to
    the last colon of that run that leaves it at least one code unit.  The
    result is [(ws, key, tail)] with [line = ws ++ key ++ ":" ++ tail]. *)
Definition key_colon (line : jstr) : option (jstr * jstr * jstr) :=
  let '(ws, s1) := span is_space line in
  let '(run, s2) := span not_space s1 in
  match split_last_colon run with
  | Some (k, a) =>
      match k with
      | [] => None
      | _ :: _ => Some (ws, k, a ++ s2)
      end
  | None => None
  end.

(** The pattern of [findChildKey]: start of the string, white space, the
    key group, a colon, white space.  The value is the captured key. *)
Definition match_key (line : jstr) : option jstr :=
  match key_colon line with
  | Some (_, k, _) => Some k
  | None => None
  end.

(** The pattern of [findPresetSection]: as above with at least one white
    space code unit in front, which is captured too. *)
Definition match_indented_key (line : jstr) : option (jstr * jstr) :=
  match key_colon line with
  | Some (ws, k, _) =>
      match ws with
      | [] => None
      | _ :: _ => Some (ws, k)
      end
  | None => None
  end.

(** The first pattern of [replaceLineValue]: group 1 is the key pattern
    above, group 2 is any run of code units other than line terminators and
    must reach the end of the string.  After the colon the white space is
    taken greedily, so the rest may hold no line terminator.  An earlier
    colon of the run cannot succeed where the last one fails: its rest would
    contain the rest of the last one. *)
Definition match_key_value (original : jstr) : option (jstr * jstr) :=
  match key_colon original with
  | Some (ws, k, tail) =>
      let '(ws2, rest) := span is_space tail in
      if forallb not_lt rest then Some (ws ++ k ++ [c_colon] ++ ws2, rest)
      else None
  | None => None
  end.

(** Whether the comment pattern of [replaceLineValue] (white space, a hash
    sign, any code units other than line terminators, the end of the
    string) matches at the start of [s]. *)
Definition comment_here (s : jstr) : bool :=
  match skip_space s with
  | c :: t => (c =? c_hash)%N && forallb not_lt t
  | [] => false
  end.

(** The second pattern of [replaceLineValue], which is not anchored at the
    start: the capture of the leftmost match. *)
Fixpoint match_trailing_comment (rest : jstr) : option jstr :=
  match rest with
  | [] => None
  | c :: rest' =>
      if comment_here rest then Some rest else match_trailing_comment rest'
  end.

(** [line.trim() === '' || line.trim().startsWith('#')]. *)
Definition blank_or_comment (line : jstr) : bool :=
  eqb_str (trim line) [] || startsWith (trim line) [c_hash].

(** ** Indentation navigator *)

(** The loop of [findChildKey]: [n] iterations are left, [i] is the loop
    variable. *)
Fixpoint findChildKey_loop (lines : list jstr) (n : nat) (i : Z)
    (parentIndent : Z) (key : jstr) : option Z :=
  match n with
  | O => Some (-1)%Z
  | S n' =>
      line ← lookupZ lines i;
      if blank_or_comment line then
        findChildKey_loop lines n' (i + 1) parentIndent key
      else
        let indent := search_nonspace line in
        if (indent <=? parentIndent)%Z then Some (-1)%Z
        else
          match match_key line with
          | Some k =>
              if eqb_str k key && (indent =? parentIndent + 2)%Z then Some i
              else findChildKey_loop lines n' (i + 1) parentIndent key
          | None => findChildKey_loop lines n' (i + 1) parentIndent key
          end
  end.

Definition findChildKey (lines : list jstr) (start end_ : Z)
    (parentIndent : Z) (key : jstr) : option Z :=
  findChildKey_loop lines (Z.to_nat (end_ - (start + 1))) (start + 1)
    parentIndent key.

Fixpoint findBlockEnd_loop (lines : list jstr) (n : nat) (i : Z)
    (indent maxEnd : Z) : option Z :=
  match n with
  | O => Some maxEnd
  | S n' =>
      line ← lookupZ lines i;
      if blank_or_comment line then
        findBlockEnd_loop lines n' (i + 1) indent maxEnd
      else
        let curIndent := search_nonspace line in
        if (curIndent <=? indent)%Z then Some i
        else findBlockEnd_loop lines n' (i + 1) indent maxEnd
  end.

Definition findBlockEnd (lines : list jstr) (start indent maxEnd : Z)
    : option Z :=
  findBlockEnd_loop lines (Z.to_nat (maxEnd - (start + 1))) (start + 1)
    indent maxEnd.

(** ** Scalar patcher *)

Definition is_quoted (valPart : jstr) : bool :=
  (startsWith valPart [c_dquote] && endsWith valPart [c_dquote])
  || (startsWith valPart [c_squote] && endsWith valPart [c_squote]).

(** The formatted value of [replaceLineValue], given the rest of the line
    and its trailing comment. *)
Definition format_replaced (rest comment : jstr) (value : jsvalue) : jstr :=
  match value with
  | VBool b => if b then str "true" else str "false"
  | VString v =>
      let valPart := trim (take (length rest - length comment) rest) in
      let isQuoted := is_quoted valPart in
      if isQuoted || includes v c_colon || includes v c_hash
         || includes v c_space
      then [c_dquote] ++ v ++ [c_dquote]
      else v
  | VNumber text => text
  end.

(** The line [replaceLineValue] writes for [original], [None] when
    [original] has not the shape of a key line. *)
Definition replaced_line (original : jstr) (value : jsvalue) : option jstr :=
  match match_key_value original with
  | None => None
  | Some (prefix, rest) =>
      let comment := default [] (match_trailing_comment rest) in
      Some (prefix ++ format_replaced rest comment value ++ comment)
  end.

(** [replaceLineValue(lines, idx, value)]: the array after the call.
    [lines[idx]] is [undefined] for an index outside the array, and
    [original.match] then raises. *)
Definition replaceLineValue (lines : list jstr) (idx : Z) (value : jsvalue)
    : option (list jstr) :=
  original ← lookupZ lines idx;
  match replaced_line original value with
  | None => Some lines
  | Some line => Some (<[Z.to_nat idx := line]> lines)
  end.

(** The formatted value of [updateYamlFromUI], the patcher of the settings
    document, for a string: the sibling of [format_replaced].  Its test also
    asks for a double quote and for the empty string, and it escapes the
    double quotes of the value. *)
Definition escape_dquotes (v : jstr) : jstr :=
  concat (List.map (fun c => if (c =? c_dquote)%N then [92%N; c_dquote] else [c]) v).

Definition format_config_string (rest comment newVal : jstr) : jstr :=
  let valPart := trim (take (length rest - length comment) rest) in
  let isOriginalQuoted := is_quoted valPart in
  if isOriginalQuoted || includes newVal c_colon || includes newVal c_hash
     || includes newVal c_dquote || includes newVal c_space
     || eqb_str newVal []
  then [c_dquote] ++ escape_dquotes newVal ++ [c_dquote]
  else newVal.

(** The formatted value of [insertTimelineField]. *)
Definition format_inserted (value : jsvalue) : jstr :=
  match value with
  | VBool b => if b then str "true" else str "false"
  | VString v =>
      if includes v c_colon then [c_dquote] ++ v ++ [c_dquote] else v
  | VNumber text => text
  end.

(** [insertTimelineField]: the array after the call.  [fieldParts] is
    [field.split('.')]; with two parts or more the first two are used. *)
Definition insertTimelineField (lines : list jstr)
    (targetStart targetEnd targetIndent : Z) (field : jstr)
    (value : jsvalue) (fieldParts : list jstr) : option (list jstr) :=
  let indent := spaces (targetIndent + 2) in
  let formatted := format_inserted value in
  match fieldParts with
  | [] | [_] =>
      Some (splice_in lines targetEnd
              [indent ++ field ++ str ": " ++ formatted])
  | part0 :: part1 :: _ =>
      parentLine ← findChildKey lines targetStart targetEnd targetIndent part0;
      if (0 <=? parentLine)%Z then
        parent ← lookupZ lines parentLine;
        let parentIndent := search_nonspace parent in
        parentEnd ← findBlockEnd lines parentLine parentIndent targetEnd;
        let childIndent := spaces (parentIndent + 2) in
        Some (splice_in lines parentEnd
                [childIndent ++ part1 ++ str ": " ++ formatted])
      else
        Some (splice_in lines targetEnd
                [indent ++ part0 ++ str ":";
                 indent ++ str "  " ++ part1 ++ str ": " ++ formatted])
  end.

(** The search for [custom:] at the left margin: the index of the first
    line that starts with it. *)
Fixpoint find_custom (lines : list jstr) (i : Z) : option Z :=
  match lines with
  | [] => None
  | line :: rest =>
      if startsWith line (str "custom:") then Some i
      else find_custom rest (i + 1)
  end.

(** The test of a line against a non-space first code unit. *)
Definition starts_nonspace (line : jstr) : bool :=
  match line with
  | c :: _ => not_space c
  | [] => false
  end.

(** The scan of [updateTimelineField] for [presetName] under [presets:]:
    the index and indentation of its line.  [i] is the index of the head
    of [lines]. *)
Fixpoint scan_presets (presetName : jstr) (lines : list jstr) (i : Z)
    (inPresets : bool) : option (Z * Z) :=
  match lines with
  | [] => None
  | line :: rest =>
      if startsWith line (str "presets:") then
        scan_presets presetName rest (i + 1) true
      else if inPresets && starts_nonspace line
              && negb (startsWith line [c_hash]) then None
      else if inPresets then
        match match_indented_key line with
        | Some (ws, k) =>
            if eqb_str k presetName then Some (i, Z.of_nat (length ws))
            else scan_presets presetName rest (i + 1) inPresets
        | None => scan_presets presetName rest (i + 1) inPresets
        end
      else scan_presets presetName rest (i + 1) inPresets
  end.

(** The same scan in [findPresetSection], whose test for the end of the
    [presets] block also asks for a line that is not blank. *)
Fixpoint scan_presets' (presetName : jstr) (lines : list jstr) (i : Z)
    (inPresets : bool) : option (Z * Z) :=
  match lines with
  | [] => None
  | line :: rest =>
      if startsWith line (str "presets:") then
        scan_presets' presetName rest (i + 1) true
      else if inPresets && starts_nonspace line
              && negb (startsWith line [c_hash])
              && negb (eqb_str (trim line) []) then None
      else if inPresets then
        match match_indented_key line with
        | Some (ws, k) =>
            if eqb_str k presetName then Some (i, Z.of_nat (length ws))
            else scan_presets' presetName rest (i + 1) inPresets
        | None => scan_presets' presetName rest (i + 1) inPresets
        end
      else scan_presets' presetName rest (i + 1) inPresets
  end.

Record sectionInfo := SectionInfo {
  sec_start : Z;
  sec_end : Z;
  sec_indent : Z
}.

(** [findPresetSection(lines, presetName)]: [None] is [null]. *)
Definition findPresetSection (lines : list jstr) (presetName : jstr)
    : option sectionInfo :=
  let found :=
    if eqb_str presetName (str "custom") then
      (fun i => (i, 0%Z)) <$> find_custom lines 0
    else scan_presets' presetName lines 0 false in
  match found with
  | None => None
  | Some (start, indent) =>
      match findBlockEnd lines start indent (Z.of_nat (length lines)) with
      | Some e => Some (SectionInfo start e indent)
      | None => None
      end
  end.

(** Step 1 of [updateTimelineField]: the line and the indentation of the
    preset, [None] when [sectionStart] is left at [-1]. *)
Definition timeline_section (lines : list jstr) (presetName : jstr)
    : option (Z * Z) :=
  if eqb_str presetName (str "custom") then
    (fun i => (i, 0%Z)) <$> find_custom lines 0
  else scan_presets presetName lines 0 false.

(** Step 3: the line of the period ([default] or a key under [periods]);
    [-1] when it is not found, which includes a preset without a
    [periods] key (the source returns at once there, as it does for every
    negative [targetStart]). *)
Definition timeline_target (lines : list jstr)
    (sectionStart sectionEnd sectionIndent : Z) (periodKey : jstr)
    : option Z :=
  if eqb_str periodKey (str "default") then
    findChildKey lines sectionStart sectionEnd sectionIndent (str "default")
  else
    periodsLine ← findChildKey lines sectionStart sectionEnd sectionIndent
                    (str "periods");
    if (periodsLine <? 0)%Z then Some (-1)%Z
    else
      periods ← lookupZ lines periodsLine;
      let periodsIndent := search_nonspace periods in
      periodsEnd ← findBlockEnd lines periodsLine periodsIndent sectionEnd;
      findChildKey lines periodsLine periodsEnd periodsIndent periodKey.

(** Step 4: the line of the field inside the target, [-1] when the field
    (or, for a nested path, its parent) is not there. *)
Definition timeline_field_line (lines : list jstr)
    (targetStart targetEnd targetIndent : Z) (fieldParts : list jstr)
    : option Z :=
  match fieldParts with
  | [] => Some (-1)%Z
  | [part0] => findChildKey lines targetStart targetEnd targetIndent part0
  | part0 :: part1 :: _ =>
      parentLine ← findChildKey lines targetStart targetEnd targetIndent part0;
      if (0 <=? parentLine)%Z then
        parent ← lookupZ lines parentLine;
        let parentIndent := search_nonspace parent in
        parentEnd ← findBlockEnd lines parentLine parentIndent targetEnd;
        findChildKey lines parentLine parentEnd parentIndent part1
      else Some (-1)%Z
  end.

(** The result of [updateTimelineField] is the value of the editor after
    the call: an early [return] leaves it as it was, the last statements
    store [lines.join] in it.  The location of the section end (step 2 of
    the source) is the loop of [findBlockEnd] with the array length as
    bound.  [field.split] never gives an empty array. *)
Definition updateTimelineField (editor_value : jstr)
    (presetName periodKey field : jstr) (value : jsvalue) : option jstr :=
  let lines := split_lines editor_value in
  match timeline_section lines presetName with
  | None => Some editor_value
  | Some (sectionStart, sectionIndent) =>
      sectionEnd ← findBlockEnd lines sectionStart sectionIndent
                     (Z.of_nat (length lines));
      let fieldParts := split_on c_dot field in
      targetStart ← timeline_target lines sectionStart sectionEnd
                      sectionIndent periodKey;
      if (targetStart <? 0)%Z then Some editor_value
      else
        target ← lookupZ lines targetStart;
        let targetIndent := search_nonspace target in
        targetEnd ← findBlockEnd lines targetStart targetIndent sectionEnd;
        lineIdx ← timeline_field_line lines targetStart targetEnd targetIndent
                    fieldParts;
        lines' ←
          (if (lineIdx <? 0)%Z then
             insertTimelineField lines targetStart targetEnd targetIndent
               field value fieldParts
           else replaceLineValue lines lineIdx value);
        Some (join_lines lines')
  end.

(** ** Day-plan period lists *)

(** The pattern of a block list item: white space, a dash, white space, a
    group of one or more non-space code units, white space, the end of the
    string.  The value is the captured item. *)
Definition match_list_item (line : jstr) : option jstr :=
  match skip_space line with
  | c :: s2 =>
      if (c =? c_dash)%N then
        let '(item, s4) := span not_space (skip_space s2) in
        match item with
        | [] => None
        | _ :: _ => if forallb is_space s4 then Some item else None
        end
      else None
  | [] => None
  end.

(** The pattern of an inline list: group 1 is white space, [periods:],
    white space; then an opening bracket, group 2 of code units other than
    a closing bracket, and a closing bracket.  Nothing anchors the end. *)
Definition match_inline_periods (line : jstr) : option (jstr * jstr) :=
  let '(ws, s1) := span is_space line in
  if startsWith s1 (str "periods:") then
    let s2 := drop (length (str "periods:")) s1 in
    let '(ws2, s3) := span is_space s2 in
    match s3 with
    | c :: s4 =>
        if (c =? c_lbracket)%N then
          let '(content, s5) := span (fun d => negb (d =? c_rbracket)%N) s4 in
          match s5 with
          | _ :: _ => Some (ws ++ str "periods:" ++ ws2, content)
          | [] => None
          end
        else None
    | [] => None
    end
  else None.

Definition is_quote (c : N) : bool := (c =? c_dquote)%N || (c =? c_squote)%N.

(** The global replacement of a quote at the start and of a quote at the
    end of the string by nothing. *)
Definition strip_quotes (s : jstr) : jstr :=
  let s1 := match s with
            | c :: s' => if is_quote c then s' else s
            | [] => []
            end in
  match rev s1 with
  | c :: r => if is_quote c then rev r else s1
  | [] => s1
  end.

(** The items of an inline list that stay when [periodKey] is removed. *)
Definition remaining_items (content periodKey : jstr) : list jstr :=
  List.filter
    (fun s => let bare := strip_quotes s in
              negb (eqb_str bare []) && negb (eqb_str bare periodKey))
    (List.map trim (split_on c_comma content)).

Definition inline_without (prefix content periodKey : jstr) : jstr :=
  let items := remaining_items content periodKey in
  match items with
  | _ :: _ => prefix ++ [c_lbracket] ++ join (str ", ") items ++ [c_rbracket]
  | [] => prefix ++ str "[]"
  end.

(** The loop of [removePeriodFromDayPlans].  The bound [dpEnd] is computed
    once, before the loop, and is not updated when a line is spliced out.
    [fuel] bounds the iterations: each one either advances [i] or shortens
    [lines], so [dpEnd - i + length lines] iterations are never used up. *)
Fixpoint removePeriod_loop (fuel : nat) (lines : list jstr) (i dpEnd : Z)
    (periodKey : jstr) : option (list jstr) :=
  if (dpEnd <=? i)%Z then Some lines
  else
    match fuel with
    | O => Some lines
    | S fuel' =>
        line ← lookupZ lines i;
        if blank_or_comment line then
          removePeriod_loop fuel' lines (i + 1) dpEnd periodKey
        else if match match_list_item line with
                | Some item => eqb_str item periodKey
                | None => false
                end
        then removePeriod_loop fuel' (splice_out lines i 1) i dpEnd periodKey
        else
          removePeriod_loop fuel'
            match match_inline_periods line with
            | Some (prefix, content) =>
                <[Z.to_nat i := inline_without prefix content periodKey]> lines
            | None => lines
            end (i + 1) dpEnd periodKey
    end.

(** [removePeriodFromDayPlans(lines, sectionInfo, periodKey)]: the array
    after the call. *)
Definition removePeriodFromDayPlans (lines : list jstr) (info : sectionInfo)
    (periodKey : jstr) : option (list jstr) :=
  dayPlansLine ← findChildKey lines (sec_start info) (sec_end info)
                   (sec_indent info) (str "day_plans");
  if (dayPlansLine <? 0)%Z then Some lines
  else
    dayPlans ← lookupZ lines dayPlansLine;
    let dpIndent := search_nonspace dayPlans in
    sectionEnd ← findBlockEnd lines (sec_start info) (sec_indent info)
                   (Z.of_nat (length lines));
    dpEnd ← findBlockEnd lines dayPlansLine dpIndent sectionEnd;
    removePeriod_loop (Z.to_nat (dpEnd - dayPlansLine) + length lines)
      lines (dayPlansLine + 1) dpEnd periodKey.



(** What [deleteTlPeriod] learns from the document reader (the YAML
    library, a collaborator): the day plans of the preset, in the order of
    their keys.  A plan is [None] when its value is [null] (a key with an
    empty body); otherwise it is given by its list of period keys, the
    empty list when it has no [periods] property. *)
Record presetConfig := PresetConfig {
  day_plans : list (jstr * option (list jstr))
}.

(** The loop that collects [refs], the names of the day plans whose list
    includes [periodKey]: reading [plan.periods] raises on a plan that is
    [null]. *)
Fixpoint collect_refs (plans : list (jstr * option (list jstr)))
    (periodKey : jstr) (refs : list jstr) : option (list jstr) :=
  match plans with
  | [] => Some refs
  | (planName, plan) :: rest =>
      periods ← plan;
      collect_refs rest periodKey
        (if existsb (eqb_str periodKey) periods then refs ++ [planName]
         else refs)
  end.

Definition period_refs (config : presetConfig) (periodKey : jstr)
    : option (list jstr) :=
  collect_refs (day_plans config) periodKey [].

(** [deleteTlPeriod(presetName, periodKey)]: the value of the editor after
    the call ([None]: an exception left the handler before the editor was
    written).  [config] is the result of [getPresetConfig] ([None] for
    [null]) and [confirmed] the answer to the confirmation dialog. *)
Definition deleteTlPeriod (config : option presetConfig) (confirmed : bool)
    (editor_value : jstr) (presetName periodKey : jstr) : option jstr :=
  match config with
  | None => Some editor_value
  | Some config =>
      refs ← period_refs config periodKey;
      if negb confirmed then Some editor_value
      else
        let lines := split_lines editor_value in
        match findPresetSection lines presetName with
        | None => Some editor_value
        | Some info =>
            periodsLine ← findChildKey lines (sec_start info) (sec_end info)
                            (sec_indent info) (str "periods");
            lines1 ←
              (if (0 <=? periodsLine)%Z then
                 periods ← lookupZ lines periodsLine;
                 let periodsIndent := search_nonspace periods in
                 periodsEnd ← findBlockEnd lines periodsLine periodsIndent
                                (sec_end info);
                 periodLine ← findChildKey lines periodsLine periodsEnd
                                periodsIndent periodKey;
                 if (0 <=? periodLine)%Z then
                   period ← lookupZ lines periodLine;
                   let periodIndent := search_nonspace period in
                   periodEnd ← findBlockEnd lines periodLine periodIndent
                                 periodsEnd;
                   Some (splice_out lines periodLine (periodEnd - periodLine))
                 else Some lines
               else Some lines);
            lines2 ←
              (match refs with
               | _ :: _ =>
                   match findPresetSection lines1 presetName with
                   | Some updatedSection =>
                       removePeriodFromDayPlans lines1 updatedSection
                         periodKey
                   | None => Some lines1
                   end
               | [] => Some lines1
               end);
            Some (join_lines lines2)
        end
  end.

(** ** Frequency rule parser *)

Inductive section := SecNone | SecGlobal | SecGroups.

Inductive group_type := GroupName | Alias | AliasGroup | Plain.

Record alias_item := AliasItem {
  keyword : jstr;
  alias : jstr
}.

(** A word group object.  [name] is read for group-name groups only,
    [keywords] for group-name and plain groups, [items] for the alias
    kinds.  [isRelatedGroup = false] stands for the absent property (the
    parser only ever stores [true]), [None] for an absent index or
    total. *)
Record group := Group {
  type : group_type;
  name : jstr;
  keywords : list jstr;
  items : list alias_item;
  startLine : Z;
  precedingComments : list jstr;
  isRelatedGroup : bool;
  relatedGroupIndex : option nat;
  relatedGroupTotal : option nat
}.

Record frequencyData := FrequencyData {
  globalFilter : list jstr;
  wordGroups : list group;
  originalText : jstr
}.

(** The variables of the loop of [parseFrequencyText]. *)
Record pstate := PState {
  result : frequencyData;
  currentSection : section;
  currentGroup : option group;
  lastLineWasAlias : bool;
  relatedGroupsBuffer : list group;
  pendingComments : list jstr
}.

Definition marker_global : jstr := str "[GLOBAL_FILTER]".
Definition marker_groups : jstr := str "[WORD_GROUPS]".

(** The pattern of a bracketed label: an opening bracket, a group of one or
    more code units other than a closing bracket, a closing bracket, the
    end of the string.  The value is the captured name. *)
Definition match_group_name (trimmed : jstr) : option jstr :=
  match trimmed with
  | c :: s =>
      if (c =? c_lbracket)%N then
        let '(nm, s') := span (fun d => negb (d =? c_rbracket)%N) s in
        match nm, s' with
        | _ :: _, [_] => Some nm
        | _, _ => None
        end
      else None
  | [] => None
  end.

(** Whether the tail of the alias pattern matches the whole of [s]: white
    space, the arrow, white space, and a group of code units other than
    line terminators up to the end of the string.  The value is that
    group. *)
Definition after_arrow (s : jstr) : option jstr :=
  match skip_space s with
  | c :: d :: s2 =>
      if (c =? c_eq)%N && (d =? c_gt)%N then
        let rest := skip_space s2 in
        if forallb not_lt rest then Some rest else None
      else None
  | _ => None
  end.

(** The lazy first group of the alias pattern: it holds [rev taken]
    already, and grows by one code unit (not a line terminator) as long as
    the tail of the pattern does not match what is left. *)
Fixpoint alias_search (taken : jstr) (s : jstr) : option (jstr * jstr) :=
  match after_arrow s with
  | Some rest => Some (rev taken, rest)
  | None =>
      match s with
      | c :: s' => if is_lt c then None else alias_search (c :: taken) s'
      | [] => None
      end
  end.

(** The alias pattern: a lazy group of one or more code units other than
    line terminators, then the tail above.  The value is the two captures,
    trimmed as the source does. *)
Definition match_alias (trimmed : jstr) : option (jstr * jstr) :=
  match trimmed with
  | c :: s =>
      if is_lt c then None
      else match alias_search [c] s with
           | Some (k, a) => Some (trim k, trim a)
           | None => None
           end
  | [] => None
  end.

Definition set_wordGroups (d : frequencyData) (gs : list group)
    : frequencyData :=
  FrequencyData (globalFilter d) gs (originalText d).

Definition set_globalFilter (d : frequencyData) (fs : list jstr)
    : frequencyData :=
  FrequencyData fs (wordGroups d) (originalText d).

Definition mark_related (total idx : nat) (g : group) : group :=
  Group (type g) (name g) (keywords g) (items g) (startLine g)
    (precedingComments g) true (Some idx) (Some total).

(** The groups of the buffer as [flushRelatedGroups] stores them. *)
Definition flushed (buffer : list group) : list group :=
  if (1 <? length buffer)%nat then imap (mark_related (length buffer)) buffer
  else buffer.

Definition flushRelatedGroups (st : pstate) : pstate :=
  let buffer := relatedGroupsBuffer st in
  if (0 <? length buffer)%nat then
    PState (set_wordGroups (result st) (wordGroups (result st) ++ flushed buffer))
      (currentSection st) (currentGroup st) (lastLineWasAlias st) []
      (pendingComments st)
  else st.

(** [if (currentGroup) relatedGroupsBuffer.push(currentGroup)]. *)
Definition buffer_current (st : pstate) : list group :=
  match currentGroup st with
  | Some g => relatedGroupsBuffer st ++ [g]
  | None => relatedGroupsBuffer st
  end.

Definition is_alias_type (t : group_type) : bool :=
  match t with
  | Alias | AliasGroup => true
  | _ => false
  end.

(** One iteration of the loop of [parseFrequencyText] on line [i]. *)
Definition parse_line (st : pstate) (i : Z) (line : jstr) : pstate :=
  let trimmed := trim line in
  let inGroups := match currentSection st with SecGroups => true | _ => false end in
  if startsWith trimmed [c_hash] && inGroups then
    PState (result st) (currentSection st) (currentGroup st)
      (lastLineWasAlias st) (relatedGroupsBuffer st)
      (pendingComments st ++ [line])
  else if startsWith trimmed [c_hash] then st
  else if eqb_str trimmed [] then
    let st1 :=
      flushRelatedGroups
        (PState (result st) (currentSection st) None (lastLineWasAlias st)
           (buffer_current st) (pendingComments st)) in
    PState (result st1) (currentSection st1) (currentGroup st1) false
      (relatedGroupsBuffer st1)
      (if inGroups then pendingComments st1 ++ [[]] else pendingComments st1)
  else if eqb_str trimmed marker_global then
    PState (result st) SecGlobal (currentGroup st) (lastLineWasAlias st)
      (relatedGroupsBuffer st) (pendingComments st)
  else if eqb_str trimmed marker_groups then
    PState (result st) SecGroups (currentGroup st) (lastLineWasAlias st)
      (relatedGroupsBuffer st) (pendingComments st)
  else
    match currentSection st with
    | SecGlobal =>
        PState (set_globalFilter (result st)
                  (globalFilter (result st) ++ [trimmed]))
          (currentSection st) (currentGroup st) (lastLineWasAlias st)
          (relatedGroupsBuffer st) (pendingComments st)
    | SecGroups =>
        match match_group_name trimmed with
        | Some nm =>
            (* the test against the two marker names cannot fail here: both
               markers were recognised above *)
            let st1 :=
              flushRelatedGroups
                (PState (result st) (currentSection st) (currentGroup st)
                   (lastLineWasAlias st) (buffer_current st)
                   (pendingComments st)) in
            PState (result st1) (currentSection st1)
              (Some (Group GroupName nm [] [] i (pendingComments st1)
                       false None None))
              false (relatedGroupsBuffer st1) []
        | None =>
            match match_alias trimmed with
            | Some (kw, al) =>
                match currentGroup st with
                | Some g =>
                    if lastLineWasAlias st && is_alias_type (type g) then
                      PState (result st) (currentSection st)
                        (Some (Group AliasGroup (name g) (keywords g)
                                 (items g ++ [AliasItem kw al]) (startLine g)
                                 (precedingComments g) (isRelatedGroup g)
                                 (relatedGroupIndex g) (relatedGroupTotal g)))
                        true (relatedGroupsBuffer st) (pendingComments st)
                    else
                      PState (result st) (currentSection st)
                        (Some (Group Alias [] [] [AliasItem kw al] i
                                 (pendingComments st) false None None))
                        true (buffer_current st) []
                | None =>
                    PState (result st) (currentSection st)
                      (Some (Group Alias [] [] [AliasItem kw al] i
                               (pendingComments st) false None None))
                      true (buffer_current st) []
                end
            | None =>
                match currentGroup st with
                | Some g =>
                    if is_alias_type (type g) then
                      PState (result st) (currentSection st)
                        (Some (Group Plain [] [trimmed] [] i
                                 (pendingComments st) false None None))
                        false (buffer_current st) []
                    else
                      PState (result st) (currentSection st)
                        (Some (Group (type g) (name g)
                                 (keywords g ++ [trimmed]) (items g)
                                 (startLine g) (precedingComments g)
                                 (isRelatedGroup g) (relatedGroupIndex g)
                                 (relatedGroupTotal g)))
                        false (relatedGroupsBuffer st) (pendingComments st)
                | None =>
                    PState (result st) (currentSection st)
                      (Some (Group Plain [] [trimmed] [] i
                               (pendingComments st) false None None))
                      false (buffer_current st) []
                end
            end
        end
    | SecNone => st
    end.

(** The loop over the lines, [i] being the index of the head of [lines]. *)
Fixpoint parse_lines (st : pstate) (i : Z) (lines : list jstr) : pstate :=
  match lines with
  | [] => st
  | line :: rest => parse_lines (parse_line st i line) (i + 1) rest
  end.

Definition parse_init (text : jstr) : pstate :=
  PState (FrequencyData [] [] text) SecNone None false [] [].

(** The statements after the loop. *)
Definition parse_finish (st : pstate) : frequencyData :=
  result
    (flushRelatedGroups
       (PState (result st) (currentSection st) (currentGroup st)
          (lastLineWasAlias st) (buffer_current st) (pendingComments st))).

Definition parseFrequencyText (text : jstr) : frequencyData :=
  parse_finish (parse_lines (parse_init text) 0 (split_lines text)).

(** ** Frequency rule builder *)

(** The lines that [buildFrequencyText] pushes for the body of a group. *)
Definition group_body (g : group) : list jstr :=
  match type g with
  | GroupName =>
      (match name g with
       | _ :: _ => [[c_lbracket] ++ name g ++ [c_rbracket]]
       | [] => []
       end) ++ keywords g
  | Alias | AliasGroup =>
      List.map (fun it => keyword it ++ str " => " ++ alias it) (items g)
  | Plain => keywords g
  end.

(** The blank line that may follow a group, [next] being the group after
    it ([None] for the last group). *)
Definition group_separator (g : group) (next : option group) : list jstr :=
  let isLastGroup := match next with None => true | Some _ => false end in
  let bothAreRelatedGroups :=
    isRelatedGroup g
    && match next with Some n => isRelatedGroup n | None => false end in
  let nextHasComments :=
    match next with
    | Some n => (0 <? length (precedingComments n))%nat
    | None => false
    end in
  if bothAreRelatedGroups then []
  else if negb isLastGroup && negb nextHasComments then [[]]
  else if isLastGroup then [[]]
  else [].

(** The lines pushed by the loop over [data.wordGroups]. *)
Fixpoint build_groups (gs : list group) : list jstr :=
  match gs with
  | [] => []
  | g :: rest =>
      precedingComments g ++ group_body g ++ group_separator g (head rest)
        ++ build_groups rest
  end.

Definition is_comment_or_blank (line : jstr) : bool :=
  startsWith (trim line) [c_hash] || eqb_str (trim line) [].

(** First loop: the lines before the global marker are copied; the value is
    the copy and the lines from the marker on. *)
Fixpoint build_header (lines : list jstr) : list jstr * list jstr :=
  match lines with
  | [] => ([], [])
  | line :: rest =>
      if eqb_str (trim line) marker_global then ([], lines)
      else let '(copied, rem) := build_header rest in (line :: copied, rem)
  end.

(** Second loop: the comment and blank lines that follow the marker are
    copied, up to the first line of another kind. *)
Fixpoint build_after_marker (lines : list jstr) : list jstr * list jstr :=
  match lines with
  | [] => ([], [])
  | line :: rest =>
      if is_comment_or_blank line then
        let '(copied, rem) := build_after_marker rest in (line :: copied, rem)
      else ([], lines)
  end.

(** Third loop: up to the groups marker, the comment and blank lines are
    copied and the other lines skipped. *)
Fixpoint build_before_groups (lines : list jstr) : list jstr :=
  match lines with
  | [] => []
  | line :: rest =>
      if eqb_str (trim line) marker_groups then []
      else if is_comment_or_blank line then line :: build_before_groups rest
      else build_before_groups rest
  end.

(** The three lines of the header of the default template: a rule of 63
    box-drawing code units, the title, the rule again. *)
Definition template_rule : jstr :=
  [c_hash; c_space] ++ replicate 63 9552%N.

Definition template_title : jstr :=
  [c_hash] ++ replicate 20 c_space ++ str "TrendRadar "
    ++ [39057; 29575; 35789; 37197; 32622; 25991; 20214]%N.

(** The text of the default template, built by concatenation: every piece
    ends with its own line feed. *)
Fixpoint template_groups (gs : list group) : jstr :=
  match gs with
  | [] => []
  | g :: rest =>
      concat (List.map (fun l => l ++ [c_nl]) (precedingComments g))
      ++ concat (List.map (fun l => l ++ [c_nl]) (group_body g))
      ++ concat (List.map (fun l => l ++ [c_nl]) (group_separator g (head rest)))
      ++ template_groups rest
  end.

(** [buildFrequencyText(data)].  An empty [originalText] is falsy and
    selects the default template. *)
Definition buildFrequencyText (data : frequencyData) : jstr :=
  match originalText data with
  | _ :: _ =>
      let lines := split_lines (originalText data) in
      let '(header, left1) := build_header lines in
      let '(comments, left2) := build_after_marker (drop 1 left1) in
      join_lines
        (header ++ [marker_global] ++ comments ++ globalFilter data
           ++ build_before_groups left2 ++ [marker_groups]
           ++ build_groups (wordGroups data))
  | [] =>
      template_rule ++ [c_nl] ++ template_title ++ [c_nl]
      ++ template_rule ++ [c_nl; c_nl]
      ++ marker_global ++ [c_nl]
      ++ concat (List.map (fun f => f ++ [c_nl]) (globalFilter data))
      ++ [c_nl; c_nl]
      ++ marker_groups ++ [c_nl; c_nl]
      ++ template_groups (wordGroups data)
  end.

(** ** Vocabulary of the statements *)

(** A line that ends the scan of [findChildKey]: it is neither blank nor a
    comment and its indentation is at most the parent's. *)
Definition scope_exit (p : Z) (line : jstr) : Prop :=
  blank_or_comment line = false ∧ (search_nonspace line <= p)%Z.

(** A line inside the block of a key indented by [indent]: blank, a
    comment, or indented more than the key. *)
Definition inside_block (indent : Z) (line : jstr) : Prop :=
  blank_or_comment line = true ∨ (indent < search_nonspace line)%Z.

(** [e] is the end of the block that opens on line [start] with
    indentation [indent], inside a range that ends at [limit]: the first
    line after [start] that leaves the block, or [limit] when no line of
    the range does; the lines in between are inside the block. *)
Definition block_end (lines : list jstr) (start indent limit e : Z) : Prop :=
  (e = limit
   ∧ ∀ j, (start < j < limit)%Z →
       ∃ line, lookupZ lines j = Some line ∧ inside_block indent line)
  ∨ ((start < e < limit)%Z
     ∧ (∃ line, lookupZ lines e = Some line ∧ scope_exit indent line)
     ∧ ∀ j, (start < j < e)%Z →
         ∃ line, lookupZ lines j = Some line ∧ inside_block indent line).

(** A line that [findChildKey] returns: neither blank nor a comment,
    indented by exactly two more than the parent, with the key token [k]. *)
Definition child_match (p : Z) (k : jstr) (line : jstr) : Prop :=
  blank_or_comment line = false
  ∧ search_nonspace line = (p + 2)%Z
  ∧ match_key line = Some k.

(** A line that the scan passes over: blank, a comment, or a line indented
    more than the parent that is not a match. *)
Definition passed_over (p : Z) (k : jstr) (line : jstr) : Prop :=
  blank_or_comment line = true
  ∨ ((p < search_nonspace line)%Z
     ∧ ¬ (search_nonspace line = (p + 2)%Z ∧ match_key line = Some k)).

(** The target of [updateTimelineField] cannot be located: no preset
    section, or no period in the section that was found. *)
Definition section_absent (lines : list jstr) (presetName : jstr) : Prop :=
  timeline_section lines presetName = None.

Definition period_absent (lines : list jstr) (presetName periodKey : jstr)
    : Prop :=
  ∃ s ind e : Z,
    timeline_section lines presetName = Some (s, ind)
    ∧ findBlockEnd lines s ind (Z.of_nat (length lines)) = Some e
    ∧ timeline_target lines s e ind periodKey = Some (-1)%Z.

(** The preset and the period are located and the field path is not found
    inside the period. *)
Definition field_absent (lines : list jstr) (presetName periodKey field : jstr)
    : Prop :=
  ∃ (s ind e t tend : Z) (target : jstr),
    timeline_section lines presetName = Some (s, ind)
    ∧ findBlockEnd lines s ind (Z.of_nat (length lines)) = Some e
    ∧ timeline_target lines s e ind periodKey = Some t
    ∧ (0 <= t)%Z
    ∧ lookupZ lines t = Some target
    ∧ findBlockEnd lines t (search_nonspace target) e = Some tend
    ∧ timeline_field_line lines t tend (search_nonspace target)
        (split_on c_dot field) = Some (-1)%Z.

(** What [insertTimelineField] adds for a field that is not found in the
    period that opens on line [t], ends at [tend] and is indented by
    [tind]: the lines [added], spliced in at index [at_].  A path of one
    segment gives one line at the end of the period; a nested path gives
    the child at the end of the block of its parent when the period has
    the parent key, and the parent with the child under it at the end of
    the period when it has not. *)
Definition field_inserted (lines : list jstr) (t tend tind : Z)
    (field : jstr) (value : jsvalue) (at_ : Z) (added : list jstr) : Prop :=
  let formatted := format_inserted value in
  match split_on c_dot field with
  | [] | [_] =>
      at_ = tend
      ∧ added = [spaces (tind + 2) ++ field ++ str ": " ++ formatted]
  | part0 :: part1 :: _ =>
      match findChildKey lines t tend tind part0 with
      | Some parentLine =>
          if (0 <=? parentLine)%Z then
            ∃ parent,
              lookupZ lines parentLine = Some parent
              ∧ block_end lines parentLine (search_nonspace parent) tend at_
              ∧ added = [spaces (search_nonspace parent + 2) ++ part1
                         ++ str ": " ++ formatted]
          else
            at_ = tend
            ∧ added = [spaces (tind + 2) ++ part0 ++ str ":";
                       spaces (tind + 2) ++ str "  " ++ part1 ++ str ": "
                       ++ formatted]
      | None => False
      end
  end.



(** ** Vocabulary of the statements about the rule file *)

(** The kinds of line that the loop of [parseFrequencyText] tells apart, in
    the order of its tests. *)
Inductive line_class :=
  | LComment
  | LBlank
  | LMarkGlobal
  | LMarkGroups
  | LLabel (nm : jstr)
  | LAlias (kw al : jstr)
  | LKeyword (k : jstr).

Definition classify (line : jstr) : line_class :=
  let trimmed := trim line in
  if startsWith trimmed [c_hash] then LComment
  else if eqb_str trimmed [] then LBlank
  else if eqb_str trimmed marker_global then LMarkGlobal
  else if eqb_str trimmed marker_groups then LMarkGroups
  else
    match match_group_name trimmed with
    | Some nm => LLabel nm
    | None =>
        match match_alias trimmed with
        | Some (kw, al) => LAlias kw al
        | None => LKeyword trimmed
        end
    end.

(** A group without the properties that the round trip does not compare:
    the line number and the preceding comments. *)
Definition bare (g : group) : group :=
  Group (type g) (name g) (keywords g) (items g) 0 []
    (isRelatedGroup g) (relatedGroupIndex g) (relatedGroupTotal g).

(** Structural equality of two groups: type, label, keywords, alias items
    and the three properties of related groups. *)
Definition same_structure (g g' : group) : Prop :=
  type g = type g' ∧ name g = name g' ∧ keywords g = keywords g'
  ∧ items g = items g' ∧ isRelatedGroup g = isRelatedGroup g'
  ∧ relatedGroupIndex g = relatedGroupIndex g'
  ∧ relatedGroupTotal g = relatedGroupTotal g'.

(** A group that carries none of the properties of related groups. *)
Definition unflagged (g : group) : Prop :=
  isRelatedGroup g = false ∧ relatedGroupIndex g = None
  ∧ relatedGroupTotal g = None.

(** A run of groups as one flush stores it: a single unflagged group, or
    two groups or more, each flagged with its position in the run and the
    length of the run. *)
Definition related_run (run : list group) : Prop :=
  (∃ g, run = [g] ∧ unflagged g)
  ∨ ((2 <= length run)%nat
     ∧ ∀ (i : nat) (g : group), run !! i = Some g →
         isRelatedGroup g = true ∧ relatedGroupIndex g = Some i
         ∧ relatedGroupTotal g = Some (length run)).

(** The sections of a rule file come in the order in which the builder
    writes them: every groups marker has a global marker before it and no
    global marker has a groups marker before it. *)
Fixpoint sections_ordered (seenGlobal seenGroups : bool) (lines : list jstr)
    : bool :=
  match lines with
  | [] => true
  | line :: rest =>
      if eqb_str (trim line) marker_global then
        negb seenGroups && sections_ordered true seenGroups rest
      else if eqb_str (trim line) marker_groups then
        seenGlobal && sections_ordered seenGlobal true rest
      else sections_ordered seenGlobal seenGroups rest
  end.

Definition sections_in_order (text : jstr) : Prop :=
  sections_ordered false false (split_lines text) = true.

(** No line of the text has, once trimmed, a line terminator inside (a
    carriage return at the end of a line is trimmed away). *)
Definition lines_without_terminators (text : jstr) : Prop :=
  Forall (fun line => forallb not_lt (trim line) = true) (split_lines text).

(** A blank line of [lines] strictly between the indices [a] and [b]. *)
Definition blank_between (lines : list jstr) (a b : Z) : Prop :=
  ∃ (j : Z) (line : jstr),
    (a < j < b)%Z ∧ lookupZ lines j = Some line ∧ trim line = [].

(** What makes the loop flush the buffer between the group [g] and the
    group [g'] opened after it: [g'] is opened by a label line, or a blank
    line stands between the lines on which the two were opened. *)
Definition flush_between (lines : list jstr) (g g' : group) : Prop :=
  type g' = GroupName ∨ blank_between lines (startLine g) (startLine g').

(** No flush between two neighbours of the run. *)
Definition tied (lines : list jstr) (run : list group) : Prop :=
  ∀ (xs : list group) (g g' : group) (ys : list group),
    run = xs ++ g :: g' :: ys → ¬ flush_between lines g g'.

(** A flush between the last group of a run and the first group of the
    run that follows it. *)
Definition separated (lines : list jstr) (runs : list (list group)) : Prop :=
  ∀ (rs : list (list group)) (r r' : list group) (rs' : list (list group)),
    runs = rs ++ r :: r' :: rs' →
    ∃ g g' : group,
      last r = Some g ∧ head r' = Some g' ∧ flush_between lines g g'.

(** Two groups opened on the same line, both by a label or none. *)
Definition same_place (g g' : group) : Prop :=
  startLine g = startLine g'
  ∧ (type g = GroupName ↔ type g' = GroupName).

(** The invariant of the loop before the line of index [i]: what is
    stored is a sequence of flushed runs, tied inside and separated from
    each other as the lines before [i] have it; the groups [pending] (the
    buffer and the open group) carry no flag, are tied, and come after a
    flush; all groups were opened before [i], and no blank line follows the
    last pending one. *)
Definition text_runs (lines : list jstr) (i : Z) (stored pending : list group)
    : Prop :=
  ∃ runs : list (list group),
    stored = concat runs
    ∧ Forall related_run runs
    ∧ Forall (tied lines) runs
    ∧ separated lines runs
    ∧ (∀ (r : list group) (g : group),
         last runs = Some r → last r = Some g →
         match head pending with
         | Some h => flush_between lines g h
         | None => blank_between lines (startLine g) i
         end)
    ∧ Forall unflagged pending
    ∧ tied lines pending
    ∧ (∀ g, g ∈ stored ++ pending → (startLine g < i)%Z)
    ∧ (∀ g, last pending = Some g → ¬ blank_between lines (startLine g) i).

Definition runs_invariant (lines : list jstr) (i : Z) (st : pstate) : Prop :=
  text_runs lines i (wordGroups (result st)) (buffer_current st).

(** The state after [if (currentGroup) relatedGroupsBuffer.push(currentGroup)]
    and [flushRelatedGroups()], the open group being closed. *)
Definition close_run (st : pstate) : pstate :=
  flushRelatedGroups
    (PState (result st) (currentSection st) None (lastLineWasAlias st)
       (buffer_current st) (pendingComments st)).

(** The state after the open group, if any, is pushed to the buffer and
    [g] is opened with the pending comments. *)
Definition open_group (st : pstate) (g : group) (last : bool) : pstate :=
  PState (result st) (currentSection st) (Some g) last (buffer_current st) [].

(** The open group replaced by [g], nothing else being changed but the
    alias flag. *)
Definition update_group (st : pstate) (g : group) (last : bool) : pstate :=
  PState (result st) (currentSection st) (Some g) last
    (relatedGroupsBuffer st) (pendingComments st).

(** One iteration of the loop inside the groups section, by kind of
    line. *)
Definition step_groups (st : pstate) (i : Z) (line : jstr) (c : line_class)
    : pstate :=
  match c with
  | LComment =>
      PState (result st) (currentSection st) (currentGroup st)
        (lastLineWasAlias st) (relatedGroupsBuffer st)
        (pendingComments st ++ [line])
  | LBlank =>
      let st1 := close_run st in
      PState (result st1) (currentSection st1) None false
        (relatedGroupsBuffer st1) (pendingComments st1 ++ [[]])
  | LMarkGlobal =>
      PState (result st) SecGlobal (currentGroup st) (lastLineWasAlias st)
        (relatedGroupsBuffer st) (pendingComments st)
  | LMarkGroups => st
  | LLabel nm =>
      let st1 := close_run st in
      PState (result st1) (currentSection st1)
        (Some (Group GroupName nm [] [] i (pendingComments st) false None None))
        false (relatedGroupsBuffer st1) []
  | LAlias kw al =>
      match currentGroup st with
      | Some g =>
          if is_alias_type (type g) && lastLineWasAlias st then
            update_group st
              (Group AliasGroup (name g) (keywords g)
                 (items g ++ [AliasItem kw al]) (startLine g)
                 (precedingComments g) (isRelatedGroup g)
                 (relatedGroupIndex g) (relatedGroupTotal g)) true
          else
            open_group st
              (Group Alias [] [] [AliasItem kw al] i (pendingComments st)
                 false None None) true
      | None =>
          open_group st
            (Group Alias [] [] [AliasItem kw al] i (pendingComments st)
               false None None) true
      end
  | LKeyword k =>
      match currentGroup st with
      | Some g =>
          if is_alias_type (type g) then
            open_group st
              (Group Plain [] [k] [] i (pendingComments st) false None None)
              false
          else
            update_group st
              (Group (type g) (name g) (keywords g ++ [k]) (items g)
                 (startLine g) (precedingComments g) (isRelatedGroup g)
                 (relatedGroupIndex g) (relatedGroupTotal g)) false
      | None =>
          open_group st
            (Group Plain [] [k] [] i (pendingComments st) false None None)
            false
      end
  end.

(** A string is trimmed when it neither starts nor ends with white
    space. *)
Definition is_trimmed (s : jstr) : Prop :=
  match s with [] => True | c :: _ => is_space c = false end
  ∧ match rev s with [] => True | c :: _ => is_space c = false end.

(** *** The shape of the groups that the parser returns *)

(** An alias item that the builder writes as a line which is read back as
    the same item. *)
Definition item_stable (it : alias_item) : Prop :=
  classify (keyword it ++ str " => " ++ alias it)
  = LAlias (keyword it) (alias it).

Definition keyword_stable (k : jstr) : Prop := classify k = LKeyword k.

(** A line of the preceding comments: a comment line, or the empty string
    that stands for a blank line. *)
Definition comment_or_blank (c : jstr) : Prop := classify c = LComment ∨ c = [].

(** A group as the parser builds it, before the flush sets the flags. *)
Definition proper_group (g : group) : Prop :=
  unflagged g
  ∧ Forall comment_or_blank (precedingComments g)
  ∧ match type g with
    | Plain =>
        name g = [] ∧ items g = [] ∧ keywords g ≠ []
        ∧ Forall keyword_stable (keywords g)
    | GroupName =>
        items g = [] ∧ name g ≠ []
        ∧ classify ([c_lbracket] ++ name g ++ [c_rbracket]) = LLabel (name g)
        ∧ Forall keyword_stable (keywords g)
    | Alias =>
        name g = [] ∧ keywords g = []
        ∧ length (items g) = 1%nat ∧ Forall item_stable (items g)
    | AliasGroup =>
        name g = [] ∧ keywords g = []
        ∧ (2 <= length (items g))%nat ∧ Forall item_stable (items g)
    end.

(** [g] was opened while [prev] was the open group: it has no label, no
    blank line came between the two, and one of the two is of an alias
    kind and the other is not. *)
Definition follows (prev g : group) : Prop :=
  type g ≠ GroupName
  ∧ Forall (fun c => classify c = LComment) (precedingComments g)
  ∧ is_alias_type (type g) = negb (is_alias_type (type prev)).

Fixpoint chained (prev : group) (run : list group) : Prop :=
  match run with
  | [] => True
  | g :: run' => follows prev g ∧ chained g run'
  end.

(** A run of groups that one flush stores together. *)
Definition proper_run (run : list group) : Prop :=
  match run with
  | [] => False
  | g :: run' => Forall proper_group run ∧ chained g run'
  end.

(** What separates a run from the run before it: its first group has a
    label, or a blank line among its preceding comments. *)
Definition run_break (run : list group) : Prop :=
  match run with
  | [] => False
  | g :: _ => type g = GroupName ∨ [] ∈ precedingComments g
  end.

Definition proper_runs (runs : list (list group)) : Prop :=
  Forall proper_run runs ∧ Forall run_break (tail runs).

(** The invariant of the loop of the parser inside the groups section. *)
Definition body_invariant (st : pstate) : Prop :=
  currentSection st = SecGroups
  ∧ ∃ runs : list (list group),
      wordGroups (result st) = concat (flushed <$> runs)
      ∧ proper_runs runs
      ∧ (buffer_current st = []
         ∨ proper_run (buffer_current st)
           ∧ (runs ≠ [] → run_break (buffer_current st)))
      ∧ (currentGroup st = None → relatedGroupsBuffer st = [])
      ∧ (∀ g, currentGroup st = Some g →
           lastLineWasAlias st = is_alias_type (type g)
           ∧ Forall (fun c => classify c = LComment) (pendingComments st))
      ∧ Forall comment_or_blank (pendingComments st)
      ∧ (currentGroup st = None → runs ≠ [] → [] ∈ pendingComments st).

(** A line that the parser may meet after the groups marker of a text
    whose sections are in order and whose lines hold no line terminator. *)
Definition body_line (line : jstr) : Prop :=
  classify line ≠ LMarkGlobal
  ∧ Forall (fun c => is_lt c = false) (trim line).

(** *** Reading back what the builder wrote *)

(** The open group after an alias line or a keyword line was added to
    it. *)
Definition add_item (g : group) (it : alias_item) : group :=
  Group AliasGroup (name g) (keywords g) (items g ++ [it]) (startLine g)
    (precedingComments g) (isRelatedGroup g) (relatedGroupIndex g)
    (relatedGroupTotal g).

Definition add_keyword (g : group) (k : jstr) : group :=
  Group (type g) (name g) (keywords g ++ [k]) (items g) (startLine g)
    (precedingComments g) (isRelatedGroup g) (relatedGroupIndex g)
    (relatedGroupTotal g).

(** The lines that the builder writes for a group, the separator apart. *)
Definition group_lines (g : group) : list jstr :=
  precedingComments g ++ group_body g.

(** The state of the parser inside the groups section, up to the line
    numbers and the comments: [out] is what is stored, [run] is the buffer
    followed by the open group. *)
Definition holds (st : pstate) (out run : list group) : Prop :=
  currentSection st = SecGroups
  ∧ bare <$> wordGroups (result st) = out
  ∧ bare <$> buffer_current st = bare <$> run
  ∧ (currentGroup st = None → relatedGroupsBuffer st = [])
  ∧ (∀ g, currentGroup st = Some g →
       lastLineWasAlias st = is_alias_type (type g)).

(** *** What the parser stores *)

Definition nl_free (l : jstr) : Prop := c_nl ∉ l.

Definition group_nl_free (g : group) : Prop :=
  Forall nl_free (precedingComments g)
  ∧ nl_free (name g)
  ∧ Forall nl_free (keywords g)
  ∧ Forall (fun it => nl_free (keyword it) ∧ nl_free (alias it)) (items g).

(** A global filter: it holds no line feed and is not read as the groups
    marker when the builder writes it on a line. *)
Definition filter_ok (f : jstr) : Prop :=
  nl_free f ∧ classify f ≠ LMarkGroups.

(** Every string that the parser of [text] stores comes from one line. *)
Definition text_invariant (text : jstr) (st : pstate) : Prop :=
  originalText (result st) = text
  ∧ Forall filter_ok (globalFilter (result st))
  ∧ Forall nl_free (pendingComments st)
  ∧ Forall group_nl_free (wordGroups (result st))
  ∧ Forall group_nl_free (relatedGroupsBuffer st)
  ∧ (∀ g, currentGroup st = Some g → group_nl_free g).

(** The state of the parser before the groups marker: no group has been
    opened and no comment is pending. *)
Definition no_groups (st : pstate) : Prop :=
  currentGroup st = None ∧ relatedGroupsBuffer st = []
  ∧ wordGroups (result st) = [] ∧ pendingComments st = []
  ∧ currentSection st ≠ SecGroups.

(** The state of the parser right after the groups marker of a text whose
    sections come in order. *)
Definition groups_start (st : pstate) : Prop :=
  currentSection st = SecGroups ∧ currentGroup st = None
  ∧ relatedGroupsBuffer st = [] ∧ wordGroups (result st) = []
  ∧ pendingComments st = [].

Definition not_groups_marker (line : jstr) : Prop :=
  classify line ≠ LMarkGroups.

(** The section in which the loop is after the lines [lines]: the one of
    the last marker line. *)
Definition section_after (lines : list jstr) : section :=
  foldl (fun sec line =>
           match classify line with
           | LMarkGlobal => SecGlobal
           | LMarkGroups => SecGroups
           | _ => sec
           end) SecNone lines.

(** The lines [pre] end where a run of groups starts: on the first groups
    marker of the text, or on a blank line of the groups section. *)
Definition opens_run (pre : list jstr) : Prop :=
  ∃ (pre0 : list jstr) (b : jstr),
    pre = pre0 ++ [b]
    ∧ ((classify b = LBlank ∧ section_after pre0 = SecGroups)
       ∨ (classify b = LMarkGroups ∧ Forall not_groups_marker pre0)).

(** The state of the loop in the groups section with no group open and
    nothing in the buffer. *)
Definition run_start (st : pstate) : Prop :=
  currentSection st = SecGroups ∧ currentGroup st = None
  ∧ relatedGroupsBuffer st = [].

(** *** Texts of the examples *)

(** The rule text of the end-to-end scenario: a global filter, a commented
    group of two keywords, an alias line. *)
Definition scenario_text : jstr :=
  join_lines
    [str "[GLOBAL_FILTER]"; str "spam"; []; str "[WORD_GROUPS]";
     str "# comment A"; str "foo"; str "bar"; []; str "/x|y/ => Z"].

(** A rule text with a groups section and no global section. *)
Definition groups_only_text : jstr :=
  join_lines [str "[WORD_GROUPS]"; str "foo"].

(** A rule text with one line that holds a carriage return between two
    arrows. *)
Definition inner_return_text : jstr :=
  join_lines
    [str "[GLOBAL_FILTER]"; str "[WORD_GROUPS]";
     str "a=>b" ++ [13%N] ++ str "=> c"].

(** A rule text with an empty global section and two lines in its groups
    section. *)
Definition two_lines_text (l1 l2 : jstr) : jstr :=
  join_lines [marker_global; marker_groups; l1; l2].

(** A rule text with two labelled groups of one keyword each and no blank
    line between them. *)
Definition labelled_text : jstr :=
  join_lines
    [marker_global; marker_groups; str "[A]"; str "foo"; str "[B]"; str "bar"].

(** * The other operations of the editor *)

(** ** Vocabulary of the statements about the navigator *)

(** The line that opens the section of [presetName]: a line that starts
    with [custom:] at the left margin, or an indented line whose key token
    is [presetName]; [indent] is the length of its white space. *)
Definition preset_line (presetName : jstr) (indent : Z) (line : jstr) : Prop :=
  if eqb_str presetName (str "custom") then
    startsWith line (str "custom:") = true ∧ indent = 0%Z
  else
    ∃ ws, match_indented_key line = Some (ws, presetName)
          ∧ indent = Z.of_nat (length ws).

(** ** The week map *)

(** [onTlWeekMap(presetName, dayNum, value)]: the value of the editor after
    the call.  [dayKey] is [String(dayNum)].  The search for the section is
    the one written out in [updateTimelineField], statement for
    statement. *)
Definition onTlWeekMap (editor_value presetName dayKey : jstr)
    (value : jsvalue) : option jstr :=
  let lines := split_lines editor_value in
  match timeline_section lines presetName with
  | None => Some editor_value
  | Some (sectionStart, sectionIndent) =>
      sectionEnd ← findBlockEnd lines sectionStart sectionIndent
                     (Z.of_nat (length lines));
      weekMapLine ← findChildKey lines sectionStart sectionEnd sectionIndent
                      (str "week_map");
      if (weekMapLine <? 0)%Z then Some editor_value
      else
        weekMap ← lookupZ lines weekMapLine;
        let wmIndent := search_nonspace weekMap in
        wmEnd ← findBlockEnd lines weekMapLine wmIndent sectionEnd;
        dayLine ← findChildKey lines weekMapLine wmEnd wmIndent dayKey;
        lines' ← (if (0 <=? dayLine)%Z then replaceLineValue lines dayLine value
                  else Some lines);
        Some (join_lines lines')
  end.

(** ** The period list of one day plan *)

(** The statements that [removePeriodFromDayPlanInLines] and
    [reorderDayPlanPeriods] share, word for word: the search for the
    [periods] line of the plan [planKey] under [day_plans].  The value is
    the index of the line and the end of the plan, [Some None] when one of
    the three searches returns [-1] (the functions return at once). *)
Definition plan_periods_line (lines : list jstr) (info : sectionInfo)
    (planKey : jstr) : option (option (Z * Z)) :=
  dayPlansLine ← findChildKey lines (sec_start info) (sec_end info)
                   (sec_indent info) (str "day_plans");
  if (dayPlansLine <? 0)%Z then Some None
  else
    dayPlans ← lookupZ lines dayPlansLine;
    let dpIndent := search_nonspace dayPlans in
    dpEnd ← findBlockEnd lines dayPlansLine dpIndent (sec_end info);
    planLine ← findChildKey lines dayPlansLine dpEnd dpIndent planKey;
    if (planLine <? 0)%Z then Some None
    else
      plan ← lookupZ lines planLine;
      let planIndent := search_nonspace plan in
      planEnd ← findBlockEnd lines planLine planIndent dpEnd;
      periodsLine ← findChildKey lines planLine planEnd planIndent
                      (str "periods");
      if (periodsLine <? 0)%Z then Some None
      else Some (Some (periodsLine, planEnd)).




(** [reorderDayPlanPeriods(presetName, planKey, orderedKeys)]: the value of
    the editor after the call. *)
Definition reorderDayPlanPeriods (editor_value : jstr)
    (presetName planKey : jstr) (orderedKeys : list jstr) : option jstr :=
  let lines := split_lines editor_value in
  match findPresetSection lines presetName with
  | None => Some editor_value
  | Some info =>
      found ← plan_periods_line lines info planKey;
      match found with
      | None => Some editor_value
      | Some (periodsLine, planEnd) =>
          periods ← lookupZ lines periodsLine;
          lines' ←
            match match_inline_periods periods with
            | Some (prefix, _) =>
                Some (<[Z.to_nat periodsLine :=
                          prefix ++ [c_lbracket]
                          ++ join (str ", ") orderedKeys ++ [c_rbracket]]>
                        lines)
            | None =>
                let pIndent := search_nonspace periods in
                pEnd ← findBlockEnd lines periodsLine pIndent planEnd;
                let itemIndent := spaces (pIndent + 2) in
                let newItems :=
                  List.map (fun k => itemIndent ++ str "- " ++ k)
                    orderedKeys in
                Some (splice_in
                        (splice_out lines (periodsLine + 1)
                           (pEnd - periodsLine - 1))
                        (periodsLine + 1) newItems)
            end;
          Some (join_lines lines')
      end
  end.

(** A key that the editor writes and reads back: one code unit or more,
    none of them white space or a colon, the first one not a hash sign. *)
Definition plain_key (k : jstr) : Prop :=
  match k with
  | [] => False
  | c :: _ => c ≠ c_hash
  end
  ∧ Forall (fun c => is_space c = false ∧ c ≠ c_colon) k.

(** What may follow the colon of a key on a line that is read back: nothing
    or a space first. *)
Definition key_tail (tail : jstr) : Prop :=
  match tail with
  | [] => True
  | c :: _ => is_space c = true
  end.

(** ** The name and description of a preset *)

(** [updatePresetMeta(presetName, field, value)]: the value of the editor
    after the call. *)
Definition updatePresetMeta (editor_value presetName field value : jstr)
    : option jstr :=
  let lines := split_lines editor_value in
  match findPresetSection lines presetName with
  | None => Some editor_value
  | Some info =>
      lineIdx ← findChildKey lines (sec_start info) (sec_end info)
                  (sec_indent info) field;
      lines' ←
        (if (0 <=? lineIdx)%Z then
           replaceLineValue lines lineIdx (VString value)
         else
           let indent := spaces (sec_indent info + 2) in
           Some (splice_in lines (sec_start info + 1)
                   [indent ++ field ++ str ": " ++ [c_dquote] ++ value
                    ++ [c_dquote]]));
      Some (join_lines lines')
  end.

(** ** Presets, day plans and periods: creation and deletion *)

Definition PROTECTED_PRESETS : list jstr :=
  [str "morning_evening"; str "always_on"; str "office_hours";
   str "night_owl"].

(** [deleteTlPreset(presetName)]: the value of the timeline editor after
    the call; [confirmed] is the answer to the confirmation dialog. *)
Definition deleteTlPreset (confirmed : bool) (editor_value presetName : jstr)
    : option jstr :=
  if existsb (eqb_str presetName) PROTECTED_PRESETS then Some editor_value
  else if eqb_str presetName (str "custom") then Some editor_value
  else if negb confirmed then Some editor_value
  else
    let lines := split_lines editor_value in
    match findPresetSection lines presetName with
    | None => Some editor_value
    | Some info =>
        Some (join_lines
                (splice_out lines (sec_start info)
                   (sec_end info - sec_start info)))
    end.

Definition is_letter_ (c : N) : bool :=
  ((97 <=? c)%N && (c <=? 122)%N) || ((65 <=? c)%N && (c <=? 90)%N)
  || (c =? 95)%N.

Definition is_digit (c : N) : bool := (48 <=? c)%N && (c <=? 57)%N.

(** The test of a new key: a letter or an underscore, then letters, digits
    and underscores up to the end of the string. *)
Definition valid_key (k : jstr) : bool :=
  match k with
  | c :: rest =>
      is_letter_ c && forallb (fun d => is_letter_ d || is_digit d) rest
  | [] => false
  end.

(** [addTlDayPlan(presetName)]: the value of the editor after the call.
    [planKey] is the answer to the prompt ([None] when it is cancelled) and
    [exists_] tells whether the document reader finds a day plan with that
    key in the preset. *)
Definition addTlDayPlan (planKey : option jstr) (exists_ : bool)
    (editor_value presetName : jstr) : option jstr :=
  match planKey with
  | None | Some [] => Some editor_value
  | Some planKey =>
      if negb (valid_key planKey) then Some editor_value
      else if exists_ then Some editor_value
      else
        let lines := split_lines editor_value in
        match findPresetSection lines presetName with
        | None => Some editor_value
        | Some info =>
            dayPlansLine ← findChildKey lines (sec_start info) (sec_end info)
                             (sec_indent info) (str "day_plans");
            if (dayPlansLine <? 0)%Z then Some editor_value
            else
              dayPlans ← lookupZ lines dayPlansLine;
              let dpIndent := search_nonspace dayPlans in
              dpEnd ← findBlockEnd lines dayPlansLine dpIndent (sec_end info);
              let indent := spaces (dpIndent + 2) in
              let subIndent := spaces (dpIndent + 4) in
              Some (join_lines
                      (splice_in lines dpEnd
                         [indent ++ planKey ++ str ":";
                          subIndent ++ str "periods: []"]))
        end
  end.

(** The days of the week, [1] to [7], that the week map of the preset
    gives to [planKey].  The week map is what the document reader returns:
    its keys are property names, so the two reads of the source, by number
    and by string, are one. *)
Definition week_refs (week_map : list (jstr * jstr)) (planKey : jstr)
    : list Z :=
  List.filter
    (fun d =>
       match List.find (fun e => eqb_str (fst e) (string_of_day d))
               week_map with
       | Some e => eqb_str (snd e) planKey
       | None => false
       end)
    [1; 2; 3; 4; 5; 6; 7]%Z.

(** [deleteTlDayPlan(presetName, planKey)]: the value of the editor after
    the call.  [config] is the week map of the preset as the document
    reader returns it ([None] when the preset has no configuration), with
    the values that are strings. *)
Definition deleteTlDayPlan (config : option (list (jstr * jstr)))
    (confirmed : bool) (editor_value presetName planKey : jstr)
    : option jstr :=
  match config with
  | None => Some editor_value
  | Some week_map =>
      match week_refs week_map planKey with
      | _ :: _ => Some editor_value
      | [] =>
          if negb confirmed then Some editor_value
          else
            let lines := split_lines editor_value in
            match findPresetSection lines presetName with
            | None => Some editor_value
            | Some info =>
                dayPlansLine ← findChildKey lines (sec_start info)
                                 (sec_end info) (sec_indent info)
                                 (str "day_plans");
                if (dayPlansLine <? 0)%Z then Some editor_value
                else
                  dayPlans ← lookupZ lines dayPlansLine;
                  let dpIndent := search_nonspace dayPlans in
                  dpEnd ← findBlockEnd lines dayPlansLine dpIndent
                            (sec_end info);
                  planLine ← findChildKey lines dayPlansLine dpEnd dpIndent
                               planKey;
                  if (planLine <? 0)%Z then Some editor_value
                  else
                    plan ← lookupZ lines planLine;
                    let planIndent := search_nonspace plan in
                    planEnd ← findBlockEnd lines planLine planIndent dpEnd;
                    Some (join_lines
                            (splice_out lines planLine (planEnd - planLine)))
            end
      end
  end.

(** The eight lines of a new period, [childIndent] being the indentation
    of its key. *)
Definition new_period_lines (childIndent : Z) (key name start end_ : jstr)
    : list jstr :=
  let indent := spaces childIndent in
  let subIndent := spaces (childIndent + 2) in
  [indent ++ key ++ str ":";
   subIndent ++ str "name: " ++ [c_dquote] ++ name ++ [c_dquote];
   subIndent ++ str "start: " ++ [c_dquote] ++ start ++ [c_dquote];
   subIndent ++ str "end: " ++ [c_dquote] ++ end_ ++ [c_dquote];
   subIndent ++ str "collect: true";
   subIndent ++ str "analyze: false";
   subIndent ++ str "push: true";
   subIndent ++ str "report_mode: current"].

(** [confirmTlNewPeriod()]: the value of the editor after the call.
    [key_input], [name_input], [start] and [end_] are the values of the
    four inputs of the dialog, [target] is the preset the dialog was opened
    for, and [exists_] tells whether the document reader finds a period
    with that key in the preset. *)
Definition confirmTlNewPeriod (exists_ : bool)
    (editor_value target key_input name_input start end_ : jstr)
    : option jstr :=
  let key := trim key_input in
  let name := trim name_input in
  if eqb_str key [] then Some editor_value
  else if negb (valid_key key) then Some editor_value
  else if eqb_str name [] then Some editor_value
  else if eqb_str start [] || eqb_str end_ [] then Some editor_value
  else if eqb_str start end_ then Some editor_value
  else if exists_ then Some editor_value
  else
    let lines := split_lines editor_value in
    match findPresetSection lines target with
    | None => Some editor_value
    | Some info =>
        periodsLine ← findChildKey lines (sec_start info) (sec_end info)
                        (sec_indent info) (str "periods");
        if (periodsLine <? 0)%Z then Some editor_value
        else
          periods ← lookupZ lines periodsLine;
          let periodsIndent := search_nonspace periods in
          let periodsContent := trim periods in
          let newPeriodLines :=
            new_period_lines (periodsIndent + 2) key name start end_ in
          lines' ←
            (if eqb_str periodsContent (str "periods: {}")
                || eqb_str periodsContent (str "periods:{}")
             then
               Some (splice_in
                       (<[Z.to_nat periodsLine :=
                            spaces periodsIndent ++ str "periods:"]> lines)
                       (periodsLine + 1) newPeriodLines)
             else
               periodsEnd ← findBlockEnd lines periodsLine periodsIndent
                              (sec_end info);
               Some (splice_in lines periodsEnd newPeriodLines));
          Some (join_lines lines')
    end.

(** ** The active preset in the settings document *)

(** The two tests of [selectTimelinePreset] for the [schedule:] line: the
    line without its trailing white space is [schedule:] followed by white
    space only, or the line is [schedule:], white space and a hash sign. *)
Definition schedule_line (line : jstr) : bool :=
  (startsWith (trimEnd line) (str "schedule:")
   && forallb is_space (drop (length (str "schedule:")) (trimEnd line)))
  || (startsWith line (str "schedule:")
      && match skip_space (drop (length (str "schedule:")) line) with
         | c :: _ => (c =? c_hash)%N
         | [] => false
         end).

(** The test for the [preset:] line: white space, at least one code unit of
    it, then [preset:]. *)
Definition indented_preset (line : jstr) : bool :=
  let '(ws, s1) := span is_space line in
  match ws with
  | [] => false
  | _ :: _ => startsWith s1 (str "preset:")
  end.

(** The loop of [selectTimelinePreset]: the index of the [preset:] line,
    [None] for [-1]; [i] is the index of the head of [lines]. *)
Fixpoint scan_schedule (lines : list jstr) (i : Z) (inSchedule : bool)
    : option Z :=
  match lines with
  | [] => None
  | line :: rest =>
      if schedule_line line then scan_schedule rest (i + 1) true
      else
        let inSchedule :=
          if inSchedule && starts_nonspace line
             && negb (startsWith line [c_hash])
          then false else inSchedule in
        if inSchedule && indented_preset line then Some i
        else scan_schedule rest (i + 1) inSchedule
  end.

(** The pattern that splits the [preset:] line: group 1 is white space,
    [preset:] and white space, group 2 any run of code units other than
    line terminators up to the end of the string. *)
Definition match_preset_value (original : jstr) : option (jstr * jstr) :=
  let '(ws, s1) := span is_space original in
  if startsWith s1 (str "preset:") then
    let '(ws2, rest) := span is_space (drop (length (str "preset:")) s1) in
    if forallb not_lt rest then Some (ws ++ str "preset:" ++ ws2, rest)
    else None
  else None.

(** The line that [selectTimelinePreset] writes for [original]. *)
Definition selected_line (original name : jstr) : jstr :=
  match match_preset_value original with
  | Some (prefix, rest) =>
      let comment := default [] (match_trailing_comment rest) in
      prefix ++ [c_dquote] ++ name ++ [c_dquote] ++ comment
  | None => original
  end.

(** [selectTimelinePreset(name)]: the value of the settings editor after
    the call. *)
Definition selectTimelinePreset (config_value name : jstr) : option jstr :=
  let lines := split_lines config_value in
  match scan_schedule lines 0 false with
  | Some presetLineIdx =>
      original ← lookupZ lines presetLineIdx;
      Some (join_lines
              (<[Z.to_nat presetLineIdx := selected_line original name]>
                 lines))
  | None => Some (join_lines lines)
  end.

(** The four tests of the loop of [selectTimelinePreset] on a line. *)
Definition schedule_tests (line : jstr) : bool * bool * bool * bool :=
  (schedule_line line, starts_nonspace line, startsWith line [c_hash],
   indented_preset line).

(** A name that can be selected again: it holds no line terminator and no
    hash sign. *)
Definition preset_name (name : jstr) : Prop :=
  Forall (fun c => is_lt c = false ∧ c ≠ c_hash) name.

(** ** Vocabulary of the further statements about the rule file *)

(** The shape of a group that the parser returns, by type: a plain group
    has keywords and no items, a labelled group has a label and no items,
    an alias group has one item and an alias-group group two or more; the
    keywords are trimmed and not empty, and so are the keywords of the
    items (their aliases are trimmed and may be empty). *)
Definition well_formed_group (g : group) : Prop :=
  Forall (fun k => k ≠ [] ∧ is_trimmed k) (keywords g)
  ∧ Forall (fun it => keyword it ≠ [] ∧ is_trimmed (keyword it)
                      ∧ is_trimmed (alias it)) (items g)
  ∧ match type g with
    | Plain => keywords g ≠ [] ∧ items g = []
    | GroupName => name g ≠ [] ∧ items g = []
    | Alias => keywords g = [] ∧ length (items g) = 1%nat
    | AliasGroup => keywords g = [] ∧ (2 <= length (items g))%nat
    end.

Definition groups_invariant (P : group → Prop) (st : pstate) : Prop :=
  Forall P (wordGroups (result st))
  ∧ Forall P (relatedGroupsBuffer st)
  ∧ (∀ g, currentGroup st = Some g → P g).

Definition not_global_marker (line : jstr) : Prop :=
  classify line ≠ LMarkGlobal.

(** The state of the parser before the global marker: no filter is stored
    and the section is not the global one. *)
Definition no_filters (st : pstate) : Prop :=
  globalFilter (result st) = [] ∧ currentSection st ≠ SecGlobal.

(** What a property of groups must allow for the loop to keep it on line
    [i]: the group that the line opens and the group that the line
    extends. *)
Definition line_opens (P : group → Prop) (i : Z) (line : jstr) : Prop :=
  (∀ nm cs, classify line = LLabel nm →
     P (Group GroupName nm [] [] i cs false None None))
  ∧ (∀ kw al cs, classify line = LAlias kw al →
       P (Group Alias [] [] [AliasItem kw al] i cs false None None))
  ∧ (∀ kw al g, classify line = LAlias kw al → P g →
       is_alias_type (type g) = true →
       P (Group AliasGroup (name g) (keywords g)
            (items g ++ [AliasItem kw al]) (startLine g)
            (precedingComments g) (isRelatedGroup g) (relatedGroupIndex g)
            (relatedGroupTotal g)))
  ∧ (∀ k cs, classify line = LKeyword k →
       P (Group Plain [] [k] [] i cs false None None))
  ∧ (∀ k g, classify line = LKeyword k → P g →
       is_alias_type (type g) = false →
       P (Group (type g) (name g) (keywords g ++ [k]) (items g)
            (startLine g) (precedingComments g) (isRelatedGroup g)
            (relatedGroupIndex g) (relatedGroupTotal g))).

(** The line that opens a group: its label, its first keyword or its
    first alias item. *)
Definition opens (line : jstr) (g : group) : Prop :=
  match type g with
  | GroupName => classify line = LLabel (name g)
  | Plain => ∃ k rest, keywords g = k :: rest ∧ classify line = LKeyword k
  | Alias | AliasGroup =>
      ∃ it rest, items g = it :: rest
                 ∧ classify line = LAlias (keyword it) (alias it)
  end.

(** [startLine] is the index of the line that opens the group. *)
Definition starts_at (lines : list jstr) (g : group) : Prop :=
  ∃ line, lookupZ lines (startLine g) = Some line ∧ opens line g.

(** A list of line numbers that grows strictly. *)
Definition increasing (l : list Z) : Prop :=
  ∀ (a b : nat) (x y : Z),
    l !! a = Some x → l !! b = Some y → (a < b)%nat → (x < y)%Z.

(** The groups that the state holds, in the order in which they will be
    stored: the stored ones, the buffer, the open group. *)
Definition held_groups (st : pstate) : list group :=
  wordGroups (result st) ++ buffer_current st.

(** A global filter as the parser stores it: a trimmed line that is
    neither empty, nor a comment, nor one of the two markers. *)
Definition filter_line (f : jstr) : Prop :=
  trim f = f ∧ startsWith f [c_hash] = false ∧ f ≠ []
  ∧ f ≠ marker_global ∧ f ≠ marker_groups.

(** The state of the parser inside the global section, before any group:
    [fs] are the filters stored so far. *)
Definition global_state (st : pstate) (fs : list jstr) : Prop :=
  currentSection st = SecGlobal ∧ globalFilter (result st) = fs
  ∧ currentGroup st = None ∧ relatedGroupsBuffer st = []
  ∧ wordGroups (result st) = [] ∧ pendingComments st = [].

(** A group none of whose lines is read as the global marker. *)
Definition quiet_group (g : group) : Prop :=
  Forall not_global_marker (group_lines g).

(** ** The patcher of the settings document *)

Definition is_lower_ (c : N) : bool :=
  ((97 <=? c)%N && (c <=? 122)%N) || (c =? 95)%N.

(** The pattern for the first line of a module: at the start of the
    string, one or more lower-case letters or underscores, then a colon.
    The value is the captured key. *)
Definition module_key (line : jstr) : option jstr :=
  let '(k, s) := span is_lower_ line in
  match k, s with
  | _ :: _, c :: _ => if (c =? c_colon)%N then Some k else None
  | _, _ => None
  end.

(** The pattern for a key inside a module, which ignores case: white
    space, one or more letters or underscores, a colon.  The value is the
    white space, the key and what follows the colon. *)
Definition config_key (line : jstr) : option (jstr * jstr * jstr) :=
  let '(ws, s1) := span is_space line in
  let '(k, s2) := span is_letter_ s1 in
  match k, s2 with
  | _ :: _, c :: tail => if (c =? c_colon)%N then Some (ws, k, tail) else None
  | _, _ => None
  end.

(** The first loop of [updateYamlFromUI]: [start] is [moduleStartLine] so
    far and [i] the index of the head of [lines]; the value is the start
    and the end, [None] when the loop ends without a break. *)
Fixpoint scan_module (modKey : jstr) (lines : list jstr) (i start : Z)
    : Z * option Z :=
  match lines with
  | [] => (start, None)
  | line :: rest =>
      match module_key line with
      | Some k =>
          if eqb_str k modKey then scan_module modKey rest (i + 1) i
          else if (0 <=? start)%Z then (start, Some i)
          else scan_module modKey rest (i + 1) start
      | None => scan_module modKey rest (i + 1) start
      end
  end.

(** Whether a line from [moduleStartLine + 1] up to [i - 1] has the key
    [part]. *)
Definition parent_found (lines : list jstr) (moduleStartLine i : Z)
    (part : jstr) : bool :=
  existsb
    (fun l => match config_key l with
              | Some (_, k, _) => eqb_str k part
              | None => false
              end)
    (take (Z.to_nat (i - (moduleStartLine + 1)))
       (drop (Z.to_nat (moduleStartLine + 1)) lines)).

(** The second loop: the index of the target line, [-1] when there is
    none.  [n] iterations are left. *)
Fixpoint find_target (lines : list jstr) (moduleStartLine : Z)
    (pathParts : list jstr) (searchKey : jstr) (n : nat) (i : Z)
    : option Z :=
  match n with
  | O => Some (-1)%Z
  | S n' =>
      line ← lookupZ lines i;
      if blank_or_comment line then
        find_target lines moduleStartLine pathParts searchKey n' (i + 1)
      else
        match config_key line with
        | Some (_, k, _) =>
            if eqb_str k searchKey
               && forallb (parent_found lines moduleStartLine i)
                    (removelast pathParts)
            then Some i
            else find_target lines moduleStartLine pathParts searchKey n'
                   (i + 1)
        | None =>
            find_target lines moduleStartLine pathParts searchKey n' (i + 1)
        end
  end.

(** The pattern that splits the target line: group 1 is white space, the
    key, the colon and white space, group 2 any run of code units other
    than line terminators up to the end of the string. *)
Definition match_config_value (original : jstr) : option (jstr * jstr) :=
  match config_key original with
  | Some (ws, k, tail) =>
      let '(ws2, rest) := span is_space tail in
      if forallb not_lt rest then Some (ws ++ k ++ [c_colon] ++ ws2, rest)
      else None
  | None => None
  end.

(** The line that [updateYamlFromUI] writes for [original]. *)
Definition config_line (original : jstr) (newVal : jsvalue) : jstr :=
  match match_config_value original with
  | Some (prefix, rest) =>
      let comment := default [] (match_trailing_comment rest) in
      let formattedVal :=
        match newVal with
        | VBool b => if b then str "true" else str "false"
        | VString v => format_config_string rest comment v
        | VNumber text => text
        end in
      prefix ++ formattedVal ++ comment
  | None => original
  end.

(** [updateYamlFromUI(modKey, path, el)]: the value of the settings editor
    after the call.  [newVal] is the value read from the control: the
    state of a checkbox, the text of an input, or the number that
    [parseFloat] gives ([0] for a text that is not a number). *)
Definition updateYamlFromUI (editor_value modKey path : jstr)
    (newVal : jsvalue) : option jstr :=
  let lines := split_lines editor_value in
  let pathParts := split_on c_dot path in
  let '(moduleStartLine, ended) := scan_module modKey lines 0 (-1) in
  let moduleEndLine := default (Z.of_nat (length lines)) ended in
  if (moduleStartLine <? 0)%Z then Some editor_value
  else
    let searchKey := default [] (last pathParts) in
    targetLine ← find_target lines moduleStartLine pathParts searchKey
                   (Z.to_nat (moduleEndLine - (moduleStartLine + 1)))
                   (moduleStartLine + 1);
    if (targetLine <? 0)%Z then Some editor_value
    else
      originalLine ← lookupZ lines targetLine;
      Some (join_lines
              (<[Z.to_nat targetLine := config_line originalLine newVal]>
                 lines)).

(** ** The form of the frequency rules *)

(** [currentFrequencyData || parseFrequencyText(currentFrequency)]: the
    data that the handlers of the form work on. *)
Definition current_data (currentFrequencyData : option frequencyData)
    (currentFrequency : jstr) : frequencyData :=
  default (parseFrequencyText currentFrequency) currentFrequencyData.

(** [handleGlobalFilterInput(event)], with the key and the value of the
    input of the event: the new values of [currentFrequencyData] and of
    [currentFrequency], which is also the new text of the editor. *)
Definition handleGlobalFilterInput
    (currentFrequencyData : option frequencyData)
    (currentFrequency key value : jstr) : option frequencyData * jstr :=
  if eqb_str key (str "Enter") && negb (eqb_str (trim value) []) then
    let data := current_data currentFrequencyData currentFrequency in
    let data' :=
      FrequencyData (globalFilter data ++ [trim value]) (wordGroups data)
        (originalText data) in
    (Some data', buildFrequencyText data')
  else (currentFrequencyData, currentFrequency).

(** [removeGlobalFilter(filter)]. *)
Definition removeGlobalFilter (currentFrequencyData : option frequencyData)
    (currentFrequency filter : jstr) : option frequencyData * jstr :=
  let data := current_data currentFrequencyData currentFrequency in
  let data' :=
    FrequencyData
      (List.filter (fun f => negb (eqb_str f filter)) (globalFilter data))
      (wordGroups data) (originalText data) in
  (Some data', buildFrequencyText data').

(** The data of the form after global filters were edited: the text and
    the groups are those read from [T], and each filter is a string that
    the parser reads as a filter when it stands on a line of its own. *)
Definition filters_edited (T : jstr) (data : frequencyData) : Prop :=
  originalText data = T
  ∧ wordGroups data = wordGroups (parseFrequencyText T)
  ∧ Forall filter_line (globalFilter data)
  ∧ Forall nl_free (globalFilter data).

(** ** Creation of a preset *)

(** The array that [buildEmptyPresetBlock] joins. *)
Definition empty_preset_lines (key name desc : jstr) : list jstr :=
    [str "  " ++ key ++ str ":";
     str "    name: " ++ [c_dquote] ++ name ++ [c_dquote];
     str "    description: " ++ [c_dquote] ++ desc ++ [c_dquote];
     str "    default:";
     str "      collect: true";
     str "      analyze: false";
     str "      ai_mode: follow_report";
     str "      push: false";
     str "      report_mode: current";
     str "      once:";
     str "        analyze: false";
     str "        push: false";
     str "    periods: {}";
     str "    day_plans:";
     str "      all_day:";
     str "        periods: []";
     str "    week_map:";
     str "      1: all_day";
     str "      2: all_day";
     str "      3: all_day";
     str "      4: all_day";
     str "      5: all_day";
     str "      6: all_day";
     str "      7: all_day";
     []].

(** [buildEmptyPresetBlock(key, name, desc)]. *)
Definition buildEmptyPresetBlock (key name desc : jstr) : jstr :=
  join_lines (empty_preset_lines key name desc).

(** The first line that starts with [presets:], [i] being the index of the
    head of [lines]. *)
Fixpoint find_presets (lines : list jstr) (i : Z) : option Z :=
  match lines with
  | [] => None
  | line :: rest =>
      if startsWith line (str "presets:") then Some i
      else find_presets rest (i + 1)
  end.

(** The test for the next key of the top level: the line starts with a
    code unit that is not white space, does not start with a hash sign and
    is not blank. *)
Definition top_level (line : jstr) : bool :=
  starts_nonspace line && negb (startsWith line [c_hash])
  && negb (eqb_str (trim line) []).

Fixpoint find_top_level (lines : list jstr) (i : Z) : option Z :=
  match lines with
  | [] => None
  | line :: rest =>
      if top_level line then Some i else find_top_level rest (i + 1)
  end.

(** [confirmTlNewPreset()]: the values of the timeline editor and of the
    settings editor after the call.  The three inputs are the values of the
    fields of the dialog; [exists_] tells whether the document reader finds
    a preset with that key, and [templated] is the block that
    [buildPresetYamlBlock] gives when a template is chosen and the reader
    finds it ([None] selects the blank block). *)
Definition confirmTlNewPreset (exists_ : bool) (templated : option jstr)
    (editor_value config_value key_input name_input desc_input : jstr)
    : option (jstr * jstr) :=
  let key := trim key_input in
  let name := trim name_input in
  let desc := trim desc_input in
  if eqb_str key [] then Some (editor_value, config_value)
  else if negb (valid_key key) then Some (editor_value, config_value)
  else if eqb_str name [] then Some (editor_value, config_value)
  else if exists_ then Some (editor_value, config_value)
  else if eqb_str key (str "custom") then Some (editor_value, config_value)
  else
    let block := default (buildEmptyPresetBlock key name desc) templated in
    let lines := split_lines editor_value in
    let lines' :=
      match find_presets lines 0 with
      | None => [str "presets:"] ++ split_lines block ++ lines
      | Some presetsStart =>
          let presetsEnd :=
            default (Z.of_nat (length lines))
              (find_top_level (drop (Z.to_nat (presetsStart + 1)) lines)
                 (presetsStart + 1)) in
          splice_in lines presetsEnd (split_lines block)
      end in
    config' ← selectTimelinePreset config_value key;
    Some (join_lines lines', config').

(** ** The list of platforms in the settings document *)

(** [a.slice(start, end)]: a negative index counts from the end. *)
Definition slice {A} (l : list A) (start end_ : Z) : list A :=
  let len := Z.of_nat (length l) in
  let k := if (start <? 0)%Z then Z.max (len + start) 0
           else Z.min start len in
  let final := if (end_ <? 0)%Z then Z.max (len + end_) 0
               else Z.min end_ len in
  take (Z.to_nat (final - k)) (drop (Z.to_nat k) l).

(** The variables of the first loop of [updatePlatformsInYaml]. *)
Record sources_scan := SourcesScan {
  inPlatforms : bool;
  inSources : bool;
  sourcesStart : Z;
  baseIndent : Z;
  lastDataLineIndex : Z
}.

(** [trimmed && !trimmed.startsWith('#')]. *)
Definition data_text (trimmed : jstr) : bool :=
  negb (eqb_str trimmed []) && negb (startsWith trimmed [c_hash]).

(** The first loop of [updatePlatformsInYaml], [i] being the index of the
    head of [lines]: the variables when the loop ends, and the value given
    to [sourcesEnd] when it ends with a [break]. *)
Fixpoint scan_sources (lines : list jstr) (i : Z) (st : sources_scan)
    : sources_scan * option Z :=
  match lines with
  | [] => (st, None)
  | line :: rest =>
      let trimmed := trim line in
      if startsWith line (str "platforms:") then
        scan_sources rest (i + 1)
          (SourcesScan true (inSources st) (sourcesStart st) (baseIndent st)
             (lastDataLineIndex st))
      else if inPlatforms st && negb (inSources st)
              && startsWith trimmed (str "sources:") then
        scan_sources rest (i + 1)
          (SourcesScan (inPlatforms st) true (i + 1)
             (search_nonspace line + 2) (lastDataLineIndex st))
      else
        let currentIndent := search_nonspace line in
        let step :=
          if inSources st then
            if startsWith trimmed (str "-") then Some i
            else if data_text trimmed
                    && (baseIndent st <=? currentIndent)%Z then Some i
            else if data_text trimmed
                    && (currentIndent <? baseIndent st)%Z then None
            else Some (lastDataLineIndex st)
          else Some (lastDataLineIndex st) in
        match step with
        | None => (st, Some (lastDataLineIndex st + 1)%Z)
        | Some last =>
            let st' :=
              SourcesScan (inPlatforms st) (inSources st) (sourcesStart st)
                (baseIndent st) last in
            if inPlatforms st && bool_decide (is_Some (module_key line))
               && negb (startsWith line (str "platforms:")) then
              (st', Some (if (0 <=? last)%Z then (last + 1)%Z else i))
            else scan_sources rest (i + 1) st'
        end
  end.

(** The second loop: the comment and blank lines at the head of the
    region, up to the first line of another kind. *)
Fixpoint leading_comments (regionLines : list jstr) : list jstr :=
  match regionLines with
  | [] => []
  | line :: rest =>
      let trimmed := trim line in
      if startsWith trimmed [c_hash] then line :: leading_comments rest
      else if startsWith trimmed (str "-") || data_text trimmed then []
      else if eqb_str trimmed [] then line :: leading_comments rest
      else leading_comments rest
  end.

(** The two lines written for a platform, as one string. *)
Definition platform_entry (p : jstr * jstr) : jstr :=
  str "    - id: " ++ [c_dquote] ++ p.1 ++ [c_dquote] ++ [c_nl]
  ++ str "      name: " ++ [c_dquote] ++ p.2 ++ [c_dquote].

(** [updatePlatformsInYaml(platforms)]: the value of the settings editor
    after the call; a platform is given by the texts of its [id] and
    [name]. *)
Definition updatePlatformsInYaml (editor_value : jstr)
    (platforms : list (jstr * jstr)) : jstr :=
  let lines := split_lines editor_value in
  let '(st, broke) :=
    scan_sources lines 0 (SourcesScan false false (-1) 0 (-1)) in
  let sourcesEnd0 := default (-1)%Z broke in
  let sourcesEnd :=
    if (sourcesEnd0 =? -1)%Z then
      if (0 <=? lastDataLineIndex st)%Z then (lastDataLineIndex st + 1)%Z
      else Z.of_nat (length lines)
    else sourcesEnd0 in
  let regionLines := slice lines (sourcesStart st) sourcesEnd in
  let leadingComments := leading_comments regionLines in
  let newSourcesLines := join_lines (platform_entry <$> platforms) in
  let beforeSources := slice lines 0 (sourcesStart st) in
  let afterSources := slice lines sourcesEnd (Z.of_nat (length lines)) in
  join_lines
    (beforeSources ++ leadingComments ++ [newSourcesLines] ++ afterSources).

(** What the first loop of [updatePlatformsInYaml] keeps true before line
    [i]: once inside the sources block, [sourcesStart] is the index after
    a line whose text starts with [sources:], and a data line that was
    seen lies in the block. *)
Definition scan_ok (lines : list jstr) (i : Z) (st : sources_scan) : Prop :=
  (inPlatforms st = true → (1 <= i)%Z)
  ∧ (inSources st = true →
   (1 <= sourcesStart st <= i)%Z
   ∧ ∃ l, lookupZ lines (sourcesStart st - 1) = Some l
          ∧ startsWith (trim l) (str "sources:") = true)
  ∧ (lastDataLineIndex st = (-1)%Z
     ∨ inSources st = true
       ∧ (sourcesStart st <= lastDataLineIndex st < i)%Z).

(** ** The highlight layer and the attribute escape *)

Definition c_amp : N := 38.
Definition c_lt : N := 60.

(** [s.replace(/c/g, by_)] for a one-character pattern and a replacement
    text without dollar sign. *)
Definition replace_all (c : N) (by_ : jstr) (s : jstr) : jstr :=
  concat (List.map (fun d => if (d =? c)%N then by_ else [d]) s).

(** [s.indexOf(c)] for a one-character argument. *)
Fixpoint indexOf (s : jstr) (c : N) : Z :=
  match s with
  | [] => -1
  | d :: s' =>
      if (d =? c)%N then 0
      else let r := indexOf s' c in if (r <? 0)%Z then -1 else (r + 1)%Z
  end.

(** The local function [escape] of [applyHighlight]. *)
Definition escape (s : jstr) : jstr :=
  replace_all c_gt (str "&gt;")
    (replace_all c_lt (str "&lt;")
       (replace_all c_amp (str "&amp;") s)).

Definition span_open : jstr :=
  str "<span class=" ++ [c_dquote] ++ str "syntax-comment" ++ [c_dquote]
  ++ str ">".

Definition span_close : jstr := str "</span>".

(** The function mapped over the lines by [applyHighlight]. *)
Definition highlight_line (line : jstr) : jstr :=
  let idx := indexOf line c_hash in
  if (idx =? -1)%Z then escape line
  else
    escape (slice line 0 idx) ++ span_open
    ++ escape (slice line idx (Z.of_nat (length line))) ++ span_close.

(** [applyHighlight(text)]. *)
Definition applyHighlight (text : jstr) : jstr :=
  join_lines (highlight_line <$> split_lines text).

(** [escapeAttr(s)]; [None] stands for [null] or [undefined]. *)
Definition escapeAttr (s : option jstr) : jstr :=
  replace_all c_dquote (str "&quot;")
    (replace_all c_squote [92%N; c_squote] (default [] s)).

(** * Properties *)

(** ** Arrays and indices *)

Lemma lookupZ_Some {A} (l : list A) (i : Z) (x : A) :
  lookupZ l i = Some x ↔ (0 <= i)%Z ∧ l !! Z.to_nat i = Some x.
Proof.
  unfold lookupZ. destruct (Z.ltb_spec i 0); split.
  - discriminate.
  - intros [? _]; lia.
  - auto.
  - intros [_ ?]; auto.
Qed.

Lemma lookupZ_in_range {A} (l : list A) (i : Z) :
  (0 <= i < Z.of_nat (length l))%Z → is_Some (lookupZ l i).
Proof.
  intros Hi. unfold lookupZ. destruct (Z.ltb_spec i 0); [lia|].
  apply lookup_lt_is_Some. lia.
Qed.

Lemma lookupZ_lt {A} (l : list A) (i : Z) (x : A) :
  lookupZ l i = Some x → (0 <= i < Z.of_nat (length l))%Z.
Proof.
  intros [? H]%lookupZ_Some. apply lookup_lt_Some in H. lia.
Qed.

Lemma lookupZ_insert_ne {A} (l : list A) (i j : Z) (x : A) :
  (0 <= i)%Z → j ≠ i → lookupZ (<[Z.to_nat i := x]> l) j = lookupZ l j.
Proof.
  intros Hi Hne. unfold lookupZ. destruct (Z.ltb_spec j 0); [done|].
  apply list_lookup_insert_ne. lia.
Qed.

Lemma lookupZ_insert_eq {A} (l : list A) (i : Z) (x : A) :
  (0 <= i < Z.of_nat (length l))%Z → lookupZ (<[Z.to_nat i := x]> l) i = Some x.
Proof.
  intros Hi. unfold lookupZ. destruct (Z.ltb_spec i 0); [lia|].
  apply list_lookup_insert_eq. lia.
Qed.

Lemma eqb_str_true (a b : jstr) : eqb_str a b = true ↔ a = b.
Proof. unfold eqb_str. apply bool_decide_eq_true. Qed.

Lemma eqb_str_false (a b : jstr) : eqb_str a b = false ↔ a ≠ b.
Proof. unfold eqb_str. apply bool_decide_eq_false. Qed.

(** ** The navigator *)

(** What one run of the loop of [findChildKey] does, for a loop variable
    that stays inside the array. *)
Lemma findChildKey_loop_scan (lines : list jstr) (p : Z) (k : jstr) (n : nat) :
  ∀ i : Z,
    (0 <= i)%Z → (i + Z.of_nat n <= Z.of_nat (length lines))%Z →
    ∃ r stop : Z,
      findChildKey_loop lines n i p k = Some r
      ∧ (i <= stop)%Z
      ∧ (∀ j, (i <= j < stop)%Z →
           ∃ line, lookupZ lines j = Some line ∧ passed_over p k line)
      ∧ ((r = stop ∧ (stop < i + Z.of_nat n)%Z
          ∧ ∃ line, lookupZ lines stop = Some line ∧ child_match p k line)
         ∨ (r = (-1)%Z ∧ (stop < i + Z.of_nat n)%Z
            ∧ ∃ line, lookupZ lines stop = Some line ∧ scope_exit p line)
         ∨ (r = (-1)%Z ∧ stop = (i + Z.of_nat n)%Z)).
Proof.
  induction n as [|n IH]; intros i Hi Hn.
  - exists (-1)%Z, i. simpl. split_and!; [done|lia|intros; lia|].
    right; right. split; [done|lia].
  - destruct (lookupZ_in_range lines i) as [line Hline]; [lia|].
    simpl. rewrite Hline. simpl.
    destruct (IH (i + 1)%Z) as (r & stop & Hr & Hle & Hpass & Hcase); [lia..|].
    assert (Hnext :
      passed_over p k line →
      ∃ r0 stop0 : Z,
        findChildKey_loop lines n (i + 1) p k = Some r0
        ∧ (i <= stop0)%Z
        ∧ (∀ j, (i <= j < stop0)%Z →
             ∃ line0, lookupZ lines j = Some line0 ∧ passed_over p k line0)
        ∧ ((r0 = stop0 ∧ (stop0 < i + Z.of_nat (S n))%Z
            ∧ ∃ line0, lookupZ lines stop0 = Some line0 ∧ child_match p k line0)
           ∨ (r0 = (-1)%Z ∧ (stop0 < i + Z.of_nat (S n))%Z
              ∧ ∃ line0, lookupZ lines stop0 = Some line0 ∧ scope_exit p line0)
           ∨ (r0 = (-1)%Z ∧ stop0 = (i + Z.of_nat (S n))%Z))).
    { intros Hp. exists r, stop. split_and!; [done|lia| |].
      - intros j Hj. destruct (decide (j = i)) as [->|]; [eauto|].
        apply Hpass. lia.
      - destruct Hcase as [(?&?&?)|[(?&?&?)|(?&?)]].
        + left. split_and!; [done|lia|done].
        + right; left. split_and!; [done|lia|done].
        + right; right. split; [done|lia]. }
    destruct (blank_or_comment line) eqn:Hbc.
    { apply Hnext. by left. }
    destruct (Z.leb_spec (search_nonspace line) p) as [Hexit|Hdeep].
    { exists (-1)%Z, i. split_and!; [done|lia|intros; lia|].
      right; left. split_and!; [done|lia|]. exists line. by split. }
    destruct (match_key line) as [k'|] eqn:Hk.
    + destruct (eqb_str k' k && (search_nonspace line =? p + 2)%Z) eqn:Hm.
      * apply andb_true_iff in Hm as [->%eqb_str_true Hind%Z.eqb_eq].
        exists i, i. split_and!; [done|lia|intros; lia|].
        left. split_and!; [done|lia|]. exists line. by split.
      * apply Hnext. right. split; [lia|]. intros [Hind Hk'].
        simplify_eq. rewrite Hind, Z.eqb_refl, andb_true_r in Hm.
        by apply eqb_str_false in Hm.
    + apply Hnext. right. split; [lia|]. intros [_ ?]. congruence.
Qed.

(** The loop reads the array only at the indices it runs through. *)
Lemma findChildKey_loop_local (lines lines' : list jstr) (p : Z) (k : jstr)
    (n : nat) :
  ∀ i : Z,
    (∀ j, (i <= j < i + Z.of_nat n)%Z → lookupZ lines' j = lookupZ lines j) →
    findChildKey_loop lines' n i p k = findChildKey_loop lines n i p k.
Proof.
  induction n as [|n IH]; intros i Hag; [done|].
  simpl. rewrite (Hag i) by lia.
  destruct (lookupZ lines i) as [line|]; [simpl|done].
  rewrite !(IH (i + 1)%Z) by (intros; apply Hag; lia). done.
Qed.

(** C4. [findChildKey] scans the lines strictly between [start] and
    [end_] and stops at an index [stop]: every line before [stop] is passed
    over (blank, a comment, or deeper than the parent without being a
    match); then either the line at [stop] is returned, its indentation
    being exactly [p + 2] and its key token [k], or the sentinel [-1] is
    returned because that line has left the scope of the parent
    (indentation at most [p]) or because the range is exhausted.  No line
    outside the range influences the result. *)
Theorem findChildKey_scan (lines : list jstr) (start end_ p : Z) (k : jstr) :
  (-1 <= start)%Z → (end_ <= Z.of_nat (length lines))%Z →
  ∃ r stop : Z,
    findChildKey lines start end_ p k = Some r
    ∧ (start < stop)%Z
    ∧ (∀ j, (start < j < stop)%Z →
         ∃ line, lookupZ lines j = Some line ∧ passed_over p k line)
    ∧ ((r = stop ∧ (stop < end_)%Z
        ∧ ∃ line, lookupZ lines stop = Some line ∧ child_match p k line)
       ∨ (r = (-1)%Z ∧ (stop < end_)%Z
          ∧ ∃ line, lookupZ lines stop = Some line ∧ scope_exit p line)
       ∨ (r = (-1)%Z ∧ stop = Z.max end_ (start + 1)))
    ∧ (∀ lines' : list jstr,
         (∀ j, (start < j < end_)%Z → lookupZ lines' j = lookupZ lines j) →
         findChildKey lines' start end_ p k = Some r).
Proof.
  intros Hs He. unfold findChildKey.
  destruct (Z.le_gt_cases end_ (start + 1)) as [Hempty|Hrange].
  { exists (-1)%Z, (start + 1)%Z.
    replace (Z.to_nat (end_ - (start + 1))) with 0%nat by lia. simpl.
    split_and!; [done|lia|intros; lia| |done].
    right; right. split; [done|lia]. }
  destruct (findChildKey_loop_scan lines p k
              (Z.to_nat (end_ - (start + 1))) (start + 1)%Z)
    as (r & stop & Hr & Hle & Hpass & Hcase); [lia..|].
  exists r, stop. split_and!; [done|lia| | |].
  - intros j Hj. apply Hpass. lia.
  - destruct Hcase as [(?&?&?)|[(?&?&?)|(?&?)]].
    + left. split_and!; [done|lia|done].
    + right; left. split_and!; [done|lia|done].
    + right; right. split; [done|lia].
  - intros lines' Hag. rewrite <- Hr. apply findChildKey_loop_local.
    intros j Hj. apply Hag. lia.
Qed.

Lemma findChildKey_scan_witness :
  findChildKey [str "plan:"; str "  # note"; str "    deep: 1"; str "  periods: []"; str "next:"]
    0 5 0 (str "periods") = Some 3%Z.
Proof.
  destruct (findChildKey_scan
              [str "plan:"; str "  # note"; str "    deep: 1"; str "  periods: []"; str "next:"]
              0 5 0 (str "periods")) as (r & stop & Hr & _); [simpl; lia..|].
  rewrite Hr. vm_compute in Hr. symmetry. exact Hr.
Defined.

(** ** The scalar patcher *)

(** The frame of [replaceLineValue]: one index is written, if any. *)
Lemma replaceLineValue_frame (lines : list jstr) (idx : Z) (value : jsvalue)
    (original : jstr) :
  lookupZ lines idx = Some original →
  ∃ lines' : list jstr,
    replaceLineValue lines idx value = Some lines'
    ∧ length lines' = length lines
    ∧ (∀ j, j ≠ idx → lookupZ lines' j = lookupZ lines j)
    ∧ lookupZ lines' idx = Some (default original (replaced_line original value)).
Proof.
  intros Hlook. unfold replaceLineValue. rewrite Hlook. simpl.
  pose proof (lookupZ_lt _ _ _ Hlook) as Hrange.
  destruct (replaced_line original value) as [line|]; simpl.
  - eexists. split_and!; [done|apply length_insert| |].
    + intros j Hj. apply lookupZ_insert_ne; [lia|done].
    + by apply lookupZ_insert_eq.
  - eexists. split_and!; done.
Qed.

(** C8. On a line of the shape [key: value], [replaceLineValue] writes
    the array at that index only: the length is unchanged, every other
    line is the same before and after, and the new line is the old prefix,
    the formatted value and the old trailing comment.  On
    [key: 5  # keep me], the value 7 gives [key: 7  # keep me]. *)
Theorem replaceLineValue_one_line (lines : list jstr) (idx : Z)
    (value : jsvalue) (original prefix rest : jstr) :
  lookupZ lines idx = Some original →
  match_key_value original = Some (prefix, rest) →
  ∃ lines' : list jstr,
    replaceLineValue lines idx value = Some lines'
    ∧ length lines' = length lines
    ∧ (∀ j, j ≠ idx → lookupZ lines' j = lookupZ lines j)
    ∧ (let comment := default [] (match_trailing_comment rest) in
       lookupZ lines' idx
       = Some (prefix ++ format_replaced rest comment value ++ comment))
    ∧ replaceLineValue [str "key: 5  # keep me"] 0 (VNumber (str "7"))
      = Some [str "key: 7  # keep me"].
Proof.
  intros Hlook Hm.
  destruct (replaceLineValue_frame lines idx value original Hlook)
    as (lines' & Hr & Hlen & Hframe & Hidx).
  exists lines'. split_and!; [done..| |done].
  rewrite Hidx. unfold replaced_line. rewrite Hm. done.
Qed.

Lemma replaceLineValue_one_line_witness :
  ∃ lines' : list jstr,
    replaceLineValue [str "a: 1"; str "  name: old # c"; str "b: 2"] 1
      (VString (str "new")) = Some lines'
    ∧ lookupZ lines' 0 = Some (str "a: 1")
    ∧ lookupZ lines' 1 = Some (str "  name: new # c")
    ∧ lookupZ lines' 2 = Some (str "b: 2").
Proof.
  destruct (replaceLineValue_one_line
              [str "a: 1"; str "  name: old # c"; str "b: 2"] 1
              (VString (str "new")) (str "  name: old # c") (str "  name: ")
              (str "old # c"))
    as (lines' & Hr & _ & Hframe & Hidx & _); [reflexivity..|].
  exists lines'. split_and!; [done| | |].
  - rewrite Hframe by done. reflexivity.
  - rewrite Hidx. reflexivity.
  - rewrite Hframe by done. reflexivity.
Defined.

(** C10. For an index inside the array, [replaceLineValue] returns
    without raising; the array keeps its length and every line but the one
    at the index; and when the line has not the shape of a key line (a
    blank line, a comment, a list item), the whole array is unchanged. *)
Theorem replaceLineValue_total (lines : list jstr) (idx : Z) (value : jsvalue) :
  (0 <= idx < Z.of_nat (length lines))%Z →
  ∃ (lines' : list jstr) (original : jstr),
    lookupZ lines idx = Some original
    ∧ replaceLineValue lines idx value = Some lines'
    ∧ length lines' = length lines
    ∧ (∀ j, j ≠ idx → lookupZ lines' j = lookupZ lines j)
    ∧ (match_key_value original = None → lines' = lines)
    ∧ match_key_value [] = None
    ∧ match_key_value (str "# a comment") = None
    ∧ match_key_value (str "  - item") = None.
Proof.
  intros Hidx.
  destruct (lookupZ_in_range lines idx Hidx) as [original Hlook].
  destruct (replaceLineValue_frame lines idx value original Hlook)
    as (lines' & Hr & Hlen & Hframe & _).
  exists lines', original. split_and!; [done..| |done|done|done].
  intros Hno. unfold replaceLineValue, replaced_line in Hr.
  rewrite Hlook in Hr. simpl in Hr. rewrite Hno in Hr. congruence.
Qed.

Lemma replaceLineValue_total_witness :
  replaceLineValue [str "a: 1"; str "# only a comment"; str "b: 2"] 1
    (VBool true)
  = Some [str "a: 1"; str "# only a comment"; str "b: 2"].
Proof.
  destruct (replaceLineValue_total
              [str "a: 1"; str "# only a comment"; str "b: 2"] 1 (VBool true))
    as (lines' & original & Hlook & Hr & _ & _ & Hsame & _); [simpl; lia|].
  rewrite Hr. f_equal. apply Hsame.
  vm_compute in Hlook. injection Hlook as <-. reflexivity.
Defined.

(** C2. [replaceLineValue] keeps the quotes of a quoted value
    ([name: "Alice"] with [Bob]) and adds quotes for a colon ([name: Alice]
    with [A:B]); but it writes the empty string and a value that holds a
    double quote bare, where [updateYamlFromUI] (the same patch for the
    settings document) writes them between double quotes. *)
Theorem replaceLineValue_quoting :
  replaceLineValue [str "name: " ++ [c_dquote] ++ str "Alice" ++ [c_dquote]] 0
    (VString (str "Bob"))
  = Some [str "name: " ++ [c_dquote] ++ str "Bob" ++ [c_dquote]]
  ∧ replaceLineValue [str "name: Alice"] 0 (VString (str "A:B"))
    = Some [str "name: " ++ [c_dquote] ++ str "A:B" ++ [c_dquote]]
  ∧ replaceLineValue [str "name: Alice"] 0 (VString []) = Some [str "name: "]
  ∧ format_config_string (str "Alice") [] [] = [c_dquote; c_dquote]
  ∧ replaceLineValue [str "name: Alice"] 0
      (VString (str "a" ++ [c_dquote] ++ str "b"))
    = Some [str "name: a" ++ [c_dquote] ++ str "b"]
  ∧ format_config_string (str "Alice") [] (str "a" ++ [c_dquote] ++ str "b")
    = [c_dquote] ++ str "a" ++ [92%N; c_dquote] ++ str "b" ++ [c_dquote].
Proof. split_and!; reflexivity. Qed.

(** ** Totality of the navigation *)

Lemma findChildKey_total (lines : list jstr) (start end_ p : Z) (k : jstr) :
  (-1 <= start)%Z → (end_ <= Z.of_nat (length lines))%Z →
  ∃ r : Z, findChildKey lines start end_ p k = Some r
           ∧ (r = (-1)%Z ∨ (start < r < end_)%Z).
Proof.
  intros Hs He. unfold findChildKey.
  destruct (Z.le_gt_cases end_ (start + 1)) as [Hempty|Hrange].
  { replace (Z.to_nat (end_ - (start + 1))) with 0%nat by lia.
    exists (-1)%Z. simpl. auto. }
  destruct (findChildKey_loop_scan lines p k
              (Z.to_nat (end_ - (start + 1))) (start + 1)%Z)
    as (r & stop & Hr & Hle & _ & Hcase); [lia..|].
  exists r. split; [done|].
  destruct Hcase as [(?&?&?)|[(?&?&?)|(?&?)]]; [right; lia|by left..].
Qed.

Lemma findBlockEnd_loop_total (lines : list jstr) (indent maxEnd : Z) (n : nat) :
  ∀ i : Z,
    (0 <= i)%Z → (i + Z.of_nat n <= Z.of_nat (length lines))%Z →
    ∃ e : Z, findBlockEnd_loop lines n i indent maxEnd = Some e
             ∧ (e = maxEnd ∨ (i <= e < i + Z.of_nat n)%Z).
Proof.
  induction n as [|n IH]; intros i Hi Hn.
  - exists maxEnd. simpl. auto.
  - destruct (lookupZ_in_range lines i) as [line Hline]; [lia|].
    simpl. rewrite Hline. simpl.
    destruct (IH (i + 1)%Z) as (e & He & Hcase); [lia..|].
    destruct (blank_or_comment line).
    { exists e. split; [done|]. destruct Hcase; [by left|right; lia]. }
    destruct (search_nonspace line <=? indent)%Z.
    { exists i. split; [done|]. right; lia. }
    exists e. split; [done|]. destruct Hcase; [by left|right; lia].
Qed.

Lemma findBlockEnd_total (lines : list jstr) (start indent maxEnd : Z) :
  (-1 <= start)%Z → (maxEnd <= Z.of_nat (length lines))%Z →
  ∃ e : Z, findBlockEnd lines start indent maxEnd = Some e
           ∧ (e = maxEnd ∨ (start < e < maxEnd)%Z).
Proof.
  intros Hs He. unfold findBlockEnd.
  destruct (Z.le_gt_cases maxEnd (start + 1)) as [Hempty|Hrange].
  { replace (Z.to_nat (maxEnd - (start + 1))) with 0%nat by lia.
    exists maxEnd. simpl. auto. }
  destruct (findBlockEnd_loop_total lines indent maxEnd
              (Z.to_nat (maxEnd - (start + 1))) (start + 1)%Z)
    as (e & Hr & Hcase); [lia..|].
  exists e. split; [done|]. destruct Hcase; [by left|right; lia].
Qed.

Lemma findBlockEnd_loop_scan (lines : list jstr) (indent maxEnd : Z) (n : nat) :
  ∀ i : Z,
    (0 <= i)%Z → (i + Z.of_nat n <= Z.of_nat (length lines))%Z →
    ∃ e : Z,
      findBlockEnd_loop lines n i indent maxEnd = Some e
      ∧ ((e = maxEnd
          ∧ ∀ j, (i <= j < i + Z.of_nat n)%Z →
              ∃ line, lookupZ lines j = Some line ∧ inside_block indent line)
         ∨ ((i <= e < i + Z.of_nat n)%Z
            ∧ (∃ line, lookupZ lines e = Some line ∧ scope_exit indent line)
            ∧ ∀ j, (i <= j < e)%Z →
                ∃ line, lookupZ lines j = Some line ∧ inside_block indent line)).
Proof.
  induction n as [|n IH]; intros i Hi Hn.
  { exists maxEnd. split; [done|]. left. split; [done|]. intros j Hj. lia. }
  destruct (lookupZ_in_range lines i) as [line Hline]; [lia|].
  rewrite Nat2Z.inj_succ in Hn |- *. simpl. rewrite Hline. simpl.
  destruct (IH (i + 1)%Z) as (e & He & Hcases); [lia..|].
  assert (Hstep : ∀ (stop : Z), inside_block indent line →
            (∀ j, (i + 1 <= j < stop)%Z →
               ∃ l, lookupZ lines j = Some l ∧ inside_block indent l) →
            ∀ j, (i <= j < stop)%Z →
               ∃ l, lookupZ lines j = Some l ∧ inside_block indent l).
  { intros stop Hin Hrest j Hj. destruct (decide (j = i)) as [->|Hne].
    - by exists line.
    - apply Hrest. lia. }
  destruct (blank_or_comment line) eqn:Hbc.
  { exists e. split; [done|].
    destruct Hcases as [[-> Hall]|(Hrange & Hexit & Hall)].
    - left. split; [done|].
      intros j Hj. apply (Hstep (i + 1 + Z.of_nat n)%Z); [by left|done|lia].
    - right. split; [lia|]. split; [done|]. apply Hstep; [by left|done]. }
  destruct (Z.leb_spec (search_nonspace line) indent) as [Hle|Hgt].
  { exists i. split; [done|]. right. split; [lia|].
    split; [by exists line|]. intros j Hj. lia. }
  exists e. split; [done|].
  destruct Hcases as [[-> Hall]|(Hrange & Hexit & Hall)].
  - left. split; [done|].
    intros j Hj. apply (Hstep (i + 1 + Z.of_nat n)%Z); [by right|done|lia].
  - right. split; [lia|]. split; [done|]. apply Hstep; [by right|done].
Qed.

Lemma findBlockEnd_loop_local (lines lines' : list jstr) (indent maxEnd : Z)
    (n : nat) :
  ∀ i : Z,
    (∀ j, (i <= j < i + Z.of_nat n)%Z → lookupZ lines' j = lookupZ lines j) →
    findBlockEnd_loop lines' n i indent maxEnd
    = findBlockEnd_loop lines n i indent maxEnd.
Proof.
  induction n as [|n IH]; intros i Hsame; [done|].
  simpl. rewrite Hsame by lia.
  destruct (lookupZ lines i) as [line|]; [|done]. simpl.
  rewrite IH; [done|]. intros j Hj. apply Hsame. lia.
Qed.

(** [findBlockEnd] on a range inside the array returns the index of
    the first line after [start] that is neither blank nor a comment and is
    indented at most by [indent], or [maxEnd] when the range has no such
    line; every line before the returned index is blank, a comment, or
    indented more than [indent]. *)
Lemma findBlockEnd_cases (lines : list jstr) (start indent maxEnd : Z) :
  (-1 <= start)%Z → (maxEnd <= Z.of_nat (length lines))%Z →
  ∃ e : Z,
    findBlockEnd lines start indent maxEnd = Some e
    ∧ ((e = maxEnd
        ∧ ∀ j, (start < j < maxEnd)%Z →
            ∃ line, lookupZ lines j = Some line ∧ inside_block indent line)
       ∨ ((start < e < maxEnd)%Z
          ∧ (∃ line, lookupZ lines e = Some line ∧ scope_exit indent line)
          ∧ ∀ j, (start < j < e)%Z →
              ∃ line, lookupZ lines j = Some line ∧ inside_block indent line)).
Proof.
  intros Hstart Hend. unfold findBlockEnd.
  destruct (Z.le_gt_cases maxEnd (start + 1)) as [Hempty|Hrange].
  { replace (Z.to_nat (maxEnd - (start + 1))) with 0%nat by lia.
    exists maxEnd. split; [done|]. left. split; [done|]. intros j Hj. lia. }
  destruct (findBlockEnd_loop_scan lines indent maxEnd
              (Z.to_nat (maxEnd - (start + 1))) (start + 1)%Z)
    as (e & He & Hcases); [lia..|].
  exists e. split; [done|].
  destruct Hcases as [[-> Hall]|(Hr & Hexit & Hall)].
  - left. split; [done|]. intros j Hj. apply Hall. lia.
  - right. split; [lia|]. split; [done|]. intros j Hj. apply Hall. lia.
Qed.

(** The value of [findBlockEnd] is the end of the block. *)
Lemma findBlockEnd_block_end (lines : list jstr) (start indent maxEnd e : Z) :
  (-1 <= start)%Z → (maxEnd <= Z.of_nat (length lines))%Z →
  findBlockEnd lines start indent maxEnd = Some e →
  block_end lines start indent maxEnd e.
Proof.
  intros Hs He H.
  destruct (findBlockEnd_cases lines start indent maxEnd Hs He)
    as (e' & He' & Hcases).
  rewrite H in He'. injection He' as <-. exact Hcases.
Qed.

(** A block has one end. *)
Lemma block_end_unique (lines : list jstr) (start indent limit e e' : Z) :
  block_end lines start indent limit e → block_end lines start indent limit e' →
  e = e'.
Proof.
  assert (Hlt : ∀ a b, block_end lines start indent limit a →
            block_end lines start indent limit b → (a < b)%Z → False).
  { intros a b Ha Hb Hab.
    assert (Hb' : (b <= limit)%Z) by (destruct Hb as [[-> _]|[? _]]; lia).
    destruct Ha as [[-> _]|(Hr & (l & Hl & [Hbc Hle]) & _)]; [lia|].
    assert (Hin : ∃ line, lookupZ lines a = Some line
                          ∧ inside_block indent line).
    { destruct Hb as [[-> Hall]|(_ & _ & Hall)]; apply Hall; lia. }
    destruct Hin as (l' & Hl' & [Hin|Hin]); rewrite Hl in Hl';
      injection Hl' as <-; [congruence|lia]. }
  intros H1 H2.
  destruct (Z.lt_trichotomy e e') as [H|[H|H]]; [|done|];
    exfalso; eauto.
Qed.

Lemma block_end_findBlockEnd (lines : list jstr) (start indent limit e : Z) :
  (-1 <= start)%Z → (limit <= Z.of_nat (length lines))%Z →
  block_end lines start indent limit e →
  findBlockEnd lines start indent limit = Some e.
Proof.
  intros Hs He H.
  destruct (findBlockEnd_cases lines start indent limit Hs He)
    as (e' & He' & Hcases).
  rewrite He'. f_equal. by eapply block_end_unique.
Qed.

Lemma find_custom_range (lines : list jstr) :
  ∀ i r : Z, find_custom lines i = Some r →
             (i <= r < i + Z.of_nat (length lines))%Z.
Proof.
  induction lines as [|line lines IH]; intros i r H; simpl in H; [done|].
  rewrite length_cons, Nat2Z.inj_succ.
  destruct (startsWith line (str "custom:")).
  - injection H as <-. lia.
  - apply IH in H. lia.
Qed.

Lemma scan_presets_range (presetName : jstr) (lines : list jstr) :
  ∀ (i : Z) (b : bool) (r ind : Z),
    scan_presets presetName lines i b = Some (r, ind) →
    (i <= r < i + Z.of_nat (length lines))%Z.
Proof.
  induction lines as [|line lines IH]; intros i b r ind H; simpl in H; [done|].
  rewrite length_cons, Nat2Z.inj_succ.
  repeat case_match; try done;
    try (apply IH in H; lia); injection H as <- ?; lia.
Qed.

Lemma scan_presets'_range (presetName : jstr) (lines : list jstr) :
  ∀ (i : Z) (b : bool) (r ind : Z),
    scan_presets' presetName lines i b = Some (r, ind) →
    (i <= r < i + Z.of_nat (length lines))%Z.
Proof.
  induction lines as [|line lines IH]; intros i b r ind H; simpl in H; [done|].
  rewrite length_cons, Nat2Z.inj_succ.
  repeat case_match; try done;
    try (apply IH in H; lia); injection H as <- ?; lia.
Qed.

Lemma timeline_section_range (lines : list jstr) (presetName : jstr) (s ind : Z) :
  timeline_section lines presetName = Some (s, ind) →
  (0 <= s < Z.of_nat (length lines))%Z.
Proof.
  unfold timeline_section. destruct (eqb_str presetName (str "custom")).
  - destruct (find_custom lines 0) as [i|] eqn:Hf; [|done].
    simpl. intros [= <- <-]. apply find_custom_range in Hf. lia.
  - intros H%scan_presets_range. lia.
Qed.

Lemma findPresetSection_range (lines : list jstr) (presetName : jstr)
    (info : sectionInfo) :
  findPresetSection lines presetName = Some info →
  (0 <= sec_start info < Z.of_nat (length lines))%Z
  ∧ (sec_start info < sec_end info <= Z.of_nat (length lines))%Z.
Proof.
  unfold findPresetSection.
  set (found := if eqb_str presetName (str "custom") then _ else _).
  assert (Hfound : ∀ s ind, found = Some (s, ind) →
                            (0 <= s < Z.of_nat (length lines))%Z).
  { intros s ind. unfold found. destruct (eqb_str presetName (str "custom")).
    - destruct (find_custom lines 0) as [i|] eqn:Hf; [|done].
      simpl. intros [= <- <-]. apply find_custom_range in Hf. lia.
    - intros H%scan_presets'_range. lia. }
  destruct found as [[s ind]|]; [|done].
  specialize (Hfound s ind eq_refl).
  destruct (findBlockEnd_total lines s ind (Z.of_nat (length lines)))
    as (e & He & Hcase); [lia..|].
  rewrite He. intros [= <-]. simpl. lia.
Qed.

Lemma timeline_target_total (lines : list jstr) (s e ind : Z) (periodKey : jstr) :
  (0 <= s)%Z → (e <= Z.of_nat (length lines))%Z →
  ∃ t : Z, timeline_target lines s e ind periodKey = Some t
           ∧ (t = (-1)%Z ∨ (s < t < e)%Z).
Proof.
  intros Hs He. unfold timeline_target.
  destruct (eqb_str periodKey (str "default")).
  { apply findChildKey_total; lia. }
  destruct (findChildKey_total lines s e ind (str "periods"))
    as (pl & -> & Hpl); [lia..|]. simpl.
  destruct (Z.ltb_spec pl 0) as [|Hpos]; [eauto|].
  destruct Hpl as [->|Hpl]; [lia|].
  destruct (lookupZ_in_range lines pl) as [periods ->]; [lia|]. simpl.
  destruct (findBlockEnd_total lines pl (search_nonspace periods) e)
    as (pe & -> & Hpe); [lia..|]. simpl.
  destruct (findChildKey_total lines pl pe (search_nonspace periods) periodKey)
    as (t & -> & Ht); [lia..|].
  exists t. split; [done|]. destruct Ht as [->|Ht]; [by left|right; lia].
Qed.

Lemma timeline_field_line_total (lines : list jstr) (t tend tind : Z)
    (fieldParts : list jstr) :
  (0 <= t)%Z → (tend <= Z.of_nat (length lines))%Z →
  ∃ r : Z, timeline_field_line lines t tend tind fieldParts = Some r
           ∧ (r = (-1)%Z ∨ (t < r < tend)%Z).
Proof.
  intros Ht He. unfold timeline_field_line.
  destruct fieldParts as [|part0 [|part1 parts]]; [eauto| |].
  { apply findChildKey_total; lia. }
  destruct (findChildKey_total lines t tend tind part0)
    as (pl & -> & Hpl); [lia..|]. simpl.
  destruct (Z.leb_spec 0 pl) as [Hpos|]; [|eauto].
  destruct Hpl as [->|Hpl]; [lia|].
  destruct (lookupZ_in_range lines pl) as [parent ->]; [lia|]. simpl.
  destruct (findBlockEnd_total lines pl (search_nonspace parent) tend)
    as (pe & -> & Hpe); [lia..|]. simpl.
  destruct (findChildKey_total lines pl pe (search_nonspace parent) part1)
    as (r & -> & Hr); [lia..|].
  exists r. split; [done|]. destruct Hr as [->|Hr]; [by left|right; lia].
Qed.

Lemma splice_in_sublist {A} (l : list A) (i : Z) (items : list A) :
  sublist l (splice_in l i items).
Proof.
  unfold splice_in. rewrite <- (take_drop (Z.to_nat i) l) at 1.
  apply sublist_app; [done|]. by apply sublist_inserts_l.
Qed.

Lemma splice_in_length {A} (l : list A) (i : Z) (items : list A) :
  length (splice_in l i items) = (length l + length items)%nat.
Proof.
  unfold splice_in. rewrite !length_app.
  rewrite <- (take_drop (Z.to_nat i) l) at 3. rewrite length_app. lia.
Qed.

(** [insertTimelineField] returns, keeps the lines of the array in their
    order and adds one line or two. *)
Lemma insertTimelineField_inserts (lines : list jstr) (t tend tind : Z)
    (field : jstr) (value : jsvalue) (fieldParts : list jstr) :
  (0 <= t)%Z → (tend <= Z.of_nat (length lines))%Z →
  ∃ lines' : list jstr,
    insertTimelineField lines t tend tind field value fieldParts = Some lines'
    ∧ sublist lines lines'
    ∧ (length lines' = S (length lines) ∨ length lines' = S (S (length lines))).
Proof.
  intros Ht He. unfold insertTimelineField.
  destruct fieldParts as [|part0 [|part1 parts]].
  1,2: eexists; split_and!;
         [done|apply splice_in_sublist|left; rewrite splice_in_length; simpl; lia].
  destruct (findChildKey_total lines t tend tind part0)
    as (pl & -> & Hpl); [lia..|]. simpl.
  destruct (Z.leb_spec 0 pl) as [Hpos|].
  - destruct Hpl as [->|Hpl]; [lia|].
    destruct (lookupZ_in_range lines pl) as [parent ->]; [lia|]. simpl.
    destruct (findBlockEnd_total lines pl (search_nonspace parent) tend)
      as (pe & -> & Hpe); [lia..|]. simpl.
    eexists; split_and!;
      [done|apply splice_in_sublist|left; rewrite splice_in_length; simpl; lia].
  - eexists; split_and!;
      [done|apply splice_in_sublist|right; rewrite splice_in_length; simpl; lia].
Qed.

(** ** Patching a field of the schedule document *)

(** What [insertTimelineField] returns: the array with the lines of
    [field_inserted] spliced in. *)
Lemma insertTimelineField_spec (lines : list jstr) (t tend tind : Z)
    (field : jstr) (value : jsvalue) :
  (0 <= t)%Z → (tend <= Z.of_nat (length lines))%Z →
  ∃ (at_ : Z) (added : list jstr),
    insertTimelineField lines t tend tind field value (split_on c_dot field)
    = Some (splice_in lines at_ added)
    ∧ field_inserted lines t tend tind field value at_ added.
Proof.
  intros Ht He. unfold insertTimelineField, field_inserted. cbv zeta.
  destruct (split_on c_dot field) as [|part0 [|part1 parts]].
  1,2: by eexists _, _.
  destruct (findChildKey_total lines t tend tind part0)
    as (pl & -> & Hpl); [lia..|]. simpl.
  destruct (Z.leb_spec 0 pl) as [Hpos|]; [|by eexists _, _].
  destruct Hpl as [->|Hpl]; [lia|].
  destruct (lookupZ_in_range lines pl) as [parent Hparent]; [lia|].
  rewrite Hparent. simpl.
  destruct (findBlockEnd_total lines pl (search_nonspace parent) tend)
    as (pe & Hpe & _); [lia..|].
  rewrite Hpe. simpl. eexists _, _. split; [done|].
  exists parent. split; [done|]. split; [|done].
  apply findBlockEnd_block_end; [lia|lia|done].
Qed.

(** C3, as amended.  [updateTimelineField] never raises.  When the preset
    section or the period cannot be located, the editor keeps its text,
    byte for byte.  When both are located (the period opens on line [t],
    indented as its line [target], and its block ends at [tend]) and the
    field path is not found in the period, the field is inserted: the new
    text is the old sequence of lines with the lines of [field_inserted]
    spliced in.  For a path of one segment that is the line
    [field: value], indented two more than the period, at the end of the
    block of the period; for a nested path it is the child, indented two
    more than its parent, at the end of the block of the parent when the
    period has the parent key, and otherwise the parent and the child
    under it at the end of the block of the period. *)
Theorem updateTimelineField_missing_target (T presetName periodKey field : jstr)
    (value : jsvalue) :
  is_Some (updateTimelineField T presetName periodKey field value)
  ∧ (section_absent (split_lines T) presetName
     ∨ period_absent (split_lines T) presetName periodKey →
     updateTimelineField T presetName periodKey field value = Some T)
  ∧ (∀ (s ind e t tend : Z) (target : jstr),
       timeline_section (split_lines T) presetName = Some (s, ind) →
       findBlockEnd (split_lines T) s ind
         (Z.of_nat (length (split_lines T))) = Some e →
       timeline_target (split_lines T) s e ind periodKey = Some t →
       (0 <= t)%Z →
       lookupZ (split_lines T) t = Some target →
       findBlockEnd (split_lines T) t (search_nonspace target) e
       = Some tend →
       timeline_field_line (split_lines T) t tend (search_nonspace target)
         (split_on c_dot field) = Some (-1)%Z →
       block_end (split_lines T) t (search_nonspace target) e tend
       ∧ ∃ (at_ : Z) (added : list jstr),
           updateTimelineField T presetName periodKey field value
           = Some (join_lines
                     (take (Z.to_nat at_) (split_lines T) ++ added
                      ++ drop (Z.to_nat at_) (split_lines T)))
           ∧ field_inserted (split_lines T) t tend (search_nonspace target)
               field value at_ added).
Proof.
  unfold updateTimelineField, section_absent, period_absent.
  cbv zeta. generalize (split_lines T) as lines. intros lines.
  destruct (timeline_section lines presetName) as [[s ind]|] eqn:Hsec.
  2: { split_and!; [done|done|]. intros. done. }
  pose proof (timeline_section_range _ _ _ _ Hsec) as Hs.
  destruct (findBlockEnd_total lines s ind (Z.of_nat (length lines)))
    as (e & He & Hecase); [lia..|].
  rewrite He. simpl.
  destruct (timeline_target_total lines s e ind periodKey)
    as (t & Ht & Htcase); [lia..|].
  rewrite Ht. simpl.
  destruct (Z.ltb_spec t 0) as [Hneg|Hpos].
  { split_and!; [done|done|].
    intros s' ind' e' t' tend target [= <- <-] He' Ht' ? _.
    rewrite He in He'. injection He' as <-. rewrite Ht in Ht'.
    injection Ht' as <-. lia. }
  destruct Htcase as [->|Htr]; [lia|].
  destruct (lookupZ_in_range lines t) as [target Htarget]; [lia|].
  rewrite Htarget. simpl.
  destruct (findBlockEnd_total lines t (search_nonspace target) e)
    as (tend & Htend & Htendcase); [lia..|].
  rewrite Htend. simpl.
  destruct (timeline_field_line_total lines t tend (search_nonspace target)
              (split_on c_dot field)) as (idx & Hidx & Hidxcase); [lia..|].
  rewrite Hidx. simpl.
  destruct (insertTimelineField_spec lines t tend (search_nonspace target)
              field value)
    as (at_ & added & HI & Hins); [lia..|].
  split_and!.
  - destruct (Z.ltb_spec idx 0).
    + rewrite HI. done.
    + destruct Hidxcase as [->|Hr].
      * lia.
      * destruct (lookupZ_in_range lines idx) as [o Ho]; [lia|].
        destruct (replaceLineValue_frame lines idx value o Ho) as (l' & -> & _).
        done.
  - intros [?|(s' & ind' & e' & [= <- <-] & He' & Ht')]; [done|].
    rewrite He in He'. injection He' as <-. rewrite Ht in Ht'.
    injection Ht' as ->. lia.
  - intros s' ind' e' t' tend' target' [= <- <-] He' Ht' _ Htarget' Htend'
      Hidx'.
    rewrite He in He'. injection He' as <-.
    rewrite Ht in Ht'. injection Ht' as <-.
    rewrite Htarget in Htarget'. injection Htarget' as <-.
    rewrite Htend in Htend'. injection Htend' as <-.
    rewrite Hidx in Hidx'. injection Hidx' as ->. simpl.
    split; [apply findBlockEnd_block_end; [lia|lia|done]|].
    exists at_, added. rewrite HI. simpl. done.
Qed.

(** The theorem at a period that has no [push] field: the line
    [push: true] is added at the end of the block of the period. *)
Lemma updateTimelineField_missing_target_witness :
  let lines := [str "presets:"; str "  night:"; str "    periods:";
                str "      late:"; str "        name: Late";
                str "  day:"] in
  block_end (split_lines (join_lines lines)) 3 6 5 5
  ∧ ∃ (at_ : Z) (added : list jstr),
      updateTimelineField (join_lines lines) (str "night") (str "late")
        (str "push") (VBool true)
      = Some (join_lines
                (take (Z.to_nat at_) (split_lines (join_lines lines))
                 ++ added
                 ++ drop (Z.to_nat at_) (split_lines (join_lines lines))))
      ∧ field_inserted (split_lines (join_lines lines)) 3 5 6 (str "push")
          (VBool true) at_ added.
Proof.
  destruct (updateTimelineField_missing_target
              (join_lines [str "presets:"; str "  night:"; str "    periods:";
                           str "      late:"; str "        name: Late";
                           str "  day:"])
              (str "night") (str "late") (str "push") (VBool true))
    as (_ & _ & H).
  apply (H 1%Z 2%Z 5%Z 3%Z 5%Z (str "      late:")); try reflexivity.
  vm_compute. discriminate.
Defined.

(** The document of the counterexample to C3: a preset with one period
    that has no [push] field. *)
Lemma updateTimelineField_inserts_missing_field :
  let doc := join_lines [str "presets:"; str "  night:"; str "    periods:";
                         str "      late:"; str "        name: Late"] in
  field_absent (split_lines doc) (str "night") (str "late") (str "push")
  ∧ updateTimelineField doc (str "night") (str "late") (str "push") (VBool true)
    = Some (join_lines [str "presets:"; str "  night:"; str "    periods:";
                        str "      late:"; str "        name: Late";
                        str "        push: true"])
  ∧ updateTimelineField doc (str "night") (str "late") (str "push") (VBool true)
    ≠ Some doc.
Proof.
  split_and!.
  - exists 1%Z, 2%Z, 5%Z, 3%Z, 5%Z, (str "      late:").
    split_and!; try reflexivity. done.
  - reflexivity.
  - vm_compute. discriminate.
Qed.

(** ** Lists of periods in the day plans *)

Lemma lookupZ_app_length {A} (pre post : list A) :
  lookupZ (pre ++ post) (Z.of_nat (length pre)) = head post.
Proof.
  unfold lookupZ. destruct (Z.ltb_spec (Z.of_nat (length pre)) 0); [lia|].
  rewrite Nat2Z.id, lookup_app_r by lia.
  replace (length pre - length pre)%nat with 0%nat by lia. by destruct post.
Qed.



(** The fuel of the loop is never used up: an iteration advances [i] or
    shortens the array, so the value of the loop is the same for every
    fuel above [dpEnd - i + length lines]. *)
Lemma removePeriod_loop_fuel (fuel : nat) :
  ∀ (fuel' : nat) (lines : list jstr) (i dpEnd : Z) (periodKey : jstr),
    (Z.to_nat (dpEnd - i) + length lines <= fuel)%nat →
    (Z.to_nat (dpEnd - i) + length lines <= fuel')%nat →
    removePeriod_loop fuel lines i dpEnd periodKey
    = removePeriod_loop fuel' lines i dpEnd periodKey.
Proof.
  induction fuel as [|fuel IH]; intros fuel' lines i dpEnd periodKey Hf Hf'.
  - destruct fuel'; simpl; destruct (Z.leb_spec dpEnd i); try done; lia.
  - destruct fuel' as [|fuel']; simpl; destruct (Z.leb_spec dpEnd i);
      try done; [lia|].
    destruct (lookupZ lines i) as [line|] eqn:Hline; [|done]. simpl.
    apply lookupZ_lt in Hline.
    destruct (blank_or_comment line); [apply IH; lia|].
    destruct (match match_list_item line with
              | Some item => eqb_str item periodKey
              | None => false
              end).
    + assert (Hlen : (length (splice_out lines i 1) < length lines)%nat).
      { unfold splice_out. rewrite length_app, length_take, length_drop.
        change (Z.to_nat 1) with 1%nat. lia. }
      apply IH; lia.
    + destruct (match_inline_periods line) as [[prefix content]|];
        apply IH; rewrite ?length_insert; lia.
Qed.







(** ** Deleting a period *)

(** C6.  Deleting [lunch], which the two day plans reference (one in an
    inline list, one in a block), removes its block and both references
    when the block of [day_plans] is followed by another key.  But a block
    item written between quotes is left in place, where the same item of
    an inline list is removed; and when the block of [day_plans] ends the
    document, the loop of [removePeriodFromDayPlans] runs past the end of
    the shortened array and raises before the editor is written. *)
Theorem deleteTlPeriod_references :
  let config :=
    Some (PresetConfig [(str "workday", Some [str "lunch"; str "night"]);
                        (str "weekend", Some [str "lunch"])]) in
  deleteTlPeriod config true
    (join_lines
       [str "custom:"; str "  periods:"; str "    lunch:";
        str "      name: Lunch"; str "    night:"; str "      name: Night";
        str "  day_plans:"; str "    workday:";
        str "      periods: [lunch, night]"; str "    weekend:";
        str "      periods:"; str "        - lunch";
        str "  week_map:"; str "    1: workday"])
    (str "custom") (str "lunch")
  = Some (join_lines
            [str "custom:"; str "  periods:"; str "    night:";
             str "      name: Night";
             str "  day_plans:"; str "    workday:";
             str "      periods: [night]"; str "    weekend:";
             str "      periods:";
             str "  week_map:"; str "    1: workday"])
  ∧ deleteTlPeriod config true
      (join_lines
         [str "custom:"; str "  periods:"; str "    lunch:";
          str "      name: Lunch";
          str "  day_plans:"; str "    weekend:";
          str "      periods:";
          str "        - " ++ [c_dquote] ++ str "lunch" ++ [c_dquote];
          str "  week_map:"; str "    1: weekend"])
      (str "custom") (str "lunch")
    = Some (join_lines
              [str "custom:"; str "  periods:";
               str "  day_plans:"; str "    weekend:";
               str "      periods:";
               str "        - " ++ [c_dquote] ++ str "lunch" ++ [c_dquote];
               str "  week_map:"; str "    1: weekend"])
  ∧ deleteTlPeriod config true
      (join_lines
         [str "custom:"; str "  periods:"; str "    lunch:";
          str "      name: Lunch";
          str "  day_plans:"; str "    weekend:";
          str "      periods:"; str "        - lunch"])
      (str "custom") (str "lunch")
    = None.
Proof. split_and!; reflexivity. Qed.

(** ** The frequency rule parser: related groups *)

Lemma flushed_related_run (buffer : list group) :
  buffer ≠ [] → Forall unflagged buffer → related_run (flushed buffer).
Proof.
  intros Hne Hun. unfold flushed, related_run.
  destruct (Nat.ltb_spec 1 (length buffer)) as [Hlen|Hlen].
  - right. rewrite length_imap. split; [lia|].
    intros i g Hg. rewrite list_lookup_imap in Hg.
    destruct (buffer !! i) as [g0|]; [|done]. injection Hg as <-. done.
  - left. destruct buffer as [|g [|g' buffer]]; [done| |simpl in Hlen; lia].
    exists g. split; [done|]. by apply Forall_inv in Hun.
Qed.

(** *** The loop, by kind of line *)

Lemma flush_section st : currentSection (flushRelatedGroups st) = currentSection st.
Proof. unfold flushRelatedGroups. by case_match. Qed.

Lemma flush_current st : currentGroup (flushRelatedGroups st) = currentGroup st.
Proof. unfold flushRelatedGroups. by case_match. Qed.

Lemma flush_last st :
  lastLineWasAlias (flushRelatedGroups st) = lastLineWasAlias st.
Proof. unfold flushRelatedGroups. by case_match. Qed.

Lemma flush_pending st :
  pendingComments (flushRelatedGroups st) = pendingComments st.
Proof. unfold flushRelatedGroups. by case_match. Qed.

Lemma flush_buffer st : relatedGroupsBuffer (flushRelatedGroups st) = [].
Proof.
  unfold flushRelatedGroups. case_match eqn:H; [done|].
  apply Nat.ltb_ge in H. destruct (relatedGroupsBuffer st); [done|simpl in H; lia].
Qed.

Lemma flush_wordGroups st :
  wordGroups (result (flushRelatedGroups st))
  = wordGroups (result st) ++ flushed (relatedGroupsBuffer st).
Proof.
  unfold flushRelatedGroups. case_match eqn:H; [done|].
  apply Nat.ltb_ge in H.
  destruct (relatedGroupsBuffer st); [|simpl in H; lia].
  by rewrite app_nil_r.
Qed.

Lemma flush_globalFilter st :
  globalFilter (result (flushRelatedGroups st)) = globalFilter (result st).
Proof. unfold flushRelatedGroups. by case_match. Qed.

Lemma flush_originalText st :
  originalText (result (flushRelatedGroups st)) = originalText (result st).
Proof. unfold flushRelatedGroups. by case_match. Qed.

Lemma parse_finish_close (st : pstate) : parse_finish st = result (close_run st).
Proof. unfold parse_finish, close_run, flushRelatedGroups. simpl. by case_match. Qed.

(** Inside the groups section the iteration is [step_groups] at the class
    of the line. *)
Lemma parse_line_groups (st : pstate) (i : Z) (line : jstr) :
  currentSection st = SecGroups →
  parse_line st i line = step_groups st i line (classify line).
Proof.
  intros Hsec. unfold parse_line, classify, step_groups, close_run,
    open_group, update_group.
  rewrite Hsec. cbv zeta.
  destruct (startsWith (trim line) [c_hash]); [done|]. simpl.
  destruct (eqb_str (trim line) []); [by rewrite flush_current|].
  destruct (eqb_str (trim line) marker_global); [done|].
  destruct (eqb_str (trim line) marker_groups).
  { destruct st; simpl in *; by subst. }
  destruct (match_group_name (trim line)) as [nm|].
  { unfold flushRelatedGroups. simpl. by case_match. }
  destruct (match_alias (trim line)) as [[kw al]|].
  - destruct (currentGroup st) as [g|]; [|done].
    rewrite andb_comm. done.
  - done.
Qed.

Lemma unflagged_new (t : group_type) (nm : jstr) (ks : list jstr)
    (its : list alias_item) (i : Z) (cs : list jstr) :
  unflagged (Group t nm ks its i cs false None None).
Proof. done. Qed.

(** ** Strings: white space, trimming, splitting *)

Lemma span_spec {A} (p : A → bool) (l : list A) :
  l = (span p l).1 ++ (span p l).2
  ∧ Forall (fun x => p x = true) (span p l).1
  ∧ match (span p l).2 with
    | [] => True
    | x :: _ => p x = false
    end.
Proof.
  induction l as [|x l (IH1 & IH2 & IH3)]; simpl; [done|].
  destruct (p x) eqn:Hp.
  - destruct (span p l) as [a b]. simpl in *. split_and!; [by f_equal| |done].
    by constructor.
  - simpl. split_and!; done.
Qed.

Lemma span_all {A} (p : A → bool) (l : list A) :
  Forall (fun x => p x = true) l → span p l = (l, []).
Proof.
  induction 1 as [|x l Hx _ IH]; simpl; [done|]. by rewrite Hx, IH.
Qed.

Lemma span_app_stop {A} (p : A → bool) (a : list A) (x : A) (b : list A) :
  Forall (fun y => p y = true) a → p x = false →
  span p (a ++ x :: b) = (a, x :: b).
Proof.
  intros Ha Hx. induction Ha as [|y a Hy _ IH]; simpl.
  - by rewrite Hx.
  - by rewrite Hy, IH.
Qed.

Lemma skip_space_suffix (s : jstr) : ∃ w, s = w ++ skip_space s
                                        ∧ Forall (fun c => is_space c = true) w.
Proof.
  unfold skip_space. destruct (span_spec is_space s) as (H1 & H2 & _).
  by exists (span is_space s).1.
Qed.

Lemma skip_space_head (s : jstr) (c : N) (s' : jstr) :
  skip_space s = c :: s' → is_space c = false.
Proof.
  unfold skip_space. destruct (span_spec is_space s) as (_ & _ & H3).
  intros H. by rewrite H in H3.
Qed.

Lemma skip_space_cons_nonspace (c : N) (s : jstr) :
  is_space c = false → skip_space (c :: s) = c :: s.
Proof. intros H. unfold skip_space. simpl. by rewrite H. Qed.

Lemma skip_space_cons_space (c : N) (s : jstr) :
  is_space c = true → skip_space (c :: s) = skip_space s.
Proof.
  intros H. unfold skip_space. simpl. rewrite H. by destruct (span is_space s).
Qed.

Lemma skip_space_app_spaces (w s : jstr) :
  Forall (fun c => is_space c = true) w → skip_space (w ++ s) = skip_space s.
Proof.
  induction 1 as [|c w Hc _ IH]; simpl; [done|].
  by rewrite skip_space_cons_space.
Qed.

Lemma skip_space_fixed (s : jstr) :
  match s with [] => True | c :: _ => is_space c = false end →
  skip_space s = s.
Proof. destruct s as [|c s]; [done|]. apply skip_space_cons_nonspace. Qed.

Lemma skip_space_Forall (P : N → Prop) (s : jstr) :
  Forall P s → Forall P (skip_space s).
Proof.
  intros H. destruct (skip_space_suffix s) as (w & Hs & _).
  rewrite Hs in H. by apply Forall_app in H as [_ ?].
Qed.

Lemma trim_Forall (P : N → Prop) (s : jstr) : Forall P s → Forall P (trim s).
Proof.
  intros H. unfold trim, trimEnd, trimStart.
  apply Forall_rev, skip_space_Forall, Forall_rev, skip_space_Forall, H.
Qed.

Lemma trim_is_trimmed (s : jstr) : is_trimmed (trim s).
Proof.
  unfold trim, trimEnd, trimStart, is_trimmed.
  set (x := skip_space s).
  destruct (skip_space_suffix (rev x)) as (w & Hw & _).
  set (y := skip_space (rev x)) in *.
  split.
  - destruct (rev y) as [|c r] eqn:Hr; [done|].
    assert (Hx : x = (c :: r) ++ rev w).
    { rewrite <- Hr, <- rev_app_distr, <- Hw, rev_involutive. done. }
    simpl in Hx. by apply (skip_space_head s c (r ++ rev w)).
  - rewrite rev_involutive. destruct y as [|c y'] eqn:Hy; [done|].
    by apply (skip_space_head (rev x) c y').
Qed.

Lemma trim_fixed (s : jstr) : is_trimmed s → trim s = s.
Proof.
  intros [H1 H2]. unfold trim, trimEnd, trimStart.
  rewrite (skip_space_fixed s) by done.
  rewrite (skip_space_fixed (rev s)) by done.
  apply rev_involutive.
Qed.

Lemma trim_idemp (s : jstr) : trim (trim s) = trim s.
Proof. apply trim_fixed, trim_is_trimmed. Qed.

Lemma is_trimmed_last (s : jstr) (c : N) :
  is_trimmed (s ++ [c]) → is_space c = false.
Proof. intros [_ H]. by rewrite rev_app_distr in H. Qed.

Lemma is_trimmed_ends (c : N) (s : jstr) (d : N) :
  is_space c = false → is_space d = false → is_trimmed (c :: s ++ [d]).
Proof.
  intros Hc Hd. split; [done|].
  change (c :: s ++ [d]) with ((c :: s) ++ [d]). by rewrite rev_app_distr.
Qed.

Lemma classify_trim (line : jstr) : classify (trim line) = classify line.
Proof. unfold classify. by rewrite trim_idemp. Qed.

(** *** Splitting and joining lines *)

Lemma split_on_nonempty (sep : N) (s : jstr) : split_on sep s ≠ [].
Proof. destruct s as [|c s]; simpl; [done|]. repeat case_match; done. Qed.

Lemma split_on_no_sep (sep : N) (s : jstr) :
  Forall (fun l => sep ∉ l) (split_on sep s).
Proof.
  induction s as [|c s IH]; simpl.
  { constructor; [|done]. by intros ?%elem_of_nil. }
  destruct (N.eqb_spec c sep) as [->|Hne].
  - constructor; [|done]. by intros ?%elem_of_nil.
  - destruct (split_on sep s) as [|l ls]; [constructor; [|done]|].
    + intros [?|?%elem_of_nil]%elem_of_cons; done.
    + apply Forall_cons in IH as [Hl Hls]. constructor; [|done].
      intros [?|?]%elem_of_cons; done.
Qed.

Lemma split_on_line (sep : N) (l : jstr) :
  sep ∉ l → split_on sep l = [l].
Proof.
  induction l as [|c l IH]; intros Hl; simpl; [done|].
  apply not_elem_of_cons in Hl as [Hc Hl].
  destruct (N.eqb_spec c sep) as [->|_]; [done|]. by rewrite IH.
Qed.

Lemma split_on_join (sep : N) (ls : list jstr) :
  ls ≠ [] → Forall (fun l => sep ∉ l) ls →
  split_on sep (join [sep] ls) = ls.
Proof.
  induction ls as [|l ls IH]; intros Hne Hall; [done|].
  apply Forall_cons in Hall as [Hl Hls].
  destruct ls as [|l' ls]; [by apply split_on_line|].
  specialize (IH ltac:(done) Hls).
  change (join [sep] (l :: l' :: ls)) with (l ++ [sep] ++ join [sep] (l' :: ls)).
  revert IH. generalize (join [sep] (l' :: ls)) as J. intros J IH.
  clear Hls. induction l as [|c l IHl]; simpl.
  - rewrite N.eqb_refl. by rewrite IH.
  - apply not_elem_of_cons in Hl as [Hc Hl].
    destruct (N.eqb_spec c sep) as [->|_]; [done|].
    simpl in IHl. by rewrite IHl.
Qed.

Lemma join_split_on (sep : N) (s : jstr) : join [sep] (split_on sep s) = s.
Proof.
  induction s as [|c s IH]; simpl; [done|].
  destruct (N.eqb_spec c sep) as [->|_].
  - pose proof (split_on_nonempty sep s).
    destruct (split_on sep s) as [|l ls] eqn:Hs; [done|].
    simpl in *. by rewrite IH.
  - destruct (split_on sep s) as [|l ls] eqn:Hs.
    + by destruct (split_on_nonempty sep s).
    + rewrite <- IH. by destruct ls.
Qed.

(** ** The patterns of the rule file *)

Lemma match_group_name_sound (t nm : jstr) :
  match_group_name t = Some nm →
  t = c_lbracket :: nm ++ [c_rbracket] ∧ nm ≠ [] ∧ c_rbracket ∉ nm.
Proof.
  unfold match_group_name. destruct t as [|c s]; [done|].
  destruct (N.eqb_spec c c_lbracket) as [->|]; [|done].
  destruct (span_spec (fun d => negb (d =? c_rbracket)%N) s) as (H1 & H2 & H3).
  destruct (span _ s) as [a b]. simpl in *.
  destruct a as [|x a]; [done|]. destruct b as [|y [|z b]]; [done| |done].
  intros [= <-]. apply negb_false_iff, N.eqb_eq in H3 as ->.
  split_and!; [by rewrite H1|done|].
  intros Hin. rewrite Forall_forall in H2. apply H2 in Hin.
  by rewrite N.eqb_refl in Hin.
Qed.

Lemma match_group_name_complete (nm : jstr) :
  nm ≠ [] → c_rbracket ∉ nm →
  match_group_name (c_lbracket :: nm ++ [c_rbracket]) = Some nm.
Proof.
  intros Hne Hnot. unfold match_group_name. rewrite N.eqb_refl.
  rewrite span_app_stop; [by destruct nm| |by rewrite N.eqb_refl].
  apply Forall_forall. intros x Hx. apply negb_true_iff, N.eqb_neq.
  by intros ->.
Qed.

Lemma after_arrow_sound (s a : jstr) :
  after_arrow s = Some a →
  ∃ w1 rest : jstr,
    s = w1 ++ [c_eq; c_gt] ++ rest
    ∧ Forall (fun c => is_space c = true) w1
    ∧ a = skip_space rest
    ∧ forallb not_lt a = true.
Proof.
  unfold after_arrow. destruct (skip_space_suffix s) as (w1 & Hs & Hw1).
  destruct (skip_space s) as [|c [|d s2]]; [done..|].
  destruct (N.eqb_spec c c_eq) as [->|]; [|done].
  destruct (N.eqb_spec d c_gt) as [->|]; [|done]. simpl.
  destruct (forallb not_lt (skip_space s2)) eqn:Hlt; [|done].
  intros [= <-]. by exists w1, s2.
Qed.

Lemma after_arrow_complete (w1 rest : jstr) :
  Forall (fun c => is_space c = true) w1 →
  forallb not_lt (skip_space rest) = true →
  after_arrow (w1 ++ [c_eq; c_gt] ++ rest) = Some (skip_space rest).
Proof.
  intros Hw Hlt. unfold after_arrow.
  rewrite skip_space_app_spaces by done.
  change ([c_eq; c_gt] ++ rest) with (c_eq :: c_gt :: rest).
  rewrite skip_space_cons_nonspace by done.
  rewrite !N.eqb_refl. simpl. by rewrite Hlt.
Qed.

Lemma after_arrow_space (c : N) (s : jstr) :
  is_space c = true → after_arrow (c :: s) = after_arrow s.
Proof. intros H. unfold after_arrow. by rewrite skip_space_cons_space. Qed.

Lemma alias_search_sound (s : jstr) :
  ∀ (taken k a : jstr),
    alias_search taken s = Some (k, a) →
    ∃ s1 s2 : jstr,
      s = s1 ++ s2 ∧ k = rev taken ++ s1 ∧ after_arrow s2 = Some a
      ∧ ∀ p b, s1 = p ++ b → b ≠ [] → after_arrow (b ++ s2) = None.
Proof.
  induction s as [|c s IH]; intros taken k a; simpl.
  - done.
  - destruct (after_arrow (c :: s)) as [r|] eqn:Ha.
    + intros [= <- <-]. exists [], (c :: s). rewrite app_nil_r.
      split_and!; [done..|]. by intros [|??] [|??].
    + destruct (is_lt c); [done|].
      intros (s1 & s2 & -> & -> & Hs2 & Hmin)%IH.
      exists (c :: s1), s2. split_and!; [done| |done|].
      * simpl. by rewrite <- app_assoc.
      * intros p b Hpb Hb. destruct p as [|x p]; simpl in Hpb.
        -- subst b. done.
        -- injection Hpb as -> Hpb. by eapply Hmin.
Qed.

Lemma alias_search_complete (s1 : jstr) :
  ∀ (taken s2 a : jstr),
    Forall (fun c => is_lt c = false) s1 →
    after_arrow s2 = Some a →
    (∀ p b, s1 = p ++ b → b ≠ [] → after_arrow (b ++ s2) = None) →
    alias_search taken (s1 ++ s2) = Some (rev taken ++ s1, a).
Proof.
  induction s1 as [|c s1 IH]; intros taken s2 a Hlt Ha Hmin.
  - rewrite app_nil_r. simpl. destruct s2 as [|d s2]; [done|].
    simpl. by rewrite Ha.
  - apply Forall_cons in Hlt as [Hc Hlt]. simpl.
    pose proof (Hmin [] (c :: s1) eq_refl ltac:(done)) as H0.
    simpl in H0. rewrite H0, Hc.
    rewrite (IH (c :: taken) s2 a Hlt Ha).
    + simpl. by rewrite <- app_assoc.
    + intros p b Hpb Hb. apply (Hmin (c :: p) b); [|done]. by rewrite Hpb.
Qed.

Lemma skip_space_app_nonempty (b z : jstr) :
  skip_space b ≠ [] → skip_space (b ++ z) = skip_space b ++ z.
Proof.
  induction b as [|c b IH]; [done|]. simpl.
  destruct (is_space c) eqn:Hc.
  - rewrite !skip_space_cons_space by done. apply IH.
  - intros _. by rewrite !skip_space_cons_nonspace.
Qed.

Lemma skip_space_snoc_nonempty (b : jstr) (z : N) :
  is_space z = false → skip_space (b ++ [z]) ≠ [].
Proof.
  intros Hz. induction b as [|c b IH]; simpl.
  - by rewrite skip_space_cons_nonspace.
  - destruct (is_space c) eqn:Hc.
    + by rewrite skip_space_cons_space.
    + by rewrite skip_space_cons_nonspace.
Qed.

Lemma forallb_not_lt (s : jstr) :
  forallb not_lt s = true ↔ Forall (fun c => is_lt c = false) s.
Proof.
  rewrite forallb_forall, Forall_forall. unfold not_lt.
  split; intros H x Hx.
  - apply negb_true_iff, H. by apply list_elem_of_In.
  - apply negb_true_iff, H. by apply list_elem_of_In.
Qed.

(** The shape of a trimmed line, free of line terminators, that the alias
    pattern matches: the keyword, white space, the arrow, white space, the
    alias; the keyword is the shortest one. *)
Lemma match_alias_shape (t kw al : jstr) :
  is_trimmed t → Forall (fun c => is_lt c = false) t →
  match_alias t = Some (kw, al) →
  ∃ (c : N) (s1 w1 rest : jstr),
    t = c :: s1 ++ w1 ++ [c_eq; c_gt] ++ rest
    ∧ kw = c :: s1 ∧ al = skip_space rest
    ∧ Forall (fun c => is_space c = true) w1
    ∧ is_trimmed kw ∧ is_trimmed al
    ∧ ∀ p b, s1 = p ++ b → b ≠ [] →
        after_arrow (b ++ w1 ++ [c_eq; c_gt] ++ rest) = None.
Proof.
  intros Htrim Hlt. unfold match_alias. destruct t as [|c s]; [done|].
  destruct (is_lt c); [done|].
  destruct (alias_search [c] s) as [[k a]|] eqn:Hsearch; [|done].
  intros [= <- <-].
  apply alias_search_sound in Hsearch as (s1 & s2 & -> & -> & Harrow & Hmin).
  apply after_arrow_sound in Harrow as Hshape.
  destruct Hshape as (w1 & rest & -> & Hw1 & -> & Hrest).
  assert (Hk : is_trimmed (rev [c] ++ s1)).
  { destruct Htrim as [Hc _]. simpl. split; [done|].
    destruct s1 as [|z s1 _] using rev_ind; [done|].
    change (c :: s1 ++ [z]) with ((c :: s1) ++ [z]). rewrite rev_app_distr.
    simpl. destruct (is_space z) eqn:Hz; [|done].
    specialize (Hmin s1 [z] eq_refl ltac:(done)).
    simpl in Hmin, Harrow. rewrite after_arrow_space in Hmin by done.
    congruence. }
  assert (Ha : is_trimmed (skip_space rest)).
  { split.
    - destruct (skip_space rest) as [|d r] eqn:Hd; [done|].
      by eapply skip_space_head.
    - destruct (skip_space_suffix rest) as (w & Hr & _).
      destruct (skip_space rest) as [|z a _] using rev_ind; [done|].
      rewrite rev_app_distr. simpl.
      apply (is_trimmed_last (c :: s1 ++ w1 ++ [c_eq; c_gt] ++ w ++ a)).
      rewrite Hr in Htrim. simpl in *.
      repeat first [rewrite <- app_assoc | progress simpl]. done. }
  exists c, s1, w1, rest. simpl in *.
  rewrite !trim_fixed by done. split_and!; done.
Qed.

(** The rebuilt alias line is matched with the same two captures. *)
Lemma alias_search_rebuilt (c : N) (s1 w1 rest x2 : jstr) :
  Forall (fun c => is_lt c = false) (c :: s1 ++ w1 ++ [c_eq; c_gt] ++ rest) →
  is_trimmed (c :: s1) →
  (∀ p b, s1 = p ++ b → b ≠ [] →
     after_arrow (b ++ w1 ++ [c_eq; c_gt] ++ rest) = None) →
  skip_space x2 = skip_space rest →
  alias_search [c] (s1 ++ [c_space; c_eq; c_gt] ++ x2)
  = Some (c :: s1, skip_space rest).
Proof.
  intros Hlt Hk Hmin Hx2.
  apply Forall_cons in Hlt as [_ Hlt].
  apply Forall_app in Hlt as [Hs1 Hlt2].
  apply (alias_search_complete s1 [c]); [done| |].
  - rewrite <- Hx2. apply (after_arrow_complete [c_space]); [by constructor|].
    rewrite Hx2. apply forallb_not_lt, skip_space_Forall.
    by apply Forall_app in Hlt2 as [_ [_ [_ ?]%Forall_cons]%Forall_cons].
  - intros p b Hpb Hb.
    destruct b as [|z b _] using rev_ind; [done|].
    assert (Hz : is_space z = false).
    { apply (is_trimmed_last (c :: p ++ b)). rewrite Hpb in Hk.
      simpl. by rewrite <- app_assoc. }
    specialize (Hmin p (b ++ [z]) Hpb Hb).
    unfold after_arrow in Hmin |- *.
    pose proof (skip_space_snoc_nonempty b z Hz) as Hne.
    rewrite skip_space_app_nonempty in Hmin |- * by done.
    destruct (skip_space (b ++ [z])) as [|h [|d b']] eqn:Hb'; [done| |].
    + simpl. destruct (h =? c_eq)%N; done.
    + simpl in Hmin |- *.
      destruct ((h =? c_eq)%N && (d =? c_gt)%N); [|done].
      assert (Hfree : forallb not_lt
                        (skip_space (b' ++ w1 ++ c_eq :: c_gt :: rest)) = true).
      { apply forallb_not_lt, skip_space_Forall, Forall_app. split; [|done].
        rewrite Hpb in Hs1. apply Forall_app in Hs1 as [_ Hs1].
        apply (skip_space_Forall _ _) in Hs1. rewrite Hb' in Hs1.
        by apply Forall_cons in Hs1 as [_ [_ ?]%Forall_cons]. }
      by rewrite Hfree in Hmin.
Qed.

Lemma startsWith_one (c d : N) (s : jstr) :
  startsWith (c :: s) [d] = (d =? c)%N.
Proof. cbn [startsWith]. destruct s; apply andb_true_r. Qed.

Lemma marker_global_no_arrow : c_eq ∉ marker_global.
Proof. apply (bool_decide_unpack _). by vm_compute. Qed.

Lemma marker_groups_no_arrow : c_eq ∉ marker_groups.
Proof. apply (bool_decide_unpack _). by vm_compute. Qed.

Lemma trimEnd_snoc_space (x : jstr) (z : N) :
  is_space z = true → trimEnd (x ++ [z]) = trimEnd x.
Proof.
  intros Hz. unfold trimEnd. rewrite rev_app_distr.
  change (rev [z] ++ rev x) with (z :: rev x).
  by rewrite skip_space_cons_space.
Qed.

Lemma trimEnd_snoc_nonspace (x : jstr) (z : N) :
  is_space z = false → trimEnd (x ++ [z]) = x ++ [z].
Proof.
  intros Hz. unfold trimEnd. rewrite rev_app_distr.
  change (rev [z] ++ rev x) with (z :: rev x).
  rewrite skip_space_cons_nonspace by done.
  change (z :: rev x) with ([z] ++ rev x).
  by rewrite rev_app_distr, rev_involutive.
Qed.

Lemma trim_rebuilt_alias (kw al : jstr) :
  kw ≠ [] → is_trimmed kw → is_trimmed al →
  ∃ x2 : jstr,
    trim (kw ++ str " => " ++ al) = kw ++ [c_space; c_eq; c_gt] ++ x2
    ∧ skip_space x2 = al
    ∧ (x2 = [] ∧ al = [] ∨ ∃ a' z, x2 = c_space :: a' ++ [z] ∧ al = a' ++ [z]).
Proof.
  intros Hne [Hk1 Hk2] [Ha1 Ha2].
  destruct kw as [|c s1]; [done|].
  destruct al as [|z a' _] using rev_ind.
  - exists []. split_and!; [|done|by left].
    unfold trim, trimStart. rewrite !app_nil_r.
    rewrite skip_space_fixed by done.
    change (str " => ") with ([c_space; c_eq] ++ [c_gt] ++ [c_space]).
    rewrite !app_assoc. rewrite trimEnd_snoc_space by done.
    rewrite trimEnd_snoc_nonspace by done. by rewrite <- app_assoc.
  - exists (c_space :: a' ++ [z]). split_and!.
    + apply trim_fixed. rewrite rev_app_distr in Ha2. simpl in Ha2.
      change (is_trimmed (c :: s1 ++ [c_space; c_eq; c_gt; c_space] ++ a' ++ [z])).
      rewrite !app_assoc. by apply is_trimmed_ends.
    + rewrite skip_space_cons_space by done. by apply skip_space_fixed.
    + right. by exists a', z.
Qed.

(** The line that the builder writes for an alias item is read back as the
    same item. *)
Lemma classify_alias_rebuilt (line kw al : jstr) :
  Forall (fun c => is_lt c = false) (trim line) →
  classify line = LAlias kw al →
  classify (kw ++ str " => " ++ al) = LAlias kw al
  ∧ Forall (fun c => is_lt c = false) kw
  ∧ Forall (fun c => is_lt c = false) al.
Proof.
  intros Hlt. unfold classify at 1. cbv zeta.
  pose proof (trim_is_trimmed line) as Htrim.
  revert Hlt Htrim. generalize (trim line) as t. intros t Hlt Htrim.
  destruct (startsWith t [c_hash]) eqn:Hhash; [done|].
  destruct (eqb_str t []); [done|].
  destruct (eqb_str t marker_global); [done|].
  destruct (eqb_str t marker_groups); [done|].
  destruct (match_group_name t) as [?|] eqn:Hlabel; [done|].
  destruct (match_alias t) as [[kw' al']|] eqn:Halias; [|done].
  intros [= -> ->].
  destruct (match_alias_shape t kw al Htrim Hlt Halias)
    as (c & s1 & w1 & rest & Ht & Hkw & Hal & Hw1 & Hk & Ha & Hmin).
  assert (Hltk : Forall (fun c => is_lt c = false) kw).
  { rewrite Ht in Hlt. rewrite Hkw.
    apply Forall_cons in Hlt as [? [? _]%Forall_app]. by constructor. }
  assert (Hlta : Forall (fun c => is_lt c = false) al).
  { rewrite Ht in Hlt. rewrite Hal. apply skip_space_Forall.
    apply Forall_cons in Hlt as [_ [_ [_ H]%Forall_app]%Forall_app].
    by apply Forall_cons in H as [_ [_ ?]%Forall_cons]. }
  split_and!; [|done|done].
  destruct (trim_rebuilt_alias kw al) as (x2 & Hu & Hx2 & Hcase);
    [by rewrite Hkw|done|done|].
  unfold classify. rewrite Hu. cbv zeta. rewrite Hkw.
  change ((c :: s1) ++ [c_space; c_eq; c_gt] ++ x2)
    with (c :: s1 ++ [c_space; c_eq; c_gt] ++ x2).
  assert (Hin : c_eq ∈ c :: s1 ++ [c_space; c_eq; c_gt] ++ x2).
  { apply elem_of_cons. right. apply elem_of_app. right.
    apply elem_of_cons. right. by apply elem_of_cons; left. }
  rewrite Ht, startsWith_one in Hhash. rewrite startsWith_one, Hhash.
  change (eqb_str (c :: s1 ++ [c_space; c_eq; c_gt] ++ x2) []) with false.
  cbv iota.
  destruct (eqb_str _ marker_global) eqn:E1.
  { apply eqb_str_true in E1. rewrite E1 in Hin.
    by apply marker_global_no_arrow in Hin. }
  destruct (eqb_str _ marker_groups) eqn:E2.
  { apply eqb_str_true in E2. rewrite E2 in Hin.
    by apply marker_groups_no_arrow in Hin. }
  clear E1 E2 Hin.
  destruct (match_group_name (c :: s1 ++ [c_space; c_eq; c_gt] ++ x2))
    as [nm|] eqn:Hl2.
  { exfalso. apply match_group_name_sound in Hl2 as (Heq & Hnm & Hnot).
    injection Heq as -> Heq. simpl in Heq.
    destruct Hcase as [[-> _]|(a' & z & -> & Hal')].
    - change (s1 ++ [c_space; c_eq; c_gt]) with (s1 ++ [c_space; c_eq] ++ [c_gt])
        in Heq.
      rewrite app_assoc in Heq. by apply app_inj_tail in Heq as [_ ?].
    - change (s1 ++ c_space :: c_eq :: c_gt :: c_space :: a' ++ [z])
        with (s1 ++ [c_space; c_eq; c_gt; c_space] ++ a' ++ [z]) in Heq.
      rewrite !app_assoc in Heq. apply app_inj_tail in Heq as [Heq ->].
      rewrite <- Heq in Hnot.
      destruct (skip_space_suffix rest) as (w & Hrest & Hw).
      rewrite <- Hal, Hal' in Hrest.
      assert (Hsp : ∀ l, Forall (fun c => is_space c = true) l → c_rbracket ∉ l).
      { intros l Hl Hin. rewrite Forall_forall in Hl. by apply Hl in Hin. }
      assert (Et : t = c_lbracket
                       :: (s1 ++ w1 ++ [c_eq; c_gt] ++ w ++ a') ++ [c_rbracket]).
      { rewrite Ht, Hrest. f_equal.
        repeat first [rewrite <- app_assoc | progress simpl]. done. }
      rewrite Et, match_group_name_complete in Hlabel.
      + done.
      + by destruct s1, w1.
      + rewrite !not_elem_of_app in Hnot.
        destruct Hnot as [[Hn1 _] Hn2].
        intros [?|[Hin|Hin]%elem_of_app]%elem_of_app;
          [done|exact (Hsp w1 Hw1 Hin)|].
        apply elem_of_cons in Hin as [?|Hin]; [done|].
        apply elem_of_cons in Hin as [?|Hin]; [done|].
        apply elem_of_app in Hin as [Hin|?]; [exact (Hsp w Hw Hin)|done]. }
  unfold match_alias.
  assert (Hc : is_lt c = false).
  { rewrite Ht in Hlt. by apply Forall_cons in Hlt as [? _]. }
  rewrite Hc.
  rewrite (alias_search_rebuilt c s1 w1 rest x2);
    [|by rewrite <- Ht|by rewrite <- Hkw|done|by rewrite Hx2].
  rewrite <- Hal, <- Hkw. by rewrite !trim_fixed.
Qed.

Lemma classify_label_rebuilt (line nm : jstr) :
  classify line = LLabel nm →
  trim line = [c_lbracket] ++ nm ++ [c_rbracket] ∧ nm ≠ []
  ∧ classify ([c_lbracket] ++ nm ++ [c_rbracket]) = LLabel nm.
Proof.
  intros Hc. pose proof Hc as Hc'. unfold classify in Hc'. cbv zeta in Hc'.
  repeat case_match; try done. injection Hc' as ->.
  match goal with H : match_group_name _ = Some _ |- _ =>
    apply match_group_name_sound in H as (Ht & Hnm & _) end.
  split_and!; [done|done|]. simpl in Ht |- *. by rewrite <- Ht, classify_trim.
Qed.

Lemma classify_keyword_rebuilt (line k : jstr) :
  classify line = LKeyword k → k = trim line ∧ keyword_stable k.
Proof.
  intros Hc. pose proof Hc as Hc'. unfold classify in Hc'. cbv zeta in Hc'.
  repeat case_match; try done. injection Hc' as <-.
  split; [done|]. unfold keyword_stable. by rewrite classify_trim.
Qed.

Lemma classify_nil : classify [] = LBlank.
Proof. reflexivity. Qed.

(** ** The shape of the parser's result *)

Lemma chained_snoc (run : list group) :
  ∀ (a g h : group),
    chained a (run ++ [g]) → follows g h → chained a ((run ++ [g]) ++ [h]).
Proof.
  induction run as [|b run IH]; intros a g h; simpl.
  - intros [Hag _] Hgh. done.
  - intros [Hab Hch] Hgh. split; [done|]. by apply IH.
Qed.

Lemma chained_replace_last (run : list group) :
  ∀ (a g g' : group),
    chained a (run ++ [g]) → (∀ p, follows p g → follows p g') →
    chained a (run ++ [g']).
Proof.
  induction run as [|b run IH]; intros a g g'; simpl.
  - intros [Hag _] Hrep. split; [by apply Hrep|done].
  - intros [Hab Hch] Hrep. split; [done|]. by eapply IH.
Qed.

Lemma proper_run_single (g : group) : proper_group g → proper_run [g].
Proof. intros Hg. split; [by constructor|done]. Qed.

Lemma proper_run_snoc (buf : list group) (g h : group) :
  proper_run (buf ++ [g]) → proper_group h → follows g h →
  proper_run ((buf ++ [g]) ++ [h]).
Proof.
  intros Hrun Hh Hgh. destruct buf as [|b buf]; simpl in *.
  - destruct Hrun as [Hall _]. apply Forall_cons in Hall as [Hg _].
    split; [|by split].
    constructor; [done|]. constructor; [done|]. constructor.
  - destruct Hrun as [Hall Hch]. split.
    + change (b :: (buf ++ [g]) ++ [h]) with ((b :: buf ++ [g]) ++ [h]).
      apply Forall_app. split; [done|by constructor].
    + by apply chained_snoc.
Qed.

Lemma proper_run_replace_last (buf : list group) (g g' : group) :
  proper_run (buf ++ [g]) → proper_group g' →
  (∀ p, follows p g → follows p g') →
  proper_run (buf ++ [g']).
Proof.
  intros Hrun Hg' Hrep. destruct buf as [|b buf]; simpl in *.
  - by apply proper_run_single.
  - destruct Hrun as [Hall Hch]. split.
    + apply Forall_cons in Hall as [Hb Hall]. constructor; [done|].
      apply Forall_app in Hall as [Hbuf _]. apply Forall_app. split; [done|].
      by constructor.
    + by eapply chained_replace_last.
Qed.

Lemma run_break_snoc (buf : list group) (g h : group) :
  run_break (buf ++ [g]) → run_break ((buf ++ [g]) ++ [h]).
Proof. by destruct buf. Qed.

Lemma run_break_replace_last (buf : list group) (g g' : group) :
  run_break (buf ++ [g]) →
  type g' = type g ∨ (type g ≠ GroupName ∧ type g' ≠ GroupName) →
  precedingComments g' = precedingComments g →
  run_break (buf ++ [g']).
Proof.
  destruct buf as [|b buf]; simpl; [|done].
  intros [Ht|Hc] Htype Hcom.
  - left. destruct Htype as [->|[? _]]; done.
  - right. by rewrite Hcom.
Qed.

Lemma flushed_nil : flushed [] = [].
Proof. reflexivity. Qed.

Lemma close_run_wordGroups (st : pstate) :
  wordGroups (result (close_run st))
  = wordGroups (result st) ++ flushed (buffer_current st).
Proof. unfold close_run. by rewrite flush_wordGroups. Qed.

Lemma close_run_buffer (st : pstate) : relatedGroupsBuffer (close_run st) = [].
Proof. unfold close_run. by rewrite flush_buffer. Qed.

Lemma close_run_section (st : pstate) :
  currentSection (close_run st) = currentSection st.
Proof. unfold close_run. by rewrite flush_section. Qed.

Lemma close_run_pending (st : pstate) :
  pendingComments (close_run st) = pendingComments st.
Proof. unfold close_run. by rewrite flush_pending. Qed.

(** *** The runs and the text *)

Lemma same_place_sym (g g' : group) : same_place g g' → same_place g' g.
Proof. intros [E T]. split; [done|by symmetry]. Qed.

Lemma same_place_list (P : list group) : Forall2 same_place P P.
Proof. induction P; constructor; done. Qed.

Lemma flush_between_same (lines : list jstr) (g1 g1' g2 g2' : group) :
  same_place g1 g1' → same_place g2 g2' →
  flush_between lines g1 g2 → flush_between lines g1' g2'.
Proof.
  intros [E1 _] [E2 T2] [H|H]; [left; by apply T2|right].
  by rewrite <- E1, <- E2.
Qed.

Lemma tied_same (lines : list jstr) (P P' : list group) :
  Forall2 same_place P P' → tied lines P → tied lines P'.
Proof.
  intros HF Ht xs g g' ys ->.
  apply Forall2_app_inv_r in HF as (xs0 & rest & Hxs & Hrest & ->).
  apply Forall2_cons_inv_r in Hrest as (g0 & rest1 & Hg & Hrest & ->).
  apply Forall2_cons_inv_r in Hrest as (g0' & ys0 & Hg' & Hys & ->).
  intros Hb. apply (Ht xs0 g0 g0' ys0 eq_refl).
  by apply (flush_between_same lines g g0 g' g0');
    [apply same_place_sym|apply same_place_sym|].
Qed.

Lemma tied_short (lines : list jstr) (P : list group) :
  (length P <= 1)%nat → tied lines P.
Proof.
  intros Hlen xs g g' ys ->. rewrite length_app in Hlen. simpl in Hlen. lia.
Qed.

Lemma tied_snoc (lines : list jstr) (P : list group) (g' : group) :
  tied lines P →
  (∀ g, last P = Some g → ¬ flush_between lines g g') →
  tied lines (P ++ [g']).
Proof.
  intros Ht Hl xs g g2 ys E.
  destruct ys as [|y ys _] using rev_ind.
  - replace (xs ++ [g; g2]) with ((xs ++ [g]) ++ [g2]) in E
      by (by rewrite <- app_assoc).
    apply app_inj_tail in E as [-> ->]. apply Hl. by rewrite last_snoc.
  - replace (xs ++ g :: g2 :: ys ++ [y]) with ((xs ++ g :: g2 :: ys) ++ [y])
      in E by (by rewrite <- app_assoc).
    apply app_inj_tail in E as [-> _]. by apply (Ht xs g g2 ys).
Qed.

Lemma separated_snoc (lines : list jstr) (runs : list (list group))
    (r' : list group) :
  separated lines runs →
  (∀ r, last runs = Some r →
     ∃ g g', last r = Some g ∧ head r' = Some g' ∧ flush_between lines g g') →
  separated lines (runs ++ [r']).
Proof.
  intros Hs Hl rs r r2 rs' E.
  destruct rs' as [|y rs' _] using rev_ind.
  - replace (rs ++ [r; r2]) with ((rs ++ [r]) ++ [r2]) in E
      by (by rewrite <- app_assoc).
    apply app_inj_tail in E as [-> ->]. apply Hl. by rewrite last_snoc.
  - replace (rs ++ r :: r2 :: rs' ++ [y]) with ((rs ++ r :: r2 :: rs') ++ [y])
      in E by (by rewrite <- app_assoc).
    apply app_inj_tail in E as [-> _]. by apply (Hs rs r r2 rs').
Qed.

Lemma imap_same_place (P : list group) :
  ∀ f : nat → group → group,
    (∀ i g, same_place g (f i g)) → Forall2 same_place P (imap f P).
Proof.
  induction P as [|g P IH]; intros f Hf; [constructor|].
  rewrite imap_cons. constructor; [apply Hf|]. apply IH.
  intros i g'. apply Hf.
Qed.

Lemma flushed_same_place (P : list group) : Forall2 same_place P (flushed P).
Proof.
  unfold flushed. case_match; [|apply same_place_list].
  apply imap_same_place. intros i g. done.
Qed.

Lemma same_place_head (P P' : list group) (h' : group) :
  Forall2 same_place P P' → head P' = Some h' →
  ∃ h, head P = Some h ∧ same_place h h'.
Proof. intros [|h h2 ? ? Hh _]; [done|]. intros [= <-]. by exists h. Qed.

Lemma same_place_last (P P' : list group) (g' : group) :
  Forall2 same_place P P' → last P' = Some g' →
  ∃ g, last P = Some g ∧ same_place g g'.
Proof.
  intros HF Hl. apply last_Some in Hl as [l' ->].
  apply Forall2_app_inv_r in HF as (l1 & l2 & _ & H2 & ->).
  apply Forall2_cons_inv_r in H2 as (g & l3 & Hg & H3 & ->).
  apply Forall2_nil_inv_r in H3 as ->.
  exists g. by rewrite last_snoc.
Qed.

Lemma same_place_elem (P P' : list group) (g' : group) :
  Forall2 same_place P P' → g' ∈ P' → ∃ g, g ∈ P ∧ same_place g g'.
Proof.
  intros HF Hin. apply list_elem_of_split in Hin as (l1 & l2 & ->).
  apply Forall2_app_inv_r in HF as (k1 & k2 & _ & H2 & ->).
  apply Forall2_cons_inv_r in H2 as (g & k3 & Hg & _ & ->).
  exists g. split; [|done]. apply elem_of_app. right. by left.
Qed.

Lemma related_run_last (r : list group) :
  related_run r → ∃ g, last r = Some g.
Proof.
  intros [(g & -> & _)|[Hlen _]]; [by exists g|].
  destruct (last r) as [g|] eqn:E; [by exists g|].
  apply last_None in E as ->. simpl in Hlen. lia.
Qed.

Lemma last_run_elem (runs : list (list group)) (r : list group) (g : group) :
  last runs = Some r → last r = Some g → g ∈ concat runs.
Proof.
  intros Hr Hg. apply last_Some in Hr as [rs ->].
  apply last_Some in Hg as [r0 ->].
  rewrite concat_app. simpl. rewrite app_nil_r.
  apply elem_of_app. right. apply elem_of_app. right. by left.
Qed.

Lemma blank_between_next (lines : list jstr) (a i : Z) :
  blank_between lines a i → blank_between lines a (i + 1).
Proof. intros (j & l & Hj & Hl & Ht). exists j, l. split; [lia|done]. Qed.

Lemma blank_between_step (lines : list jstr) (a i : Z) (l : jstr) :
  lookupZ lines i = Some l → trim l ≠ [] →
  ¬ blank_between lines a i → ¬ blank_between lines a (i + 1).
Proof.
  intros Hl Ht Hno (j & l' & Hj & Hl' & Ht').
  destruct (decide (j = i)) as [->|Hne].
  - rewrite Hl in Hl'. by injection Hl' as <-.
  - apply Hno. exists j, l'. split; [lia|done].
Qed.

Lemma blank_between_none (lines : list jstr) (i : Z) :
  ¬ blank_between lines i (i + 1).
Proof. intros (j & l & Hj & _). lia. Qed.

(** The flush of the pending groups: one more run, tied inside and
    separated from the run before it. *)
Lemma text_runs_flush (lines : list jstr) (i : Z) (stored P : list group) :
  text_runs lines i stored P →
  ∃ runs : list (list group),
    stored ++ flushed P = concat runs
    ∧ Forall related_run runs
    ∧ Forall (tied lines) runs
    ∧ separated lines runs
    ∧ (∀ g, g ∈ stored ++ flushed P → (startLine g < i)%Z).
Proof.
  intros (runs & Hst & Hrel & Htied & Hsep & Hhead & Hun & HtP & Hord & Hno).
  assert (Hord' : ∀ g, g ∈ stored ++ flushed P → (startLine g < i)%Z).
  { intros g [Hg|Hg]%elem_of_app.
    - apply Hord. apply elem_of_app. by left.
    - destruct (same_place_elem P (flushed P) g (flushed_same_place P) Hg)
        as (g0 & Hg0 & [E _]).
      rewrite <- E. apply Hord. apply elem_of_app. by right. }
  destruct P as [|h P].
  { exists runs. rewrite flushed_nil, app_nil_r. split_and!; try done.
    intros g Hg. apply Hord'. by rewrite flushed_nil, app_nil_r. }
  exists (runs ++ [flushed (h :: P)]). split_and!; [| | | |done].
  - rewrite concat_app, Hst. simpl. by rewrite app_nil_r.
  - apply Forall_app. split; [done|]. constructor; [|done].
    by apply flushed_related_run.
  - apply Forall_app. split; [done|]. constructor; [|done].
    apply (tied_same lines (h :: P)); [apply flushed_same_place|done].
  - apply separated_snoc; [done|]. intros r Hr.
    assert (Hin : r ∈ runs).
    { apply last_Some in Hr as [rs ->]. apply elem_of_app. right. by left. }
    destruct (related_run_last r) as [g Hg].
    { by apply (proj1 (Forall_forall _ _) Hrel). }
    pose proof (Hhead r g Hr Hg) as Hb. simpl in Hb.
    pose proof (flushed_same_place (h :: P)) as HF.
    destruct (flushed (h :: P)) as [|h' P'] eqn:EF;
      [by apply Forall2_nil_inv_r in HF|].
    exists g, h'. split_and!; [done|done|].
    apply Forall2_cons_1 in HF as [Hh _].
    by apply (flush_between_same lines g g h h').
Qed.

Lemma text_runs_next (lines : list jstr) (i : Z) (stored P : list group)
    (l : jstr) :
  text_runs lines i stored P → lookupZ lines i = Some l → trim l ≠ [] →
  text_runs lines (i + 1) stored P.
Proof.
  intros (runs & Hst & Hrel & Htied & Hsep & Hhead & Hun & HtP & Hord & Hno)
    Hl Ht.
  exists runs. split_and!; try done.
  - intros r g Hr Hg. specialize (Hhead r g Hr Hg).
    destruct (head P); [done|]. by apply blank_between_next.
  - intros g Hg. specialize (Hord g Hg). lia.
  - intros g Hg. apply (blank_between_step lines _ i l); [done|done|].
    by apply Hno.
Qed.

Lemma text_runs_blank (lines : list jstr) (i : Z) (stored P : list group)
    (l : jstr) :
  text_runs lines i stored P → lookupZ lines i = Some l → trim l = [] →
  text_runs lines (i + 1) (stored ++ flushed P) [].
Proof.
  intros Hinv Hl Ht.
  destruct (text_runs_flush lines i stored P Hinv)
    as (runs & Hst & Hrel & Htied & Hsep & Hord).
  exists runs. split_and!; try done.
  - intros r g Hr Hg. simpl. exists i, l. split; [|done].
    pose proof (last_run_elem runs r g Hr Hg) as Hin.
    rewrite <- Hst in Hin. specialize (Hord g Hin). lia.
  - apply tied_short; simpl; lia.
  - intros g Hg. rewrite app_nil_r in Hg. specialize (Hord g Hg). lia.
Qed.

Lemma text_runs_label (lines : list jstr) (i : Z) (stored P : list group)
    (g' : group) :
  text_runs lines i stored P →
  type g' = GroupName → startLine g' = i → unflagged g' →
  text_runs lines (i + 1) (stored ++ flushed P) [g'].
Proof.
  intros Hinv Htype Hstart Hun.
  destruct (text_runs_flush lines i stored P Hinv)
    as (runs & Hst & Hrel & Htied & Hsep & Hord).
  exists runs. split_and!; try done.
  - intros r g Hr Hg. simpl. by left.
  - by constructor.
  - apply tied_short; simpl; lia.
  - intros g [Hg|Hg]%elem_of_app.
    + specialize (Hord g Hg). lia.
    + apply list_elem_of_singleton in Hg as ->. lia.
  - intros g [= <-]. rewrite Hstart. apply blank_between_none.
Qed.

Lemma text_runs_open (lines : list jstr) (i : Z) (stored P : list group)
    (g' : group) :
  text_runs lines i stored P →
  type g' ≠ GroupName → startLine g' = i → unflagged g' →
  text_runs lines (i + 1) stored (P ++ [g']).
Proof.
  intros (runs & Hst & Hrel & Htied & Hsep & Hhead & Hun & HtP & Hord & Hno)
    Htype Hstart Hung.
  exists runs. split_and!; try done.
  - intros r g Hr Hg. specialize (Hhead r g Hr Hg).
    destruct P as [|h P]; simpl in *; [|done].
    right. by rewrite Hstart.
  - apply Forall_app. split; [done|]. by constructor.
  - apply tied_snoc; [done|]. intros g Hg [Hb|Hb]; [done|].
    rewrite Hstart in Hb. by apply (Hno g Hg).
  - intros g Hg. rewrite app_assoc in Hg.
    apply elem_of_app in Hg as [Hg|Hg].
    + specialize (Hord g Hg). lia.
    + apply list_elem_of_singleton in Hg as ->. lia.
  - intros g Hg. rewrite last_snoc in Hg. injection Hg as <-.
    rewrite Hstart. apply blank_between_none.
Qed.

Lemma text_runs_update (lines : list jstr) (i : Z) (stored B : list group)
    (g g2 : group) (l : jstr) :
  text_runs lines i stored (B ++ [g]) →
  lookupZ lines i = Some l → trim l ≠ [] →
  same_place g g2 → unflagged g2 →
  text_runs lines (i + 1) stored (B ++ [g2]).
Proof.
  intros (runs & Hst & Hrel & Htied & Hsep & Hhead & Hun & HtP & Hord & Hno)
    Hl Ht Hsame Hun2.
  exists runs. split_and!; try done.
  - intros r g0 Hr Hg. specialize (Hhead r g0 Hr Hg).
    destruct B as [|h B]; simpl in *; [|done].
    by apply (flush_between_same lines g0 g0 g g2).
  - apply Forall_app in Hun as [HB _]. apply Forall_app. split; [done|].
    by constructor.
  - apply (tied_same lines (B ++ [g])); [|done].
    apply Forall2_app; [apply same_place_list|]. by constructor.
  - intros g0 Hg. rewrite app_assoc in Hg. apply elem_of_app in Hg as [Hg|Hg].
    + assert (Hlt : (startLine g0 < i)%Z); [|lia].
      apply Hord. rewrite app_assoc. apply elem_of_app. by left.
    + apply list_elem_of_singleton in Hg as ->.
      destruct Hsame as [<- _].
      assert (Hlt : (startLine g < i)%Z); [|lia].
      apply Hord. rewrite app_assoc. apply elem_of_app. right. by left.
  - intros g0 Hg. rewrite last_snoc in Hg. injection Hg as <-.
    destruct Hsame as [<- _].
    apply (blank_between_step lines _ i l); [done|done|].
    apply Hno. by rewrite last_snoc.
Qed.

Lemma classify_blank (l : jstr) : classify l = LBlank ↔ trim l = [].
Proof.
  unfold classify. cbv zeta. split.
  - intros H. destruct (startsWith (trim l) [c_hash]); [done|].
    destruct (eqb_str (trim l) []) eqn:E; [by apply eqb_str_true in E|].
    repeat case_match; done.
  - intros ->. reflexivity.
Qed.

(** Outside the groups section a blank line flushes what is pending and
    no other line touches the groups. *)
Lemma parse_line_outside (st : pstate) (i : Z) (l : jstr) :
  currentSection st ≠ SecGroups →
  (trim l = []
   ∧ wordGroups (result (parse_line st i l))
     = wordGroups (result st) ++ flushed (buffer_current st)
   ∧ buffer_current (parse_line st i l) = [])
  ∨ (trim l ≠ []
     ∧ wordGroups (result (parse_line st i l)) = wordGroups (result st)
     ∧ buffer_current (parse_line st i l) = buffer_current st).
Proof.
  intros Hsec. unfold parse_line. cbv zeta.
  assert (Hin : match currentSection st with SecGroups => true | _ => false end
                = false) by (by destruct (currentSection st)).
  rewrite Hin, andb_false_r.
  destruct (startsWith (trim l) [c_hash]) eqn:Hhash.
  { right. split; [|done]. intros E. by rewrite E in Hhash. }
  destruct (eqb_str (trim l) []) eqn:Hblank.
  { left. apply eqb_str_true in Hblank. split; [done|].
    unfold buffer_current at 2. cbn.
    by rewrite flush_wordGroups, flush_buffer, flush_current. }
  apply eqb_str_false in Hblank. right. split; [done|].
  destruct (eqb_str (trim l) marker_global); [done|].
  destruct (eqb_str (trim l) marker_groups); [done|].
  destruct (currentSection st); done.
Qed.

Lemma runs_invariant_parse_line (lines : list jstr) (st : pstate) (i : Z)
    (l : jstr) :
  runs_invariant lines i st → lookupZ lines i = Some l →
  runs_invariant lines (i + 1) (parse_line st i l).
Proof.
  unfold runs_invariant. intros Hinv Hl.
  assert (Hdec : currentSection st = SecGroups
                 ∨ currentSection st ≠ SecGroups)
    by (destruct (currentSection st); (by left) || (by right)).
  destruct Hdec as [Hsec|Hsec].
  2: { destruct (parse_line_outside st i l Hsec) as [(Ht & -> & ->)|(Ht & -> & ->)].
       - by apply (text_runs_blank lines i _ _ l).
       - by apply (text_runs_next lines i _ _ l). }
  rewrite parse_line_groups by done.
  destruct (classify l) eqn:Hc.
  - apply (text_runs_next lines i _ _ l); [done|done|].
    intros E. apply classify_blank in E. congruence.
  - apply classify_blank in Hc. cbn [step_groups].
    unfold buffer_current at 1. cbn.
    rewrite close_run_wordGroups, close_run_buffer.
    by apply (text_runs_blank lines i _ _ l).
  - apply (text_runs_next lines i _ _ l); [done|done|].
    intros E. apply classify_blank in E. congruence.
  - apply (text_runs_next lines i _ _ l); [done|done|].
    intros E. apply classify_blank in E. congruence.
  - cbn [step_groups]. unfold buffer_current at 1. cbn.
    rewrite close_run_wordGroups, close_run_buffer.
    by apply text_runs_label.
  - assert (Ht : trim l ≠ []).
    { intros E. apply classify_blank in E. congruence. }
    cbn [step_groups].
    destruct (currentGroup st) as [g|] eqn:Hg.
    + destruct (is_alias_type (type g) && lastLineWasAlias st) eqn:Hal.
      * unfold update_group, buffer_current in *. cbn. rewrite Hg in Hinv.
        apply (text_runs_update lines i _ _ g _ l); [done|done|done| |].
        -- apply andb_prop in Hal as [Hal _]. split; [done|]. cbn.
           split; [|done]. intros E. by rewrite E in Hal.
        -- pose proof Hinv as (_ & _ & _ & _ & _ & _ & Hun & _).
           apply Forall_app in Hun as [_ Hun]. by apply Forall_inv in Hun.
      * unfold open_group, buffer_current at 1. cbn.
        by apply text_runs_open.
    + unfold open_group, buffer_current at 1. cbn.
      by apply text_runs_open.
  - assert (Ht : trim l ≠ []).
    { intros E. apply classify_blank in E. congruence. }
    cbn [step_groups].
    destruct (currentGroup st) as [g|] eqn:Hg.
    + destruct (is_alias_type (type g)) eqn:Hal.
      * unfold open_group, buffer_current at 1. cbn.
        by apply text_runs_open.
      * unfold update_group, buffer_current in *. cbn. rewrite Hg in Hinv.
        apply (text_runs_update lines i _ _ g _ l); [done|done|done|done|].
        pose proof Hinv as (_ & _ & _ & _ & _ & _ & Hun & _).
        apply Forall_app in Hun as [_ Hun]. by apply Forall_inv in Hun.
    + unfold open_group, buffer_current at 1. cbn.
      by apply text_runs_open.
Qed.

Lemma runs_invariant_parse_lines (rest : list jstr) :
  ∀ (before : list jstr) (st : pstate),
    runs_invariant (before ++ rest) (Z.of_nat (length before)) st →
    runs_invariant (before ++ rest) (Z.of_nat (length (before ++ rest)))
      (parse_lines st (Z.of_nat (length before)) rest).
Proof.
  induction rest as [|l rest IH]; intros before st Hinv.
  { by rewrite app_nil_r in *. }
  cbn [parse_lines].
  replace (before ++ l :: rest) with ((before ++ [l]) ++ rest) in *
    by (by rewrite <- app_assoc).
  replace (Z.of_nat (length before) + 1)%Z
    with (Z.of_nat (length (before ++ [l])))
    by (rewrite length_app; simpl; lia).
  apply IH.
  replace (Z.of_nat (length (before ++ [l])))
    with (Z.of_nat (length before) + 1)%Z
    by (rewrite length_app; simpl; lia).
  apply runs_invariant_parse_line; [done|].
  rewrite <- app_assoc. by rewrite lookupZ_app_length.
Qed.

(** The run of [runs] in which a group of their concatenation lies. *)
Lemma concat_run_of (runs : list (list group)) :
  ∀ (before : list group) (g : group) (after : list group),
    concat runs = before ++ g :: after →
    ∃ (rs : list (list group)) (r1 r2 : list group) (rs' : list (list group)),
      runs = rs ++ (r1 ++ g :: r2) :: rs'
      ∧ before = concat rs ++ r1 ∧ after = r2 ++ concat rs'.
Proof.
  induction runs as [|r runs IH]; intros before g after E.
  { by destruct before. }
  simpl in E.
  apply app_eq_inv in E as [(k & Hr & Hk)|(k & Hb & Hk)].
  - destruct k as [|g' k].
    + simpl in Hk. rewrite app_nil_r in Hr. subst r.
      destruct (IH [] g after (eq_sym Hk)) as (rs & r1 & r2 & rs' & -> & Hb' & ->).
      exists (before :: rs), r1, r2, rs'. split_and!; [done| |done].
      simpl. by rewrite <- app_assoc, <- Hb', app_nil_r.
    + simpl in Hk. injection Hk as <- ->.
      exists [], before, k, runs. by subst r.
  - destruct (IH k g after Hk) as (rs & r1 & r2 & rs' & -> & -> & ->).
    exists (r :: rs), r1, r2, rs'. split_and!; [done| |done].
    rewrite Hb. simpl. by rewrite app_assoc.
Qed.

(** C9. The groups that [parseFrequencyText] returns are a sequence of
    runs, one for each flush of the buffer, and the flushes are those of
    the text: inside a run no group is opened by a label line and no blank
    line stands between the lines that open two neighbours; between the
    last group of a run and the first group of the next run there is a
    blank line, or the latter is opened by a label line.  A run of one
    group is a group without flag, index or total; in a run of two groups
    or more, every group is flagged, its index is its position in the run
    and its total is the length of the run.  Hence a group with a flush on
    both sides (or the end of the list) carries no flag, and two
    neighbours with no flush between them are both flagged. *)
Theorem parse_related_runs (text : jstr) :
  let lines := split_lines text in
  let groups := wordGroups (parseFrequencyText text) in
  (∃ runs : list (list group),
     groups = concat runs
     ∧ Forall related_run runs
     ∧ Forall (tied lines) runs
     ∧ separated lines runs)
  ∧ (∀ (before : list group) (g : group) (after : list group),
       groups = before ++ g :: after →
       (∀ p, last before = Some p → flush_between lines p g) →
       (∀ n, head after = Some n → flush_between lines g n) →
       unflagged g)
  ∧ (∀ (before : list group) (g g' : group) (after : list group),
       groups = before ++ g :: g' :: after →
       ¬ flush_between lines g g' →
       isRelatedGroup g = true ∧ isRelatedGroup g' = true
       ∧ relatedGroupTotal g = relatedGroupTotal g'
       ∧ ∃ k : nat, relatedGroupIndex g = Some k
                    ∧ relatedGroupIndex g' = Some (S k)).
Proof.
  intros lines groups.
  assert (Hruns : ∃ runs : list (list group),
            groups = concat runs ∧ Forall related_run runs
            ∧ Forall (tied lines) runs ∧ separated lines runs).
  { unfold groups, parseFrequencyText. rewrite parse_finish_close.
    rewrite close_run_wordGroups.
    pose proof (runs_invariant_parse_lines lines [] (parse_init text)) as Hinv.
    cbn [app length] in Hinv.
    destruct (text_runs_flush lines (Z.of_nat (length lines)) _ _ (Hinv
                ltac:(exists []; split_and!; try done;
                      [intros rs r r' rs' E; by destruct rs
                      |apply tied_short; simpl; lia
                      |intros g Hg; by apply elem_of_nil in Hg])))
      as (runs & Hst & Hrel & Htied & Hsep & _).
    by exists runs. }
  split; [exact Hruns|].
  destruct Hruns as (runs & Hst & Hrel & Htied & Hsep).
  split.
  - intros before g after E Hp Hn. rewrite Hst in E.
    destruct (concat_run_of runs before g after E)
      as (rs & r1 & r2 & rs' & -> & -> & ->).
    apply Forall_app in Hrel as [_ Hrel]. apply Forall_cons_1 in Hrel as [Hr _].
    apply Forall_app in Htied as [_ Htied].
    apply Forall_cons_1 in Htied as [Ht _].
    destruct r1 as [|p r1 _] using rev_ind.
    + destruct r2 as [|n r2].
      * destruct Hr as [(g0 & [= <-] & Hun)|[Hlen _]]; [done|].
        simpl in Hlen. lia.
      * exfalso. apply (Ht [] g n r2 eq_refl). by apply Hn.
    + exfalso. apply (Ht r1 p g r2); [by rewrite <- app_assoc|].
      apply Hp. by rewrite app_assoc, last_snoc.
  - intros before g g' after E Hno. rewrite Hst in E.
    destruct (concat_run_of runs before g (g' :: after) E)
      as (rs & r1 & r2 & rs' & -> & -> & E2).
    apply Forall_app in Hrel as [_ Hrel].
    apply Forall_cons_1 in Hrel as [Hr Hrel'].
    destruct r2 as [|n r2].
    + exfalso. simpl in E2.
      destruct rs' as [|r' rs']; [done|].
      apply Forall_cons_1 in Hrel' as [Hr' _].
      destruct (Hsep rs (r1 ++ [g]) r' rs' eq_refl)
        as (g0 & h & Hg0 & Hh & Hb).
      rewrite last_snoc in Hg0. injection Hg0 as <-.
      destruct r' as [|h' r']; [done|]. simpl in Hh, E2.
      injection Hh as <-. injection E2 as <- _. done.
    + simpl in E2. injection E2 as -> _.
      destruct Hr as [(g0 & E0 & _)|[Hlen Hflag]].
      { apply (f_equal length) in E0. rewrite length_app in E0.
        simpl in E0. lia. }
      destruct (Hflag (length r1) g) as (F1 & I1 & T1).
      { by rewrite list_lookup_middle. }
      destruct (Hflag (S (length r1)) n) as (F2 & I2 & T2).
      { replace (r1 ++ g :: n :: r2) with ((r1 ++ [g]) ++ n :: r2)
          by (by rewrite <- app_assoc).
        rewrite list_lookup_middle; [done|].
        rewrite length_app. simpl. lia. }
      split_and!; [done|done|by rewrite T1, T2|by exists (length r1)].
Qed.

(** The theorem at a keyword line followed by an alias line, and at two
    keyword lines with a blank line between them. *)
Lemma parse_related_runs_witness :
  (isRelatedGroup
     (Group Plain [] [str "foo"] [] 2 [] true (Some 0%nat) (Some 2%nat)) = true
   ∧ isRelatedGroup
       (Group Alias [] [] [AliasItem (str "x") (str "y")] 3 [] true
          (Some 1%nat) (Some 2%nat)) = true)
  ∧ unflagged (Group Plain [] [str "foo"] [] 2 [] false None None).
Proof.
  split.
  - pose proof (parse_related_runs (two_lines_text (str "foo") (str "x => y")))
      as H.
    cbv zeta in H. destruct H as (_ & _ & H).
    destruct (H [] (Group Plain [] [str "foo"] [] 2 [] true (Some 0%nat)
                     (Some 2%nat))
                (Group Alias [] [] [AliasItem (str "x") (str "y")] 3 [] true
                   (Some 1%nat) (Some 2%nat)) [])
      as (H1 & H2 & _).
    + vm_compute. reflexivity.
    + intros [Ht|(j & l & Hj & _)]; [discriminate Ht|simpl in Hj; lia].
    + split; [exact H1|exact H2].
  - pose proof (parse_related_runs
                  (join_lines [marker_global; marker_groups; str "foo"; [];
                               str "bar"])) as H.
    cbv zeta in H. destruct H as (_ & H & _).
    apply (H [] (Group Plain [] [str "foo"] [] 2 [] false None None)
             [Group Plain [] [str "bar"] [] 4 [[]] false None None]).
    + vm_compute. reflexivity.
    + intros p Hp. discriminate Hp.
    + intros n [= <-]. right. exists 3%Z, []. split; [simpl; lia|].
      split; vm_compute; reflexivity.
Defined.

(** The runs after a flush of the run that the state holds. *)
Lemma runs_after_close (st : pstate) (runs : list (list group)) :
  wordGroups (result st) = concat (flushed <$> runs) →
  proper_runs runs →
  (buffer_current st = []
   ∨ proper_run (buffer_current st) ∧ (runs ≠ [] → run_break (buffer_current st))) →
  ∃ runs' : list (list group),
    wordGroups (result (close_run st)) = concat (flushed <$> runs')
    ∧ proper_runs runs'
    ∧ (runs ≠ [] → runs' ≠ [])
    ∧ (buffer_current st ≠ [] → runs' ≠ []).
Proof.
  intros Hout [Hall Hbreak] Hcur. rewrite close_run_wordGroups.
  destruct Hcur as [Hnil|[Hrun Hbr]].
  - exists runs. rewrite Hnil, flushed_nil, app_nil_r. done.
  - exists (runs ++ [buffer_current st]). split_and!.
    + rewrite fmap_app, concat_app, Hout. simpl. by rewrite app_nil_r.
    + split; [apply Forall_app; split; [done|by constructor]|].
      destruct runs as [|r runs]; [done|]. simpl in *.
      apply Forall_app. split; [done|]. constructor; [by apply Hbr|done].
    + by destruct runs.
    + by destruct runs.
Qed.

Lemma buffer_current_some (st : pstate) (g : group) :
  currentGroup st = Some g →
  buffer_current st = relatedGroupsBuffer st ++ [g].
Proof. unfold buffer_current. by intros ->. Qed.

Lemma buffer_current_none (st : pstate) :
  currentGroup st = None → buffer_current st = relatedGroupsBuffer st.
Proof. unfold buffer_current. by intros ->. Qed.

Lemma proper_group_items_pos (g : group) :
  proper_group g → is_alias_type (type g) = true →
  name g = [] ∧ keywords g = [] ∧ (1 <= length (items g))%nat
  ∧ Forall item_stable (items g).
Proof.
  intros (_ & _ & Hshape) Halias.
  destruct (type g); try done; destruct Hshape as (? & ? & ? & ?);
    split_and!; try done; lia.
Qed.

Lemma proper_run_last (buf : list group) (g : group) :
  proper_run (buf ++ [g]) → proper_group g.
Proof.
  intros Hrun. assert (Hall : Forall proper_group (buf ++ [g])).
  { destruct buf; simpl in *; by destruct Hrun. }
  apply Forall_app in Hall as [_ Hg]. by apply Forall_inv in Hg.
Qed.

Lemma body_invariant_open (st : pstate) (h : group) (last : bool) :
  body_invariant st → proper_group h →
  precedingComments h = pendingComments st →
  type h ≠ GroupName → last = is_alias_type (type h) →
  (∀ g, currentGroup st = Some g →
     is_alias_type (type h) = negb (is_alias_type (type g))) →
  body_invariant (open_group st h last).
Proof.
  intros (Hsec & runs & Hout & Hruns & Hrun & Hnone & Hsome & Hpend & Hblank)
    Hh Hcom Hty Hlast Halt.
  split; [done|]. exists runs.
  change (buffer_current (open_group st h last)) with (buffer_current st ++ [h]).
  change (currentGroup (open_group st h last)) with (Some h).
  change (pendingComments (open_group st h last)) with (@nil jstr).
  change (lastLineWasAlias (open_group st h last)) with last.
  change (result (open_group st h last)) with (result st).
  split_and!; try done.
  - right. destruct (currentGroup st) as [g|] eqn:Hg.
    + rewrite (buffer_current_some st g Hg) in Hrun |- *.
      destruct Hrun as [Hnil|[Hrun Hbreak]];
        [by destruct (relatedGroupsBuffer st)|].
      destruct (Hsome g eq_refl) as [_ Hcs]. split.
      * apply proper_run_snoc; [done..|].
        split_and!; [done|by rewrite Hcom|by apply Halt].
      * intros Hr. by apply run_break_snoc, Hbreak.
    + rewrite (buffer_current_none st Hg), (Hnone eq_refl). simpl. split.
      * by apply proper_run_single.
      * intros Hr. right. rewrite Hcom. by apply Hblank.
  - by intros g [= <-].
Qed.

Lemma body_invariant_update (st : pstate) (g g' : group) (last : bool) :
  body_invariant st → currentGroup st = Some g → proper_group g' →
  is_alias_type (type g') = is_alias_type (type g) →
  (type g' = GroupName ↔ type g = GroupName) →
  precedingComments g' = precedingComments g →
  last = is_alias_type (type g') →
  body_invariant (update_group st g' last).
Proof.
  intros (Hsec & runs & Hout & Hruns & Hrun & Hnone & Hsome & Hpend & Hblank)
    Hg Hg' Halias Hlabel Hcom Hlast.
  split; [done|]. exists runs.
  change (buffer_current (update_group st g' last))
    with (relatedGroupsBuffer st ++ [g']).
  change (currentGroup (update_group st g' last)) with (Some g').
  change (pendingComments (update_group st g' last)) with (pendingComments st).
  change (lastLineWasAlias (update_group st g' last)) with last.
  change (result (update_group st g' last)) with (result st).
  rewrite (buffer_current_some st g Hg) in Hrun.
  destruct Hrun as [Hnil|[Hrun Hbreak]]; [by destruct (relatedGroupsBuffer st)|].
  destruct (Hsome g Hg) as [_ Hcs].
  split_and!; try done.
  - right. split.
    + eapply proper_run_replace_last; [done..|].
      intros p (H1 & H2 & H3). split_and!.
      * intros ?. by apply H1, Hlabel.
      * by rewrite Hcom.
      * by rewrite Halias.
    + intros Hr. specialize (Hbreak Hr). revert Hbreak.
      destruct (relatedGroupsBuffer st); [|done]. simpl.
      rewrite Hcom. intros [?|?]; [left; by apply Hlabel|by right].
  - by intros g0 [= <-].
Qed.

(** The invariant is kept by every line that is not the global marker. *)
Lemma body_invariant_step (st : pstate) (i : Z) (line : jstr) :
  body_line line → body_invariant st →
  body_invariant (step_groups st i line (classify line)).
Proof.
  intros [Hnotg Hlt] (Hsec & runs & Hout & Hruns & Hrun & Hnone & Hsome
                      & Hpend & Hblank).
  destruct (runs_after_close st runs Hout Hruns Hrun)
    as (runs' & Hout' & Hruns' & Hkeep & Hgrow).
  destruct (classify line) as [| | | |nm|kw al|k] eqn:Hc; unfold step_groups.
  - (* comment *)
    split; [done|]. exists runs. simpl. split_and!; try done.
    + intros g Hg. destruct (Hsome g Hg) as [? Hcs]. split; [done|].
      apply Forall_app. split; [done|]. by constructor.
    + apply Forall_app. split; [done|]. constructor; [by left|done].
    + intros Hn Hr. apply elem_of_app. left. by apply Hblank.
  - (* blank line *)
    split; [by rewrite close_run_section|]. exists runs'. simpl.
    rewrite close_run_buffer, close_run_pending.
    split_and!; try done.
    + by left.
    + apply Forall_app. split; [done|]. constructor; [by right|done].
    + intros _ _. apply elem_of_app. right. apply list_elem_of_singleton; done.
  - done.
  - (* groups marker *)
    split; [done|]. exists runs. done.
  - (* label *)
    apply classify_label_rebuilt in Hc as (_ & Hnm & Hlabel).
    split; [by rewrite close_run_section|]. exists runs'. simpl.
    rewrite close_run_buffer. unfold buffer_current. simpl.
    split_and!; try done.
    + right. split; [|by left]. apply proper_run_single.
      split_and!; [done|done|]. simpl. split_and!; done.
    + intros g [= <-]. done.
  - (* alias line *)
    apply (classify_alias_rebuilt line kw al Hlt) in Hc as (Hstable & _ & _).
    assert (Hinv : body_invariant st).
    { split; [done|]. by exists runs. }
    assert (Hnew : proper_group (Group Alias [] [] [AliasItem kw al] i
                                   (pendingComments st) false None None)).
    { split_and!; [done|done|]. simpl.
      split_and!; [done|done|done|]. by constructor. }
    destruct (currentGroup st) as [g|] eqn:Hg.
    + destruct (Hsome g eq_refl) as [Hlast Hcom].
      rewrite Hlast, andb_diag.
      destruct (is_alias_type (type g)) eqn:Halias.
      * rewrite (buffer_current_some st g Hg) in Hrun.
        destruct Hrun as [Hnil|[Hrun Hbreak]];
          [by destruct (relatedGroupsBuffer st)|].
        pose proof (proper_run_last _ _ Hrun) as Hpg.
        destruct (proper_group_items_pos g Hpg Halias) as (Hn & Hk & Hlen & Hits).
        apply (body_invariant_update st g); try done.
        -- destruct Hpg as (Hun & Hcs & _). split_and!; [done|done|]. simpl.
           split_and!; [done|done| |].
           ++ rewrite length_app. simpl. lia.
           ++ apply Forall_app. split; [done|]. by constructor.
        -- simpl. split; [done|]. intros Ht. by rewrite Ht in Halias.
      * apply body_invariant_open; try done.
        intros g0 Hg0. rewrite Hg in Hg0. injection Hg0 as <-.
        simpl. by rewrite Halias.
    + apply body_invariant_open; try done.
      intros g0 Hg0. by rewrite Hg in Hg0.
  - (* keyword line *)
    apply classify_keyword_rebuilt in Hc as (_ & Hstable).
    assert (Hinv : body_invariant st).
    { split; [done|]. by exists runs. }
    assert (Hnew : proper_group (Group Plain [] [k] [] i (pendingComments st)
                                   false None None)).
    { split_and!; [done|done|]. simpl.
      split_and!; [done|done|done|]. by constructor. }
    destruct (currentGroup st) as [g|] eqn:Hg.
    + destruct (Hsome g eq_refl) as [Hlast Hcom].
      destruct (is_alias_type (type g)) eqn:Halias.
      * apply body_invariant_open; try done.
        intros g0 Hg0. rewrite Hg in Hg0. injection Hg0 as <-.
        simpl. by rewrite Halias.
      * rewrite (buffer_current_some st g Hg) in Hrun.
        destruct Hrun as [Hnil|[Hrun Hbreak]];
          [by destruct (relatedGroupsBuffer st)|].
        pose proof (proper_run_last _ _ Hrun) as Hpg.
        apply (body_invariant_update st g); try done.
        -- destruct Hpg as (Hun & Hcs & Hshape).
           split_and!; [done|done|]. simpl.
           destruct (type g); try done; destruct Hshape as (? & ? & ? & ?).
           ++ split_and!; [done|done|done|].
              apply Forall_app. split; [done|]. by constructor.
           ++ split_and!; [done|done|by destruct (keywords g)|].
              apply Forall_app. split; [done|]. by constructor.
    + apply body_invariant_open; try done.
      intros g0 Hg0. by rewrite Hg in Hg0.
Qed.

Lemma body_invariant_lines (lines : list jstr) :
  ∀ (st : pstate) (i : Z),
    Forall body_line lines → body_invariant st →
    body_invariant (parse_lines st i lines).
Proof.
  induction lines as [|line lines IH]; intros st i Hall Hinv; [done|].
  apply Forall_cons in Hall as [Hline Hall]. simpl. apply IH; [done|].
  rewrite parse_line_groups by apply Hinv. by apply body_invariant_step.
Qed.

Lemma body_invariant_finish (st : pstate) :
  body_invariant st →
  ∃ runs : list (list group),
    wordGroups (parse_finish st) = concat (flushed <$> runs)
    ∧ proper_runs runs.
Proof.
  intros (_ & runs & Hout & Hruns & Hrun & _).
  destruct (runs_after_close st runs Hout Hruns Hrun) as (runs' & ? & ? & _).
  exists runs'. by rewrite parse_finish_close.
Qed.

(** ** Reading back the lines of the builder *)

Lemma bare_mark_related (total idx : nat) (g : group) :
  bare (mark_related total idx g) = mark_related total idx (bare g).
Proof. done. Qed.

Lemma bare_flushed (l : list group) : bare <$> flushed l = flushed (bare <$> l).
Proof.
  unfold flushed. rewrite length_fmap. case_match; [|done].
  rewrite fmap_imap, imap_fmap. by apply imap_ext.
Qed.

Lemma bare_flushed_eq (l1 l2 : list group) :
  bare <$> l1 = bare <$> l2 → bare <$> flushed l1 = bare <$> flushed l2.
Proof. intros H. by rewrite !bare_flushed, H. Qed.

Lemma parse_lines_app (a b : list jstr) :
  ∀ (st : pstate) (i : Z),
    parse_lines st i (a ++ b)
    = parse_lines (parse_lines st i a) (i + Z.of_nat (length a)) b.
Proof.
  induction a as [|l a IH]; intros st i; simpl.
  - by rewrite Z.add_0_r.
  - rewrite IH. f_equal. lia.
Qed.

Lemma holds_finish (st : pstate) (out run : list group) :
  holds st out run →
  bare <$> wordGroups (parse_finish st) = out ++ (bare <$> flushed run).
Proof.
  intros (_ & Hout & Hrun & _). rewrite parse_finish_close, close_run_wordGroups.
  rewrite fmap_app, Hout. f_equal. by apply bare_flushed_eq.
Qed.

Lemma holds_comment (st : pstate) (i : Z) (line : jstr) (out run : list group) :
  classify line = LComment → holds st out run →
  holds (parse_line st i line) out run.
Proof.
  intros Hc (Hsec & Hout & Hrun & Hnone & Hsome).
  rewrite parse_line_groups, Hc by done. done.
Qed.

Lemma holds_blank (st : pstate) (i : Z) (line : jstr) (out run : list group) :
  classify line = LBlank → holds st out run →
  holds (parse_line st i line) (out ++ (bare <$> flushed run)) [].
Proof.
  intros Hc (Hsec & Hout & Hrun & Hnone & Hsome).
  rewrite parse_line_groups, Hc by done. unfold step_groups.
  split_and!; simpl.
  - by rewrite close_run_section.
  - rewrite close_run_wordGroups, fmap_app, Hout. f_equal.
    by apply bare_flushed_eq.
  - unfold buffer_current. simpl. by rewrite close_run_buffer.
  - intros _. apply close_run_buffer.
  - done.
Qed.

Lemma holds_label (st : pstate) (i : Z) (line nm : jstr) (out run : list group) :
  classify line = LLabel nm → holds st out run →
  holds (parse_line st i line) (out ++ (bare <$> flushed run))
    [Group GroupName nm [] [] 0 [] false None None].
Proof.
  intros Hc (Hsec & Hout & Hrun & Hnone & Hsome).
  rewrite parse_line_groups, Hc by done. unfold step_groups.
  split_and!; simpl.
  - by rewrite close_run_section.
  - rewrite close_run_wordGroups, fmap_app, Hout. f_equal.
    by apply bare_flushed_eq.
  - unfold buffer_current. simpl. by rewrite close_run_buffer.
  - done.
  - by intros g [= <-].
Qed.

Lemma bare_type (c g : group) : bare c = bare g → type c = type g.
Proof. by intros [= ? _]. Qed.

Lemma bare_add_item (c g : group) (it : alias_item) :
  bare c = bare g → bare (add_item c it) = bare (add_item g it).
Proof. intros [= ? ? ? ? ? ? ?]. unfold bare, add_item. simpl. congruence. Qed.

Lemma bare_add_keyword (c g : group) (k : jstr) :
  bare c = bare g → bare (add_keyword c k) = bare (add_keyword g k).
Proof. intros [= ? ? ? ? ? ? ?]. unfold bare, add_keyword. simpl. congruence. Qed.

(** What the state holds when the run ends with [g]. *)
Lemma holds_snoc_inv (st : pstate) (out r : list group) (g : group) :
  holds st out (r ++ [g]) →
  ∃ c, currentGroup st = Some c ∧ bare c = bare g
       ∧ bare <$> relatedGroupsBuffer st = bare <$> r.
Proof.
  intros (_ & _ & Hrun & Hnone & _). unfold buffer_current in Hrun.
  destruct (currentGroup st) as [c|].
  - exists c. rewrite !fmap_app in Hrun. simpl in Hrun.
    apply app_inj_tail in Hrun as [? ?]. done.
  - rewrite (Hnone eq_refl), fmap_app in Hrun. simpl in Hrun.
    by destruct (bare <$> r).
Qed.

Lemma holds_nil_inv (st : pstate) (out : list group) :
  holds st out [] → currentGroup st = None ∧ relatedGroupsBuffer st = [].
Proof.
  intros (_ & _ & Hrun & Hnone & _). unfold buffer_current in Hrun.
  destruct (currentGroup st) as [c|].
  - rewrite fmap_app in Hrun. simpl in Hrun.
    by destruct (bare <$> relatedGroupsBuffer st).
  - by split; [|apply Hnone].
Qed.

Lemma holds_intro_open (st : pstate) (out run : list group) (h : group)
    (last : bool) :
  holds st out run → last = is_alias_type (type h) →
  holds (open_group st h last) out (run ++ [h]).
Proof.
  intros (Hsec & Hout & Hrun & Hnone & Hsome) Hlast. split_and!; try done.
  - change (buffer_current (open_group st h last)) with (buffer_current st ++ [h]).
    by rewrite !fmap_app, Hrun.
  - by intros g [= <-].
Qed.

Lemma holds_intro_update (st : pstate) (out r : list group) (g c c' g' : group)
    (last : bool) :
  holds st out (r ++ [g]) → currentGroup st = Some c →
  bare c' = bare g' → last = is_alias_type (type c') →
  holds (update_group st c' last) out (r ++ [g']).
Proof.
  intros Hholds Hc Hbare Hlast.
  destruct (holds_snoc_inv _ _ _ _ Hholds) as (c0 & Hc0 & _ & Hbuf).
  destruct Hholds as (Hsec & Hout & Hrun & Hnone & Hsome).
  split_and!; try done.
  - change (buffer_current (update_group st c' last))
      with (relatedGroupsBuffer st ++ [c']).
    rewrite !fmap_app, Hbuf. simpl. by rewrite Hbare.
  - by intros g0 [= <-].
Qed.

Lemma holds_bare_eq (st : pstate) (out run run' : list group) :
  holds st out run → bare <$> run = bare <$> run' → holds st out run'.
Proof.
  intros (Hsec & Hout & Hrun & Hnone & Hsome) Heq.
  split_and!; try done. by rewrite <- Heq.
Qed.

Lemma holds_alias_line (st : pstate) (i : Z) (line kw al : jstr)
    (out run : list group) :
  classify line = LAlias kw al → holds st out run →
  holds (parse_line st i line) out
    match last run with
    | Some g =>
        if is_alias_type (type g)
        then removelast run ++ [add_item g (AliasItem kw al)]
        else run ++ [Group Alias [] [] [AliasItem kw al] 0 [] false None None]
    | None => [Group Alias [] [] [AliasItem kw al] 0 [] false None None]
    end.
Proof.
  intros Hc Hholds. pose proof Hholds as (Hsec & _ & _ & _ & Hsome).
  rewrite parse_line_groups, Hc by done. unfold step_groups.
  destruct run as [|g r _] using rev_ind.
  - destruct (holds_nil_inv _ _ Hholds) as [-> _]. simpl.
    eapply holds_bare_eq; [by apply (holds_intro_open st out [])|done].
  - rewrite last_snoc, removelast_last.
    destruct (holds_snoc_inv _ _ _ _ Hholds) as (c & Hcur & Hbare & _).
    rewrite Hcur, (Hsome c Hcur), andb_diag, <- (bare_type _ _ Hbare).
    destruct (is_alias_type (type c)).
    + eapply holds_intro_update; [done|done| |done].
      by apply bare_add_item.
    + eapply holds_bare_eq; [by apply holds_intro_open|].
      by rewrite !fmap_app.
Qed.

Lemma holds_keyword_line (st : pstate) (i : Z) (line k : jstr)
    (out run : list group) :
  classify line = LKeyword k → holds st out run →
  holds (parse_line st i line) out
    match last run with
    | Some g =>
        if is_alias_type (type g)
        then run ++ [Group Plain [] [k] [] 0 [] false None None]
        else removelast run ++ [add_keyword g k]
    | None => [Group Plain [] [k] [] 0 [] false None None]
    end.
Proof.
  intros Hc Hholds. pose proof Hholds as (Hsec & _ & _ & _ & Hsome).
  rewrite parse_line_groups, Hc by done. unfold step_groups.
  destruct run as [|g r _] using rev_ind.
  - destruct (holds_nil_inv _ _ Hholds) as [-> _]. simpl.
    eapply holds_bare_eq; [by apply (holds_intro_open st out [])|done].
  - rewrite last_snoc, removelast_last.
    destruct (holds_snoc_inv _ _ _ _ Hholds) as (c & Hcur & Hbare & _).
    rewrite Hcur, <- (bare_type _ _ Hbare).
    destruct (is_alias_type (type c)) eqn:Halias.
    + eapply holds_bare_eq; [by apply holds_intro_open|].
      by rewrite !fmap_app.
    + eapply holds_intro_update; [done|done| |].
      * by apply bare_add_keyword.
      * simpl. by rewrite Halias.
Qed.

Lemma foldl_add_keyword (ks : list jstr) :
  ∀ g : group,
    foldl add_keyword g ks
    = Group (type g) (name g) (keywords g ++ ks) (items g) (startLine g)
        (precedingComments g) (isRelatedGroup g) (relatedGroupIndex g)
        (relatedGroupTotal g).
Proof.
  induction ks as [|k ks IH]; intros g; simpl.
  - rewrite app_nil_r. by destruct g.
  - rewrite IH. simpl. by rewrite <- app_assoc.
Qed.

Lemma foldl_add_item (its : list alias_item) :
  ∀ g : group,
    its ≠ [] →
    foldl add_item g its
    = Group AliasGroup (name g) (keywords g) (items g ++ its) (startLine g)
        (precedingComments g) (isRelatedGroup g) (relatedGroupIndex g)
        (relatedGroupTotal g).
Proof.
  induction its as [|it its IH]; intros g Hne; [done|]. simpl.
  destruct its as [|it' its]; [done|].
  rewrite IH by done. simpl. by rewrite <- app_assoc.
Qed.

Lemma holds_keywords (ks : list jstr) :
  ∀ (st : pstate) (i : Z) (out r : list group) (g : group),
    holds st out (r ++ [g]) → is_alias_type (type g) = false →
    Forall keyword_stable ks →
    holds (parse_lines st i ks) out (r ++ [foldl add_keyword g ks]).
Proof.
  induction ks as [|k ks IH]; intros st i out r g Hholds Hty Hks; [done|].
  apply Forall_cons in Hks as [Hk Hks]. simpl.
  apply IH; [|done|done].
  pose proof (holds_keyword_line st i k k out (r ++ [g]) Hk Hholds) as H.
  by rewrite last_snoc, Hty, removelast_last in H.
Qed.

Lemma holds_items (its : list alias_item) :
  ∀ (st : pstate) (i : Z) (out r : list group) (g : group),
    holds st out (r ++ [g]) → is_alias_type (type g) = true →
    Forall item_stable its →
    holds
      (parse_lines st i
         (List.map (fun it => keyword it ++ str " => " ++ alias it) its))
      out (r ++ [foldl add_item g its]).
Proof.
  induction its as [|it its IH]; intros st i out r g Hholds Hty Hits; [done|].
  apply Forall_cons in Hits as [Hit Hits]. simpl.
  apply IH; [|done|done].
  pose proof (holds_alias_line st i _ _ _ out (r ++ [g]) Hit Hholds) as H.
  rewrite last_snoc, Hty, removelast_last in H. by destruct it.
Qed.

(** The body of a group is read back as the group, opened after the run
    that the state holds, or alone after a flush when it has a label. *)
Lemma holds_group_body (h : group) (st : pstate) (i : Z) (out run : list group) :
  proper_group h → holds st out run →
  (type h = GroupName
   ∨ match last run with
     | None => True
     | Some g => is_alias_type (type h) = negb (is_alias_type (type g))
     end) →
  holds (parse_lines st i (group_body h))
    (match type h with
     | GroupName => out ++ (bare <$> flushed run)
     | _ => out
     end)
    (match type h with GroupName => [h] | _ => run ++ [h] end).
Proof.
  intros (Hun & _ & Hshape) Hholds Hcond. unfold group_body.
  destruct h as [t nm ks its sl cs fl ix tot].
  unfold unflagged in Hun. simpl in *.
  destruct Hun as (-> & -> & ->).
  destruct t.
  - (* label *)
    destruct Hshape as (-> & Hnm & Hlabel & Hks).
    destruct nm as [|c nm]; [done|].
    change (([[c_lbracket] ++ (c :: nm) ++ [c_rbracket]]) ++ ks)
      with (([c_lbracket] ++ (c :: nm) ++ [c_rbracket]) :: ks).
    simpl parse_lines.
    pose proof (holds_label st i _ _ out run Hlabel Hholds) as H.
    apply (holds_keywords ks _ (i + 1) _ []) in H; [|done|done].
    rewrite foldl_add_keyword in H. simpl in H.
    eapply holds_bare_eq; [done|done].
  - (* alias *)
    destruct Hshape as (-> & -> & Hlen & Hits).
    destruct its as [|it [|it' its]]; try done.
    apply Forall_cons in Hits as [Hit _]. simpl.
    pose proof (holds_alias_line st i _ _ _ out run Hit Hholds) as H.
    destruct Hcond as [?|Hcond]; [done|].
    destruct (last run) as [g|] eqn:Hlast.
    + simpl in Hcond. symmetry in Hcond. apply negb_true_iff in Hcond.
      rewrite Hcond in H. eapply holds_bare_eq; [done|].
      rewrite !fmap_app. by destruct it.
    + apply last_None in Hlast as ->. eapply holds_bare_eq; [done|].
      by destruct it.
  - (* alias group *)
    destruct Hshape as (-> & -> & Hlen & Hits).
    destruct its as [|it [|it' its]]; try (simpl in Hlen; lia).
    apply Forall_cons in Hits as [Hit Hits].
    destruct Hcond as [?|Hcond]; [done|].
    change (List.map _ (it :: it' :: its))
      with ((keyword it ++ str " => " ++ alias it)
              :: List.map (fun it => keyword it ++ str " => " ++ alias it)
                   (it' :: its)).
    simpl parse_lines.
    pose proof (holds_alias_line st i _ _ _ out run Hit Hholds) as H.
    assert (H' : holds (parse_line st i (keyword it ++ str " => " ++ alias it))
                   out (run ++ [Group Alias [] [] [it] 0 [] false None None])).
    { destruct (last run) as [g|] eqn:Hlast.
      + simpl in Hcond. symmetry in Hcond. apply negb_true_iff in Hcond.
        rewrite Hcond in H. by destruct it.
      + apply last_None in Hlast as ->. by destruct it. }
    apply (holds_items (it' :: its) _ (i + 1)) in H'; [|done|done].
    rewrite foldl_add_item in H' by done.
    eapply holds_bare_eq; [done|]. by rewrite !fmap_app.
  - (* plain *)
    destruct Hshape as (-> & -> & Hne & Hks).
    destruct ks as [|k ks]; [done|].
    apply Forall_cons in Hks as [Hk Hks].
    destruct Hcond as [?|Hcond]; [done|].
    simpl parse_lines.
    pose proof (holds_keyword_line st i _ _ out run Hk Hholds) as H.
    assert (H' : holds (parse_line st i k) out
                   (run ++ [Group Plain [] [k] [] 0 [] false None None])).
    { destruct (last run) as [g|] eqn:Hlast.
      + simpl in Hcond. symmetry in Hcond. apply negb_false_iff in Hcond.
        by rewrite Hcond in H.
      + by apply last_None in Hlast as ->. }
    apply (holds_keywords ks _ (i + 1)) in H'; [|done|done].
    rewrite foldl_add_keyword in H'.
    eapply holds_bare_eq; [done|]. by rewrite !fmap_app.
Qed.

Lemma holds_comments_only (cs : list jstr) :
  ∀ (st : pstate) (i : Z) (out run : list group),
    Forall (fun c => classify c = LComment) cs → holds st out run →
    holds (parse_lines st i cs) out run.
Proof.
  induction cs as [|c cs IH]; intros st i out run Hcs Hholds; [done|].
  apply Forall_cons in Hcs as [Hc Hcs]. simpl.
  apply IH; [done|]. by apply holds_comment.
Qed.

(** Comment lines and blank lines: the first blank line flushes the run. *)
Lemma holds_comments (cs : list jstr) :
  ∀ (st : pstate) (i : Z) (out run : list group),
    Forall comment_or_blank cs → holds st out run →
    holds (parse_lines st i cs)
      (if decide ([] ∈ cs) then out ++ (bare <$> flushed run) else out)
      (if decide ([] ∈ cs) then [] else run).
Proof.
  induction cs as [|c cs IH]; intros st i out run Hcs Hholds.
  { destruct (decide ([] ∈ [])) as [?%elem_of_nil|]; done. }
  change (parse_lines st i (c :: cs))
    with (parse_lines (parse_line st i c) (i + 1) cs).
  apply Forall_cons in Hcs as [[Hc| ->] Hcs].
  - assert (c ≠ []) by (intros ->; by rewrite classify_nil in Hc).
    specialize (IH (parse_line st i c) (i + 1)%Z out run Hcs
                  (holds_comment _ _ _ _ _ Hc Hholds)).
    destruct (decide ([] ∈ cs)) as [Hin|Hnin].
    + destruct (decide ([] ∈ c :: cs)) as [_|Hn]; [done|].
      exfalso. apply Hn. by apply elem_of_cons; right.
    + destruct (decide ([] ∈ c :: cs)) as [[?|?]%elem_of_cons|_]; done.
  - destruct (decide ([] ∈ [] :: cs)) as [_|Hn].
    2: { exfalso. apply Hn. by apply elem_of_cons; left. }
    specialize (IH (parse_line st i []) (i + 1)%Z _ []  Hcs
                  (holds_blank _ _ _ _ _ classify_nil Hholds)).
    rewrite flushed_nil, fmap_nil, app_nil_r in IH.
    by destruct (decide ([] ∈ cs)).
Qed.

(** The groups that follow the first one of a run are read back into the
    same run. *)
Lemma holds_chain (rest : list group) :
  ∀ (st : pstate) (i : Z) (out p : list group) (prev : group),
    holds st out (p ++ [prev]) → Forall proper_group rest →
    chained prev rest →
    holds (parse_lines st i (concat (group_lines <$> rest))) out
      (p ++ [prev] ++ rest).
Proof.
  induction rest as [|g rest IH]; intros st i out p prev Hholds Hall Hch.
  { done. }
  apply Forall_cons in Hall as [Hg Hall].
  destruct Hch as [(Hty & Hcs & Halt) Hch].
  rewrite fmap_cons. simpl concat. unfold group_lines at 1.
  rewrite <- !app_assoc, !parse_lines_app.
  pose proof (holds_comments_only _ st i _ _ Hcs Hholds) as H1.
  eapply (holds_group_body g) in H1; [|done|].
  2: { right. by rewrite last_snoc. }
  assert (H2 : holds
            (parse_lines (parse_lines st i (precedingComments g))
               (i + Z.of_nat (length (precedingComments g))) (group_body g))
            out ((p ++ [prev]) ++ [g])).
  { by destruct (type g). }
  eapply IH in H2; [|done|done].
  rewrite <- !app_assoc in H2. exact H2.
Qed.

Lemma group_separator_cases (g : group) (next : option group) :
  group_separator g next = [] ∨ group_separator g next = [[]].
Proof.
  unfold group_separator. destruct next as [n|]; simpl.
  - destruct (isRelatedGroup g && isRelatedGroup n); [by left|].
    destruct (negb _); [by right|by left].
  - rewrite andb_false_r. by right.
Qed.

Lemma group_separator_last (g : group) : group_separator g None = [[]].
Proof. unfold group_separator. simpl. by rewrite andb_false_r. Qed.

(** The first group of a run is read back alone in the buffer, the run
    before it being flushed, when a blank line is written before its body
    or when it has a label. *)
Lemma holds_start_run (h : group) (sep : list jstr) (st : pstate) (i : Z)
    (out run0 : list group) :
  proper_group h → holds st out run0 →
  sep = [] ∨ sep = [[]] →
  run0 = [] ∨ type h = GroupName ∨ [] ∈ sep ++ precedingComments h →
  holds (parse_lines st i (sep ++ group_lines h))
    (out ++ (bare <$> flushed run0)) [h].
Proof.
  intros Hh Hholds Hsep Hbreak. unfold group_lines.
  rewrite app_assoc, parse_lines_app.
  assert (Hcs : Forall comment_or_blank (sep ++ precedingComments h)).
  { apply Forall_app. split; [|apply Hh].
    destruct Hsep as [-> | ->]; [done|]. constructor; [by right|done]. }
  pose proof (holds_comments _ st i _ _ Hcs Hholds) as H1.
  destruct (decide ([] ∈ sep ++ precedingComments h)) as [Hin|Hnin].
  - eapply (holds_group_body h) in H1; [|done|by right].
    destruct (type h); try done.
    by rewrite flushed_nil, fmap_nil, app_nil_r in H1.
  - destruct Hbreak as [-> |[Hlabel|?]]; [| |done].
    + eapply (holds_group_body h) in H1; [|done|by right].
      rewrite flushed_nil, fmap_nil, app_nil_r in H1 |- *.
      by destruct (type h).
    + eapply (holds_group_body h) in H1; [|done|by left].
      by rewrite Hlabel in H1.
Qed.

(** ** The lines of the builder, run by run *)

Lemma group_lines_mark_related (total idx : nat) (g : group) :
  group_lines (mark_related total idx g) = group_lines g.
Proof. done. Qed.

Lemma flushed_group_lines (run : list group) :
  group_lines <$> flushed run = group_lines <$> run.
Proof.
  unfold flushed. case_match; [|done].
  rewrite fmap_imap. rewrite <- (imap_const group_lines run).
  by apply imap_ext.
Qed.

Lemma flushed_length (run : list group) : length (flushed run) = length run.
Proof. unfold flushed. case_match; [|done]. apply length_imap. Qed.

Lemma flushed_all_related (run : list group) :
  (1 < length run)%nat →
  Forall (fun g => isRelatedGroup g = true) (flushed run).
Proof.
  intros Hlen. unfold flushed.
  destruct (Nat.ltb_spec 1 (length run)); [|lia].
  apply Forall_forall. intros g [i Hi]%list_elem_of_lookup_1.
  rewrite list_lookup_imap in Hi.
  destruct (run !! i); [|done]. by injection Hi as <-.
Qed.

Lemma build_groups_related (xs : list group) :
  ∀ (g : group) (rest : list group),
    Forall (fun x => isRelatedGroup x = true) (xs ++ [g]) ∨ xs = [] →
    build_groups (xs ++ g :: rest)
    = concat (group_lines <$> (xs ++ [g]))
      ++ group_separator g (head rest) ++ build_groups rest.
Proof.
  induction xs as [|x xs IH]; intros g rest Hrel.
  - simpl. unfold group_lines. by rewrite app_nil_r, <- !app_assoc.
  - destruct Hrel as [Hrel|?]; [|done].
    apply Forall_cons in Hrel as [Hx Hrel].
    change ((x :: xs) ++ g :: rest) with (x :: (xs ++ g :: rest)).
    change (build_groups (x :: (xs ++ g :: rest)))
      with (precedingComments x ++ group_body x
            ++ group_separator x (head (xs ++ g :: rest))
            ++ build_groups (xs ++ g :: rest)).
    rewrite (IH g rest) by (by left).
    assert (Hsep : group_separator x (head (xs ++ g :: rest)) = []).
    { unfold group_separator.
      assert (∃ y, head (xs ++ g :: rest) = Some y ∧ isRelatedGroup y = true)
        as (y & -> & Hy).
      { destruct xs as [|y xs]; simpl.
        - exists g. split; [done|]. by apply Forall_inv in Hrel.
        - exists y. split; [done|]. by apply Forall_inv in Hrel. }
      by rewrite Hx, Hy. }
    rewrite Hsep. simpl. unfold group_lines at 2. by rewrite <- !app_assoc.
Qed.

Lemma build_groups_run (run rest : list group) :
  run ≠ [] →
  ∃ g0 : group,
    last (flushed run) = Some g0
    ∧ build_groups (flushed run ++ rest)
      = concat (group_lines <$> run)
        ++ group_separator g0 (head rest) ++ build_groups rest.
Proof.
  intros Hne. rewrite <- flushed_group_lines.
  assert (Hcase : (1 < length run)%nat ∨ ∃ g, run = [g]).
  { destruct run as [|g [|g' run]]; [done|right; by exists g|left; simpl; lia]. }
  assert (Hrel : Forall (fun x => isRelatedGroup x = true) (flushed run)
                 ∨ ∃ g, flushed run = [g]).
  { destruct Hcase as [Hlen|[g ->]]; [left; by apply flushed_all_related|].
    right. by exists g. }
  pose proof (flushed_length run) as Hlen.
  destruct (flushed run) as [|g0 xs _] using rev_ind.
  { destruct run; [done|simpl in Hlen; lia]. }
  exists g0. rewrite last_snoc. split; [done|].
  rewrite <- app_assoc. simpl. apply build_groups_related.
  destruct Hrel as [?|[g Hg]]; [by left|right].
  destruct xs as [|? [|??]]; by simplify_eq.
Qed.

(** The lines that the builder writes for the runs of the parser are read
    back as the same runs. *)
Lemma reparse_runs (runs : list (list group)) :
  ∀ (st : pstate) (i : Z) (out run0 : list group),
    Forall proper_run runs →
    (run0 ≠ [] → Forall run_break runs) →
    Forall run_break (tail runs) →
    holds st out run0 →
    bare <$> wordGroups
      (parse_finish
         (parse_lines st i
            (match last (flushed run0) with
             | Some g0 => group_separator g0 (head (concat (flushed <$> runs)))
             | None => []
             end ++ build_groups (concat (flushed <$> runs)))))
    = out ++ (bare <$> flushed run0) ++ (bare <$> concat (flushed <$> runs)).
Proof.
  induction runs as [|run runs IH]; intros st i out run0 Hall Hbr0 Hbr Hholds.
  - simpl. rewrite !app_nil_r.
    destruct (last (flushed run0)) as [g0|] eqn:Hlast.
    + rewrite group_separator_last.
      change (parse_lines st i [[]]) with (parse_line st i []).
      pose proof (holds_blank st i [] _ _ classify_nil Hholds) as H.
      apply holds_finish in H. rewrite H.
      change (bare <$> flushed []) with (@nil group). by rewrite app_nil_r.
    + apply last_None in Hlast.
      change (parse_lines st i []) with st.
      apply holds_finish in Hholds. by rewrite Hholds.
  - apply Forall_cons in Hall as [Hrun Hall].
    destruct run as [|h run]; [done|].
    destruct Hrun as [Hproper Hch].
    apply Forall_cons in Hproper as [Hh Hproper].
    generalize (head (concat (flushed <$> (h :: run) :: runs))) as next0.
    intros next0.
    set (sep0 := match last (flushed run0) with
                 | Some g0 => group_separator g0 next0
                 | None => []
                 end).
    assert (Hsep0 : sep0 = [] ∨ sep0 = [[]]).
    { unfold sep0. destruct (last (flushed run0)); [|by left].
      apply group_separator_cases. }
    assert (Htok :
      sep0 ++ build_groups (concat (flushed <$> (h :: run) :: runs))
      = (sep0 ++ group_lines h)
        ++ concat (group_lines <$> run)
        ++ (match last (flushed (h :: run)) with
            | Some g0 => group_separator g0 (head (concat (flushed <$> runs)))
            | None => []
            end ++ build_groups (concat (flushed <$> runs)))).
    { rewrite fmap_cons.
      change (concat (flushed (h :: run) :: (flushed <$> runs)))
        with (flushed (h :: run) ++ concat (flushed <$> runs)).
      destruct (build_groups_run (h :: run) (concat (flushed <$> runs)))
        as (g1 & -> & ->); [done|].
      rewrite fmap_cons.
      change (concat (group_lines h :: (group_lines <$> run)))
        with (group_lines h ++ concat (group_lines <$> run)).
      by rewrite <- !app_assoc. }
    rewrite Htok, (parse_lines_app (sep0 ++ group_lines h)),
      (parse_lines_app (concat (group_lines <$> run))).
    assert (H1 : holds (parse_lines st i (sep0 ++ group_lines h))
                   (out ++ (bare <$> flushed run0)) [h]).
    { apply holds_start_run; [done..|].
      destruct run0 as [|g0 run0]; [by left|right].
      specialize (Hbr0 ltac:(done)). apply Forall_inv in Hbr0.
      destruct Hbr0 as [?|Hin]; [by left|right].
      apply elem_of_app. by right. }
    eapply (holds_chain run _ _ _ []) in H1; [|done|done].
    erewrite (IH _ _ (out ++ (bare <$> flushed run0)) (h :: run)).
    + rewrite fmap_cons.
      change (concat (flushed (h :: run) :: (flushed <$> runs)))
        with (flushed (h :: run) ++ concat (flushed <$> runs)).
      by rewrite fmap_app, <- !app_assoc.
    + done.
    + intros _. exact Hbr.
    + destruct runs as [|r runs]; [done|]. by apply Forall_inv_tail in Hbr.
    + exact H1.
Qed.

(** ** What the parser stores *)

Lemma classify_groups_marker (line : jstr) :
  classify line = LMarkGroups ↔ trim line = marker_groups.
Proof.
  unfold classify. cbv zeta. split.
  - repeat case_match; try done. intros _. by apply eqb_str_true.
  - intros ->. reflexivity.
Qed.

Lemma classify_global_marker (line : jstr) :
  classify line = LMarkGlobal ↔ trim line = marker_global.
Proof.
  unfold classify. cbv zeta. split.
  - repeat case_match; try done. intros _. by apply eqb_str_true.
  - intros ->. reflexivity.
Qed.

Lemma nl_free_trim (l : jstr) : nl_free l → nl_free (trim l).
Proof.
  unfold nl_free. intros H Hin. apply H.
  assert (Hall : Forall (fun c => c ≠ c_nl) l).
  { apply Forall_forall. by intros x Hx ->. }
  apply (trim_Forall _ _) in Hall. rewrite Forall_forall in Hall.
  by apply Hall in Hin.
Qed.

Lemma nl_free_app (a b : jstr) : nl_free (a ++ b) ↔ nl_free a ∧ nl_free b.
Proof. unfold nl_free. by rewrite not_elem_of_app. Qed.

Lemma nl_free_skip_space (l : jstr) : nl_free l → nl_free (skip_space l).
Proof.
  intros H. destruct (skip_space_suffix l) as (w & Hl & _).
  rewrite Hl in H. by apply nl_free_app in H as [_ ?].
Qed.

Lemma match_group_name_nl_free (t nm : jstr) :
  match_group_name t = Some nm → nl_free t → nl_free nm.
Proof.
  intros (-> & _ & _)%match_group_name_sound H.
  change (c_lbracket :: nm ++ [c_rbracket])
    with ([c_lbracket] ++ nm ++ [c_rbracket]) in H.
  by apply nl_free_app in H as [_ [? _]%nl_free_app].
Qed.

Lemma match_alias_nl_free (t kw al : jstr) :
  match_alias t = Some (kw, al) → nl_free t → nl_free kw ∧ nl_free al.
Proof.
  unfold match_alias. destruct t as [|c s]; [done|].
  destruct (is_lt c); [done|].
  destruct (alias_search [c] s) as [[k a]|] eqn:Hs; [|done].
  intros [= <- <-] Hfree.
  apply alias_search_sound in Hs as (s1 & s2 & -> & -> & Ha & _).
  apply after_arrow_sound in Ha as (w1 & rest & -> & _ & -> & _).
  change (c :: s1 ++ w1 ++ [c_eq; c_gt] ++ rest)
    with (([c] ++ s1) ++ w1 ++ [c_eq; c_gt] ++ rest) in Hfree.
  apply nl_free_app in Hfree as [Hk [_ [_ Hr]%nl_free_app]%nl_free_app].
  split; apply nl_free_trim; [done|by apply nl_free_skip_space].
Qed.

Lemma group_nl_free_flushed (buffer : list group) :
  Forall group_nl_free buffer → Forall group_nl_free (flushed buffer).
Proof.
  intros H. unfold flushed. case_match; [|done].
  apply Forall_forall. intros g [i Hi]%list_elem_of_lookup_1.
  rewrite list_lookup_imap in Hi.
  destruct (buffer !! i) as [g0|] eqn:Hg0; [|done]. injection Hi as <-.
  rewrite Forall_forall in H. apply (H g0). by eapply list_elem_of_lookup_2.
Qed.

Lemma text_invariant_buffer_current (text : jstr) (st : pstate) :
  text_invariant text st → Forall group_nl_free (buffer_current st).
Proof.
  intros (_ & _ & _ & _ & Hbuf & Hcur). unfold buffer_current.
  destruct (currentGroup st) as [g|]; [|done].
  apply Forall_app. split; [done|]. constructor; [by apply Hcur|done].
Qed.

Lemma text_invariant_parse_line (text : jstr) (st : pstate) (i : Z)
    (line : jstr) :
  nl_free line → text_invariant text st →
  text_invariant text (parse_line st i line).
Proof.
  intros Hline Hinv.
  pose proof (text_invariant_buffer_current text st Hinv) as Hbc.
  destruct Hinv as (Htext & Hgf & Hpend & Hout & Hbuf & Hcur).
  pose proof (nl_free_trim line Hline) as Htrim.
  assert (Hflush : ∀ sec cur last pend,
    Forall group_nl_free
      (wordGroups (result (flushRelatedGroups
         (PState (result st) sec cur last (buffer_current st) pend))))).
  { intros. rewrite flush_wordGroups. apply Forall_app. split; [done|].
    by apply group_nl_free_flushed. }
  assert (Hnil : nl_free []) by apply not_elem_of_nil.
  unfold parse_line. cbv zeta.
  destruct (startsWith (trim line) [c_hash] && _) eqn:E1.
  { split_and!; try done. apply Forall_app. split; [done|]. by constructor. }
  destruct (startsWith (trim line) [c_hash]) eqn:E2.
  { split_and!; done. }
  destruct (eqb_str (trim line) []) eqn:E3.
  { split_and!; simpl;
      rewrite ?flush_originalText, ?flush_globalFilter, ?flush_pending,
        ?flush_buffer, ?flush_current; simpl; try done.
    destruct (currentSection st); try done.
    apply Forall_app. split; [done|]. by constructor. }
  destruct (eqb_str (trim line) marker_global) eqn:E4.
  { split_and!; done. }
  destruct (eqb_str (trim line) marker_groups) eqn:E5.
  { split_and!; done. }
  destruct (currentSection st) eqn:Hsec.
  - split_and!; done.
  - split_and!; simpl; try done.
    apply Forall_app. split; [done|]. constructor; [|done].
    split; [done|]. rewrite classify_groups_marker, trim_idemp.
    by apply eqb_str_false.
  - destruct (match_group_name (trim line)) as [nm|] eqn:Hlabel.
    { pose proof (match_group_name_nl_free _ _ Hlabel Htrim).
      split_and!; simpl;
        rewrite ?flush_originalText, ?flush_globalFilter, ?flush_pending,
          ?flush_buffer, ?flush_current; simpl; try done.
      intros g [= <-]. split_and!; simpl; done. }
    destruct (match_alias (trim line)) as [[kw al]|] eqn:Halias.
    { destruct (match_alias_nl_free _ _ _ Halias Htrim) as [Hkw Hal].
      assert (Hnew : ∀ j, group_nl_free
                (Group Alias [] [] [AliasItem kw al] j (pendingComments st)
                   false None None)).
      { intros j. split_and!; simpl; try done. by constructor. }
      destruct (currentGroup st) as [g|] eqn:Hg.
      - destruct (lastLineWasAlias st && is_alias_type (type g)).
        + split_and!; simpl; try done. intros g' [= <-].
          destruct (Hcur g eq_refl) as (? & ? & ? & ?).
          split_and!; simpl; try done.
          apply Forall_app. split; [done|]. by constructor.
        + split_and!; simpl; try done. by intros g' [= <-].
      - split_and!; simpl; try done. by intros g' [= <-]. }
    assert (Hnew : ∀ j, group_nl_free
              (Group Plain [] [trim line] [] j (pendingComments st)
                 false None None)).
    { intros j. split_and!; simpl; try done. by constructor. }
    destruct (currentGroup st) as [g|] eqn:Hg.
    + destruct (is_alias_type (type g)).
      * split_and!; simpl; try done. by intros g' [= <-].
      * split_and!; simpl; try done. intros g' [= <-].
        destruct (Hcur g eq_refl) as (? & ? & ? & ?).
        split_and!; simpl; try done.
        apply Forall_app. split; [done|]. by constructor.
    + split_and!; simpl; try done. by intros g' [= <-].
Qed.

(** ** Before the groups marker *)

Lemma no_groups_parse_line (st : pstate) (i : Z) (line : jstr) :
  no_groups st → not_groups_marker line → no_groups (parse_line st i line).
Proof.
  intros (Hcur & Hbuf & Hout & Hpend & Hsec) Hline.
  assert (Hbc : buffer_current st = []).
  { unfold buffer_current. by rewrite Hcur. }
  unfold parse_line. cbv zeta.
  assert (Hin : match currentSection st with SecGroups => true | _ => false end
                = false) by by destruct (currentSection st).
  rewrite Hin, andb_false_r.
  destruct (startsWith (trim line) [c_hash]) eqn:E2; [done|].
  destruct (eqb_str (trim line) []) eqn:E3.
  { unfold no_groups. simpl.
    rewrite flush_current, flush_buffer, flush_wordGroups, flush_pending,
      flush_section. simpl. by rewrite Hbc, Hout. }
  destruct (eqb_str (trim line) marker_global) eqn:E4; [done|].
  destruct (eqb_str (trim line) marker_groups) eqn:E5.
  { exfalso. apply Hline, classify_groups_marker. by apply eqb_str_true. }
  destruct (currentSection st) eqn:Hs;
    unfold no_groups; simpl; rewrite ?Hs; done.
Qed.

Lemma no_groups_parse_lines (lines : list jstr) :
  ∀ (st : pstate) (i : Z),
    no_groups st → Forall not_groups_marker lines →
    no_groups (parse_lines st i lines).
Proof.
  induction lines as [|line lines IH]; intros st i Hst Hall; [done|].
  apply Forall_cons in Hall as [Hline Hall]. simpl.
  apply IH; [|done]. by apply no_groups_parse_line.
Qed.

Lemma no_groups_marker (st : pstate) (i : Z) (line : jstr) :
  no_groups st → classify line = LMarkGroups →
  groups_start (parse_line st i line).
Proof.
  intros (Hcur & Hbuf & Hout & Hpend & Hsec) Hline.
  apply classify_groups_marker in Hline.
  unfold parse_line. cbv zeta. rewrite Hline. simpl. done.
Qed.

Lemma no_groups_finish (st : pstate) :
  no_groups st → wordGroups (parse_finish st) = [].
Proof.
  intros (Hcur & Hbuf & Hout & _).
  rewrite parse_finish_close, close_run_wordGroups, Hout.
  unfold buffer_current. by rewrite Hcur, Hbuf.
Qed.

Lemma no_groups_init (text : jstr) : no_groups (parse_init text).
Proof. done. Qed.

Lemma groups_start_body (st : pstate) : groups_start st → body_invariant st.
Proof.
  intros (Hsec & Hcur & Hbuf & Hout & Hpend).
  split; [done|]. exists []. split_and!; try done.
  - left. unfold buffer_current. by rewrite Hcur.
  - intros g Hg. by rewrite Hcur in Hg.
  - by rewrite Hpend.
Qed.

Lemma groups_start_holds (st : pstate) : groups_start st → holds st [] [].
Proof.
  intros (Hsec & Hcur & Hbuf & Hout & Hpend).
  split_and!; try done.
  - by rewrite Hout.
  - unfold buffer_current. by rewrite Hcur, Hbuf.
  - intros g Hg. by rewrite Hcur in Hg.
Qed.

(** The lines split at the first groups marker. *)
Lemma first_groups_marker (lines : list jstr) :
  Forall not_groups_marker lines
  ∨ ∃ pre w post, lines = pre ++ w :: post
      ∧ Forall not_groups_marker pre ∧ classify w = LMarkGroups.
Proof.
  induction lines as [|l lines IH]; [by left|].
  destruct (eqb_str (trim l) marker_groups) eqn:E.
  - right. exists [], l, lines. split_and!; [done|done|].
    by apply classify_groups_marker, eqb_str_true.
  - assert (Hl : not_groups_marker l).
    { unfold not_groups_marker. rewrite classify_groups_marker.
      by apply eqb_str_false. }
    destruct IH as [IH|(pre & w & post & -> & Hpre & Hw)].
    + left. by constructor.
    + right. exists (l :: pre), w, post. split_and!; [done| |done].
      by constructor.
Qed.

Lemma sections_ordered_after (lines : list jstr) :
  ∀ seenGlobal, sections_ordered seenGlobal true lines = true →
    Forall (fun l => classify l ≠ LMarkGlobal) lines.
Proof.
  induction lines as [|l lines IH]; intros sg H; [done|]. simpl in H.
  destruct (eqb_str (trim l) marker_global) eqn:E1; [done|].
  constructor.
  { rewrite classify_global_marker. by apply eqb_str_false. }
  destruct (eqb_str (trim l) marker_groups).
  - apply andb_true_iff in H as [_ H]. by eapply IH.
  - by eapply IH.
Qed.

Lemma sections_ordered_app (pre : list jstr) (w : jstr) (post : list jstr) :
  ∀ seenGlobal seenGroups,
    sections_ordered seenGlobal seenGroups (pre ++ w :: post) = true →
    classify w = LMarkGroups →
    ∃ seenGlobal', sections_ordered seenGlobal' true post = true.
Proof.
  induction pre as [|l pre IH]; intros sg sw H Hw; simpl in H.
  - apply classify_groups_marker in Hw. rewrite Hw in H. simpl in H.
    apply andb_true_iff in H as [_ H]. by exists sg.
  - destruct (eqb_str (trim l) marker_global).
    { apply andb_true_iff in H as [_ H]. by eapply IH. }
    destruct (eqb_str (trim l) marker_groups).
    { apply andb_true_iff in H as [_ H]. by eapply IH. }
    by eapply IH.
Qed.

(** ** The lines copied by the builder *)

Lemma is_comment_or_blank_class (l : jstr) :
  is_comment_or_blank l = true → not_groups_marker l.
Proof.
  unfold is_comment_or_blank, not_groups_marker, classify. cbv zeta.
  intros [->| ->]%orb_true_iff; [done|]. by case_match.
Qed.

Lemma build_header_Forall (P : jstr → Prop) (lines : list jstr) :
  Forall P lines →
  Forall P (build_header lines).1 ∧ Forall P (build_header lines).2.
Proof.
  induction lines as [|l lines IH]; intros H; simpl; [done|].
  destruct (eqb_str (trim l) marker_global); [done|].
  apply Forall_cons in H as [Hl H]. destruct (IH H) as [H1 H2].
  destruct (build_header lines) as [copied rem]. simpl in *.
  split; [by constructor|done].
Qed.

Lemma build_header_no_marker (lines : list jstr) :
  ∀ seenGroups, sections_ordered false seenGroups lines = true →
    Forall not_groups_marker (build_header lines).1.
Proof.
  induction lines as [|l lines IH]; intros sw H; simpl in *; [done|].
  destruct (eqb_str (trim l) marker_global); [done|].
  destruct (eqb_str (trim l) marker_groups) eqn:E; [done|].
  specialize (IH sw H). destruct (build_header lines) as [copied rem].
  simpl in *. constructor; [|done].
  unfold not_groups_marker. rewrite classify_groups_marker.
  by apply eqb_str_false.
Qed.

Lemma build_after_marker_Forall (P : jstr → Prop) (lines : list jstr) :
  Forall P lines →
  Forall P (build_after_marker lines).1
  ∧ Forall P (build_after_marker lines).2.
Proof.
  induction lines as [|l lines IH]; intros H; simpl; [done|].
  destruct (is_comment_or_blank l); [|done].
  apply Forall_cons in H as [Hl H]. destruct (IH H) as [H1 H2].
  destruct (build_after_marker lines) as [copied rem]. simpl in *.
  split; [by constructor|done].
Qed.

Lemma build_after_marker_class (lines : list jstr) :
  Forall not_groups_marker (build_after_marker lines).1.
Proof.
  induction lines as [|l lines IH]; simpl; [done|].
  destruct (is_comment_or_blank l) eqn:E; [|done].
  destruct (build_after_marker lines) as [copied rem]. simpl in *.
  constructor; [by apply is_comment_or_blank_class|done].
Qed.

Lemma build_before_groups_Forall (P : jstr → Prop) (lines : list jstr) :
  Forall P lines → Forall P (build_before_groups lines).
Proof.
  induction lines as [|l lines IH]; intros H; simpl; [done|].
  apply Forall_cons in H as [Hl H].
  destruct (eqb_str (trim l) marker_groups); [done|].
  destruct (is_comment_or_blank l); [constructor|]; auto.
Qed.

Lemma build_before_groups_class (lines : list jstr) :
  Forall not_groups_marker (build_before_groups lines).
Proof.
  induction lines as [|l lines IH]; simpl; [done|].
  destruct (eqb_str (trim l) marker_groups); [done|].
  destruct (is_comment_or_blank l) eqn:E; [|done].
  constructor; [by apply is_comment_or_blank_class|done].
Qed.

Lemma nl_free_nil : nl_free [].
Proof. apply not_elem_of_nil. Qed.

Lemma nl_free_cons (c : N) (l : jstr) :
  nl_free (c :: l) ↔ c ≠ c_nl ∧ nl_free l.
Proof.
  unfold nl_free. rewrite not_elem_of_cons. split; intros [? ?]; done.
Qed.

Lemma group_body_nl_free (g : group) :
  group_nl_free g → Forall nl_free (group_body g).
Proof.
  intros (_ & Hname & Hkw & Hit). unfold group_body.
  assert (Hitems : Forall nl_free
            (List.map (fun it => keyword it ++ str " => " ++ alias it)
               (items g))).
  { induction Hit as [|it its [Hk Ha] _ IH]; cbn [List.map]; [done|].
    constructor; [|done]. apply nl_free_app. split; [done|].
    apply nl_free_app. split; [|done].
    change (str " => ") with [c_space; c_eq; c_gt; c_space].
    repeat (apply nl_free_cons; split; [done|]). apply nl_free_nil. }
  destruct (type g); cbv iota; try done.
  apply Forall_app. split; [|done].
  destruct (name g) as [|c nm] eqn:E; [done|].
  constructor; [|done].
  apply nl_free_app. split; [|apply nl_free_app; split; [done|]].
  - apply nl_free_cons. split; [done|apply nl_free_nil].
  - apply nl_free_cons. split; [done|apply nl_free_nil].
Qed.

Lemma build_groups_nl_free (gs : list group) :
  Forall group_nl_free gs → Forall nl_free (build_groups gs).
Proof.
  induction 1 as [|g gs Hg _ IH]; simpl; [done|].
  rewrite !Forall_app. split_and!; try done.
  - apply Hg.
  - by apply group_body_nl_free.
  - destruct (group_separator_cases g (head gs)) as [-> | ->]; [done|].
    constructor; [apply nl_free_nil|done].
Qed.

(** ** The round trip on whole texts *)

Lemma text_invariant_parse_lines (text : jstr) (lines : list jstr) :
  ∀ (st : pstate) (i : Z),
    Forall nl_free lines → text_invariant text st →
    text_invariant text (parse_lines st i lines).
Proof.
  induction lines as [|line lines IH]; intros st i Hall Hst; [done|].
  apply Forall_cons in Hall as [Hline Hall]. simpl.
  apply IH; [done|]. by apply text_invariant_parse_line.
Qed.

Lemma split_lines_nl_free (text : jstr) : Forall nl_free (split_lines text).
Proof. apply split_on_no_sep. Qed.

(** What [parseFrequencyText] returns holds the text itself and strings
    that can be written back on one line each. *)
Lemma parse_stored (text : jstr) :
  originalText (parseFrequencyText text) = text
  ∧ Forall filter_ok (globalFilter (parseFrequencyText text))
  ∧ Forall group_nl_free (wordGroups (parseFrequencyText text)).
Proof.
  unfold parseFrequencyText.
  assert (Hinv : text_invariant text
            (parse_lines (parse_init text) 0 (split_lines text))).
  { apply text_invariant_parse_lines; [apply split_lines_nl_free|].
    split_and!; done. }
  pose proof (text_invariant_buffer_current _ _ Hinv) as Hbc.
  destruct Hinv as (Htext & Hgf & _ & Hout & _).
  rewrite parse_finish_close. unfold close_run.
  rewrite flush_originalText, flush_globalFilter, flush_wordGroups. simpl.
  split_and!; try done. apply Forall_app. split; [done|].
  by apply group_nl_free_flushed.
Qed.

(** Under the two hypotheses on the text, the groups of its parse are a
    sequence of flushed runs of well-formed groups. *)
Lemma parse_runs (text : jstr) :
  sections_in_order text → lines_without_terminators text →
  ∃ runs : list (list group),
    wordGroups (parseFrequencyText text) = concat (flushed <$> runs)
    ∧ proper_runs runs.
Proof.
  unfold sections_in_order, lines_without_terminators, parseFrequencyText.
  generalize (split_lines text) as lines. intros lines Hord Hterm.
  destruct (first_groups_marker lines)
    as [Hnone|(pre & w & post & -> & Hpre & Hw)].
  - exists []. split; [|done]. apply no_groups_finish.
    apply no_groups_parse_lines; [apply no_groups_init|done].
  - apply body_invariant_finish.
    rewrite parse_lines_app. simpl.
    apply body_invariant_lines.
    + destruct (sections_ordered_app _ _ _ _ _ Hord Hw) as [sg Hpost].
      apply sections_ordered_after in Hpost.
      apply Forall_app in Hterm as [_ Hterm].
      apply Forall_cons in Hterm as [_ Hterm].
      rewrite Forall_forall in Hpost, Hterm. apply Forall_forall.
      intros l Hl. split; [by apply Hpost|].
      apply forallb_not_lt. by apply Hterm.
    + apply groups_start_body, no_groups_marker; [|done].
      apply no_groups_parse_lines; [apply no_groups_init|done].
Qed.

Lemma marker_global_class : not_groups_marker marker_global.
Proof. done. Qed.

Lemma marker_nl_free : nl_free marker_global ∧ nl_free marker_groups.
Proof.
  split; unfold nl_free; intros H;
    repeat (apply elem_of_cons in H as [H|H]; [done|]);
    by apply elem_of_nil in H.
Qed.

(** The lines of the rebuilt text: lines that are not the groups marker,
    the groups marker, the lines of the groups. *)
Lemma rebuilt_lines (data : frequencyData) :
  originalText data ≠ [] → sections_in_order (originalText data) →
  Forall filter_ok (globalFilter data) →
  Forall group_nl_free (wordGroups data) →
  ∃ before : list jstr,
    split_lines (buildFrequencyText data)
    = before ++ marker_groups :: build_groups (wordGroups data)
    ∧ Forall not_groups_marker before.
Proof.
  intros Htext Hord Hgf Hgs. unfold buildFrequencyText.
  destruct (originalText data) as [|c t] eqn:E; [done|]. clear Htext.
  unfold sections_in_order in Hord. cbv zeta.
  pose proof (split_lines_nl_free (c :: t)) as Hfree.
  revert Hord Hfree. generalize (split_lines (c :: t)) as lines.
  intros lines Hord Hfree.
  pose proof (build_header_no_marker lines false Hord) as Hhead.
  destruct (build_header_Forall nl_free lines Hfree) as [Hh1 Hh2].
  destruct (build_header lines) as [header left1]. simpl in Hhead, Hh1, Hh2.
  assert (Hd : Forall nl_free (drop 1 left1)) by by apply Forall_drop.
  pose proof (build_after_marker_class (drop 1 left1)) as Hcom.
  destruct (build_after_marker_Forall nl_free _ Hd) as [Hc1 Hc2].
  destruct (build_after_marker (drop 1 left1)) as [comments left2].
  simpl in Hcom, Hc1, Hc2.
  exists (header ++ [marker_global] ++ comments ++ globalFilter data
            ++ build_before_groups left2).
  split.
  - unfold split_lines, join_lines.
    rewrite split_on_join.
    + by rewrite <- !app_assoc.
    + intros H. apply app_eq_nil in H as [_ H]. done.
    + destruct marker_nl_free as [Hg Hw].
      rewrite !Forall_app. split_and!; try done.
      * by constructor.
      * eapply Forall_impl; [exact Hgf|]. by intros f [? _].
      * by apply build_before_groups_Forall.
      * by constructor.
      * by apply build_groups_nl_free.
  - rewrite !Forall_app. split_and!; try done.
    + constructor; [apply marker_global_class|done].
    + eapply Forall_impl; [exact Hgf|]. by intros f [_ ?].
    + apply build_before_groups_class.
Qed.

(** Reading back the lines of the builder gives the groups again, up to
    the line numbers and the comments. *)
Lemma reparse_text (text : jstr) (before : list jstr)
    (runs : list (list group)) :
  Forall not_groups_marker before → proper_runs runs →
  bare <$> wordGroups (parse_finish (parse_lines (parse_init text) 0
     (before ++ marker_groups :: build_groups (concat (flushed <$> runs)))))
  = bare <$> concat (flushed <$> runs).
Proof.
  intros Hbefore [Hruns Hbreak].
  rewrite parse_lines_app. simpl.
  assert (Hstart : groups_start
            (parse_line (parse_lines (parse_init text) 0 before)
               (0 + Z.of_nat (length before)) marker_groups)).
  { apply no_groups_marker; [|done].
    apply no_groups_parse_lines; [apply no_groups_init|done]. }
  apply groups_start_holds in Hstart.
  pose proof (reparse_runs runs _ (0 + Z.of_nat (length before) + 1) [] []
                Hruns ltac:(done) Hbreak Hstart) as H.
  by rewrite flushed_nil in H.
Qed.

Lemma bare_same_structure (gs gs' : list group) :
  bare <$> gs = bare <$> gs' → Forall2 same_structure gs gs'.
Proof.
  intros H%list_eq_Forall2. rewrite Forall2_fmap in H.
  eapply Forall2_impl; [exact H|].
  intros g g' [= ? ? ? ? ? ? ?]. by split_and!.
Qed.

(** C1, as amended.  For every rule text whose section markers come in the
    order of the builder (no groups marker before the first global marker,
    no global marker after a groups marker) and whose lines, once trimmed,
    hold no line terminator, the groups parsed from
    [buildFrequencyText (parseFrequencyText T)] are, one by one and in the
    same order, structurally equal to the groups parsed from [T]: same
    type, label, keywords, alias items, [isRelatedGroup] flag, index and
    total. *)
Theorem round_trip_groups (T : jstr) :
  sections_in_order T → lines_without_terminators T →
  Forall2 same_structure
    (wordGroups (parseFrequencyText T))
    (wordGroups (parseFrequencyText (buildFrequencyText (parseFrequencyText T)))).
Proof.
  intros Hord Hterm. destruct T as [|c t].
  { assert (H1 : wordGroups (parseFrequencyText []) = [])
      by (vm_compute; reflexivity).
    assert (H2 : wordGroups (parseFrequencyText
                   (buildFrequencyText (parseFrequencyText []))) = [])
      by (vm_compute; reflexivity).
    rewrite H1, H2. constructor. }
  destruct (parse_stored (c :: t)) as (Htext & Hgf & Hgs).
  destruct (parse_runs (c :: t) Hord Hterm) as (runs & Hruns & Hproper).
  destruct (rebuilt_lines (parseFrequencyText (c :: t)))
    as (before & Hsplit & Hbefore); try done.
  { by rewrite Htext. }
  { by rewrite Htext. }
  apply bare_same_structure. revert Hsplit Hruns.
  generalize (parseFrequencyText (c :: t)) as data. intros data Hsplit Hruns.
  unfold parseFrequencyText. rewrite Hsplit, Hruns.
  symmetry. by apply reparse_text.
Qed.

Lemma round_trip_groups_witness :
  Forall2 same_structure
    (wordGroups (parseFrequencyText scenario_text))
    (wordGroups (parseFrequencyText
       (buildFrequencyText (parseFrequencyText scenario_text)))).
Proof.
  apply (round_trip_groups scenario_text).
  - vm_compute. reflexivity.
  - vm_compute. repeat constructor.
Defined.

(** The counterexample to C1 as it is stated for every text: with a groups
    section and no global section the builder copies the whole text as a
    header and writes the groups after it a second time, and the open
    group of the first copy takes the keywords of the second. *)
Lemma round_trip_groups_only :
  keywords <$> wordGroups (parseFrequencyText groups_only_text)
  = [[str "foo"]]
  ∧ keywords <$> wordGroups (parseFrequencyText
      (buildFrequencyText (parseFrequencyText groups_only_text)))
    = [[str "foo"; str "foo"]]
  ∧ ¬ Forall2 same_structure
        (wordGroups (parseFrequencyText groups_only_text))
        (wordGroups (parseFrequencyText
           (buildFrequencyText (parseFrequencyText groups_only_text)))).
Proof.
  split_and!; [vm_compute; reflexivity..|].
  intros H. apply Forall2_cons_inv_l in H as (g' & gs' & Hg & _ & Heq).
  destruct Hg as (_ & _ & Hkw & _).
  vm_compute in Heq. injection Heq as <- _. vm_compute in Hkw. done.
Qed.

(** A second text on which the round trip fails, with its sections in
    order: a carriage return inside a line ends the keyword of the alias
    pattern, and the line of the builder has no carriage return. *)
Lemma round_trip_inner_return :
  items <$> wordGroups (parseFrequencyText inner_return_text)
  = [[AliasItem (str "a=>b") (str "c")]]
  ∧ items <$> wordGroups (parseFrequencyText
      (buildFrequencyText (parseFrequencyText inner_return_text)))
    = [[AliasItem (str "a") (str "b => c")]].
Proof. split; vm_compute; reflexivity. Qed.

(** ** Two lines without a blank line between them *)

Lemma split_two_lines (l1 l2 : jstr) :
  nl_free l1 → nl_free l2 →
  split_lines (two_lines_text l1 l2) = [marker_global; marker_groups; l1; l2].
Proof.
  intros H1 H2. unfold split_lines, two_lines_text, join_lines.
  apply split_on_join; [done|].
  destruct marker_nl_free. repeat constructor; done.
Qed.

(** The parse of the text in two steps of the loop from the state after
    the groups marker. *)
Lemma parse_two_lines (l1 l2 : jstr) :
  nl_free l1 → nl_free l2 → classify l1 ≠ LMarkGlobal →
  parseFrequencyText (two_lines_text l1 l2)
  = parse_finish
      (step_groups
         (step_groups
            (PState (FrequencyData [] [] (two_lines_text l1 l2)) SecGroups None
               false [] [])
            2 l1 (classify l1))
         3 l2 (classify l2)).
Proof.
  intros H1 H2 Hc. unfold parseFrequencyText. rewrite split_two_lines by done.
  generalize (two_lines_text l1 l2) as text. intros text.
  cbn [parse_lines].
  change (parse_line (parse_init text) 0 marker_global)
    with (PState (FrequencyData [] [] text) SecGlobal None false [] []).
  change (parse_line (PState (FrequencyData [] [] text) SecGlobal None false [] [])
            (0 + 1) marker_groups)
    with (PState (FrequencyData [] [] text) SecGroups None false [] []).
  rewrite (parse_line_groups
             (PState (FrequencyData [] [] text) SecGroups None false [] []))
    by done.
  rewrite parse_line_groups; [reflexivity|].
  unfold step_groups, close_run, open_group, update_group.
  destruct (classify l1); try done; simpl; repeat case_match; done.
Qed.

Lemma build_two_lines (l1 l2 : jstr) (gs : list group) :
  nl_free l1 → nl_free l2 →
  buildFrequencyText (FrequencyData [] gs (two_lines_text l1 l2))
  = join_lines ([marker_global; marker_groups] ++ build_groups gs).
Proof.
  intros H1 H2. unfold buildFrequencyText.
  cbn [originalText globalFilter wordGroups].
  rewrite split_two_lines by done.
  reflexivity.
Qed.

Lemma parse_line_section (st : pstate) (i : Z) (line : jstr) :
  currentSection (parse_line st i line)
  = match classify line with
    | LMarkGlobal => SecGlobal
    | LMarkGroups => SecGroups
    | _ => currentSection st
    end.
Proof.
  unfold parse_line, classify. cbv zeta.
  destruct (startsWith (trim line) [c_hash]).
  { by destruct st as [? [] ? ? ? ?]. }
  cbn [andb].
  destruct (eqb_str (trim line) []); [cbn; by rewrite flush_section|].
  destruct (eqb_str (trim line) marker_global); [done|].
  destruct (eqb_str (trim line) marker_groups); [done|].
  destruct (currentSection st) eqn:Hsec;
    [by repeat case_match|by repeat case_match|].
  destruct (match_group_name (trim line)).
  { simpl. by rewrite flush_section. }
  destruct (match_alias (trim line)) as [[kw al]|];
    repeat case_match; done.
Qed.

Lemma parse_lines_section (lines : list jstr) :
  ∀ (st : pstate) (i : Z),
    currentSection (parse_lines st i lines)
    = foldl (fun sec line =>
               match classify line with
               | LMarkGlobal => SecGlobal
               | LMarkGroups => SecGroups
               | _ => sec
               end) (currentSection st) lines.
Proof.
  induction lines as [|l lines IH]; intros st i; [done|]. simpl.
  by rewrite IH, parse_line_section.
Qed.

Lemma opens_run_start (text : jstr) (pre : list jstr) :
  opens_run pre → run_start (parse_lines (parse_init text) 0 pre).
Proof.
  intros (pre0 & b & -> & [[Hb Hsec]|[Hb Hpre]]).
  - rewrite parse_lines_app. cbn [parse_lines].
    assert (Hs : currentSection (parse_lines (parse_init text) 0 pre0)
                 = SecGroups) by (by rewrite parse_lines_section).
    rewrite parse_line_groups, Hb by done. cbn [step_groups].
    split_and!; cbn.
    + by rewrite close_run_section.
    + done.
    + apply close_run_buffer.
  - rewrite parse_lines_app. cbn [parse_lines].
    destruct (no_groups_marker
                (parse_lines (parse_init text) 0 pre0)
                (0 + Z.of_nat (length pre0)) b)
      as (H1 & H2 & H3 & _); [|done|done].
    apply no_groups_parse_lines; [apply no_groups_init|done].
Qed.

(** The parse of a text whose last two lines follow the start of a run:
    two steps of the loop of the groups section, then the flush. *)
Lemma parse_last_two_lines (pre : list jstr) (l1 l2 : jstr) :
  Forall nl_free pre → nl_free l1 → nl_free l2 → opens_run pre →
  classify l1 ≠ LMarkGlobal →
  let T := join_lines (pre ++ [l1; l2]) in
  let st := parse_lines (parse_init T) 0 pre in
  run_start st
  ∧ parseFrequencyText T
    = parse_finish
        (step_groups
           (step_groups st (Z.of_nat (length pre)) l1 (classify l1))
           (Z.of_nat (length pre) + 1) l2 (classify l2)).
Proof.
  intros Hpre H1 H2 Hopen Hc T st.
  pose proof (opens_run_start T pre Hopen) as Hstart. fold st in Hstart.
  split; [done|]. unfold parseFrequencyText.
  assert (Hsplit : split_lines T = pre ++ [l1; l2]).
  { unfold T, split_lines, join_lines. apply split_on_join.
    - by destruct pre.
    - apply Forall_app. split; [done|]. by repeat constructor. }
  rewrite Hsplit, parse_lines_app. fold st. cbn [parse_lines].
  rewrite Z.add_0_l.
  destruct Hstart as (Hsec & Hcur & Hbuf).
  rewrite (parse_line_groups st) by done.
  rewrite parse_line_groups; [done|].
  destruct st as [res sec cur last buf pend]. simpl in *. subst.
  unfold step_groups, close_run, open_group, update_group.
  destruct (classify l1); try done; simpl; by rewrite ?flush_section.
Qed.

(** The lines that the builder writes for the last two groups when both
    are flagged: their bodies, with no blank line between them. *)
Lemma build_groups_last_two (before : list group) (g1 g2 : group) :
  isRelatedGroup g1 = true → isRelatedGroup g2 = true →
  ∃ front : list jstr,
    build_groups (before ++ [g1; g2])
    = front ++ group_body g1 ++ precedingComments g2 ++ group_body g2
      ++ [[]].
Proof.
  intros Hr1 Hr2. induction before as [|g before [front IH]].
  - exists (precedingComments g1). cbn [app build_groups head].
    unfold group_separator. rewrite Hr1, Hr2. cbn. reflexivity.
  - eexists. replace ((g :: before) ++ [g1; g2])
      with (g :: (before ++ [g1; g2])) by done.
    cbn [build_groups]. rewrite IH.
    rewrite !app_assoc. reflexivity.
Qed.

Lemma build_last_two (data : frequencyData) (before : list group)
    (g1 g2 : group) :
  originalText data ≠ [] → wordGroups data = before ++ [g1; g2] →
  isRelatedGroup g1 = true → isRelatedGroup g2 = true →
  ∃ front : list jstr,
    buildFrequencyText data
    = join_lines (front ++ group_body g1 ++ precedingComments g2
                  ++ group_body g2 ++ [[]]).
Proof.
  intros Htext Hgs Hr1 Hr2. unfold buildFrequencyText.
  destruct (originalText data) as [|c t]; [done|].
  destruct (build_header (split_lines (c :: t))) as [header left1].
  destruct (build_after_marker (drop 1 left1)) as [comments left2].
  destruct (build_groups_last_two before g1 g2 Hr1 Hr2) as [front Hfront].
  rewrite Hgs, Hfront. eexists. by rewrite !app_assoc.
Qed.

(** C5, as amended.  For a text whose last two lines follow the start of
    a run in the groups section (the first groups marker, or a blank line
    of the section), with the groups [stored] before them and the
    comments [cs] pending: two alias lines give one group of type
    alias-group with the two items and no flag; two keyword lines give one
    plain group with the two keywords and no flag; a keyword line and an
    alias line, in either order, give two groups, both flagged
    [isRelatedGroup], with index 0 and 1 and total 2, and the builder
    writes their two lines with no blank line between them. *)
Theorem adjacent_lines_groups (pre : list jstr) (l1 l2 : jstr) :
  let T := join_lines (pre ++ [l1; l2]) in
  let i := Z.of_nat (length pre) in
  let stored := wordGroups (result (parse_lines (parse_init T) 0 pre)) in
  let cs := pendingComments (parse_lines (parse_init T) 0 pre) in
  Forall nl_free pre → nl_free l1 → nl_free l2 → opens_run pre →
  (∀ k1 a1 k2 a2, classify l1 = LAlias k1 a1 → classify l2 = LAlias k2 a2 →
     wordGroups (parseFrequencyText T)
     = stored ++ [Group AliasGroup [] [] [AliasItem k1 a1; AliasItem k2 a2]
                    i cs false None None])
  ∧ (∀ k1 k2, classify l1 = LKeyword k1 → classify l2 = LKeyword k2 →
     wordGroups (parseFrequencyText T)
     = stored ++ [Group Plain [] [k1; k2] [] i cs false None None])
  ∧ (∀ k1 k2 a2, classify l1 = LKeyword k1 → classify l2 = LAlias k2 a2 →
     wordGroups (parseFrequencyText T)
     = stored
       ++ [Group Plain [] [k1] [] i cs true (Some 0%nat) (Some 2%nat);
           Group Alias [] [] [AliasItem k2 a2] (i + 1) [] true (Some 1%nat)
             (Some 2%nat)]
     ∧ ∃ front : list jstr,
         buildFrequencyText (parseFrequencyText T)
         = join_lines (front ++ [k1; k2 ++ str " => " ++ a2; []]))
  ∧ (∀ k1 a1 k2, classify l1 = LAlias k1 a1 → classify l2 = LKeyword k2 →
     wordGroups (parseFrequencyText T)
     = stored
       ++ [Group Alias [] [] [AliasItem k1 a1] i cs true (Some 0%nat)
             (Some 2%nat);
           Group Plain [] [k2] [] (i + 1) [] true (Some 1%nat) (Some 2%nat)]
     ∧ ∃ front : list jstr,
         buildFrequencyText (parseFrequencyText T)
         = join_lines (front ++ [k1 ++ str " => " ++ a1; k2; []])).
Proof.
  intros T i stored cs Hpre H1 H2 Hopen.
  assert (Htext : originalText (parseFrequencyText T) ≠ []).
  { destruct (parse_stored T) as (-> & _). unfold T. intros E.
    destruct Hopen as (pre0 & b & -> & _).
    assert (Hlen : length (split_lines (join_lines ((pre0 ++ [b]) ++ [l1; l2])))
                   = 1%nat) by (by rewrite E).
    unfold split_lines, join_lines in Hlen. rewrite split_on_join in Hlen.
    - rewrite !length_app in Hlen. simpl in Hlen. lia.
    - by destruct pre0.
    - apply Forall_app. split; [done|]. by repeat constructor. }
  assert (Hgo : ∀ c1, classify l1 = c1 → c1 ≠ LMarkGlobal →
            run_start (parse_lines (parse_init T) 0 pre)
            ∧ parseFrequencyText T
              = parse_finish
                  (step_groups
                     (step_groups (parse_lines (parse_init T) 0 pre) i l1 c1)
                     (i + 1) l2 (classify l2))).
  { intros c1 <- Hne. by apply parse_last_two_lines. }
  unfold stored, cs. revert Hgo Htext.
  generalize (parse_lines (parse_init T) 0 pre) as st.
  intros [res sec cur last buf pend] Hgo Htext.
  split_and!.
  - intros k1 a1 k2 a2 Hc1 Hc2.
    destruct (Hgo _ Hc1) as [(Hsec & Hcur & Hbuf) ->]; [done|].
    simpl in Hsec, Hcur, Hbuf. subst. rewrite Hc2. reflexivity.
  - intros k1 k2 Hc1 Hc2.
    destruct (Hgo _ Hc1) as [(Hsec & Hcur & Hbuf) ->]; [done|].
    simpl in Hsec, Hcur, Hbuf. subst. rewrite Hc2. reflexivity.
  - intros k1 k2 a2 Hc1 Hc2.
    destruct (Hgo _ Hc1) as [(Hsec & Hcur & Hbuf) E]; [done|].
    simpl in Hsec, Hcur, Hbuf. subst. rewrite Hc2 in E.
    assert (Hgs : wordGroups (parseFrequencyText T)
              = wordGroups res
                ++ [Group Plain [] [k1] [] i pend true (Some 0%nat)
                      (Some 2%nat);
                    Group Alias [] [] [AliasItem k2 a2] (i + 1) [] true
                      (Some 1%nat) (Some 2%nat)])
      by (rewrite E; reflexivity).
    split; [exact Hgs|].
    destruct (build_last_two _ _ _ _ Htext Hgs eq_refl eq_refl) as [front Hb].
    exists front. exact Hb.
  - intros k1 a1 k2 Hc1 Hc2.
    destruct (Hgo _ Hc1) as [(Hsec & Hcur & Hbuf) E]; [done|].
    simpl in Hsec, Hcur, Hbuf. subst. rewrite Hc2 in E.
    assert (Hgs : wordGroups (parseFrequencyText T)
              = wordGroups res
                ++ [Group Alias [] [] [AliasItem k1 a1] i pend true
                      (Some 0%nat) (Some 2%nat);
                    Group Plain [] [k2] [] (i + 1) [] true (Some 1%nat)
                      (Some 2%nat)])
      by (rewrite E; reflexivity).
    split; [exact Hgs|].
    destruct (build_last_two _ _ _ _ Htext Hgs eq_refl eq_refl) as [front Hb].
    exists front. exact Hb.
Qed.

(** The theorem at a keyword line and an alias line that follow the
    groups marker. *)
Lemma adjacent_lines_groups_witness :
  wordGroups (parseFrequencyText (two_lines_text (str "foo") (str "/x|y/ => Z")))
  = [Group Plain [] [str "foo"] [] 2 [] true (Some 0%nat) (Some 2%nat);
     Group Alias [] [] [AliasItem (str "/x|y/") (str "Z")] 3 [] true
       (Some 1%nat) (Some 2%nat)]
  ∧ ∃ front : list jstr,
      buildFrequencyText
        (parseFrequencyText (two_lines_text (str "foo") (str "/x|y/ => Z")))
      = join_lines (front ++ [str "foo"; str "/x|y/" ++ str " => " ++ str "Z";
                              []]).
Proof.
  destruct (adjacent_lines_groups [marker_global; marker_groups]
              (str "foo") (str "/x|y/ => Z"))
    as (_ & _ & H & _).
  - repeat constructor; apply (bool_decide_unpack _); vm_compute; exact I.
  - apply (bool_decide_unpack _); vm_compute; exact I.
  - apply (bool_decide_unpack _); vm_compute; exact I.
  - exists [marker_global], marker_groups. split; [reflexivity|]. right.
    split; [reflexivity|]. repeat constructor. vm_compute. discriminate.
  - apply (H (str "foo") (str "/x|y/") (str "Z")); vm_compute; reflexivity.
Defined.

(** The counterexample to C5: two keyword lines with no blank line between
    them are one plain group of two keywords, without flag; two labelled
    groups of one keyword each with no blank line between them are two
    groups without flag, and the builder writes a blank line between
    them. *)
Lemma adjacent_keywords_one_group :
  wordGroups (parseFrequencyText (two_lines_text (str "foo") (str "bar")))
  = [Group Plain [] [str "foo"; str "bar"] [] 2 [] false None None]
  ∧ wordGroups (parseFrequencyText labelled_text)
    = [Group GroupName (str "A") [str "foo"] [] 2 [] false None None;
       Group GroupName (str "B") [str "bar"] [] 4 [] false None None]
  ∧ split_lines (buildFrequencyText (parseFrequencyText labelled_text))
    = [marker_global; marker_groups; str "[A]"; str "foo"; [];
       str "[B]"; str "bar"; []].
Proof. split_and!; vm_compute; reflexivity. Qed.

(** * The other operations of the editor *)

(** ** The end of a block *)

(** X1.  [findBlockEnd] on a range inside the array returns the index of
    the first line after [start] that is neither blank nor a comment and is
    indented at most by [indent], or [maxEnd] when the range has no such
    line; every line before the returned index is blank, a comment, or
    indented more than [indent]. *)
Theorem findBlockEnd_scan (lines : list jstr) (start indent maxEnd : Z) :
  (-1 <= start)%Z → (maxEnd <= Z.of_nat (length lines))%Z →
  ∃ e : Z,
    findBlockEnd lines start indent maxEnd = Some e
    ∧ ((e = maxEnd
        ∧ ∀ j, (start < j < maxEnd)%Z →
            ∃ line, lookupZ lines j = Some line ∧ inside_block indent line)
       ∨ ((start < e < maxEnd)%Z
          ∧ (∃ line, lookupZ lines e = Some line ∧ scope_exit indent line)
          ∧ ∀ j, (start < j < e)%Z →
              ∃ line, lookupZ lines j = Some line ∧ inside_block indent line)).
Proof. apply findBlockEnd_cases. Qed.

Lemma findBlockEnd_scan_witness :
  findBlockEnd
    [str "plan:"; str "    a: 1"; []; str "  # note"; str "  b: 2"; str "next:"]
    0 0 6 = Some 5%Z.
Proof.
  destruct (findBlockEnd_scan
              [str "plan:"; str "    a: 1"; []; str "  # note"; str "  b: 2";
               str "next:"] 0 0 6) as (e & He & _); [simpl; lia..|].
  rewrite He. vm_compute in He. symmetry. exact He.
Defined.

(** ** The section of a preset *)

Lemma trim_nil_iff (s : jstr) : trim s = [] ↔ skip_space s = [].
Proof.
  unfold trim, trimEnd, trimStart. split.
  - intros H. destruct (skip_space s) as [|c x] eqn:Hx; [done|].
    exfalso. apply skip_space_head in Hx as Hc.
    apply (f_equal (@rev N)) in H. rewrite rev_involutive in H. simpl in H.
    by apply (skip_space_snoc_nonempty (rev x) c Hc).
  - by intros ->.
Qed.

Lemma starts_nonspace_trim (line : jstr) :
  starts_nonspace line = true → eqb_str (trim line) [] = false.
Proof.
  destruct line as [|c t]; [done|]. unfold starts_nonspace, not_space.
  intros Hc%negb_true_iff. apply eqb_str_false. rewrite trim_nil_iff.
  by rewrite skip_space_cons_nonspace.
Qed.

(** The scan of [updateTimelineField] and [onTlWeekMap] and the scan of
    [findPresetSection] stop on the same lines: a line that starts with a
    code unit other than white space is not blank. *)
Lemma scan_presets_agree (presetName : jstr) (lines : list jstr) :
  ∀ (i : Z) (inPresets : bool),
    scan_presets' presetName lines i inPresets
    = scan_presets presetName lines i inPresets.
Proof.
  induction lines as [|line lines IH]; intros i b; [done|]. simpl.
  rewrite !IH.
  destruct (startsWith line (str "presets:")); [done|].
  destruct (starts_nonspace line) eqn:Hs.
  - rewrite (starts_nonspace_trim line Hs). simpl. by rewrite andb_true_r.
  - by rewrite !andb_false_r.
Qed.

Lemma find_custom_spec (lines : list jstr) :
  ∀ i r : Z, (0 <= i)%Z → find_custom lines i = Some r →
    ∃ line, lines !! Z.to_nat (r - i) = Some line
            ∧ startsWith line (str "custom:") = true.
Proof.
  induction lines as [|line lines IH]; intros i r Hi H; [done|]. simpl in H.
  destruct (startsWith line (str "custom:")) eqn:Hc.
  - injection H as <-. exists line. by rewrite Z.sub_diag.
  - pose proof (find_custom_range _ _ _ H) as Hr.
    destruct (IH (i + 1)%Z r ltac:(lia) H) as (l & Hl & Hs).
    exists l. split; [|done].
    replace (Z.to_nat (r - i)) with (S (Z.to_nat (r - (i + 1)))) by lia. done.
Qed.

Lemma find_custom_none (lines : list jstr) :
  ∀ i : Z, find_custom lines i = None
           ↔ Forall (fun l => startsWith l (str "custom:") = false) lines.
Proof.
  induction lines as [|line lines IH]; intros i; simpl; [done|].
  destruct (startsWith line (str "custom:")) eqn:Hc.
  - split; [done|]. intros H. apply Forall_cons in H as [H _]. congruence.
  - rewrite IH. split; [by constructor|]. by intros [_ ?]%Forall_cons.
Qed.

Lemma scan_presets'_spec (presetName : jstr) (lines : list jstr) :
  ∀ (i : Z) (b : bool) (r ind : Z),
    (0 <= i)%Z → scan_presets' presetName lines i b = Some (r, ind) →
    ∃ line ws, lines !! Z.to_nat (r - i) = Some line
               ∧ match_indented_key line = Some (ws, presetName)
               ∧ ind = Z.of_nat (length ws).
Proof.
  induction lines as [|line lines IH]; intros i b r ind Hi H; [done|].
  pose proof (scan_presets'_range _ _ _ _ _ _ H) as Hr.
  assert (Hrec : ∀ b', scan_presets' presetName lines (i + 1) b' = Some (r, ind) →
            ∃ l ws, (line :: lines) !! Z.to_nat (r - i) = Some l
                    ∧ match_indented_key l = Some (ws, presetName)
                    ∧ ind = Z.of_nat (length ws)).
  { intros b' H'. pose proof (scan_presets'_range _ _ _ _ _ _ H') as Hr'.
    destruct (IH (i + 1)%Z b' r ind ltac:(lia) H') as (l & ws & Hl & Hm & Hind).
    exists l, ws. split; [|done].
    replace (Z.to_nat (r - i)) with (S (Z.to_nat (r - (i + 1)))) by lia. done. }
  simpl in H.
  destruct (startsWith line (str "presets:")); [by eapply Hrec|].
  destruct (b && starts_nonspace line && negb (startsWith line [c_hash])
            && negb (eqb_str (trim line) [])); [done|].
  destruct b; [|by eapply Hrec].
  destruct (match_indented_key line) as [[ws k]|] eqn:Hm; [|by eapply Hrec].
  destruct (eqb_str k presetName) eqn:Hk; [|by eapply Hrec].
  injection H as <- <-. apply eqb_str_true in Hk as ->.
  exists line, ws. by rewrite Z.sub_diag.
Qed.

Lemma findPresetSection_found (lines : list jstr) (presetName : jstr)
    (info : sectionInfo) :
  findPresetSection lines presetName = Some info →
  ∃ line, lookupZ lines (sec_start info) = Some line
          ∧ preset_line presetName (sec_indent info) line
          ∧ findBlockEnd lines (sec_start info) (sec_indent info)
              (Z.of_nat (length lines)) = Some (sec_end info).
Proof.
  unfold findPresetSection, preset_line.
  destruct (eqb_str presetName (str "custom")) eqn:Hc.
  - destruct (find_custom lines 0) as [r|] eqn:Hf; [|done]. simpl.
    destruct (findBlockEnd lines r 0 (Z.of_nat (length lines))) as [e|] eqn:He;
      [|done].
    intros [= <-]. simpl.
    pose proof (find_custom_range _ _ _ Hf) as Hr.
    destruct (find_custom_spec lines 0 r ltac:(lia) Hf) as (line & Hl & Hs).
    exists line. split_and!; try done.
    apply lookupZ_Some. split; [lia|]. by rewrite Z.sub_0_r in Hl.
  - destruct (scan_presets' presetName lines 0 false) as [[r ind]|] eqn:Hf;
      [|done].
    destruct (findBlockEnd lines r ind (Z.of_nat (length lines))) as [e|] eqn:He;
      [|done].
    intros [= <-]. simpl.
    pose proof (scan_presets'_range _ _ _ _ _ _ Hf) as Hr.
    destruct (scan_presets'_spec presetName lines 0 false r ind ltac:(lia) Hf)
      as (line & ws & Hl & Hm & Hind).
    exists line. split_and!; try done; [|by exists ws].
    apply lookupZ_Some. split; [lia|]. by rewrite Z.sub_0_r in Hl.
Qed.

(** X2.  The section that [findPresetSection] returns starts on the line
    of the preset ([custom:] at the left margin, or the indented key
    [presetName]), ends after it and inside the array; every line between
    the two is blank, a comment or indented more than the first line; and
    the end is the end of the array or a line that is neither blank nor a
    comment and is indented at most like the first line. *)
Theorem findPresetSection_section (lines : list jstr) (presetName : jstr)
    (info : sectionInfo) :
  findPresetSection lines presetName = Some info →
  (∃ line, lookupZ lines (sec_start info) = Some line
           ∧ preset_line presetName (sec_indent info) line)
  ∧ (0 <= sec_start info < sec_end info)%Z
  ∧ (sec_end info <= Z.of_nat (length lines))%Z
  ∧ (∀ j, (sec_start info < j < sec_end info)%Z →
       ∃ l, lookupZ lines j = Some l ∧ inside_block (sec_indent info) l)
  ∧ (sec_end info = Z.of_nat (length lines)
     ∨ ∃ l, lookupZ lines (sec_end info) = Some l
            ∧ scope_exit (sec_indent info) l).
Proof.
  intros H. pose proof (findPresetSection_range _ _ _ H) as [Hs He].
  destruct (findPresetSection_found _ _ _ H) as (line & Hl & Hp & Hend).
  destruct (findBlockEnd_cases lines (sec_start info) (sec_indent info)
              (Z.of_nat (length lines))) as (e & He' & Hcases); [lia..|].
  rewrite Hend in He'. injection He' as <-.
  split; [by exists line|]. split; [lia|]. split; [lia|].
  destruct Hcases as [[Heq Hall]|(Hr & Hexit & Hall)].
  - split; [|by left]. intros j Hj. apply Hall. lia.
  - split; [done|by right].
Qed.

Lemma findPresetSection_section_witness :
  ∃ line,
    lookupZ [str "presets:"; str "  night:"; str "    name: Night"; [];
             str "  day:"; str "custom:"] 1 = Some line
    ∧ preset_line (str "night") 2 line.
Proof.
  destruct (findPresetSection_section
              [str "presets:"; str "  night:"; str "    name: Night"; [];
               str "  day:"; str "custom:"] (str "night") (SectionInfo 1 4 2))
    as (H & _); [vm_compute; reflexivity|].
  exact H.
Defined.

(** X3.  The search for the section written out in [updateTimelineField]
    and in [onTlWeekMap] and the function [findPresetSection] locate the
    same section: the same first line, indentation and end, or none. *)
Theorem section_search_agrees (lines : list jstr) (presetName : jstr) :
  match timeline_section lines presetName with
  | None => findPresetSection lines presetName = None
  | Some (s, ind) =>
      ∃ e, findBlockEnd lines s ind (Z.of_nat (length lines)) = Some e
           ∧ findPresetSection lines presetName = Some (SectionInfo s e ind)
  end.
Proof.
  assert (Heq : (if eqb_str presetName (str "custom")
                 then (fun i => (i, 0%Z)) <$> find_custom lines 0
                 else scan_presets' presetName lines 0 false)
                = timeline_section lines presetName).
  { unfold timeline_section. by rewrite scan_presets_agree. }
  unfold findPresetSection. rewrite Heq.
  destruct (timeline_section lines presetName) as [[s ind]|] eqn:Hs; [|done].
  pose proof (timeline_section_range _ _ _ _ Hs) as Hr.
  destruct (findBlockEnd_total lines s ind (Z.of_nat (length lines)))
    as (e & He & _); [lia..|].
  exists e. by rewrite He.
Qed.

(** ** The first child with a key *)

Lemma findChildKey_loop_first (lines : list jstr) (p : Z) (k : jstr) (n : nat) :
  ∀ i stop : Z,
    (i <= stop < i + Z.of_nat n)%Z →
    (∀ j, (i <= j < stop)%Z →
       ∃ line, lookupZ lines j = Some line ∧ passed_over p k line) →
    (∃ line, lookupZ lines stop = Some line ∧ child_match p k line) →
    findChildKey_loop lines n i p k = Some stop.
Proof.
  induction n as [|n IH]; intros i stop Hr Hpass Hmatch; [lia|].
  rewrite Nat2Z.inj_succ in Hr. simpl.
  destruct (decide (i = stop)) as [->|Hne].
  - destruct Hmatch as (line & -> & Hbc & Hind & Hkey). simpl.
    rewrite Hbc, Hkey. destruct (Z.leb_spec (search_nonspace line) p); [lia|].
    rewrite (proj2 (eqb_str_true k k) eq_refl).
    by rewrite (proj2 (Z.eqb_eq _ _) Hind).
  - destruct (Hpass i) as (line & Hline & Hp); [lia|]. rewrite Hline. simpl.
    assert (Hrec : findChildKey_loop lines n (i + 1) p k = Some stop).
    { apply IH; [lia| |done]. intros j Hj. apply Hpass. lia. }
    destruct (blank_or_comment line) eqn:Hbc; [done|].
    destruct Hp as [Hp|[Hgt Hnot]]; [congruence|].
    destruct (Z.leb_spec (search_nonspace line) p); [lia|].
    destruct (match_key line) as [k'|] eqn:Hk; [|done].
    destruct (eqb_str k' k) eqn:Hkk; [|done].
    destruct (Z.eqb_spec (search_nonspace line) (p + 2)); [|done].
    apply eqb_str_true in Hkk as ->. by destruct Hnot.
Qed.

Lemma findChildKey_first (lines : list jstr) (start end_ p : Z) (k : jstr)
    (stop : Z) :
  (start < stop < end_)%Z →
  (∀ j, (start < j < stop)%Z →
     ∃ line, lookupZ lines j = Some line ∧ passed_over p k line) →
  (∃ line, lookupZ lines stop = Some line ∧ child_match p k line) →
  findChildKey lines start end_ p k = Some stop.
Proof.
  intros Hr Hpass Hmatch. unfold findChildKey.
  apply findChildKey_loop_first; [lia| |done].
  intros j Hj. apply Hpass. lia.
Qed.

Lemma replaceLineValue_insert (lines : list jstr) (idx : Z) (value : jsvalue)
    (original : jstr) :
  lookupZ lines idx = Some original →
  replaceLineValue lines idx value
  = Some (<[Z.to_nat idx := default original (replaced_line original value)]>
            lines).
Proof.
  intros H. unfold replaceLineValue. rewrite H. simpl.
  destruct (replaced_line original value); simpl; [done|].
  apply lookupZ_Some in H as [_ H]. by rewrite list_insert_id.
Qed.

(** ** The week map *)

(** X4.  [onTlWeekMap] never raises, and the array of lines it writes back
    is the array of the editor, or that array with one line written anew:
    a line with the key [dayKey], replaced as [replaceLineValue] does. *)
Theorem onTlWeekMap_one_line (T presetName dayKey : jstr) (value : jsvalue) :
  onTlWeekMap T presetName dayKey value = Some T
  ∨ ∃ (idx : Z) (original : jstr),
      lookupZ (split_lines T) idx = Some original
      ∧ match_key original = Some dayKey
      ∧ onTlWeekMap T presetName dayKey value
        = Some (join_lines
                  (<[Z.to_nat idx :=
                       default original (replaced_line original value)]>
                     (split_lines T))).
Proof.
  unfold onTlWeekMap. cbv zeta.
  assert (Hjoin : join_lines (split_lines T) = T) by apply join_split_on.
  revert Hjoin. generalize (split_lines T) as lines. intros lines Hjoin.
  destruct (timeline_section lines presetName) as [[s ind]|] eqn:Hs;
    [|by left].
  pose proof (timeline_section_range _ _ _ _ Hs) as Hr.
  destruct (findBlockEnd_total lines s ind (Z.of_nat (length lines)))
    as (e & He & Hecase); [lia..|].
  rewrite He. simpl.
  destruct (findChildKey_total lines s e ind (str "week_map"))
    as (w & Hw & Hwcase); [lia..|].
  rewrite Hw. simpl.
  destruct (Z.ltb_spec w 0) as [Hneg|Hpos]; [by left|].
  destruct (lookupZ_in_range lines w) as [weekMap Hwm]; [lia|].
  rewrite Hwm. simpl.
  destruct (findBlockEnd_total lines w (search_nonspace weekMap) e)
    as (we & Hwe & Hwecase); [lia..|].
  rewrite Hwe. simpl.
  destruct (findChildKey_loop_scan lines (search_nonspace weekMap) dayKey
              (Z.to_nat (we - (w + 1))) (w + 1)%Z)
    as (d & stop & Hd & _ & _ & Hdcase); [lia..|].
  unfold findChildKey. rewrite Hd. simpl.
  destruct Hdcase as [(-> & Hlt & line & Hline & _ & _ & Hkey)|Hnone].
  - destruct (Z.leb_spec 0 stop) as [_|Hbad];
      [|apply lookupZ_lt in Hline; lia].
    right. exists stop, line. split_and!; [done..|].
    by rewrite (replaceLineValue_insert _ _ _ _ Hline).
  - left. assert (d = (-1)%Z) as -> by (by destruct Hnone as [[-> _]|[-> _]]).
    simpl. by rewrite Hjoin.
Qed.

(** ** The period list of one day plan *)

Lemma findChildKey_found (lines : list jstr) (start end_ p : Z) (k : jstr) :
  (-1 <= start)%Z → (end_ <= Z.of_nat (length lines))%Z →
  ∃ r : Z,
    findChildKey lines start end_ p k = Some r
    ∧ (r = (-1)%Z
       ∨ ((start < r < end_)%Z
          ∧ ∃ line, lookupZ lines r = Some line ∧ child_match p k line)).
Proof.
  intros Hs He. unfold findChildKey.
  destruct (Z.le_gt_cases end_ (start + 1)) as [Hempty|Hrange].
  { exists (-1)%Z.
    replace (Z.to_nat (end_ - (start + 1))) with 0%nat by lia. simpl. auto. }
  destruct (findChildKey_loop_scan lines p k
              (Z.to_nat (end_ - (start + 1))) (start + 1)%Z)
    as (r & stop & Hr & Hle & _ & Hcase); [lia..|].
  exists r. split; [done|].
  destruct Hcase as [(-> & ? & ?)|[(-> & _)|(-> & _)]]; [|by left..].
  right. split; [lia|done].
Qed.

Lemma plan_periods_line_total (lines : list jstr) (info : sectionInfo)
    (planKey : jstr) :
  (0 <= sec_start info)%Z → (sec_end info <= Z.of_nat (length lines))%Z →
  ∃ r, plan_periods_line lines info planKey = Some r
       ∧ (r = None
          ∨ ∃ (periodsLine planEnd : Z) (periods : jstr),
              r = Some (periodsLine, planEnd)
              ∧ (sec_start info < periodsLine < planEnd)%Z
              ∧ (planEnd <= sec_end info)%Z
              ∧ lookupZ lines periodsLine = Some periods
              ∧ match_key periods = Some (str "periods")).
Proof.
  intros Hs He. unfold plan_periods_line.
  destruct (findChildKey_found lines (sec_start info) (sec_end info)
              (sec_indent info) (str "day_plans")) as (dp & Hdp & Hdpc);
    [lia..|].
  rewrite Hdp. simpl.
  destruct Hdpc as [->|[Hdpr (dayPlans & Hdpl & _)]]; [eauto|].
  destruct (Z.ltb_spec dp 0); [lia|]. rewrite Hdpl. simpl.
  destruct (findBlockEnd_total lines dp (search_nonspace dayPlans)
              (sec_end info)) as (dpEnd & HdpEnd & HdpEndc); [lia..|].
  rewrite HdpEnd. simpl.
  destruct (findChildKey_found lines dp dpEnd (search_nonspace dayPlans)
              planKey) as (pl & Hpl & Hplc); [lia..|].
  rewrite Hpl. simpl.
  destruct Hplc as [->|[Hplr (plan & Hplan & _)]]; [eauto|].
  destruct (Z.ltb_spec pl 0); [lia|]. rewrite Hplan. simpl.
  destruct (findBlockEnd_total lines pl (search_nonspace plan) dpEnd)
    as (planEnd & HplanEnd & HplanEndc); [lia..|].
  rewrite HplanEnd. simpl.
  destruct (findChildKey_found lines pl planEnd (search_nonspace plan)
              (str "periods")) as (ps & Hps & Hpsc); [lia..|].
  rewrite Hps. simpl.
  destruct Hpsc as [->|[Hpsr (periods & Hperiods & _ & _ & Hkey)]]; [eauto|].
  destruct (Z.ltb_spec ps 0); [lia|].
  eexists. split; [done|]. right. exists ps, planEnd, periods.
  split_and!; [done|lia|lia|lia|done|done].
Qed.



Lemma splice_out_in {A} (l : list A) (a n : Z) (items : list A) :
  (0 <= a <= Z.of_nat (length l))%Z → (0 <= n)%Z →
  splice_in (splice_out l a n) a items
  = take (Z.to_nat a) l ++ items ++ drop (Z.to_nat (a + n)) l.
Proof.
  intros Ha Hn. unfold splice_in, splice_out.
  assert (Hlen : length (take (Z.to_nat a) l) = Z.to_nat a).
  { rewrite length_take. lia. }
  rewrite take_app_length', drop_app_length' by done.
  by rewrite Z2Nat.inj_add by lia.
Qed.

Lemma findBlockEnd_inside (lines : list jstr) (start indent maxEnd e : Z) :
  (-1 <= start)%Z → (maxEnd <= Z.of_nat (length lines))%Z →
  findBlockEnd lines start indent maxEnd = Some e →
  ∀ j, (start < j < e)%Z → (j < maxEnd)%Z →
    ∃ line, lookupZ lines j = Some line ∧ inside_block indent line.
Proof.
  intros Hs He H j Hj Hjm.
  destruct (findBlockEnd_cases lines start indent maxEnd Hs He)
    as (e' & He' & Hcases).
  rewrite H in He'. injection He' as <-.
  destruct Hcases as [[-> Hall]|(_ & _ & Hall)]; apply Hall; lia.
Qed.

(** X6.  [reorderDayPlanPeriods] never raises.  It leaves the text as it
    is when the preset has no section or the plan no [periods] line.  When
    that line holds an inline list, it writes the keys, joined by a comma
    and a space, between the brackets.  Otherwise it replaces every line
    from the one after [periods] up to the end of the block of [periods]
    inside the plan (comments and blank lines among them) by one item line
    for each key, indented two more than [periods]; the lines before and
    after the block stay as they are. *)
Theorem reorderDayPlanPeriods_lines (T presetName planKey : jstr)
    (orderedKeys : list jstr) :
  let lines := split_lines T in
  (findPresetSection lines presetName = None →
   reorderDayPlanPeriods T presetName planKey orderedKeys = Some T)
  ∧ (∀ info : sectionInfo,
       findPresetSection lines presetName = Some info →
       ∃ found : option (Z * Z),
         plan_periods_line lines info planKey = Some found
         ∧ match found with
           | None =>
               reorderDayPlanPeriods T presetName planKey orderedKeys = Some T
           | Some (idx, planEnd) =>
               ∃ periods : jstr,
                 lookupZ lines idx = Some periods
                 ∧ match_key periods = Some (str "periods")
                 ∧ match match_inline_periods periods with
                   | Some (prefix, content) =>
                       reorderDayPlanPeriods T presetName planKey orderedKeys
                       = Some (join_lines
                                 (<[Z.to_nat idx :=
                                      prefix ++ [c_lbracket]
                                      ++ join (str ", ") orderedKeys
                                      ++ [c_rbracket]]> lines))
                   | None =>
                       ∃ pEnd : Z,
                         block_end lines idx (search_nonspace periods)
                           planEnd pEnd
                         ∧ reorderDayPlanPeriods T presetName planKey
                             orderedKeys
                           = Some (join_lines
                                     (take (Z.to_nat (idx + 1)) lines
                                      ++ List.map
                                           (fun k =>
                                              spaces
                                                (search_nonspace periods + 2)
                                              ++ str "- " ++ k) orderedKeys
                                      ++ drop (Z.to_nat pEnd) lines))
                   end
           end).
Proof.
  intros lines. unfold reorderDayPlanPeriods. cbv zeta. fold lines.
  split; [by intros ->|].
  intros info Hinfo. rewrite Hinfo.
  pose proof (findPresetSection_range _ _ _ Hinfo) as [Hs He].
  destruct (plan_periods_line_total lines info planKey)
    as (r & Hr0 & [->|(ps & pe & periods & -> & Hr & Hpe & Hperiods & Hkey)]);
    [lia..| |]; rewrite Hr0.
  { by exists None. }
  exists (Some (ps, pe)). split; [done|]. exists periods.
  split_and!; [done|done|].
  simpl. rewrite Hperiods. simpl.
  destruct (match_inline_periods periods) as [[prefix content]|] eqn:Hin;
    [done|].
  destruct (findBlockEnd_total lines ps (search_nonspace periods) pe)
    as (pEnd & HpEnd & HpEndc); [lia..|].
  rewrite HpEnd. simpl. exists pEnd. split.
  - apply findBlockEnd_block_end; [lia|lia|done].
  - rewrite splice_out_in by lia.
    by replace (ps + 1 + (pEnd - ps - 1))%Z with pEnd by lia.
Qed.

(** The theorem at a block of two items and a comment, written anew in
    the other order. *)
Lemma reorderDayPlanPeriods_lines_witness :
  reorderDayPlanPeriods
    (join_lines [str "custom:"; str "  day_plans:"; str "    all:";
                 str "      periods:"; str "        - a";
                 str "        # then"; str "        - b";
                 str "  week_map:"])
    (str "custom") (str "all") [str "b"; str "a"]
  = Some (join_lines [str "custom:"; str "  day_plans:"; str "    all:";
                      str "      periods:"; str "        - b";
                      str "        - a"; str "  week_map:"]).
Proof.
  pose proof (reorderDayPlanPeriods_lines
                (join_lines [str "custom:"; str "  day_plans:";
                             str "    all:"; str "      periods:";
                             str "        - a"; str "        # then";
                             str "        - b"; str "  week_map:"])
                (str "custom") (str "all") [str "b"; str "a"]) as H.
  cbv zeta in H. destruct H as [_ H].
  destruct (H (SectionInfo 0 8 0)) as (found & Hfound & Hcase);
    [vm_compute; reflexivity|].
  vm_compute in Hfound. injection Hfound as <-.
  destruct Hcase as (periods & Hperiods & _ & Hcase).
  vm_compute in Hperiods. injection Hperiods as <-.
  change (match_inline_periods _) with (@None (jstr * jstr)) in Hcase.
  destruct Hcase as (pEnd & Hend & ->).
  apply block_end_findBlockEnd in Hend; [|lia|vm_compute; discriminate].
  vm_compute in Hend. injection Hend as <-.
  vm_compute. reflexivity.
Defined.

(** ** Lines that the editor writes and reads back *)

Lemma span_spaces (n : nat) (x : jstr) :
  match x with [] => True | c :: _ => is_space c = false end →
  span is_space (replicate n c_space ++ x) = (replicate n c_space, x).
Proof.
  intros Hx. induction n as [|n IH]; simpl.
  - destruct x as [|c x]; [done|]. simpl. by rewrite Hx.
  - by rewrite IH.
Qed.

Lemma search_nonspace_spaces (n : nat) (c : N) (x : jstr) :
  is_space c = false →
  search_nonspace (replicate n c_space ++ c :: x) = Z.of_nat n.
Proof.
  intros Hc. induction n as [|n IH].
  - simpl. by rewrite Hc.
  - rewrite Nat2Z.inj_succ. cbn [replicate app search_nonspace].
    change (is_space c_space) with true. cbv iota. rewrite IH.
    destruct (Z.ltb_spec (Z.of_nat n) 0); lia.
Qed.

Lemma trim_spaces_head (n : nat) (c : N) (x : jstr) :
  is_space c = false →
  ∃ y, trim (replicate n c_space ++ c :: x) = c :: y.
Proof.
  intros Hc. unfold trim, trimStart, skip_space.
  rewrite span_spaces by done. simpl.
  unfold trimEnd. simpl.
  destruct (skip_space_suffix (rev x ++ [c])) as (w & Hw & Hsp).
  destruct (skip_space (rev x ++ [c])) as [|d r] eqn:Hr using rev_ind.
  { exfalso. by apply (skip_space_snoc_nonempty (rev x) c Hc). }
  clear IHr. rewrite app_assoc in Hw. apply app_inj_tail in Hw as [_ ->].
  rewrite rev_app_distr. simpl. eauto.
Qed.

Lemma blank_or_comment_written (n : nat) (c : N) (x : jstr) :
  is_space c = false → c ≠ c_hash →
  blank_or_comment (replicate n c_space ++ c :: x) = false.
Proof.
  intros Hc Hh. unfold blank_or_comment.
  destruct (trim_spaces_head n c x Hc) as (y & ->).
  rewrite startsWith_one. apply orb_false_iff. split.
  - by apply eqb_str_false.
  - apply N.eqb_neq. congruence.
Qed.

Lemma split_last_colon_key (k : jstr) :
  Forall (fun c => is_space c = false ∧ c ≠ c_colon) k →
  split_last_colon (k ++ [c_colon]) = Some (k, []).
Proof.
  induction 1 as [|c k [_ Hc] _ IH]; [done|]. simpl. by rewrite IH.
Qed.

Lemma span_not_space_key (k tail : jstr) :
  Forall (fun c => is_space c = false ∧ c ≠ c_colon) k → key_tail tail →
  span not_space (k ++ c_colon :: tail) = (k ++ [c_colon], tail).
Proof.
  intros Hk Ht. induction Hk as [|c k [Hc _] _ IH]; simpl.
  - change (not_space c_colon) with true. cbv iota.
    destruct tail as [|d tail]; [done|]. simpl in Ht |- *.
    unfold not_space. by rewrite Ht.
  - unfold not_space at 1. rewrite Hc. simpl. by rewrite IH.
Qed.

Lemma key_colon_written (n : nat) (k tail : jstr) :
  plain_key k → key_tail tail →
  key_colon (replicate n c_space ++ k ++ [c_colon] ++ tail)
  = Some (replicate n c_space, k, tail).
Proof.
  intros [Hhead Hk] Ht. unfold key_colon.
  destruct k as [|c k]; [done|].
  rewrite span_spaces by (by apply Forall_inv in Hk as [? _]).
  change ((c :: k) ++ [c_colon] ++ tail) with ((c :: k) ++ c_colon :: tail).
  rewrite span_not_space_key by done.
  by rewrite split_last_colon_key.
Qed.

(** A line written as indentation, key, colon and tail is the child that
    [findChildKey] looks for under a parent indented two less. *)
Lemma child_match_written (p : Z) (k tail : jstr) :
  (0 <= p + 2)%Z → plain_key k → key_tail tail →
  child_match p k (spaces (p + 2) ++ k ++ [c_colon] ++ tail).
Proof.
  intros Hp Hk Ht. unfold spaces, child_match, match_key.
  rewrite key_colon_written by done.
  destruct Hk as [Hhead Hk]. destruct k as [|c k]; [done|].
  apply Forall_inv in Hk as [Hc _].
  split_and!; [|rewrite <- app_comm_cons, search_nonspace_spaces by done; lia
               |done].
  rewrite <- app_comm_cons. by apply blank_or_comment_written.
Qed.

Lemma lookupZ_splice_in {A} (l : list A) (i : Z) (x : A) (items : list A) :
  (0 <= i <= Z.of_nat (length l))%Z →
  lookupZ (splice_in l i (x :: items)) i = Some x.
Proof.
  intros Hi. unfold lookupZ, splice_in.
  destruct (Z.ltb_spec i 0); [lia|].
  rewrite lookup_app_r by (rewrite length_take; lia).
  rewrite length_take.
  by replace (Z.to_nat i - Z.to_nat i `min` length l)%nat with 0%nat by lia.
Qed.

Lemma lookupZ_splice_in_before {A} (l : list A) (i j : Z) (items : list A) :
  (j < i <= Z.of_nat (length l))%Z →
  lookupZ (splice_in l i items) j = lookupZ l j.
Proof.
  intros Hj. unfold lookupZ, splice_in.
  destruct (Z.ltb_spec j 0); [done|].
  rewrite lookup_app_l by (rewrite length_take; lia).
  apply lookup_take_lt. lia.
Qed.

(** ** The name and description of a preset *)

(** X7.  [updatePresetMeta] never raises.  It leaves the text as it is
    when the preset has no section.  When [findChildKey] finds the field
    in the section, it replaces the value on that line, as
    [replaceLineValue] does, and inserts nothing.  When [findChildKey]
    returns [-1], it inserts the field, its value between double quotes,
    right after the first line of the section, where [findChildKey] then
    finds it when the field is a plain key. *)
Theorem updatePresetMeta_field (T presetName field value : jstr) :
  let lines := split_lines T in
  (findPresetSection lines presetName = None →
   updatePresetMeta T presetName field value = Some T)
  ∧ (∀ info : sectionInfo,
       findPresetSection lines presetName = Some info →
       ∃ idx : Z,
         findChildKey lines (sec_start info) (sec_end info) (sec_indent info)
           field = Some idx
         ∧ ((0 <= idx)%Z →
            ∃ original : jstr,
              lookupZ lines idx = Some original
              ∧ match_key original = Some field
              ∧ updatePresetMeta T presetName field value
                = Some (join_lines
                          (<[Z.to_nat idx :=
                               default original
                                 (replaced_line original (VString value))]>
                             lines)))
         ∧ ((idx < 0)%Z →
            let lines' :=
              splice_in lines (sec_start info + 1)
                [spaces (sec_indent info + 2) ++ field ++ str ": "
                 ++ [c_dquote] ++ value ++ [c_dquote]] in
            updatePresetMeta T presetName field value
            = Some (join_lines lines')
            ∧ (plain_key field →
               findChildKey lines' (sec_start info) (sec_end info + 1)
                 (sec_indent info) field = Some (sec_start info + 1)%Z))).
Proof.
  intros lines. unfold updatePresetMeta. cbv zeta. fold lines.
  split; [by intros ->|].
  intros info Hinfo. rewrite Hinfo.
  pose proof (findPresetSection_range _ _ _ Hinfo) as [Hs He].
  destruct (findPresetSection_found _ _ _ Hinfo) as (first & Hfirst & Hp & _).
  destruct (findChildKey_found lines (sec_start info) (sec_end info)
              (sec_indent info) field)
    as (r & Hr & [->|[Hrange (line & Hline & _ & _ & Hkey)]]); [lia..| |].
  - exists (-1)%Z. rewrite Hr. split; [done|]. split; [lia|].
    intros _. simpl. split; [done|].
    intros Hfield. apply findChildKey_first; [lia|intros j Hj; lia|].
    eexists. split; [apply lookupZ_splice_in; lia|].
    change (str ": " ++ [c_dquote] ++ value ++ [c_dquote])
      with ([c_colon] ++ c_space :: [c_dquote] ++ value ++ [c_dquote]).
    apply child_match_written; [|done..].
    assert (0 <= sec_indent info)%Z; [|lia].
    unfold preset_line in Hp. destruct (eqb_str presetName (str "custom")).
    + destruct Hp as [_ ->]. lia.
    + destruct Hp as (ws & _ & ->). lia.
  - exists r. rewrite Hr. split; [done|]. split; [|lia].
    intros _. simpl. destruct (Z.leb_spec 0 r); [|lia].
    exists line. split_and!; [done..|].
    by rewrite (replaceLineValue_insert _ _ _ _ Hline).
Qed.

(** The theorem at a section without the field, which is inserted, and at
    the section so written, where the value is replaced on that line. *)
Lemma updatePresetMeta_field_witness :
  (updatePresetMeta
     (join_lines [str "presets:"; str "  night:"; str "    periods: {}"])
     (str "night") (str "name") (str "Night owl")
   = Some (join_lines
             [str "presets:"; str "  night:";
              str "    name: " ++ [c_dquote] ++ str "Night owl" ++ [c_dquote];
              str "    periods: {}"])
   ∧ findChildKey
       [str "presets:"; str "  night:";
        str "    name: " ++ [c_dquote] ++ str "Night owl" ++ [c_dquote];
        str "    periods: {}"] 1 4 2 (str "name") = Some 2%Z)
  ∧ updatePresetMeta
      (join_lines
         [str "presets:"; str "  night:";
          str "    name: " ++ [c_dquote] ++ str "Night owl" ++ [c_dquote];
          str "    periods: {}"])
      (str "night") (str "name") (str "Late")
    = Some (join_lines
              [str "presets:"; str "  night:";
               str "    name: " ++ [c_dquote] ++ str "Late" ++ [c_dquote];
               str "    periods: {}"]).
Proof.
  split.
  - pose proof (updatePresetMeta_field
                  (join_lines [str "presets:"; str "  night:";
                               str "    periods: {}"])
                  (str "night") (str "name") (str "Night owl")) as H.
    cbv zeta in H. destruct H as [_ H].
    destruct (H (SectionInfo 1 3 2)) as (idx & Hidx & _ & Hins);
      [vm_compute; reflexivity|].
    vm_compute in Hidx. injection Hidx as <-.
    destruct Hins as [Hres Hfind]; [lia|].
    split; [rewrite Hres; vm_compute; reflexivity|].
    apply Hfind. split; [discriminate|]. repeat constructor; discriminate.
  - pose proof (updatePresetMeta_field
                  (join_lines
                     [str "presets:"; str "  night:";
                      str "    name: " ++ [c_dquote] ++ str "Night owl"
                      ++ [c_dquote];
                      str "    periods: {}"])
                  (str "night") (str "name") (str "Late")) as H.
    cbv zeta in H. destruct H as [_ H].
    destruct (H (SectionInfo 1 4 2)) as (idx & Hidx & Hrep & _);
      [vm_compute; reflexivity|].
    vm_compute in Hidx. injection Hidx as <-.
    destruct Hrep as (original & Horig & _ & ->); [lia|].
    vm_compute in Horig. injection Horig as <-.
    vm_compute. reflexivity.
Defined.

(** ** Presets, day plans and periods: creation and deletion *)

Lemma splice_out_range {A} (l : list A) (a b : Z) :
  (0 <= a <= b)%Z →
  splice_out l a (b - a) = take (Z.to_nat a) l ++ drop (Z.to_nat b) l.
Proof.
  intros H. unfold splice_out. do 2 f_equal. lia.
Qed.

Lemma preset_line_indent (presetName : jstr) (indent : Z) (line : jstr) :
  preset_line presetName indent line → (0 <= indent)%Z.
Proof.
  unfold preset_line. destruct (eqb_str presetName (str "custom")).
  - intros [_ ->]. lia.
  - intros (ws & _ & ->). lia.
Qed.

Lemma not_protected (presetName : jstr) :
  ¬ (presetName ∈ PROTECTED_PRESETS) →
  existsb (eqb_str presetName) PROTECTED_PRESETS = false.
Proof.
  intros Hno. destruct (existsb _ _) eqn:E; [|done].
  apply existsb_exists in E as (x & Hin & Heq).
  apply eqb_str_true in Heq as <-. exfalso. apply Hno.
  by apply list_elem_of_In.
Qed.

(** X8.  [deleteTlPreset] leaves the text as it is for the four built-in
    presets, for [custom] and when the dialog is not confirmed.  For any
    other preset, once confirmed, it leaves the text as it is when the
    preset has no section; when it has one, it removes the section and
    nothing else: its first line, an indented line with the key
    [presetName], and the lines that follow up to the end of the block of
    that line; the lines before and after stay as they are. *)
Theorem deleteTlPreset_section (confirmed : bool) (T presetName : jstr) :
  let lines := split_lines T in
  (presetName ∈ PROTECTED_PRESETS ∨ presetName = str "custom"
   ∨ confirmed = false →
   deleteTlPreset confirmed T presetName = Some T)
  ∧ (¬ (presetName ∈ PROTECTED_PRESETS) → presetName ≠ str "custom" →
     confirmed = true →
     (findPresetSection lines presetName = None →
      deleteTlPreset confirmed T presetName = Some T)
     ∧ ∀ info : sectionInfo,
         findPresetSection lines presetName = Some info →
         ∃ line ws : jstr,
           lookupZ lines (sec_start info) = Some line
           ∧ match_indented_key line = Some (ws, presetName)
           ∧ sec_indent info = Z.of_nat (length ws)
           ∧ block_end lines (sec_start info) (sec_indent info)
               (Z.of_nat (length lines)) (sec_end info)
           ∧ deleteTlPreset confirmed T presetName
             = Some (join_lines
                       (take (Z.to_nat (sec_start info)) lines
                        ++ drop (Z.to_nat (sec_end info)) lines))).
Proof.
  intros lines. unfold deleteTlPreset. split.
  - intros [Hin|[-> | ->]].
    + assert (existsb (eqb_str presetName) PROTECTED_PRESETS = true) as ->;
        [|done].
      apply existsb_exists. exists presetName.
      split; [by apply list_elem_of_In|by apply eqb_str_true].
    + by destruct (existsb _ _).
    + destruct (existsb _ _); [done|]. by destruct (eqb_str _ _).
  - intros Hprot Hcustom ->. rewrite not_protected by done.
    apply eqb_str_false in Hcustom. rewrite Hcustom. cbv zeta. simpl.
    fold lines. split; [by intros ->|].
    intros info Hinfo. rewrite Hinfo.
    pose proof (findPresetSection_range _ _ _ Hinfo) as [Hs He].
    destruct (findPresetSection_found _ _ _ Hinfo) as (line & Hl & Hp & Hend).
    unfold preset_line in Hp. rewrite Hcustom in Hp.
    destruct Hp as (ws & Hkey & Hind).
    exists line, ws. split_and!; try done.
    + apply findBlockEnd_block_end; [lia|lia|done].
    + by rewrite splice_out_range by lia.
Qed.

(** The theorem at a preset of two lines between two others. *)
Lemma deleteTlPreset_section_witness :
  deleteTlPreset true
    (join_lines [str "presets:"; str "  early:"; str "    name: Early";
                 str "  night:"; str "    name: Night"; str "";
                 str "  late:"; str "    name: Late"])
    (str "night")
  = Some (join_lines [str "presets:"; str "  early:"; str "    name: Early";
                      str "  late:"; str "    name: Late"]).
Proof.
  pose proof (deleteTlPreset_section true
                (join_lines [str "presets:"; str "  early:";
                             str "    name: Early"; str "  night:";
                             str "    name: Night"; str "";
                             str "  late:"; str "    name: Late"])
                (str "night")) as H.
  cbv zeta in H. destruct H as [_ H].
  destruct H as [_ H].
  - intros Hin. apply list_elem_of_In in Hin. vm_compute in Hin.
    repeat (destruct Hin as [Hin|Hin]; [discriminate Hin|]). exact Hin.
  - discriminate.
  - reflexivity.
  - destruct (H (SectionInfo 3 6 2)) as (line & ws & _ & _ & _ & _ & ->);
      [vm_compute; reflexivity|].
    vm_compute. reflexivity.
Defined.

Lemma valid_key_plain (k : jstr) : valid_key k = true → plain_key k.
Proof.
  assert (Hchar : ∀ c, is_letter_ c || is_digit c = true →
            (is_space c = false ∧ c ≠ c_colon) ∧ c ≠ c_hash).
  { intros c Hc. unfold is_letter_, is_digit in Hc.
    rewrite !orb_true_iff, !andb_true_iff, !N.leb_le, N.eqb_eq in Hc.
    assert (Hr : (48 <= c <= 57 ∨ 65 <= c <= 90 ∨ c = 95 ∨ 97 <= c <= 122)%N)
      by lia.
    unfold c_colon, c_hash. split; [split|]; [|lia..].
    unfold is_space.
    repeat (apply orb_false_iff; split); try (apply N.eqb_neq; lia).
    apply andb_false_iff. left. apply N.leb_gt. lia. }
  destruct k as [|c rest]; [done|]. simpl.
  intros [Hc Hrest]%andb_true_iff. split.
  - apply Hchar. by rewrite Hc.
  - constructor; [apply Hchar; by rewrite Hc|].
    rewrite forallb_forall in Hrest. apply Forall_forall.
    intros d Hd. apply Hchar, Hrest. by apply list_elem_of_In.
Qed.

Lemma scope_exit_not_inside (p : Z) (line : jstr) :
  scope_exit p line → inside_block p line → False.
Proof. intros [Hbc Hle] [Hbc'|Hgt]; [congruence|lia]. Qed.

(** A key that [findChildKey] does not find in a range whose lines are all
    inside the block is passed over on every line of the range. *)
Lemma findChildKey_absent (lines : list jstr) (start end_ p : Z) (k : jstr) :
  (-1 <= start)%Z → (end_ <= Z.of_nat (length lines))%Z →
  findChildKey lines start end_ p k = Some (-1)%Z →
  (∀ j, (start < j < end_)%Z →
     ∃ line, lookupZ lines j = Some line ∧ inside_block p line) →
  ∀ j, (start < j < end_)%Z →
    ∃ line, lookupZ lines j = Some line ∧ passed_over p k line.
Proof.
  intros Hs He Hnone Hinside j Hj. unfold findChildKey in Hnone.
  destruct (findChildKey_loop_scan lines p k
              (Z.to_nat (end_ - (start + 1))) (start + 1)%Z)
    as (r & stop & Hr & Hle & Hpass & Hcase); [lia..|].
  rewrite Hnone in Hr. injection Hr as <-.
  destruct Hcase as [(Heq & Hlt & line & Hline & _)
                    |[(_ & Hlt & line & Hline & Hexit)|(_ & ->)]].
  - apply lookupZ_lt in Hline. lia.
  - exfalso. destruct (Hinside stop) as (l & Hl & Hin); [lia|].
    rewrite Hline in Hl. injection Hl as <-.
    by eapply scope_exit_not_inside.
  - apply Hpass. lia.
Qed.

(** X9.  [addTlDayPlan] never raises.  It leaves the text as it is when
    the prompt is cancelled, when the key is not a letter or underscore
    followed by letters, digits and underscores, when the plan exists, when
    the preset has no section and when the section has no [day_plans] key.
    Otherwise it splices two lines in at the end of the block of
    [day_plans] inside the section: the key of the plan, indented two more
    than [day_plans], and an empty inline list of periods under it.  When
    the block had no plan with that key, [findChildKey] then finds the
    plan on the first new line and its list on the second. *)
Theorem addTlDayPlan_inserts (planKey : option jstr) (exists_ : bool)
    (T presetName : jstr) :
  let lines := split_lines T in
  (planKey = None ∨ (∃ k, planKey = Some k ∧ valid_key k = false)
   ∨ exists_ = true →
   addTlDayPlan planKey exists_ T presetName = Some T)
  ∧ (∀ key : jstr,
       planKey = Some key → valid_key key = true → exists_ = false →
       (findPresetSection lines presetName = None →
        addTlDayPlan planKey exists_ T presetName = Some T)
       ∧ ∀ info : sectionInfo,
           findPresetSection lines presetName = Some info →
           ∃ dp : Z,
             findChildKey lines (sec_start info) (sec_end info)
               (sec_indent info) (str "day_plans") = Some dp
             ∧ ((dp < 0)%Z →
                addTlDayPlan planKey exists_ T presetName = Some T)
             ∧ ((0 <= dp)%Z →
                ∃ (dayPlans : jstr) (dpEnd : Z),
                  lookupZ lines dp = Some dayPlans
                  ∧ block_end lines dp (search_nonspace dayPlans)
                      (sec_end info) dpEnd
                  ∧ let lines' :=
                      splice_in lines dpEnd
                        [spaces (search_nonspace dayPlans + 2) ++ key
                         ++ str ":";
                         spaces (search_nonspace dayPlans + 4)
                         ++ str "periods: []"] in
                    addTlDayPlan planKey exists_ T presetName
                    = Some (join_lines lines')
                    ∧ (findChildKey lines dp dpEnd (search_nonspace dayPlans)
                         key = Some (-1)%Z →
                       findChildKey lines' dp (dpEnd + 2)
                         (search_nonspace dayPlans) key = Some dpEnd
                       ∧ findChildKey lines' dpEnd (dpEnd + 2)
                           (search_nonspace dayPlans + 2) (str "periods")
                         = Some (dpEnd + 1)%Z))).
Proof.
  intros lines. unfold addTlDayPlan. split.
  { intros [ -> | [(k & -> & Hk) | -> ] ]; [done| |].
    - destruct k; [done|]. by rewrite Hk.
    - destruct planKey as [[|c k]|]; [done| |done].
      by destruct (negb (valid_key (c :: k))). }
  intros key -> Hvalid ->.
  destruct key as [|c key]; [done|]. rewrite Hvalid. simpl negb. cbv iota.
  cbv zeta. fold lines. split; [by intros ->|].
  intros info Hinfo. rewrite Hinfo.
  pose proof (findPresetSection_range _ _ _ Hinfo) as [Hs He].
  destruct (findChildKey_found lines (sec_start info) (sec_end info)
              (sec_indent info) (str "day_plans"))
    as (dp & Hdp & [->|[Hdpr (dayPlans & Hdpl & Hbc & Hdpind & Hdpkey)]]);
    [lia..| |]; rewrite Hdp.
  { exists (-1)%Z. split; [done|]. split; [done|lia]. }
  exists dp. split; [done|]. split; [lia|]. intros _.
  simpl. destruct (Z.ltb_spec dp 0); [lia|].
  rewrite Hdpl. simpl.
  destruct (findBlockEnd_total lines dp (search_nonspace dayPlans)
              (sec_end info)) as (dpEnd & HdpEnd & HdpEndc); [lia..|].
  rewrite HdpEnd. simpl.
  assert (Hpos : (0 <= search_nonspace dayPlans)%Z).
  { destruct (findPresetSection_found _ _ _ Hinfo) as (l0 & _ & Hp & _).
    apply preset_line_indent in Hp. lia. }
  exists dayPlans, dpEnd.
  split_and!; [done|apply findBlockEnd_block_end; [lia|lia|done]|done|].
  intros Habsent.
  pose proof (valid_key_plain _ Hvalid) as Hplain.
  split.
  - apply findChildKey_first; [lia| |].
    + intros j Hj. rewrite lookupZ_splice_in_before by lia.
      apply (findChildKey_absent lines dp dpEnd); [lia..|done| |lia].
      intros j' Hj'.
      apply (findBlockEnd_inside lines dp (search_nonspace dayPlans)
               (sec_end info) dpEnd); [lia..|done|lia|lia].
    + eexists. split; [apply lookupZ_splice_in; lia|].
      apply (child_match_written (search_nonspace dayPlans) (c :: key) []);
        [lia|done|done].
  - apply findChildKey_first; [lia|intros j Hj; lia|].
    eexists. split.
    + unfold lookupZ, splice_in. destruct (Z.ltb_spec (dpEnd + 1) 0); [lia|].
      rewrite lookup_app_r by (rewrite length_take; lia).
      rewrite length_take.
      by replace (Z.to_nat (dpEnd + 1) - Z.to_nat dpEnd `min` length lines)%nat
        with 1%nat by lia.
    + replace (search_nonspace dayPlans + 4)%Z
        with (search_nonspace dayPlans + 2 + 2)%Z by lia.
      change (str "periods: []") with (str "periods" ++ [c_colon] ++ str " []").
      apply child_match_written; [lia| |done].
      split; [done|]. repeat constructor; done.
Qed.

(** The theorem at a block of [day_plans] with one plan, followed by the
    week map: the new plan comes after the plan, before the week map. *)
Lemma addTlDayPlan_inserts_witness :
  addTlDayPlan (Some (str "holiday")) false
    (join_lines [str "custom:"; str "  day_plans:"; str "    all_day:";
                 str "      periods: []"; str "  week_map:"])
    (str "custom")
  = Some (join_lines [str "custom:"; str "  day_plans:"; str "    all_day:";
                      str "      periods: []"; str "    holiday:";
                      str "      periods: []"; str "  week_map:"])
  ∧ findChildKey [str "custom:"; str "  day_plans:"; str "    all_day:";
                  str "      periods: []"; str "    holiday:";
                  str "      periods: []"; str "  week_map:"] 1 6 2
      (str "holiday") = Some 4%Z.
Proof.
  pose proof (addTlDayPlan_inserts (Some (str "holiday")) false
                (join_lines [str "custom:"; str "  day_plans:";
                             str "    all_day:"; str "      periods: []";
                             str "  week_map:"]) (str "custom")) as H.
  cbv zeta in H. destruct H as [_ H].
  destruct (H (str "holiday")) as [_ H']; [reflexivity..|].
  destruct (H' (SectionInfo 0 5 0)) as (dp & Hdp & _ & Hins);
    [vm_compute; reflexivity|].
  vm_compute in Hdp. injection Hdp as <-.
  destruct Hins as (dayPlans & dpEnd & HdayPlans & Hend & Hres & Hfind);
    [lia|].
  vm_compute in HdayPlans. injection HdayPlans as <-.
  apply block_end_findBlockEnd in Hend; [|lia|vm_compute; discriminate].
  vm_compute in Hend. injection Hend as <-.
  split; [rewrite Hres; vm_compute; reflexivity|].
  apply Hfind. vm_compute. reflexivity.
Defined.

(** X10.  [deleteTlDayPlan] leaves the text as it is when a day of the
    week map uses the plan and when the dialog is not confirmed.
    Otherwise it leaves the text as it is when the preset has no section,
    the section no [day_plans] key or the block of [day_plans] no key
    [planKey]; and when the plan is found it removes the block of the plan
    and nothing else: the line with the key [planKey] and the lines that
    follow up to the end of the block of that line inside the block of
    [day_plans]. *)
Theorem deleteTlDayPlan_block (week_map : list (jstr * jstr))
    (confirmed : bool) (T presetName planKey : jstr) :
  let lines := split_lines T in
  (week_refs week_map planKey ≠ [] ∨ confirmed = false →
   deleteTlDayPlan (Some week_map) confirmed T presetName planKey = Some T)
  ∧ (week_refs week_map planKey = [] → confirmed = true →
     (findPresetSection lines presetName = None →
      deleteTlDayPlan (Some week_map) confirmed T presetName planKey = Some T)
     ∧ ∀ info : sectionInfo,
         findPresetSection lines presetName = Some info →
         ∃ dp : Z,
           findChildKey lines (sec_start info) (sec_end info)
             (sec_indent info) (str "day_plans") = Some dp
           ∧ ((dp < 0)%Z →
              deleteTlDayPlan (Some week_map) confirmed T presetName planKey
              = Some T)
           ∧ ((0 <= dp)%Z →
              ∃ (dayPlans : jstr) (dpEnd pl : Z),
                lookupZ lines dp = Some dayPlans
                ∧ block_end lines dp (search_nonspace dayPlans)
                    (sec_end info) dpEnd
                ∧ findChildKey lines dp dpEnd (search_nonspace dayPlans)
                    planKey = Some pl
                ∧ ((pl < 0)%Z →
                   deleteTlDayPlan (Some week_map) confirmed T presetName
                     planKey = Some T)
                ∧ ((0 <= pl)%Z →
                   ∃ (plan : jstr) (pe : Z),
                     lookupZ lines pl = Some plan
                     ∧ match_key plan = Some planKey
                     ∧ block_end lines pl (search_nonspace plan) dpEnd pe
                     ∧ deleteTlDayPlan (Some week_map) confirmed T presetName
                         planKey
                       = Some (join_lines
                                 (take (Z.to_nat pl) lines
                                  ++ drop (Z.to_nat pe) lines))))).
Proof.
  intros lines. unfold deleteTlDayPlan. split.
  { intros [Hrefs| ->]; destruct (week_refs week_map planKey); done. }
  intros -> ->. cbv zeta. simpl negb. cbv iota. fold lines.
  split; [by intros ->|].
  intros info Hinfo. rewrite Hinfo.
  pose proof (findPresetSection_range _ _ _ Hinfo) as [Hs He].
  destruct (findChildKey_found lines (sec_start info) (sec_end info)
              (sec_indent info) (str "day_plans"))
    as (dp & Hdp & [->|[Hdpr (dayPlans & Hdpl & _)]]);
    [lia..| |]; rewrite Hdp.
  { exists (-1)%Z. split; [done|]. split; [done|lia]. }
  exists dp. split; [done|]. split; [lia|]. intros _.
  simpl. destruct (Z.ltb_spec dp 0); [lia|].
  rewrite Hdpl. simpl.
  destruct (findBlockEnd_total lines dp (search_nonspace dayPlans)
              (sec_end info)) as (dpEnd & HdpEnd & HdpEndc); [lia..|].
  rewrite HdpEnd. simpl.
  assert (HdpBlock : block_end lines dp (search_nonspace dayPlans)
                       (sec_end info) dpEnd)
    by (apply findBlockEnd_block_end; [lia|lia|done]).
  destruct (findChildKey_found lines dp dpEnd (search_nonspace dayPlans)
              planKey)
    as (pl & Hpl & [->|[Hplr (plan & Hplan & _ & _ & Hkey)]]);
    [lia..| |]; rewrite Hpl.
  { exists dayPlans, dpEnd, (-1)%Z. split_and!; [done|done|done|done|lia]. }
  exists dayPlans, dpEnd, pl. split_and!; [done|done|done|lia|]. intros _.
  simpl. destruct (Z.ltb_spec pl 0); [lia|].
  rewrite Hplan. simpl.
  destruct (findBlockEnd_total lines pl (search_nonspace plan) dpEnd)
    as (pe & Hpe & Hpec); [lia..|].
  rewrite Hpe. simpl.
  exists plan, pe. split_and!; [done|done| |].
  - apply findBlockEnd_block_end; [lia|lia|done].
  - by rewrite splice_out_range by lia.
Qed.

(** The theorem at the first of two plans, which the week map does not
    use. *)
Lemma deleteTlDayPlan_block_witness :
  deleteTlDayPlan (Some [(str "1", str "all_day")]) true
    (join_lines [str "custom:"; str "  day_plans:"; str "    rest:";
                 str "      periods:"; str "        - nap";
                 str "    all_day:"; str "      periods: []";
                 str "  week_map:"])
    (str "custom") (str "rest")
  = Some (join_lines [str "custom:"; str "  day_plans:";
                      str "    all_day:"; str "      periods: []";
                      str "  week_map:"]).
Proof.
  pose proof (deleteTlDayPlan_block [(str "1", str "all_day")] true
                (join_lines [str "custom:"; str "  day_plans:";
                             str "    rest:"; str "      periods:";
                             str "        - nap"; str "    all_day:";
                             str "      periods: []"; str "  week_map:"])
                (str "custom") (str "rest")) as H.
  cbv zeta in H. destruct H as [_ H].
  destruct H as [_ H]; [vm_compute; reflexivity|reflexivity|].
  destruct (H (SectionInfo 0 8 0)) as (dp & Hdp & _ & Hfound);
    [vm_compute; reflexivity|].
  vm_compute in Hdp. injection Hdp as <-.
  destruct Hfound as (dayPlans & dpEnd & pl & HdayPlans & Hend & Hpl & _
                      & Hdel); [lia|].
  vm_compute in HdayPlans. injection HdayPlans as <-.
  apply block_end_findBlockEnd in Hend; [|lia|vm_compute; discriminate].
  vm_compute in Hend. injection Hend as <-.
  vm_compute in Hpl. injection Hpl as <-.
  destruct Hdel as (plan & pe & Hplan & _ & Hpe & ->); [lia|].
  vm_compute in Hplan. injection Hplan as <-.
  apply block_end_findBlockEnd in Hpe; [|lia|vm_compute; discriminate].
  vm_compute in Hpe. injection Hpe as <-.
  vm_compute. reflexivity.
Defined.

(** X11.  [confirmTlNewPeriod] leaves the text as it is when the key is
    not a letter or underscore followed by letters, digits and
    underscores, when the name is blank, when a time is missing, when the
    two times are equal or when the period exists.  Otherwise it leaves the
    text as it is when the preset has no section or the section no
    [periods] key, and else it splices the eight lines of the period in:
    right under the [periods] line, rewritten as a bare key, when the
    trimmed line is the key with the empty map as its value; at the end of
    the block of [periods] inside the section in every other case.
    [findChildKey] then finds the period under [periods] (when the block
    had no such key, in the second case). *)
Theorem confirmTlNewPeriod_inserts (exists_ : bool)
    (T target key_input name_input start end_ : jstr) :
  let lines := split_lines T in
  let key := trim key_input in
  let name := trim name_input in
  (valid_key key = false ∨ name = [] ∨ start = [] ∨ end_ = []
   ∨ start = end_ ∨ exists_ = true →
   confirmTlNewPeriod exists_ T target key_input name_input start end_
   = Some T)
  ∧ (valid_key key = true → name ≠ [] → start ≠ [] → end_ ≠ [] →
     start ≠ end_ → exists_ = false →
     (findPresetSection lines target = None →
      confirmTlNewPeriod exists_ T target key_input name_input start end_
      = Some T)
     ∧ ∀ info : sectionInfo,
         findPresetSection lines target = Some info →
         ∃ idx : Z,
           findChildKey lines (sec_start info) (sec_end info)
             (sec_indent info) (str "periods") = Some idx
           ∧ ((idx < 0)%Z →
              confirmTlNewPeriod exists_ T target key_input name_input start
                end_ = Some T)
           ∧ ((0 <= idx)%Z →
              ∃ periods : jstr,
                lookupZ lines idx = Some periods
                ∧ match_key periods = Some (str "periods")
                ∧ let new := new_period_lines (search_nonspace periods + 2)
                               key name start end_ in
                  (trim periods = str "periods: {}"
                   ∨ trim periods = str "periods:{}" →
                   let lines' :=
                     splice_in
                       (<[Z.to_nat idx :=
                            spaces (search_nonspace periods)
                            ++ str "periods:"]> lines)
                       (idx + 1) new in
                   confirmTlNewPeriod exists_ T target key_input name_input
                     start end_ = Some (join_lines lines')
                   ∧ findChildKey lines' idx (idx + 9)
                       (search_nonspace periods) key = Some (idx + 1)%Z)
                  ∧ (trim periods ≠ str "periods: {}" →
                     trim periods ≠ str "periods:{}" →
                     ∃ periodsEnd : Z,
                       block_end lines idx (search_nonspace periods)
                         (sec_end info) periodsEnd
                       ∧ let lines' := splice_in lines periodsEnd new in
                         confirmTlNewPeriod exists_ T target key_input
                           name_input start end_ = Some (join_lines lines')
                         ∧ (findChildKey lines idx periodsEnd
                              (search_nonspace periods) key = Some (-1)%Z →
                            findChildKey lines' idx (periodsEnd + 8)
                              (search_nonspace periods) key
                            = Some periodsEnd)))).
Proof.
  intros lines key name. unfold confirmTlNewPeriod. cbv zeta.
  fold lines key name. split.
  { intros Hrej.
    destruct (eqb_str key []); [done|].
    destruct (valid_key key) eqn:Hv; [|done]. simpl.
    destruct (eqb_str name []) eqn:Hn; [done|].
    destruct (eqb_str start [] || eqb_str end_ []) eqn:Ht; [done|].
    destruct (eqb_str start end_) eqn:Hse; [done|].
    destruct exists_; [done|].
    apply eqb_str_false in Hn, Hse.
    apply orb_false_iff in Ht as [Hs%eqb_str_false He%eqb_str_false].
    destruct Hrej as [?|[?|[?|[?|[?|?]]]]]; done. }
  intros Hvalid Hname Hstart Hend Hse ->.
  assert (Hkey0 : eqb_str key [] = false).
  { apply eqb_str_false. intros E. by rewrite E in Hvalid. }
  apply eqb_str_false in Hname, Hstart, Hend, Hse.
  rewrite Hkey0, Hvalid, Hname, Hstart, Hend, Hse. simpl negb. cbv iota.
  cbn [orb]. split; [by intros ->|].
  intros info Hinfo. rewrite Hinfo.
  pose proof (findPresetSection_range _ _ _ Hinfo) as [Hs He].
  destruct (findPresetSection_found _ _ _ Hinfo) as (l0 & _ & Hp & _).
  apply preset_line_indent in Hp.
  destruct (findChildKey_found lines (sec_start info) (sec_end info)
              (sec_indent info) (str "periods"))
    as (ps & Hps & [->|[Hpsr (periods & Hperiods & _ & Hpind & Hkey)]]);
    [lia..| |]; rewrite Hps.
  { exists (-1)%Z. split; [done|]. split; [done|lia]. }
  exists ps. split; [done|]. split; [lia|]. intros _.
  cbn [mbind option_bind]. destruct (Z.ltb_spec ps 0); [lia|].
  rewrite Hperiods. cbn [mbind option_bind].
  pose proof (valid_key_plain _ Hvalid) as Hplain.
  assert (Hchild : child_match (search_nonspace periods) key
            (spaces (search_nonspace periods + 2) ++ key ++ str ":")).
  { change (str ":") with ([c_colon] ++ []).
    apply child_match_written; [lia|done|done]. }
  exists periods. split_and!; [done|done| |].
  - intros Hempty.
    assert (E : eqb_str (trim periods) (str "periods: {}")
                || eqb_str (trim periods) (str "periods:{}") = true).
    { apply orb_true_iff.
      destruct Hempty as [E|E]; [left|right]; by apply eqb_str_true. }
    rewrite E. cbn [mbind option_bind]. split; [done|].
    apply findChildKey_first; [lia|intros j Hj; lia|].
    eexists. split; [|exact Hchild].
    apply lookupZ_splice_in. rewrite length_insert. lia.
  - intros H1 H2. apply eqb_str_false in H1, H2. rewrite H1, H2. cbn [orb].
    destruct (findBlockEnd_total lines ps (search_nonspace periods)
                (sec_end info)) as (pe & Hpe & Hpec); [lia..|].
    rewrite Hpe. cbn [mbind option_bind]. exists pe.
    split; [apply findBlockEnd_block_end; [lia|lia|done]|].
    split; [done|].
    intros Habsent. apply findChildKey_first; [lia| |].
    + intros j Hj. rewrite lookupZ_splice_in_before by lia.
      apply (findChildKey_absent lines ps pe); [lia..|done| |lia].
      intros j' Hj'.
      apply (findBlockEnd_inside lines ps (search_nonspace periods)
               (sec_end info) pe); [lia..|done|lia|lia].
    + eexists. split; [apply lookupZ_splice_in; lia|exact Hchild].
Qed.

(** The theorem at a block of [periods] with one period, followed by the
    day plans: the new period comes after the period, before the day
    plans. *)
Lemma confirmTlNewPeriod_inserts_witness :
  confirmTlNewPeriod false
    (join_lines [str "custom:"; str "  periods:"; str "    am:";
                 str "      name: AM"; str "  day_plans:"])
    (str "custom") (str " pm ") (str "PM") (str "13:00") (str "18:00")
  = Some (join_lines
            ([str "custom:"; str "  periods:"; str "    am:";
              str "      name: AM"]
             ++ new_period_lines 4 (str "pm") (str "PM") (str "13:00")
                  (str "18:00")
             ++ [str "  day_plans:"])).
Proof.
  pose proof (confirmTlNewPeriod_inserts false
                (join_lines [str "custom:"; str "  periods:"; str "    am:";
                             str "      name: AM"; str "  day_plans:"])
                (str "custom") (str " pm ") (str "PM") (str "13:00")
                (str "18:00")) as H.
  cbv zeta in H. destruct H as [_ H].
  destruct H as [_ H];
    [vm_compute; reflexivity|vm_compute; discriminate|discriminate
    |discriminate|discriminate|reflexivity|].
  destruct (H (SectionInfo 0 5 0)) as (idx & Hidx & _ & Hins);
    [vm_compute; reflexivity|].
  vm_compute in Hidx. injection Hidx as <-.
  destruct Hins as (periods & Hperiods & _ & _ & Hblock); [lia|].
  vm_compute in Hperiods. injection Hperiods as <-.
  destruct Hblock as (periodsEnd & Hend & -> & _);
    [vm_compute; discriminate|vm_compute; discriminate|].
  apply block_end_findBlockEnd in Hend; [|lia|vm_compute; discriminate].
  vm_compute in Hend. injection Hend as <-.
  vm_compute. reflexivity.
Defined.

(** ** The active preset in the settings document *)

Lemma scan_schedule_found (lines : list jstr) :
  ∀ (i : Z) (b : bool) (r : Z),
    scan_schedule lines i b = Some r →
    (i <= r)%Z
    ∧ ∃ line, lines !! Z.to_nat (r - i) = Some line
              ∧ schedule_line line = false ∧ indented_preset line = true.
Proof.
  induction lines as [|line lines IH]; intros i b r H; [done|].
  assert (Hrec : ∀ b', scan_schedule lines (i + 1) b' = Some r →
            (i <= r)%Z
            ∧ ∃ l, (line :: lines) !! Z.to_nat (r - i) = Some l
                   ∧ schedule_line l = false ∧ indented_preset l = true).
  { intros b' H'. destruct (IH _ _ _ H') as (Hr & l & Hl & Hs & Hp).
    split; [lia|]. exists l. split; [|done].
    by replace (Z.to_nat (r - i)) with (S (Z.to_nat (r - (i + 1)))) by lia. }
  simpl in H.
  destruct (schedule_line line) eqn:Hs; [by eapply Hrec|].
  destruct ((if b && starts_nonspace line && negb (startsWith line [c_hash])
             then false else b) && indented_preset line) eqn:Hfound;
    [|by eapply Hrec].
  injection H as <-. apply andb_true_iff in Hfound as [_ Hp].
  split; [lia|]. exists line. by rewrite Z.sub_diag.
Qed.

Lemma match_trailing_comment_suffix (rest c : jstr) :
  match_trailing_comment rest = Some c →
  comment_here c = true ∧ ∃ pre, rest = pre ++ c.
Proof.
  induction rest as [|d rest IH]; [done|]. simpl.
  destruct (comment_here (d :: rest)) eqn:Hc.
  - intros [= <-]. split; [done|]. by exists [].
  - intros H. destruct (IH H) as (Hh & pre & ->). split; [done|].
    by exists (d :: pre).
Qed.

Lemma startsWith_prefix (s p : jstr) :
  startsWith s p = true → s = p ++ drop (length p) s.
Proof.
  revert s. induction p as [|c p IH]; intros s H; [done|].
  destruct s as [|d s]; [done|]. simpl in H.
  apply andb_true_iff in H as [->%N.eqb_eq H]. simpl. f_equal. by apply IH.
Qed.

Lemma startsWith_app (p tail : jstr) : startsWith (p ++ tail) p = true.
Proof.
  induction p as [|c p IH]; simpl; [by destruct tail|].
  by rewrite N.eqb_refl.
Qed.

Lemma match_preset_value_sound (original prefix rest : jstr) :
  match_preset_value original = Some (prefix, rest) →
  original = prefix ++ rest
  ∧ forallb not_lt rest = true
  ∧ ∃ ws ws2, prefix = ws ++ str "preset:" ++ ws2
              ∧ Forall (fun c => is_space c = true) ws
              ∧ Forall (fun c => is_space c = true) ws2
              ∧ match rest with [] => True | c :: _ => is_space c = false end.
Proof.
  unfold match_preset_value. generalize (str "preset:") as P. intros P.
  destruct (span_spec is_space original) as (Ho & Hws & _).
  destruct (span is_space original) as [ws s1]. cbn [fst snd] in Ho, Hws.
  destruct (startsWith s1 P) eqn:Hs; [|done].
  pose proof (startsWith_prefix _ _ Hs) as Hs1.
  destruct (span_spec is_space (drop (length P) s1)) as (Hd & Hws2 & Hrest).
  destruct (span is_space (drop (length P) s1)) as [ws2 r].
  cbn [fst snd] in Hd, Hws2, Hrest.
  destruct (forallb not_lt r) eqn:Hlt; [|done].
  intros [= <- <-]. split_and!; [|done|].
  - rewrite Ho, <- !app_assoc. f_equal. rewrite <- Hd. exact Hs1.
  - exists ws, ws2. done.
Qed.

(** X12.  [selectTimelinePreset] never raises.  It writes the lines of
    the editor back as they are when its loop finds no [preset:] line, and
    when the line it finds does not match the pattern of the value.
    Otherwise it writes one line anew, the one of the index that the loop
    returns: the line keeps everything up to its value (its white space,
    the key [preset:] and the white space after it), gets the name between
    double quotes as its value, and keeps its trailing comment, the first
    suffix of the old value that is white space and a hash sign followed
    by anything. *)
Theorem selectTimelinePreset_one_line (T name : jstr) :
  let lines := split_lines T in
  (scan_schedule lines 0 false = None → selectTimelinePreset T name = Some T)
  ∧ (∀ idx : Z,
       scan_schedule lines 0 false = Some idx →
       ∃ original : jstr,
         lookupZ lines idx = Some original
         ∧ indented_preset original = true
         ∧ (match_preset_value original = None →
            selectTimelinePreset T name = Some T)
         ∧ ∀ prefix rest : jstr,
             match_preset_value original = Some (prefix, rest) →
             original = prefix ++ rest
             ∧ (∃ ws ws2 : jstr,
                  prefix = ws ++ str "preset:" ++ ws2
                  ∧ Forall (fun c => is_space c = true) ws
                  ∧ Forall (fun c => is_space c = true) ws2
                  ∧ match rest with
                    | [] => True
                    | c :: _ => is_space c = false
                    end)
             ∧ (∀ comment : jstr,
                  match_trailing_comment rest = Some comment →
                  comment_here comment = true
                  ∧ ∃ before : jstr, rest = before ++ comment)
             ∧ selectTimelinePreset T name
               = Some (join_lines
                         (<[Z.to_nat idx :=
                              prefix ++ [c_dquote] ++ name ++ [c_dquote]
                              ++ default [] (match_trailing_comment rest)]>
                            lines))).
Proof.
  intros lines. unfold selectTimelinePreset. cbv zeta. fold lines.
  assert (Hjoin : join_lines lines = T) by apply join_split_on.
  split; [intros ->; by rewrite Hjoin|].
  intros idx Hscan. rewrite Hscan.
  destruct (scan_schedule_found _ _ _ _ Hscan) as (Hidx & line & Hline & _ & Hp).
  rewrite Z.sub_0_r in Hline.
  assert (Hl : lookupZ lines idx = Some line) by (apply lookupZ_Some; auto).
  rewrite Hl. cbn [mbind option_bind]. unfold selected_line.
  exists line. split_and!; [done|done| |].
  - intros ->. rewrite list_insert_id by done. by rewrite Hjoin.
  - intros prefix rest Hm. rewrite Hm.
    destruct (match_preset_value_sound _ _ _ Hm) as (Ho & _ & Hshape).
    split_and!; [done|done| |done].
    intros comment Hc. by apply match_trailing_comment_suffix.
Qed.

(** The theorem at a [preset:] line with a value and a comment. *)
Lemma selectTimelinePreset_one_line_witness :
  selectTimelinePreset
    (join_lines [str "schedule:"; str "  enabled: true";
                 str "  preset:  always_on  # the mode"; str "other: 1"])
    (str "night_owl")
  = Some (join_lines
            [str "schedule:"; str "  enabled: true";
             str "  preset:  " ++ [c_dquote] ++ str "night_owl" ++ [c_dquote]
             ++ str "  # the mode";
             str "other: 1"]).
Proof.
  pose proof (selectTimelinePreset_one_line
                (join_lines [str "schedule:"; str "  enabled: true";
                             str "  preset:  always_on  # the mode";
                             str "other: 1"])
                (str "night_owl")) as H.
  cbv zeta in H. destruct H as [_ H].
  destruct (H 2%Z) as (original & Horig & _ & _ & Hsel);
    [vm_compute; reflexivity|].
  vm_compute in Horig. injection Horig as <-.
  destruct (Hsel (str "  preset:  ") (str "always_on  # the mode"))
    as (_ & _ & _ & ->); [vm_compute; reflexivity|].
  vm_compute. reflexivity.
Defined.

Lemma scan_schedule_ext (lines lines' : list jstr) :
  Forall2 (fun a b => schedule_tests a = schedule_tests b) lines lines' →
  ∀ (i : Z) (b : bool), scan_schedule lines' i b = scan_schedule lines i b.
Proof.
  induction 1 as [|l l' lines lines' Hl _ IH]; intros i b; [done|].
  injection Hl as H1 H2 H3 H4. simpl.
  by rewrite <- H1, <- H2, <- H3, <- H4, !IH.
Qed.

Lemma trimEnd_prefix (x : jstr) :
  ∃ w, x = trimEnd x ++ w ∧ Forall (fun c => is_space c = true) w.
Proof.
  unfold trimEnd. destruct (skip_space_suffix (rev x)) as (w & Hw & Hsp).
  exists (rev w). split; [|by apply Forall_rev].
  rewrite <- rev_app_distr, <- Hw. by rewrite rev_involutive.
Qed.

Lemma startsWith_head_ne (c d : N) (x p : jstr) :
  c ≠ d → startsWith (c :: x) (d :: p) = false.
Proof. intros H. simpl. apply andb_false_iff. left. apply N.eqb_neq. auto. Qed.

(** The tests of the loop on a line that starts with white space, then
    [preset:]. *)
Lemma schedule_tests_indented (c : N) (ws tail : jstr) :
  is_space c = true → Forall (fun d => is_space d = true) ws →
  schedule_tests (c :: ws ++ str "preset:" ++ tail) = (false, false, false, true).
Proof.
  intros Hc Hws.
  assert (Hne : ∀ d, is_space d = false → c ≠ d) by (intros d Hd ->; congruence).
  unfold schedule_tests. f_equal; [f_equal; [f_equal|]|].
  - unfold schedule_line. apply orb_false_iff. split.
    + apply andb_false_iff. left.
      destruct (trimEnd_prefix (c :: ws ++ str "preset:" ++ tail)) as (w & Hw & _).
      destruct (trimEnd (c :: ws ++ str "preset:" ++ tail)) as [|d y]; [done|].
      injection Hw as <- _. by apply startsWith_head_ne, Hne.
    + apply andb_false_iff. left. by apply startsWith_head_ne, Hne.
  - unfold starts_nonspace, not_space. by rewrite Hc.
  - by apply startsWith_head_ne, Hne.
  - unfold indented_preset.
    change (c :: ws ++ str "preset:" ++ tail)
      with ((c :: ws) ++ (112%N :: str "reset:" ++ tail)).
    rewrite span_app_stop; [|by constructor|reflexivity].
    apply (startsWith_app (str "preset:") tail).
Qed.

Lemma indented_preset_shape (line : jstr) :
  indented_preset line = true →
  ∃ c ws tail, line = c :: ws ++ str "preset:" ++ tail
               ∧ is_space c = true ∧ Forall (fun d => is_space d = true) ws.
Proof.
  unfold indented_preset.
  destruct (span_spec is_space line) as (Hl & Hws & _).
  destruct (span is_space line) as [[|c ws] s1]; [done|].
  cbn [fst snd] in Hl, Hws. intros Hs%startsWith_prefix.
  apply Forall_cons in Hws as [Hc Hws].
  exists c, ws, (drop (length (str "preset:")) s1).
  split; [|done]. rewrite Hl. simpl. f_equal. f_equal. exact Hs.
Qed.

Lemma match_preset_value_written (ws ws2 rest : jstr) :
  Forall (fun c => is_space c = true) ws →
  Forall (fun c => is_space c = true) ws2 →
  match rest with [] => True | c :: _ => is_space c = false end →
  forallb not_lt rest = true →
  match_preset_value (ws ++ str "preset:" ++ ws2 ++ rest)
  = Some (ws ++ str "preset:" ++ ws2, rest).
Proof.
  intros Hws Hws2 Hrest Hlt. unfold match_preset_value.
  assert (Hspan : span is_space (ws ++ str "preset:" ++ ws2 ++ rest)
                  = (ws, str "preset:" ++ ws2 ++ rest)).
  { change (str "preset:" ++ ws2 ++ rest)
      with (112%N :: str "reset:" ++ ws2 ++ rest).
    by apply span_app_stop. }
  rewrite Hspan, startsWith_app.
  change (drop (length (str "preset:")) (str "preset:" ++ ws2 ++ rest))
    with (ws2 ++ rest).
  assert (Hspan2 : span is_space (ws2 ++ rest) = (ws2, rest)).
  { destruct rest as [|c rest]; [rewrite app_nil_r; by apply span_all|].
    by apply span_app_stop. }
  by rewrite Hspan2, Hlt.
Qed.

Lemma comment_here_no_hash (x tail : jstr) :
  Forall (fun c => c ≠ c_hash) x →
  (∃ c, c ∈ x ∧ is_space c = false) →
  comment_here (x ++ tail) = false.
Proof.
  intros Hx (c & Hin & Hc). unfold comment_here.
  induction x as [|d x IH]; [by apply elem_of_nil in Hin|].
  apply Forall_cons in Hx as [Hd Hx]. simpl.
  destruct (is_space d) eqn:Hsd.
  - rewrite skip_space_cons_space by done. apply IH; [done|].
    apply elem_of_cons in Hin as [->|Hin]; [congruence|done].
  - rewrite skip_space_cons_nonspace by done.
    apply andb_false_iff. left. by apply N.eqb_neq.
Qed.

Lemma match_trailing_comment_after (x : jstr) (q : N) (tail : jstr) :
  Forall (fun c => c ≠ c_hash) x → q ≠ c_hash → is_space q = false →
  match_trailing_comment (x ++ q :: tail) = match_trailing_comment tail.
Proof.
  intros Hx Hq Hsq. induction x as [|d x IH].
  - simpl. change (q :: tail) with ([q] ++ tail).
    rewrite comment_here_no_hash; [done|by constructor|].
    exists q. split; [by apply elem_of_cons; left|done].
  - apply Forall_cons in Hx as [Hd Hx].
    assert (Hf : comment_here ((d :: x) ++ q :: tail) = false).
    { replace ((d :: x) ++ q :: tail) with ((d :: x ++ [q]) ++ tail)
        by (simpl; by rewrite <- app_assoc).
      apply comment_here_no_hash.
      - constructor; [done|]. apply Forall_app. split; [done|by constructor].
      - exists q. split; [|done]. apply elem_of_cons. right.
        apply elem_of_app. right. by apply elem_of_cons; left. }
    cbn [match_trailing_comment app] in Hf |- *. rewrite Hf. by apply IH.
Qed.

Lemma match_trailing_comment_fixed (rest : jstr) :
  let comment := default [] (match_trailing_comment rest) in
  default [] (match_trailing_comment comment) = comment.
Proof.
  cbv zeta. destruct (match_trailing_comment rest) as [c|] eqn:Hc; [|done].
  apply match_trailing_comment_suffix in Hc as [Hh _]. simpl.
  destruct c as [|d c]; [done|].
  cbn [match_trailing_comment]. by rewrite Hh.
Qed.

Lemma nl_free_lt (s : jstr) :
  Forall (fun c => is_lt c = false) s → nl_free s.
Proof.
  intros H Hin. rewrite Forall_forall in H. by apply H in Hin.
Qed.

(** The line that [selectTimelinePreset] writes is the line it writes when
    it reads that line again. *)
Lemma selected_line_fixed (line name : jstr) :
  preset_name name → indented_preset line = true →
  selected_line (selected_line line name) name = selected_line line name
  ∧ schedule_tests (selected_line line name) = schedule_tests line
  ∧ (nl_free line → nl_free (selected_line line name)).
Proof.
  intros Hname Hind. unfold selected_line.
  destruct (match_preset_value line) as [[prefix rest]|] eqn:Hm;
    [|by rewrite Hm].
  destruct (match_preset_value_sound _ _ _ Hm)
    as (Hline & Hlt & ws0 & ws2 & -> & Hws0 & Hws2 & Hrest).
  pose proof (match_trailing_comment_fixed rest) as Hfix. cbv zeta in Hfix.
  set (comment := default [] (match_trailing_comment rest)) in *.
  assert (Hcomment : ∃ pre, rest = pre ++ comment).
  { unfold comment. destruct (match_trailing_comment rest) as [c|] eqn:Hc.
    - by apply match_trailing_comment_suffix in Hc as [_ ?].
    - exists rest. by rewrite app_nil_r. }
  destruct Hcomment as (pre & Hpre).
  assert (Hname_hash : Forall (fun c => c ≠ c_hash) (c_dquote :: name)).
  { constructor; [done|]. eapply Forall_impl; [exact Hname|]. by intros c [_ ?]. }
  assert (Hname_lt : forallb not_lt name = true).
  { apply forallb_not_lt. eapply Forall_impl; [exact Hname|]. by intros c [? _]. }
  assert (Hcomment_lt : forallb not_lt comment = true).
  { rewrite Hpre, forallb_app in Hlt. by apply andb_true_iff in Hlt as [_ ?]. }
  assert (Hshape : (ws0 ++ str "preset:" ++ ws2) ++ [c_dquote] ++ name
                     ++ [c_dquote] ++ comment
                   = ws0 ++ str "preset:" ++ ws2
                     ++ (c_dquote :: name ++ c_dquote :: comment)).
  { by rewrite <- !app_assoc. }
  split_and!.
  - rewrite Hshape, match_preset_value_written; try done.
    + change (c_dquote :: name ++ c_dquote :: comment)
        with ((c_dquote :: name) ++ c_dquote :: comment).
      rewrite match_trailing_comment_after by done.
      by rewrite Hfix, <- !app_assoc.
    + simpl. rewrite forallb_app, Hname_lt. simpl. by rewrite Hcomment_lt.
  - destruct (indented_preset_shape line Hind) as (c & ws & tail & Hl & Hc & Hws).
    assert (Hws0' : ws0 = c :: ws).
    { assert (H1 : span is_space line = (ws0, str "preset:" ++ ws2 ++ rest)).
      { rewrite Hline, <- !app_assoc.
        change (str "preset:" ++ ws2 ++ rest)
          with (112%N :: str "reset:" ++ ws2 ++ rest).
        by apply span_app_stop. }
      assert (H2 : span is_space line = (c :: ws, str "preset:" ++ tail)).
      { rewrite Hl.
        change (c :: ws ++ str "preset:" ++ tail)
          with ((c :: ws) ++ 112%N :: str "reset:" ++ tail).
        apply span_app_stop; [by constructor|done]. }
      congruence. }
    rewrite Hl, (schedule_tests_indented c ws tail Hc Hws).
    rewrite Hws0', <- !app_assoc, <- app_comm_cons.
    by apply schedule_tests_indented.
  - intros Hfree. rewrite Hline, Hpre in Hfree.
    apply nl_free_app in Hfree as [Hp [_ Hc]%nl_free_app].
    apply nl_free_app. split; [exact Hp|].
    assert (Hq : nl_free [c_dquote]).
    { apply nl_free_cons. split; [done|apply nl_free_nil]. }
    rewrite !nl_free_app. split_and!; try done.
    apply nl_free_lt. eapply Forall_impl; [exact Hname|]. by intros c [? _].
Qed.

(** X13.  Selecting a preset twice is selecting it once: for a name
    without line terminator or hash sign, [selectTimelinePreset] leaves the
    text it has written as it is. *)
Theorem selectTimelinePreset_idempotent (T name T' : jstr) :
  preset_name name →
  selectTimelinePreset T name = Some T' →
  selectTimelinePreset T' name = Some T'.
Proof.
  intros Hname. unfold selectTimelinePreset. cbv zeta.
  pose proof (split_lines_nl_free T) as Hfree.
  pose proof (split_on_nonempty c_nl T) as Hne.
  fold (split_lines T) in Hne.
  generalize dependent (split_lines T). intros lines Hfree Hne.
  assert (Hsplit : ∀ ls, ls ≠ [] → Forall nl_free ls →
            split_lines (join_lines ls) = ls).
  { intros ls ? ?. by apply split_on_join. }
  destruct (scan_schedule lines 0 false) as [idx|] eqn:Hscan.
  2:{ intros [= <-]. by rewrite Hsplit, Hscan. }
  destruct (scan_schedule_found _ _ _ _ Hscan) as (Hidx & line & Hline & _ & Hp).
  rewrite Z.sub_0_r in Hline.
  assert (Hl : lookupZ lines idx = Some line) by (apply lookupZ_Some; auto).
  rewrite Hl. simpl. intros [= <-].
  destruct (selected_line_fixed line name Hname Hp) as (Hfix & Htests & Hnl).
  set (line' := selected_line line name) in *.
  assert (Hlt : (Z.to_nat idx < length lines)%nat) by by eapply lookup_lt_Some.
  rewrite Hsplit.
  - rewrite scan_schedule_ext with (lines := lines).
    + rewrite Hscan, lookupZ_insert_eq by lia. simpl.
      by rewrite Hfix, list_insert_insert_eq.
    + rewrite <- (take_drop_middle lines (Z.to_nat idx) line Hline) at 1.
      rewrite insert_take_drop by done.
      apply Forall2_app; [by apply Forall_Forall2_diag, Forall_true|].
      constructor; [done|]. by apply Forall_Forall2_diag, Forall_true.
  - intros H. apply (f_equal length) in H. rewrite length_insert in H.
    simpl in H. lia.
  - apply Forall_insert; [done|]. apply Hnl.
    rewrite Forall_forall in Hfree. apply Hfree.
    by eapply list_elem_of_lookup_2.
Qed.

Lemma selectTimelinePreset_idempotent_witness :
  selectTimelinePreset
    (join_lines [str "schedule:";
                 str "  preset: " ++ [c_dquote] ++ str "night_owl" ++ [c_dquote]
                 ++ str "  # active"])
    (str "night_owl")
  = Some (join_lines
            [str "schedule:";
             str "  preset: " ++ [c_dquote] ++ str "night_owl" ++ [c_dquote]
             ++ str "  # active"]).
Proof.
  apply (selectTimelinePreset_idempotent
           (join_lines [str "schedule:"; str "  preset: morning  # active"])
           (str "night_owl")).
  - unfold preset_name. vm_compute. repeat constructor; discriminate.
  - vm_compute. reflexivity.
Defined.

(** * The rule file: further properties *)

(** ** A text without a marker *)

Lemma no_filters_parse_line (st : pstate) (i : Z) (line : jstr) :
  no_filters st → not_global_marker line → no_filters (parse_line st i line).
Proof.
  intros [Hgf Hsec] Hline. unfold parse_line. cbv zeta.
  destruct (startsWith (trim line) [c_hash] && _); [done|].
  destruct (startsWith (trim line) [c_hash]); [done|].
  destruct (eqb_str (trim line) []) eqn:E3.
  { unfold no_filters. simpl. by rewrite flush_globalFilter, flush_section. }
  destruct (eqb_str (trim line) marker_global) eqn:E4.
  { exfalso. apply Hline, classify_global_marker. by apply eqb_str_true. }
  destruct (eqb_str (trim line) marker_groups) eqn:E5; [done|].
  destruct (currentSection st) eqn:Hs; [by split; [|rewrite Hs]|done|].
  unfold no_filters.
  destruct (match_group_name (trim line)).
  { simpl. by rewrite flush_globalFilter, flush_section. }
  destruct (match_alias (trim line)) as [[kw al]|].
  - destruct (currentGroup st) as [g|]; [|done].
    by destruct (lastLineWasAlias st && is_alias_type (type g)).
  - destruct (currentGroup st) as [g|]; [|done].
    by destruct (is_alias_type (type g)).
Qed.

Lemma no_filters_parse_lines (lines : list jstr) :
  ∀ (st : pstate) (i : Z),
    no_filters st → Forall not_global_marker lines →
    no_filters (parse_lines st i lines).
Proof.
  induction lines as [|line lines IH]; intros st i Hst Hall; [done|].
  apply Forall_cons in Hall as [Hline Hall]. simpl.
  apply IH; [|done]. by apply no_filters_parse_line.
Qed.

(** X14.  A text without a line that is the groups marker has no word
    group, whatever it holds, and a text without a line that is the global
    marker has no global filter. *)
Theorem parse_without_marker (T : jstr) :
  (Forall not_groups_marker (split_lines T) →
   wordGroups (parseFrequencyText T) = [])
  ∧ (Forall not_global_marker (split_lines T) →
     globalFilter (parseFrequencyText T) = []).
Proof.
  unfold parseFrequencyText. split; intros H.
  - apply no_groups_finish, no_groups_parse_lines; [apply no_groups_init|done].
  - rewrite parse_finish_close. unfold close_run.
    rewrite flush_globalFilter. simpl.
    by apply (no_filters_parse_lines (split_lines T) (parse_init T) 0).
Qed.

Lemma parse_without_marker_witness :
  wordGroups (parseFrequencyText (join_lines [str "foo"; str "bar => baz"]))
  = [].
Proof.
  apply (parse_without_marker (join_lines [str "foo"; str "bar => baz"])).
  vm_compute. repeat constructor; discriminate.
Defined.

(** ** The shape of the groups *)

Lemma classify_label_inv (line nm : jstr) :
  classify line = LLabel nm → match_group_name (trim line) = Some nm.
Proof. unfold classify. cbv zeta. repeat case_match; congruence. Qed.

Lemma classify_alias_inv (line kw al : jstr) :
  classify line = LAlias kw al →
  match_alias (trim line) = Some (kw, al) ∧ trim line ≠ [].
Proof.
  unfold classify. cbv zeta. repeat case_match; try congruence.
  intros [= <- <-]. split; [done|]. by apply eqb_str_false.
Qed.

Lemma classify_keyword_inv (line k : jstr) :
  classify line = LKeyword k → k = trim line ∧ trim line ≠ [].
Proof.
  unfold classify. cbv zeta. repeat case_match; try congruence.
  intros [= <-]. split; [done|]. by apply eqb_str_false.
Qed.

Lemma trim_cons_nonspace (c : N) (s : jstr) :
  is_space c = false → trim (c :: s) ≠ [].
Proof.
  intros Hc. rewrite trim_nil_iff. by rewrite skip_space_cons_nonspace.
Qed.

Lemma match_alias_parts (t kw al : jstr) :
  is_trimmed t → match_alias t = Some (kw, al) →
  kw ≠ [] ∧ is_trimmed kw ∧ is_trimmed al.
Proof.
  intros [Hhead _]. unfold match_alias. destruct t as [|c s]; [done|].
  destruct (is_lt c); [done|].
  destruct (alias_search [c] s) as [[k a]|] eqn:Hs; [|done].
  intros [= <- <-].
  apply alias_search_sound in Hs as (s1 & s2 & _ & -> & _).
  split_and!; [|apply trim_is_trimmed..].
  by apply trim_cons_nonspace.
Qed.

Lemma groups_invariant_buffer_current (P : group → Prop) (st : pstate) :
  groups_invariant P st → Forall P (buffer_current st).
Proof.
  intros (_ & Hbuf & Hcur). unfold buffer_current.
  destruct (currentGroup st) as [g|]; [|done].
  apply Forall_app. split; [done|]. constructor; [by apply Hcur|done].
Qed.

Lemma Forall_flushed (P : group → Prop) (buffer : list group) :
  (∀ total idx g, P g → P (mark_related total idx g)) →
  Forall P buffer → Forall P (flushed buffer).
Proof.
  intros Hflag H. unfold flushed. case_match; [|done].
  apply Forall_forall. intros g [i Hi]%list_elem_of_lookup_1.
  rewrite list_lookup_imap in Hi.
  destruct (buffer !! i) as [g0|] eqn:Hg0; [|done]. injection Hi as <-.
  rewrite Forall_forall in H. apply Hflag, (H g0).
  by eapply list_elem_of_lookup_2.
Qed.

Section groups_invariant.
Variable P : group → Prop.
Variable i : Z.
Variable line : jstr.

Hypothesis Hflag : ∀ total idx g, P g → P (mark_related total idx g).
Hypothesis Hlabel : ∀ nm cs,
  classify line = LLabel nm →
  P (Group GroupName nm [] [] i cs false None None).
Hypothesis Halias : ∀ kw al cs,
  classify line = LAlias kw al →
  P (Group Alias [] [] [AliasItem kw al] i cs false None None).
Hypothesis Hmore : ∀ kw al g,
  classify line = LAlias kw al → P g → is_alias_type (type g) = true →
  P (Group AliasGroup (name g) (keywords g) (items g ++ [AliasItem kw al])
       (startLine g) (precedingComments g) (isRelatedGroup g)
       (relatedGroupIndex g) (relatedGroupTotal g)).
Hypothesis Hkey : ∀ k cs,
  classify line = LKeyword k →
  P (Group Plain [] [k] [] i cs false None None).
Hypothesis Hkeymore : ∀ k g,
  classify line = LKeyword k → P g → is_alias_type (type g) = false →
  P (Group (type g) (name g) (keywords g ++ [k]) (items g) (startLine g)
       (precedingComments g) (isRelatedGroup g) (relatedGroupIndex g)
       (relatedGroupTotal g)).

Lemma groups_invariant_close (st : pstate) :
  groups_invariant P st → groups_invariant P (close_run st).
Proof using Hflag.
  intros Hinv. pose proof (groups_invariant_buffer_current P st Hinv) as Hbc.
  destruct Hinv as (Hout & _ & _). unfold groups_invariant.
  rewrite close_run_wordGroups, close_run_buffer.
  split_and!; [|done|].
  - apply Forall_app. split; [done|]. by apply Forall_flushed.
  - unfold close_run. by rewrite flush_current.
Qed.

Lemma groups_invariant_step (st : pstate) :
  groups_invariant P st →
  groups_invariant P (step_groups st i line (classify line)).
Proof using All.
  intros Hinv.
  pose proof (groups_invariant_buffer_current P st Hinv) as Hbc.
  pose proof (groups_invariant_close st Hinv) as (Hout' & Hbuf' & _).
  pose proof Hinv as (Hout & Hbuf & Hcur).
  unfold groups_invariant in Hout', Hbuf' |- *.
  destruct (classify line) eqn:Hclass; simpl; try done.
  - split_and!; [done|done|]. intros g [= <-]. by apply Hlabel.
  - destruct (currentGroup st) as [g|] eqn:Hg.
    + destruct (is_alias_type (type g) && lastLineWasAlias st) eqn:Hb; simpl.
      * apply andb_true_iff in Hb as [Hb _].
        split_and!; [done|done|]. intros g' [= <-]. by apply Hmore; auto.
      * split_and!; [done|done|]. intros g' [= <-]. by apply Halias.
    + simpl. split_and!; [done|done|]. intros g' [= <-]. by apply Halias.
  - destruct (currentGroup st) as [g|] eqn:Hg.
    + destruct (is_alias_type (type g)) eqn:Hb; simpl.
      * split_and!; [done|done|]. intros g' [= <-]. by apply Hkey.
      * split_and!; [done|done|]. intros g' [= <-]. by apply Hkeymore; auto.
    + simpl. split_and!; [done|done|]. intros g' [= <-]. by apply Hkey.
Qed.

Lemma groups_invariant_parse_line (st : pstate) :
  groups_invariant P st → groups_invariant P (parse_line st i line).
Proof using All.
  intros Hinv. destruct (currentSection st) eqn:Hsec.
  3: { rewrite parse_line_groups by done. by apply groups_invariant_step. }
  all: pose proof (groups_invariant_close st Hinv) as Hclose.
  all: unfold close_run in Hclose; rewrite Hsec in Hclose.
  all: pose proof Hinv as (Hout & Hbuf & Hcur).
  all: unfold parse_line; rewrite Hsec; cbv zeta.
  all: repeat case_match; simpl; try done.
  all: destruct Hclose as (Hout' & Hbuf' & _).
  all: unfold groups_invariant; simpl.
  all: rewrite ?flush_current, ?flush_buffer, ?flush_wordGroups in *; simpl.
  all: split_and!; try done.
Qed.
End groups_invariant.

Lemma groups_invariant_parse_lines (P : group → Prop) (text : list jstr) :
  (∀ total idx g, P g → P (mark_related total idx g)) →
  (∀ i line, lookupZ text i = Some line → line_opens P i line) →
  ∀ (lines pre : list jstr) (st : pstate),
    text = pre ++ lines → groups_invariant P st →
    groups_invariant P (parse_lines st (Z.of_nat (length pre)) lines).
Proof.
  intros Hflag Hopens. induction lines as [|line lines IH];
    intros pre st Htext Hinv; [done|].
  simpl.
  replace (Z.of_nat (length pre) + 1)%Z with (Z.of_nat (length (pre ++ [line])))
    by (rewrite length_app; simpl; lia).
  apply IH; [by rewrite <- app_assoc|].
  destruct (Hopens (Z.of_nat (length pre)) line) as (H1 & H2 & H3 & H4 & H5).
  { rewrite Htext, lookupZ_app_length. done. }
  by apply groups_invariant_parse_line.
Qed.

Lemma groups_invariant_parse (P : group → Prop) (T : jstr) :
  (∀ total idx g, P g → P (mark_related total idx g)) →
  (∀ i line, lookupZ (split_lines T) i = Some line → line_opens P i line) →
  Forall P (wordGroups (parseFrequencyText T)).
Proof.
  intros Hflag Hopens. unfold parseFrequencyText.
  rewrite parse_finish_close.
  apply (groups_invariant_close P Hflag).
  apply (groups_invariant_parse_lines P (split_lines T) Hflag Hopens
           (split_lines T) []); [done|].
  split_and!; done.
Qed.

(** X15.  Every group that [parseFrequencyText] returns has the shape of
    its type, for every text: a plain group has one keyword or more and no
    items, a labelled group has a label that is not empty, an alias group
    has exactly one item and an alias-group group two or more; keywords
    and item keywords are trimmed and not empty. *)
Theorem parse_groups_well_formed (T : jstr) :
  Forall well_formed_group (wordGroups (parseFrequencyText T)).
Proof.
  apply groups_invariant_parse; [done|].
  intros i line _. unfold line_opens, well_formed_group.
  split_and!; simpl.
  - intros nm cs Hnm%classify_label_inv.
    apply match_group_name_sound in Hnm as (_ & ? & _). done.
  - intros kw al cs [Hm _]%classify_alias_inv.
    apply match_alias_parts in Hm; [|apply trim_is_trimmed].
    split_and!; try done. by constructor.
  - intros kw al g [Hm _]%classify_alias_inv (Hk & Hit & Htype) Halias.
    apply match_alias_parts in Hm; [|apply trim_is_trimmed].
    assert (Hlen : keywords g = [] ∧ (1 <= length (items g))%nat).
    { destruct (type g); try done; destruct Htype as [? Hlen]; split;
        (done || lia). }
    destruct Hlen as [Hkw Hlen].
    split_and!; try done.
    + apply Forall_app. split; [done|by constructor].
    + rewrite length_app. simpl. lia.
  - intros k cs [-> Hne]%classify_keyword_inv.
    split_and!; try done. constructor; [|done].
    split; [done|apply trim_is_trimmed].
  - intros k g [-> Hne]%classify_keyword_inv (Hk & Hit & Htype) Halias.
    split_and!; try done.
    + apply Forall_app. split; [done|]. constructor; [|done].
      split; [done|apply trim_is_trimmed].
    + destruct (type g); try done; destruct Htype as [? ?]; split; try done.
      by destruct (keywords g).
Qed.

(** ** The line numbers of the groups *)

Lemma startLine_flushed (l : list group) :
  startLine <$> flushed l = startLine <$> l.
Proof.
  unfold flushed. case_match; [|done].
  rewrite fmap_imap. rewrite <- (imap_const startLine l). by apply imap_ext.
Qed.

Lemma close_run_current (st : pstate) : currentGroup (close_run st) = None.
Proof. unfold close_run. by rewrite flush_current. Qed.

Lemma held_groups_close (st : pstate) :
  startLine <$> held_groups (close_run st) = startLine <$> held_groups st.
Proof.
  unfold held_groups.
  rewrite (buffer_current_none (close_run st)) by apply close_run_current.
  rewrite close_run_wordGroups, close_run_buffer, app_nil_r.
  by rewrite !fmap_app, startLine_flushed.
Qed.

Lemma held_groups_step (st : pstate) (i : Z) (line : jstr) (c : line_class) :
  startLine <$> held_groups (step_groups st i line c)
    = startLine <$> held_groups st
  ∨ startLine <$> held_groups (step_groups st i line c)
    = (startLine <$> held_groups st) ++ [i].
Proof.
  pose proof (held_groups_close st) as Hclose.
  unfold held_groups in Hclose |- *.
  rewrite (buffer_current_none (close_run st)) in Hclose
    by apply close_run_current.
  rewrite close_run_buffer, app_nil_r in Hclose.
  destruct c; simpl; auto.
  - left. unfold buffer_current. simpl.
    by rewrite close_run_buffer, app_nil_r.
  - right. unfold buffer_current at 1. simpl. rewrite close_run_buffer. simpl.
    by rewrite fmap_app, Hclose.
  - destruct (currentGroup st) as [g|] eqn:Hg.
    + pose proof (buffer_current_some st g Hg) as Hbc.
      destruct (is_alias_type (type g) && lastLineWasAlias st); simpl;
        [left|right]; unfold buffer_current at 1; simpl; rewrite Hbc;
        rewrite !fmap_app; simpl; by rewrite <- ?app_assoc.
    + pose proof (buffer_current_none st Hg) as Hbc.
      simpl. right. unfold buffer_current at 1. simpl. rewrite Hbc.
      rewrite !fmap_app. simpl. by rewrite <- ?app_assoc.
  - destruct (currentGroup st) as [g|] eqn:Hg.
    + pose proof (buffer_current_some st g Hg) as Hbc.
      destruct (is_alias_type (type g)); simpl;
        [right|left]; unfold buffer_current at 1; simpl; rewrite Hbc;
        rewrite !fmap_app; simpl; by rewrite <- ?app_assoc.
    + pose proof (buffer_current_none st Hg) as Hbc.
      simpl. right. unfold buffer_current at 1. simpl. rewrite Hbc.
      rewrite !fmap_app. simpl. by rewrite <- ?app_assoc.
Qed.

Lemma held_groups_parse_line (st : pstate) (i : Z) (line : jstr) :
  startLine <$> held_groups (parse_line st i line)
    = startLine <$> held_groups st
  ∨ startLine <$> held_groups (parse_line st i line)
    = (startLine <$> held_groups st) ++ [i].
Proof.
  destruct (currentSection st) eqn:Hsec.
  3: { rewrite parse_line_groups by done. apply held_groups_step. }
  all: left.
  all: pose proof (held_groups_close st) as Hclose.
  all: unfold held_groups in Hclose |- *.
  all: rewrite (buffer_current_none (close_run st)) in Hclose
         by apply close_run_current.
  all: rewrite close_run_buffer, app_nil_r in Hclose.
  all: unfold close_run in Hclose; rewrite Hsec in Hclose.
  all: unfold parse_line; rewrite Hsec; cbv zeta.
  all: repeat case_match; simpl; try done.
  all: unfold buffer_current at 1; simpl.
  all: rewrite ?flush_current, ?flush_buffer, ?app_nil_r; simpl.
  all: rewrite ?app_nil_r; try done.
Qed.

Lemma increasing_snoc (l : list Z) (i : Z) :
  increasing l → Forall (fun x => (x < i)%Z) l → increasing (l ++ [i]).
Proof.
  intros Hinc Hlt a b x y Ha Hb Hab.
  assert (Hb' := Hb). apply lookup_lt_Some in Hb'.
  rewrite length_app in Hb'. simpl in Hb'.
  rewrite lookup_app_l in Ha by lia.
  destruct (decide (b < length l)%nat) as [Hbl|Hbl].
  - rewrite lookup_app_l in Hb by done. by eapply Hinc.
  - rewrite lookup_app_r in Hb by lia.
    replace (b - length l)%nat with 0%nat in Hb by lia. injection Hb as <-.
    rewrite Forall_forall in Hlt. apply Hlt. by eapply list_elem_of_lookup_2.
Qed.

Lemma held_groups_increasing (lines : list jstr) :
  ∀ (st : pstate) (i : Z),
    increasing (startLine <$> held_groups st) →
    Forall (fun x => (x < i)%Z) (startLine <$> held_groups st) →
    increasing (startLine <$> held_groups (parse_lines st i lines)).
Proof.
  induction lines as [|line lines IH]; intros st i Hinc Hlt; [done|].
  simpl. destruct (held_groups_parse_line st i line) as [Heq|Heq].
  - apply IH; rewrite Heq; [done|].
    eapply Forall_impl; [exact Hlt|]. intros x Hx. simpl in Hx. lia.
  - apply IH; rewrite Heq.
    + by apply increasing_snoc.
    + apply Forall_app. split.
      * eapply Forall_impl; [exact Hlt|]. intros x Hx. simpl in Hx. lia.
      * constructor; [lia|done].
Qed.

(** X16.  The line number of a group is the index of the line that opened
    it (its label, its first keyword or its first alias item) in the text,
    and the groups are returned in the order of their lines: the line
    numbers grow strictly. *)
Theorem parse_start_lines (T : jstr) :
  Forall (starts_at (split_lines T)) (wordGroups (parseFrequencyText T))
  ∧ increasing (startLine <$> wordGroups (parseFrequencyText T)).
Proof.
  split.
  - apply groups_invariant_parse; [done|].
    intros i line Hline. unfold line_opens, starts_at, opens.
    split_and!; simpl.
    + intros nm cs Hc. by exists line.
    + intros kw al cs Hc. exists line. split; [done|]. by eexists _, _.
    + intros kw al g Hc (l & Hl & Ho) Halias. exists l. split; [done|].
      destruct (type g); try done; destruct Ho as (it & rest & -> & ?);
        by exists it, (rest ++ [AliasItem kw al]).
    + intros k cs Hc. exists line. split; [done|]. by eexists _, _.
    + intros k g Hc (l & Hl & Ho) Halias. exists l. split; [done|].
      destruct (type g); try done. destruct Ho as (k0 & rest & -> & ?).
      by exists k0, (rest ++ [k]).
  - unfold parseFrequencyText. rewrite parse_finish_close.
    set (st := parse_lines (parse_init T) 0 (split_lines T)).
    assert (E : startLine <$> wordGroups (result (close_run st))
                = startLine <$> held_groups st).
    { rewrite <- held_groups_close. unfold held_groups.
      rewrite (buffer_current_none (close_run st)) by apply close_run_current.
      by rewrite close_run_buffer, app_nil_r. }
    rewrite E. apply held_groups_increasing; [|done].
    intros a b x y Ha. done.
Qed.

(** ** The global filters on the round trip *)

Lemma filters_parse_line (st : pstate) (i : Z) (line : jstr) :
  Forall filter_line (globalFilter (result st)) →
  Forall filter_line (globalFilter (result (parse_line st i line))).
Proof.
  intros H. unfold parse_line. cbv zeta.
  destruct (startsWith (trim line) [c_hash] && _); [done|].
  destruct (startsWith (trim line) [c_hash]) eqn:E2; [done|].
  destruct (eqb_str (trim line) []) eqn:E3.
  { simpl. by rewrite flush_globalFilter. }
  destruct (eqb_str (trim line) marker_global) eqn:E4; [done|].
  destruct (eqb_str (trim line) marker_groups) eqn:E5; [done|].
  apply eqb_str_false in E3, E4, E5.
  destruct (currentSection st) eqn:Hs; [done| |].
  - simpl. apply Forall_app. split; [done|]. constructor; [|done].
    split_and!; try done. apply trim_idemp.
  - destruct (match_group_name (trim line)).
    { simpl. by rewrite flush_globalFilter. }
    destruct (match_alias (trim line)) as [[kw al]|].
    + destruct (currentGroup st) as [g|]; [|done].
      by destruct (lastLineWasAlias st && is_alias_type (type g)).
    + destruct (currentGroup st) as [g|]; [|done].
      by destruct (is_alias_type (type g)).
Qed.

Lemma filters_parse_lines (lines : list jstr) :
  ∀ (st : pstate) (i : Z),
    Forall filter_line (globalFilter (result st)) →
    Forall filter_line (globalFilter (result (parse_lines st i lines))).
Proof.
  induction lines as [|line lines IH]; intros st i H; [done|].
  simpl. by apply IH, filters_parse_line.
Qed.

Lemma filters_parse (T : jstr) :
  Forall filter_line (globalFilter (parseFrequencyText T)).
Proof.
  unfold parseFrequencyText. rewrite parse_finish_close. unfold close_run.
  rewrite flush_globalFilter. simpl. by apply filters_parse_lines.
Qed.

Lemma global_state_marker (st : pstate) (i : Z) :
  no_groups st → no_filters st →
  global_state (parse_line st i marker_global) [].
Proof.
  intros (Hcur & Hbuf & Hout & Hpend & _) (Hgf & _).
  unfold parse_line. cbv zeta.
  change (trim marker_global) with marker_global. simpl. done.
Qed.

Lemma global_state_quiet (st : pstate) (i : Z) (line : jstr) (fs : list jstr) :
  global_state st fs → is_comment_or_blank line = true →
  global_state (parse_line st i line) fs.
Proof.
  intros (Hsec & Hgf & Hcur & Hbuf & Hout & Hpend) Hq.
  unfold parse_line. cbv zeta. rewrite Hsec, andb_false_r.
  destruct (startsWith (trim line) [c_hash]) eqn:E2; [done|].
  unfold is_comment_or_blank in Hq. rewrite E2 in Hq. simpl in Hq.
  rewrite Hq. unfold global_state. simpl.
  rewrite flush_section, flush_globalFilter, flush_current, flush_buffer,
    flush_wordGroups, flush_pending. simpl.
  unfold buffer_current. simpl. rewrite Hbuf, Hout, Hcur. done.
Qed.

Lemma global_state_quiet_lines (lines : list jstr) (fs : list jstr) :
  ∀ (st : pstate) (i : Z),
    global_state st fs → Forall (fun l => is_comment_or_blank l = true) lines →
    global_state (parse_lines st i lines) fs.
Proof.
  induction lines as [|line lines IH]; intros st i Hst Hall; [done|].
  apply Forall_cons in Hall as [Hl Hall]. simpl.
  apply IH; [by apply global_state_quiet|done].
Qed.

Lemma global_state_filter (st : pstate) (i : Z) (f : jstr) (fs : list jstr) :
  global_state st fs → filter_line f →
  global_state (parse_line st i f) (fs ++ [f]).
Proof.
  intros (Hsec & Hgf & Hcur & Hbuf & Hout & Hpend) (Ht & Hh & Hne & Hg & Hw).
  unfold parse_line. cbv zeta. rewrite Ht, Hh. simpl.
  rewrite (proj2 (eqb_str_false f [])), (proj2 (eqb_str_false f marker_global)),
    (proj2 (eqb_str_false f marker_groups)) by done.
  rewrite Hsec. unfold global_state. simpl. by rewrite Hgf.
Qed.

Lemma global_state_filters (fs' : list jstr) :
  ∀ (st : pstate) (i : Z) (fs : list jstr),
    global_state st fs → Forall filter_line fs' →
    global_state (parse_lines st i fs') (fs ++ fs').
Proof.
  induction fs' as [|f fs' IH]; intros st i fs Hst Hall.
  - by rewrite app_nil_r.
  - apply Forall_cons in Hall as [Hf Hall]. simpl.
    replace (fs ++ f :: fs') with ((fs ++ [f]) ++ fs')
      by (by rewrite <- app_assoc).
    apply IH; [by apply global_state_filter|done].
Qed.

Lemma global_state_groups_marker (st : pstate) (i : Z) (fs : list jstr) :
  global_state st fs →
  groups_start (parse_line st i marker_groups)
  ∧ globalFilter (result (parse_line st i marker_groups)) = fs.
Proof.
  intros (Hsec & Hgf & Hcur & Hbuf & Hout & Hpend).
  unfold parse_line. cbv zeta.
  change (trim marker_groups) with marker_groups. simpl. done.
Qed.

Lemma groups_section_filters (st : pstate) (i : Z) (line : jstr) :
  currentSection st = SecGroups → not_global_marker line →
  currentSection (parse_line st i line) = SecGroups
  ∧ globalFilter (result (parse_line st i line)) = globalFilter (result st).
Proof.
  intros Hsec Hline. rewrite parse_line_groups by done.
  unfold not_global_marker in Hline.
  destruct (classify line); try done; simpl.
  - by rewrite close_run_section; unfold close_run; rewrite flush_globalFilter.
  - by rewrite close_run_section; unfold close_run; rewrite flush_globalFilter.
  - destruct (currentGroup st) as [g|]; [|done].
    by destruct (is_alias_type (type g) && lastLineWasAlias st).
  - destruct (currentGroup st) as [g|]; [|done].
    by destruct (is_alias_type (type g)).
Qed.

Lemma groups_section_filters_lines (lines : list jstr) :
  ∀ (st : pstate) (i : Z),
    currentSection st = SecGroups → Forall not_global_marker lines →
    globalFilter (result (parse_lines st i lines)) = globalFilter (result st).
Proof.
  induction lines as [|line lines IH]; intros st i Hsec Hall; [done|].
  apply Forall_cons in Hall as [Hl Hall]. simpl.
  destruct (groups_section_filters st i line Hsec Hl) as [Hsec' Hgf].
  by rewrite IH.
Qed.

Lemma proper_group_quiet (g : group) : proper_group g → quiet_group g.
Proof.
  intros (_ & Hcs & Htype). unfold quiet_group, group_lines.
  assert (Hk : ∀ ks, Forall keyword_stable ks → Forall not_global_marker ks).
  { intros ks H. eapply Forall_impl; [exact H|].
    intros k Hk. unfold not_global_marker. by rewrite Hk. }
  assert (Hi : ∀ its, Forall item_stable its →
            Forall not_global_marker
              (List.map (fun it => keyword it ++ str " => " ++ alias it) its)).
  { intros its H. induction H as [|it its Hit _ IH]; [done|].
    cbn [List.map]. constructor; [|done].
    unfold not_global_marker. by rewrite Hit. }
  apply Forall_app. split.
  - eapply Forall_impl; [exact Hcs|]. intros c [Hc| ->].
    + unfold not_global_marker. by rewrite Hc.
    + unfold not_global_marker. by rewrite classify_nil.
  - unfold group_body. destruct (type g).
    + destruct Htype as (_ & Hnm & Hlabel & Hks).
      apply Forall_app. split; [|by apply Hk].
      destruct (name g) as [|c nm] eqn:E; [done|].
      constructor; [|done]. unfold not_global_marker. by rewrite Hlabel.
    + destruct Htype as (_ & _ & _ & Hits). by apply Hi.
    + destruct Htype as (_ & _ & _ & Hits). by apply Hi.
    + destruct Htype as (_ & _ & _ & Hks). by apply Hk.
Qed.

Lemma build_groups_quiet (gs : list group) :
  Forall quiet_group gs → Forall not_global_marker (build_groups gs).
Proof.
  induction 1 as [|g gs Hg _ IH]; [done|].
  cbn [build_groups]. rewrite !app_assoc, <- (app_assoc _ _ (build_groups gs)).
  apply Forall_app. split; [exact Hg|].
  apply Forall_app. split; [|done].
  destruct (group_separator_cases g (head gs)) as [-> | ->]; [done|].
  constructor; [|done]. unfold not_global_marker. by rewrite classify_nil.
Qed.

Lemma proper_runs_quiet (runs : list (list group)) :
  proper_runs runs → Forall quiet_group (concat (flushed <$> runs)).
Proof.
  intros [Hruns _]. apply Forall_concat, Forall_fmap.
  eapply Forall_impl; [exact Hruns|]. intros run Hrun. simpl.
  apply Forall_flushed; [done|].
  destruct run as [|g run]; [done|]. destruct Hrun as [Hall _].
  eapply Forall_impl; [exact Hall|]. apply proper_group_quiet.
Qed.

Lemma build_header_no_global (lines : list jstr) :
  Forall not_global_marker (build_header lines).1.
Proof.
  induction lines as [|l lines IH]; simpl; [done|].
  destruct (eqb_str (trim l) marker_global) eqn:E; [done|].
  destruct (build_header lines) as [copied rem]. simpl in *.
  constructor; [|done]. unfold not_global_marker.
  rewrite classify_global_marker. by apply eqb_str_false.
Qed.

Lemma build_after_marker_quiet (lines : list jstr) :
  Forall (fun l => is_comment_or_blank l = true) (build_after_marker lines).1.
Proof.
  induction lines as [|l lines IH]; simpl; [done|].
  destruct (is_comment_or_blank l) eqn:E; [|done].
  destruct (build_after_marker lines) as [copied rem]. simpl in *.
  by constructor.
Qed.

Lemma build_before_groups_quiet (lines : list jstr) :
  Forall (fun l => is_comment_or_blank l = true) (build_before_groups lines).
Proof.
  induction lines as [|l lines IH]; simpl; [done|].
  destruct (eqb_str (trim l) marker_groups); [done|].
  destruct (is_comment_or_blank l) eqn:E; [|done]. by constructor.
Qed.

(** The lines of the rebuilt text, part by part. *)
Lemma rebuilt_lines_parts (data : frequencyData) :
  originalText data ≠ [] → sections_in_order (originalText data) →
  Forall filter_ok (globalFilter data) →
  Forall group_nl_free (wordGroups data) →
  ∃ header comments before : list jstr,
    split_lines (buildFrequencyText data)
    = header ++ [marker_global] ++ comments ++ globalFilter data ++ before
      ++ [marker_groups] ++ build_groups (wordGroups data)
    ∧ Forall not_groups_marker header ∧ Forall not_global_marker header
    ∧ Forall (fun l => is_comment_or_blank l = true) comments
    ∧ Forall (fun l => is_comment_or_blank l = true) before.
Proof.
  intros Htext Hord Hgf Hgs. unfold buildFrequencyText.
  destruct (originalText data) as [|c t] eqn:E; [done|]. clear Htext.
  unfold sections_in_order in Hord. cbv zeta.
  pose proof (split_lines_nl_free (c :: t)) as Hfree.
  revert Hord Hfree. generalize (split_lines (c :: t)) as lines.
  intros lines Hord Hfree.
  pose proof (build_header_no_marker lines false Hord) as Hhead.
  pose proof (build_header_no_global lines) as Hhead'.
  destruct (build_header_Forall nl_free lines Hfree) as [Hh1 Hh2].
  destruct (build_header lines) as [header left1].
  simpl in Hhead, Hhead', Hh1, Hh2.
  assert (Hd : Forall nl_free (drop 1 left1)) by by apply Forall_drop.
  pose proof (build_after_marker_quiet (drop 1 left1)) as Hcom.
  destruct (build_after_marker_Forall nl_free _ Hd) as [Hc1 Hc2].
  destruct (build_after_marker (drop 1 left1)) as [comments left2].
  simpl in Hcom, Hc1, Hc2.
  exists header, comments, (build_before_groups left2).
  split_and!; try done; [|apply build_before_groups_quiet].
  unfold split_lines, join_lines. rewrite split_on_join; [done| |].
  - intros H. apply app_eq_nil in H as [_ H]. done.
  - destruct marker_nl_free as [Hg Hw].
    rewrite !Forall_app. split_and!; try done.
    + by constructor.
    + eapply Forall_impl; [exact Hgf|]. by intros f [? _].
    + by apply build_before_groups_Forall.
    + by constructor.
    + by apply build_groups_nl_free.
Qed.

Lemma reparse_filters (text : jstr)
    (header comments fs before body : list jstr) :
  Forall not_groups_marker header → Forall not_global_marker header →
  Forall (fun l => is_comment_or_blank l = true) comments →
  Forall filter_line fs →
  Forall (fun l => is_comment_or_blank l = true) before →
  Forall not_global_marker body →
  globalFilter
    (parse_finish
       (parse_lines (parse_init text) 0
          (header ++ [marker_global] ++ comments ++ fs ++ before
           ++ [marker_groups] ++ body)))
  = fs.
Proof.
  intros Hh1 Hh2 Hc Hfs Hb Hbody.
  rewrite parse_finish_close. unfold close_run. rewrite flush_globalFilter.
  cbn [result].
  rewrite parse_lines_app. cbn [app parse_lines].
  assert (Hng : no_groups (parse_lines (parse_init text) 0 header))
    by (apply no_groups_parse_lines; [apply no_groups_init|done]).
  assert (Hnf : no_filters (parse_lines (parse_init text) 0 header))
    by (by apply no_filters_parse_lines).
  revert Hng Hnf. generalize (parse_lines (parse_init text) 0 header) as st1.
  generalize (0 + Z.of_nat (length header))%Z as i1.
  intros i1 st1 Hng Hnf.
  pose proof (global_state_marker st1 i1 Hng Hnf) as H2.
  revert H2. generalize (parse_line st1 i1 marker_global) as st2.
  intros st2 H2. rewrite parse_lines_app.
  pose proof (global_state_quiet_lines comments [] st2 (i1 + 1) H2 Hc) as H3.
  revert H3. generalize (parse_lines st2 (i1 + 1) comments) as st3.
  generalize (i1 + 1 + Z.of_nat (length comments))%Z as i3.
  intros i3 st3 H3. rewrite parse_lines_app.
  pose proof (global_state_filters fs st3 i3 [] H3 Hfs) as H4.
  revert H4. generalize (parse_lines st3 i3 fs) as st4.
  generalize (i3 + Z.of_nat (length fs))%Z as i4.
  intros i4 st4 H4. rewrite parse_lines_app.
  pose proof (global_state_quiet_lines before ([] ++ fs) st4 i4 H4 Hb) as H5.
  revert H5. generalize (parse_lines st4 i4 before) as st5.
  generalize (i4 + Z.of_nat (length before))%Z as i5.
  intros i5 st5 H5. cbn [app parse_lines].
  destruct (global_state_groups_marker st5 i5 ([] ++ fs) H5)
    as [(Hsec & _) Hgf].
  rewrite groups_section_filters_lines by done. exact Hgf.
Qed.

(** X17.  Under the hypotheses of the round trip of the groups (sections
    in order, no line terminator inside a trimmed line), the global
    filters too come back from the rebuilt text: the same filters in the
    same order. *)
Theorem round_trip_filters (T : jstr) :
  sections_in_order T → lines_without_terminators T →
  globalFilter (parseFrequencyText (buildFrequencyText (parseFrequencyText T)))
  = globalFilter (parseFrequencyText T).
Proof.
  intros Hord Hterm. destruct T as [|c t].
  { vm_compute. reflexivity. }
  destruct (parse_stored (c :: t)) as (Htext & Hgf & Hgs).
  destruct (parse_runs (c :: t) Hord Hterm) as (runs & Hruns & Hproper).
  pose proof (filters_parse (c :: t)) as Hfl.
  destruct (rebuilt_lines_parts (parseFrequencyText (c :: t)))
    as (header & comments & before & Hsplit & Hh1 & Hh2 & Hc & Hb); try done.
  { by rewrite Htext. }
  { by rewrite Htext. }
  revert Hsplit Hruns Hfl.
  generalize (parseFrequencyText (c :: t)) as data. intros data Hsplit Hruns Hfl.
  unfold parseFrequencyText. rewrite Hsplit.
  apply reparse_filters; try done.
  rewrite Hruns. by apply build_groups_quiet, proper_runs_quiet.
Qed.

Lemma round_trip_filters_witness :
  globalFilter (parseFrequencyText
    (buildFrequencyText (parseFrequencyText scenario_text)))
  = globalFilter (parseFrequencyText scenario_text).
Proof.
  apply (round_trip_filters scenario_text).
  - vm_compute. reflexivity.
  - vm_compute. repeat constructor.
Defined.

(** ** The patcher of the settings document *)

Lemma scan_module_spec (m : jstr) (lines : list jstr) :
  ∀ (pre : list jstr) (start s : Z) (e : option Z),
    scan_module m lines (Z.of_nat (length pre)) start = (s, e) →
    (start < Z.of_nat (length pre))%Z →
    (s = start
     ∨ (Z.of_nat (length pre) <= s < Z.of_nat (length (pre ++ lines)))%Z
       ∧ ∃ l, lookupZ (pre ++ lines) s = Some l ∧ module_key l = Some m)
    ∧ match e with
      | Some x => (0 <= s < x)%Z
                  ∧ (Z.of_nat (length pre) <= x
                     < Z.of_nat (length (pre ++ lines)))%Z
      | None => True
      end
    ∧ ((0 <= s)%Z → ∀ j l,
         (s < j)%Z →
         (Z.of_nat (length pre) <= j
          < default (Z.of_nat (length (pre ++ lines))) e)%Z →
         lookupZ (pre ++ lines) j = Some l → module_key l = None).
Proof.
  induction lines as [|line rest IH]; intros pre start s e H Hstart.
  - simpl in H. injection H as <- <-. rewrite app_nil_r. simpl.
    split; [by left|]. split; [done|]. intros; lia.
  - simpl in H.
    assert (Hhere : lookupZ (pre ++ line :: rest) (Z.of_nat (length pre))
                    = Some line) by (by rewrite lookupZ_app_length).
    assert (Hidx : (Z.of_nat (length pre) + 1)%Z
                   = Z.of_nat (length (pre ++ [line])))
      by (rewrite length_app; simpl; lia).
    assert (Hfull : pre ++ line :: rest = (pre ++ [line]) ++ rest)
      by (by rewrite <- app_assoc).
    assert (Hlen : Z.of_nat (length (pre ++ [line]))
                   = (Z.of_nat (length pre) + 1)%Z) by lia.
    destruct (module_key line) as [k|] eqn:Hk.
    + destruct (eqb_str k m) eqn:Hkm.
      * apply eqb_str_true in Hkm as ->. rewrite Hidx in H.
        apply IH in H; [|lia]. rewrite <- Hfull in H.
        destruct H as (H1 & H2 & H3). split.
        { right. destruct H1 as [->|[Hr Hl]].
          - split; [rewrite length_app; simpl; lia|]. by exists line.
          - split; [lia|done]. }
        split.
        { destruct e as [x|]; [|done]. lia. }
        intros Hs j l Hj Hr Hl. apply (H3 Hs j l Hj); [|done].
        destruct H1 as [->|[Hr1 _]]; lia.
      * destruct (Z.leb_spec 0 start) as [H0|H0].
        { injection H as <- <-. split; [by left|]. split.
          - rewrite length_app. simpl. lia.
          - simpl. intros; lia. }
        rewrite Hidx in H. apply IH in H; [|lia]. rewrite <- Hfull in H.
        destruct H as (H1 & H2 & H3). split.
        { destruct H1 as [->|[Hr Hl]]; [by left|]. right. split; [lia|done]. }
        split.
        { destruct e as [x|]; [|done]. lia. }
        intros Hs j l Hj Hr Hl. apply (H3 Hs j l Hj); [|done].
        destruct H1 as [->|[Hr1 _]]; lia.
    + rewrite Hidx in H. apply IH in H; [|lia]. rewrite <- Hfull in H.
      destruct H as (H1 & H2 & H3). split.
      { destruct H1 as [->|[Hr Hl]]; [by left|]. right. split; [lia|done]. }
      split.
      { destruct e as [x|]; [|done]. lia. }
      intros Hs j l Hj Hr Hl.
      destruct (decide (j = Z.of_nat (length pre))) as [->|Hne].
      * rewrite Hhere in Hl. by injection Hl as <-.
      * apply (H3 Hs j l Hj); [lia|done].
Qed.

Lemma find_target_spec (lines : list jstr) (s : Z) (parts : list jstr)
    (key : jstr) (n : nat) :
  ∀ i, (0 <= i)%Z → (i + Z.of_nat n <= Z.of_nat (length lines))%Z →
    ∃ t, find_target lines s parts key n i = Some t
         ∧ (t = (-1)%Z
            ∨ (i <= t < i + Z.of_nat n)%Z
              ∧ ∃ line ws tail,
                  lookupZ lines t = Some line
                  ∧ blank_or_comment line = false
                  ∧ config_key line = Some (ws, key, tail)
                  ∧ forallb (parent_found lines s t) (removelast parts)
                    = true).
Proof.
  induction n as [|n IH]; intros i Hi Hn.
  - exists (-1)%Z. by split; [|left].
  - destruct (lookupZ_in_range lines i) as [line Hline]; [lia|].
    assert (Hrec : ∃ t, find_target lines s parts key n (i + 1) = Some t
         ∧ (t = (-1)%Z
            ∨ (i <= t < i + Z.of_nat (S n))%Z
              ∧ ∃ line ws tail,
                  lookupZ lines t = Some line
                  ∧ blank_or_comment line = false
                  ∧ config_key line = Some (ws, key, tail)
                  ∧ forallb (parent_found lines s t) (removelast parts)
                    = true)).
    { destruct (IH (i + 1)%Z) as (t & Ht & Hc); [lia|lia|].
      exists t. split; [done|]. destruct Hc as [->|[Hr Hc]]; [by left|].
      right. split; [lia|done]. }
    simpl. rewrite Hline. simpl.
    destruct (blank_or_comment line) eqn:Hb; [done|].
    destruct (config_key line) as [[[ws k] tail]|] eqn:Hk; [|done].
    destruct (eqb_str k key
              && forallb (parent_found lines s i) (removelast parts))
      eqn:Hm; [|done].
    apply andb_true_iff in Hm as [->%eqb_str_true Hp].
    exists i. split; [done|]. right. split; [lia|].
    by exists line, ws, tail.
Qed.

(** X18. [updateYamlFromUI] never raises, and it leaves the document as it
    is or rewrites one line: a line that is neither blank nor a comment,
    whose key is the last segment of the path and whose parents are keys
    of earlier lines of the module, after a line that opens the module
    [modKey], with no line that opens a module after that line up to the
    rewritten one. *)
Theorem updateYamlFromUI_one_line (T modKey path : jstr) (newVal : jsvalue) :
  let lines := split_lines T in
  ∃ out, updateYamlFromUI T modKey path newVal = Some out
    ∧ (out = T
       ∨ ∃ s i line ws k tail,
           (0 <= s < i)%Z
           ∧ (∃ l, lookupZ lines s = Some l ∧ module_key l = Some modKey)
           ∧ (∀ j l, (s < j <= i)%Z → lookupZ lines j = Some l →
                     module_key l = None)
           ∧ lookupZ lines i = Some line
           ∧ blank_or_comment line = false
           ∧ config_key line = Some (ws, k, tail)
           ∧ last (split_on c_dot path) = Some k
           ∧ forallb (parent_found lines s i)
               (removelast (split_on c_dot path)) = true
           ∧ out = join_lines
                     (<[Z.to_nat i := config_line line newVal]> lines)).
Proof.
  intros lines. unfold updateYamlFromUI. fold lines.
  destruct (scan_module modKey lines 0 (-1)) as [s e] eqn:Hscan.
  destruct (Z.ltb_spec s 0) as [Hs|Hs]; [exists T; by split; [|left]|].
  apply (scan_module_spec modKey lines []) in Hscan; [|simpl; lia].
  simpl in Hscan. destruct Hscan as (H1 & H2 & H3).
  destruct H1 as [->|[Hr Hmod]]; [lia|].
  set (stop := default (Z.of_nat (length lines)) e) in *.
  assert (Hstop : (s < stop <= Z.of_nat (length lines))%Z).
  { unfold stop. destruct e as [x|]; simpl; lia. }
  destruct (last (split_on c_dot path)) as [key|] eqn:Hlast.
  2: { apply last_None in Hlast. by apply split_on_nonempty in Hlast. }
  simpl.
  destruct (find_target_spec lines s (split_on c_dot path) key
              (Z.to_nat (stop - (s + 1))) (s + 1)%Z)
    as (t & Ht & Hc); [lia|lia|].
  rewrite Ht. simpl.
  destruct Hc as [->|[Hrt (line & ws & tail & Hline & Hb & Hk & Hp)]].
  { exists T. by split; [|left]. }
  destruct (Z.ltb_spec t 0) as [?|_]; [lia|].
  rewrite Hline. simpl. eexists. split; [done|]. right.
  exists s, t, line, ws, key, tail.
  split; [lia|]. split; [done|]. split.
  { intros j l Hj Hl. apply (H3 Hs j l); [lia|fold stop; lia|done]. }
  done.
Qed.

Lemma config_key_parts (line ws k tail : jstr) :
  config_key line = Some (ws, k, tail) →
  line = ws ++ k ++ [c_colon] ++ tail ∧ k ≠ [].
Proof.
  unfold config_key. intros H.
  pose proof (span_spec is_space line) as (E1 & _ & _).
  destruct (span is_space line) as [ws' s1]. simpl in E1.
  pose proof (span_spec is_letter_ s1) as (E2 & _ & _).
  destruct (span is_letter_ s1) as [k' s2]. simpl in E2.
  destruct k' as [|c0 k']; [done|]. destruct s2 as [|c s2]; [done|].
  destruct (N.eqb_spec c c_colon) as [->|]; [|done].
  injection H as <- <- <-. split; [|done].
  rewrite E1. f_equal. by rewrite E2.
Qed.

(** X19. The line that [updateYamlFromUI] writes keeps what comes before
    the value (the indentation, the key, the colon and the white space
    after it) and the trailing comment of the old line: only the value
    between them is replaced, by [true] or [false], by the text that
    [String(value)] yields for a number, whatever that text is, or by the
    text of a string, bare or between double quotes with its double quotes
    escaped. *)
Theorem config_line_keeps (line ws k tail : jstr) (newVal : jsvalue) :
  config_key line = Some (ws, k, tail) →
  forallb not_lt (skip_space tail) = true →
  ∃ ws2 old comment value,
    line = ws ++ k ++ [c_colon] ++ ws2 ++ old ++ comment
    ∧ config_line line newVal
      = ws ++ k ++ [c_colon] ++ ws2 ++ value ++ comment
    ∧ Forall (fun c => is_space c = true) ws2
    ∧ comment = default [] (match_trailing_comment (old ++ comment))
    ∧ match newVal with
      | VBool b => value = if b then str "true" else str "false"
      | VNumber text => value = text
      | VString v =>
          value = v
          ∨ value = [c_dquote] ++ escape_dquotes v ++ [c_dquote]
      end.
Proof.
  intros Hk Hlt. pose proof (config_key_parts _ _ _ _ Hk) as [Eline _].
  unfold config_line, match_config_value. rewrite Hk.
  unfold skip_space in Hlt.
  pose proof (span_spec is_space tail) as (Etail & Hws2 & _).
  destruct (span is_space tail) as [ws2 rest]. simpl in *. rewrite Hlt.
  set (comment := default [] (match_trailing_comment rest)).
  assert (∃ old, rest = old ++ comment) as [old Erest].
  { unfold comment.
    destruct (match_trailing_comment rest) as [c|] eqn:Hc; simpl.
    - by apply match_trailing_comment_suffix in Hc as [_ ?].
    - exists rest. by rewrite app_nil_r. }
  exists ws2, old, comment.
  exists (match newVal with
          | VBool b => if b then str "true" else str "false"
          | VString v => format_config_string rest comment v
          | VNumber text => text
          end).
  split; [by rewrite Eline, Etail, <- Erest|].
  split; [by rewrite <- !app_assoc|].
  split; [done|]. split; [by rewrite <- Erest|].
  destruct newVal as [b|v|z]; [done| |done].
  unfold format_config_string. case_match; [by right|by left].
Qed.

Lemma config_line_keeps_witness :
  ∃ ws2 old comment value,
    str "  name: old # note"
    = str "  " ++ str "name" ++ [c_colon] ++ ws2 ++ old ++ comment
    ∧ config_line (str "  name: old # note") (VString (str "a b"))
      = str "  " ++ str "name" ++ [c_colon] ++ ws2 ++ value ++ comment
    ∧ Forall (fun c => is_space c = true) ws2
    ∧ comment = default [] (match_trailing_comment (old ++ comment))
    ∧ (value = str "a b"
       ∨ value = [c_dquote] ++ escape_dquotes (str "a b") ++ [c_dquote]).
Proof.
  apply (config_line_keeps (str "  name: old # note") (str "  ")
           (str "name") (str " old # note") (VString (str "a b")));
    reflexivity.
Defined.

(** ** The form of the frequency rules *)

Lemma join_cons (sep l : jstr) (ls : list jstr) :
  ls ≠ [] → join sep (l :: ls) = l ++ sep ++ join sep ls.
Proof. by destruct ls. Qed.

Lemma join_lines_filters (fs rest : list jstr) :
  rest ≠ [] →
  join_lines (fs ++ rest)
  = concat (List.map (fun f => f ++ [c_nl]) fs) ++ join_lines rest.
Proof.
  intros Hrest. unfold join_lines. induction fs as [|f fs IH]; [done|].
  change ((f :: fs) ++ rest) with (f :: (fs ++ rest)).
  rewrite join_cons by (by destruct fs, rest).
  rewrite IH. simpl. by rewrite <- !app_assoc.
Qed.

Lemma template_lines (fs : list jstr) :
  buildFrequencyText (FrequencyData fs [] [])
  = join_lines
      ([template_rule; template_title; template_rule; []]
       ++ [marker_global] ++ [] ++ fs ++ [[]; []] ++ [marker_groups]
       ++ [[]; []]).
Proof.
  unfold buildFrequencyText. cbn [originalText globalFilter wordGroups].
  generalize template_rule as r, template_title as t, marker_global as g,
    marker_groups as w.
  intros r t g w. unfold join_lines. cbn [app].
  rewrite !join_cons by done.
  rewrite (join_cons _ g) by (by destruct fs).
  change (join [c_nl] (fs ++ [[]; []; w; []; []]))
    with (join_lines (fs ++ [[]; []; w; []; []])).
  rewrite join_lines_filters by done.
  unfold join_lines. simpl. rewrite ?app_nil_r.
  by rewrite <- ?app_assoc.
Qed.

Lemma filter_line_ok (f : jstr) : filter_line f → nl_free f → filter_ok f.
Proof.
  intros (Ht & Hh & He & Hg & Hw) Hnl. split; [done|].
  unfold classify. cbv zeta. rewrite Ht, Hh.
  apply eqb_str_false in He, Hg, Hw. rewrite He, Hg, Hw.
  repeat case_match; done.
Qed.

Lemma template_header :
  Forall not_groups_marker
    [template_rule; template_title; template_rule; []]
  ∧ Forall not_global_marker
      [template_rule; template_title; template_rule; []]
  ∧ Forall nl_free [template_rule; template_title; template_rule; []].
Proof.
  split_and!; repeat constructor;
    try (intros H; vm_compute in H; discriminate).
  all: unfold nl_free; intros H;
    repeat (apply elem_of_cons in H as [H|H]; [done|]);
    by apply elem_of_nil in H.
Qed.

(** The data of a text with other global filters: the text built from them
    is read back with these filters and with the groups of the text. *)
Lemma rebuild_filters (T : jstr) (fs : list jstr) :
  sections_in_order T → lines_without_terminators T →
  Forall filter_line fs → Forall nl_free fs →
  let data := parseFrequencyText T in
  let text := buildFrequencyText
                (FrequencyData fs (wordGroups data) (originalText data)) in
  globalFilter (parseFrequencyText text) = fs
  ∧ bare <$> wordGroups (parseFrequencyText text) = bare <$> wordGroups data.
Proof.
  intros Hord Hterm Hfl Hnl.
  assert (Hok : Forall filter_ok fs).
  { apply Forall_forall. intros f Hf.
    apply filter_line_ok; by eapply Forall_forall. }
  destruct T as [|c t]; cbv zeta.
  - assert (E : parseFrequencyText [] = FrequencyData [] [] [])
      by (vm_compute; reflexivity).
    rewrite E. cbn [wordGroups originalText]. rewrite template_lines.
    destruct template_header as (Hh1 & Hh2 & Hh3).
    destruct marker_nl_free as [Hg Hw].
    unfold parseFrequencyText. unfold split_lines, join_lines.
    rewrite split_on_join.
    2: { done. }
    2: { rewrite !Forall_app. split_and!; try done; repeat constructor;
           try done; unfold nl_free; by intros ?%elem_of_nil. }
    set (text := join [c_nl] _).
    split.
    + apply reparse_filters; try done; repeat constructor;
        try (by vm_compute); intros H; vm_compute in H; discriminate.
    + rewrite !app_assoc. rewrite <- (app_assoc _ [marker_groups]).
      rewrite parse_lines_app. cbn [app parse_lines].
      set (before := (((([template_rule; template_title; template_rule; []]
                          ++ [marker_global]) ++ []) ++ fs) ++ [[]; []])).
      assert (Hstart : groups_start
                (parse_line (parse_lines (parse_init text) 0 before)
                   (0 + Z.of_nat (length before)) marker_groups)).
      { apply no_groups_marker; [|done].
        apply no_groups_parse_lines; [apply no_groups_init|].
        unfold before. rewrite !Forall_app. split_and!; try done.
        - repeat constructor. intros H; vm_compute in H; discriminate.
        - eapply Forall_impl; [exact Hok|]. by intros f [_ ?].
        - repeat constructor; intros H; vm_compute in H; discriminate. }
      apply groups_start_holds in Hstart.
      eapply (holds_blank _ _ []) in Hstart; [|done].
      eapply (holds_blank _ _ []) in Hstart; [|done].
      apply holds_finish in Hstart. exact Hstart.
  - destruct (parse_stored (c :: t)) as (Htext & Hgf & Hgs).
    destruct (parse_runs (c :: t) Hord Hterm) as (runs & Hruns & Hproper).
    revert Htext Hgs Hruns.
    generalize (parseFrequencyText (c :: t)) as data.
    intros data Htext Hgs Hruns.
    set (data' := FrequencyData fs (wordGroups data) (originalText data)).
    split.
    + destruct (rebuilt_lines_parts data')
        as (header & comments & before & Hsplit & Hh1 & Hh2 & Hc & Hb);
        try done.
      { simpl. by rewrite Htext. }
      { simpl. by rewrite Htext. }
      unfold parseFrequencyText. rewrite Hsplit.
      apply reparse_filters; try done.
      simpl. rewrite Hruns. by apply build_groups_quiet, proper_runs_quiet.
    + destruct (rebuilt_lines data') as (before & Hsplit & Hbefore);
        try done.
      { simpl. by rewrite Htext. }
      { simpl. by rewrite Htext. }
      unfold parseFrequencyText. rewrite Hsplit. simpl. rewrite Hruns.
      by apply reparse_text.
Qed.

Lemma filters_edited_parse (T : jstr) :
  filters_edited T (parseFrequencyText T).
Proof.
  destruct (parse_stored T) as (Htext & Hgf & _).
  split_and!; try done; [apply filters_parse|].
  eapply Forall_impl; [exact Hgf|]. by intros f [? _].
Qed.

Lemma filters_edited_rebuild (T : jstr) (data : frequencyData)
    (fs : list jstr) :
  sections_in_order T → lines_without_terminators T →
  filters_edited T data → Forall filter_line fs → Forall nl_free fs →
  let data' := FrequencyData fs (wordGroups data) (originalText data) in
  globalFilter (parseFrequencyText (buildFrequencyText data')) = fs
  ∧ Forall2 same_structure (wordGroups (parseFrequencyText T))
      (wordGroups (parseFrequencyText (buildFrequencyText data')))
  ∧ filters_edited T data'.
Proof.
  intros Hord Hterm (Htext & Hgs & _ & _) Hfl Hnl. cbv zeta.
  destruct (rebuild_filters T fs Hord Hterm Hfl Hnl) as [H1 H2].
  destruct (parse_stored T) as (Ht & _ & _).
  rewrite Ht in H1, H2. rewrite Hgs, Htext.
  split; [done|]. split; [|done].
  by apply bare_same_structure.
Qed.

(** X20. Adding a global filter through the form.  For a text whose
    sections come in order and whose trimmed lines hold no line
    terminator, and a value that, once trimmed, is not empty, does not
    start with a hash sign, is not a section marker and holds no line
    feed: the text that [handleGlobalFilterInput] writes to the editor on
    the Enter key is read back with the filters of the form followed by
    the trimmed value, and with the groups of the text; the data that the
    form keeps is again of the same kind, so that the edits can be
    chained. *)
Theorem handleGlobalFilterInput_adds (T cf value : jstr)
    (cfd : option frequencyData) :
  sections_in_order T → lines_without_terminators T →
  filters_edited T (current_data cfd cf) →
  filter_line (trim value) → nl_free (trim value) →
  let out := handleGlobalFilterInput cfd cf (str "Enter") value in
  globalFilter (parseFrequencyText (out.2))
  = globalFilter (current_data cfd cf) ++ [trim value]
  ∧ Forall2 same_structure (wordGroups (parseFrequencyText T))
      (wordGroups (parseFrequencyText (out.2)))
  ∧ filters_edited T (current_data (out.1) (out.2)).
Proof.
  intros Hord Hterm Hed Hv Hnl. cbv zeta. unfold handleGlobalFilterInput.
  assert (He : eqb_str (trim value) [] = false).
  { apply eqb_str_false. by destruct Hv as (_ & _ & ? & _). }
  rewrite He. replace (eqb_str (str "Enter") (str "Enter")) with true
    by (symmetry; by apply eqb_str_true).
  cbn [andb negb fst snd current_data default].
  fold (current_data cfd cf).
  apply filters_edited_rebuild; try done.
  - destruct Hed as (_ & _ & Hfl & _). apply Forall_app. split; [done|].
    by constructor.
  - destruct Hed as (_ & _ & _ & Hfn). apply Forall_app. split; [done|].
    by constructor.
Qed.

Lemma handleGlobalFilterInput_adds_witness :
  let out := handleGlobalFilterInput None scenario_text (str "Enter")
               (str " ads ") in
  globalFilter (parseFrequencyText (out.2))
  = globalFilter (current_data None scenario_text) ++ [trim (str " ads ")]
  ∧ Forall2 same_structure (wordGroups (parseFrequencyText scenario_text))
      (wordGroups (parseFrequencyText (out.2)))
  ∧ filters_edited scenario_text (current_data (out.1) (out.2)).
Proof.
  apply (handleGlobalFilterInput_adds scenario_text scenario_text
           (str " ads ") None).
  - vm_compute. reflexivity.
  - vm_compute. repeat constructor.
  - vm_compute. split_and!; try reflexivity; repeat constructor;
      try reflexivity; try discriminate;
      intros H; repeat (apply elem_of_cons in H as [H|H]; [discriminate|]);
      by apply elem_of_nil in H.
  - vm_compute. split_and!; try reflexivity; discriminate.
  - vm_compute. intros H.
    repeat (apply elem_of_cons in H as [H|H]; [discriminate|]).
    by apply elem_of_nil in H.
Defined.

(** X21. Removing a global filter through the form.  Under the same
    hypotheses on the text, the text that [removeGlobalFilter] writes to
    the editor is read back with the filters of the form other than the
    removed one, in their order, and with the groups of the text; the
    data that the form keeps is again of the same kind. *)
Theorem removeGlobalFilter_removes (T cf filter : jstr)
    (cfd : option frequencyData) :
  sections_in_order T → lines_without_terminators T →
  filters_edited T (current_data cfd cf) →
  let out := removeGlobalFilter cfd cf filter in
  globalFilter (parseFrequencyText (out.2))
  = List.filter (fun f => negb (eqb_str f filter))
      (globalFilter (current_data cfd cf))
  ∧ ¬ (filter ∈ globalFilter (parseFrequencyText (out.2)))
  ∧ Forall2 same_structure (wordGroups (parseFrequencyText T))
      (wordGroups (parseFrequencyText (out.2)))
  ∧ filters_edited T (current_data (out.1) (out.2)).
Proof.
  intros Hord Hterm Hed. cbv zeta. unfold removeGlobalFilter.
  cbn [fst snd current_data default]. fold (current_data cfd cf).
  set (fs := List.filter _ _).
  assert (Hsub : ∀ f, f ∈ fs → f ∈ globalFilter (current_data cfd cf)
                              ∧ f ≠ filter).
  { intros f Hf. unfold fs in Hf. apply list_elem_of_In in Hf.
    apply List.filter_In in Hf as [Hin Hne].
    split; [by apply list_elem_of_In|].
    apply negb_true_iff, eqb_str_false in Hne. done. }
  destruct (filters_edited_rebuild T (current_data cfd cf) fs Hord Hterm Hed)
    as (H1 & H2 & H3).
  - destruct Hed as (_ & _ & Hfl & _). apply Forall_forall. intros f Hf.
    eapply Forall_forall; [exact Hfl|]. by apply Hsub.
  - destruct Hed as (_ & _ & _ & Hfn). apply Forall_forall. intros f Hf.
    eapply Forall_forall; [exact Hfn|]. by apply Hsub.
  - split; [done|]. split; [|done].
    rewrite H1. intros Hin. by apply Hsub in Hin as [_ ?].
Qed.

Lemma removeGlobalFilter_removes_witness :
  let out := removeGlobalFilter None scenario_text (str "spam") in
  globalFilter (parseFrequencyText (out.2))
  = List.filter (fun f => negb (eqb_str f (str "spam")))
      (globalFilter (current_data None scenario_text))
  ∧ ¬ (str "spam" ∈ globalFilter (parseFrequencyText (out.2)))
  ∧ Forall2 same_structure (wordGroups (parseFrequencyText scenario_text))
      (wordGroups (parseFrequencyText (out.2)))
  ∧ filters_edited scenario_text (current_data (out.1) (out.2)).
Proof.
  apply (removeGlobalFilter_removes scenario_text scenario_text
           (str "spam") None).
  - vm_compute. reflexivity.
  - vm_compute. repeat constructor.
  - vm_compute. split_and!; try reflexivity; repeat constructor;
      try reflexivity; try discriminate;
      intros H; repeat (apply elem_of_cons in H as [H|H]; [discriminate|]);
      by apply elem_of_nil in H.
Defined.

(** ** Creation of a preset *)

Lemma find_presets_split (lines : list jstr) :
  ∀ i : Z,
    match find_presets lines i with
    | Some r =>
        ∃ pre pl post,
          lines = pre ++ pl :: post
          ∧ r = (i + Z.of_nat (length pre))%Z
          ∧ Forall (fun l => startsWith l (str "presets:") = false) pre
          ∧ startsWith pl (str "presets:") = true
    | None => Forall (fun l => startsWith l (str "presets:") = false) lines
    end.
Proof.
  induction lines as [|line lines IH]; intros i; simpl; [done|].
  destruct (startsWith line (str "presets:")) eqn:Hp.
  - exists [], line, lines. simpl. split_and!; try done. lia.
  - specialize (IH (i + 1)%Z).
    destruct (find_presets lines (i + 1)) as [r|].
    + destruct IH as (pre & pl & post & -> & -> & Hpre & Hpl).
      exists (line :: pre), pl, post. simpl. split_and!; try done; [lia|].
      by constructor.
    + by constructor.
Qed.

Lemma find_top_level_split (lines : list jstr) :
  ∀ i : Z,
    match find_top_level lines i with
    | Some r =>
        ∃ mid l post,
          lines = mid ++ l :: post
          ∧ r = (i + Z.of_nat (length mid))%Z
          ∧ Forall (fun l => top_level l = false) mid
          ∧ top_level l = true
    | None => Forall (fun l => top_level l = false) lines
    end.
Proof.
  induction lines as [|line lines IH]; intros i; simpl; [done|].
  destruct (top_level line) eqn:Hp.
  - exists [], line, lines. simpl. split_and!; try done. lia.
  - specialize (IH (i + 1)%Z).
    destruct (find_top_level lines (i + 1)) as [r|].
    + destruct IH as (mid & l & post & -> & -> & Hmid & Hl).
      exists (line :: mid), l, post. simpl. split_and!; try done; [lia|].
      by constructor.
    + by constructor.
Qed.

Lemma presets_top_level (line : jstr) :
  startsWith line (str "presets:") = true → top_level line = true.
Proof.
  intros H. destruct line as [|c t]; [done|].
  change (str "presets:") with (112%N :: str "resets:") in H.
  cbn [startsWith] in H. apply andb_true_iff in H as [Hc _].
  apply N.eqb_eq in Hc as <-. unfold top_level.
  rewrite starts_nonspace_trim by done. done.
Qed.

Lemma top_level_scope_exit (line : jstr) (p : Z) :
  top_level line = true → (0 <= p)%Z → scope_exit p line.
Proof.
  unfold top_level. intros H Hp.
  apply andb_true_iff in H as [H _]. apply andb_true_iff in H as [Hs Hh].
  destruct line as [|c t]; [done|]. simpl in Hs.
  apply negb_true_iff in Hs, Hh. rewrite startsWith_one in Hh.
  apply N.eqb_neq in Hh.
  split.
  - apply (blank_or_comment_written 0 c t); [done|]. by intros ->.
  - pose proof (search_nonspace_spaces 0 c t Hs) as E.
    change (replicate 0 c_space ++ c :: t) with (c :: t) in E.
    rewrite E. lia.
Qed.

(** The scan of [findPresetSection] over lines before the [presets:]
    line, over that line, and over lines of the block that do not hold the
    key. *)
Lemma scan_presets'_outside (k : jstr) (pre rest : list jstr) :
  ∀ i : Z,
    Forall (fun l => startsWith l (str "presets:") = false) pre →
    scan_presets' k (pre ++ rest) i false
    = scan_presets' k rest (i + Z.of_nat (length pre)) false.
Proof.
  induction pre as [|l pre IH]; intros i Hpre; simpl.
  - by rewrite Z.add_0_r.
  - apply Forall_cons in Hpre as [Hl Hpre]. rewrite Hl. simpl.
    rewrite IH by done. f_equal. lia.
Qed.

Lemma scan_presets'_inside (k : jstr) (mid : list jstr) :
  ∀ (rest : list jstr) (i : Z),
    Forall (fun l => top_level l = false) mid →
    scan_presets' k (mid ++ rest) i true = None →
    ∀ rest', scan_presets' k (mid ++ rest') i true
             = scan_presets' k rest' (i + Z.of_nat (length mid)) true.
Proof.
  induction mid as [|l mid IH]; intros rest i Hmid Hnone rest'; simpl.
  - by rewrite Z.add_0_r.
  - apply Forall_cons in Hmid as [Hl Hmid]. simpl in Hnone.
    destruct (startsWith l (str "presets:")) eqn:Hp.
    { apply presets_top_level in Hp. congruence. }
    unfold top_level in Hl. simpl in Hnone |- *. rewrite Hl in Hnone |- *.
    destruct (match_indented_key l) as [[ws k']|].
    + destruct (eqb_str k' k); [done|].
      rewrite (IH rest) by done. f_equal. lia.
    + rewrite (IH rest) by done. f_equal. lia.
Qed.

Lemma lookupZ_block {A} (a b c : list A) (j : Z) :
  (Z.of_nat (length a) <= j < Z.of_nat (length a) + Z.of_nat (length b))%Z →
  lookupZ (a ++ b ++ c) j = b !! Z.to_nat (j - Z.of_nat (length a)).
Proof.
  intros Hj. unfold lookupZ. destruct (Z.ltb_spec j 0) as [?|_]; [lia|].
  rewrite lookup_app_r by lia. rewrite lookup_app_l by lia.
  f_equal. lia.
Qed.

(** The section that [findPresetSection] finds when the lines of a block
    stand where the scan of the [presets] block arrives: the block opens
    with the key and its other lines are inside. *)
Lemma findPresetSection_block (k : jstr) (a rest tail : list jstr)
    (h ws : jstr) :
  eqb_str k (str "custom") = false →
  (∀ rest', scan_presets' k (a ++ rest') 0 false
            = scan_presets' k rest' (Z.of_nat (length a)) true) →
  top_level h = false → match_indented_key h = Some (ws, k) →
  Forall (inside_block (Z.of_nat (length ws))) rest →
  ∃ info,
    findPresetSection (a ++ (h :: rest) ++ tail) k = Some info
    ∧ sec_start info = Z.of_nat (length a)
    ∧ sec_indent info = Z.of_nat (length ws)
    ∧ (Z.of_nat (length a) + Z.of_nat (length (h :: rest))
       <= sec_end info)%Z
    ∧ (tail = []
       ∨ (∃ l post, tail = l :: post
                    ∧ scope_exit (Z.of_nat (length ws)) l) →
       sec_end info
       = (Z.of_nat (length a) + Z.of_nat (length (h :: rest)))%Z).
Proof.
  intros Hc Hscan Hh Hm Hrest. unfold findPresetSection. rewrite Hc.
  rewrite Hscan. cbn [app scan_presets'].
  destruct (startsWith h (str "presets:")) eqn:Hp.
  { apply presets_top_level in Hp. congruence. }
  unfold top_level in Hh. cbn [andb]. rewrite Hh, Hm.
  replace (eqb_str k k) with true by (symmetry; by apply eqb_str_true).
  set (lines := a ++ h :: rest ++ tail).
  set (s := Z.of_nat (length a)). set (ind := Z.of_nat (length ws)).
  assert (Hlen : Z.of_nat (length lines)
                 = (s + Z.of_nat (length (h :: rest))
                    + Z.of_nat (length tail))%Z).
  { unfold lines, s. rewrite length_app. simpl. rewrite length_app. lia. }
  assert (Hin : ∀ j, (s < j < s + Z.of_nat (length (h :: rest)))%Z →
            ∃ l, lookupZ lines j = Some l ∧ inside_block ind l).
  { intros j Hj. unfold lines.
    change (a ++ h :: rest ++ tail) with (a ++ (h :: rest) ++ tail).
    rewrite lookupZ_block by (fold s; lia). fold s.
    replace (Z.to_nat (j - s)) with (S (Z.to_nat (j - s - 1))) by lia.
    simpl in Hj. cbn [lookup list_lookup].
    destruct (lookup_lt_is_Some_2 rest (Z.to_nat (j - s - 1))) as [l Hl];
      [lia|].
    exists l. split; [done|].
    eapply Forall_lookup_1; [exact Hrest|exact Hl]. }
  destruct (findBlockEnd_cases lines s ind (Z.of_nat (length lines)))
    as (e & He & Hcases); [lia|lia|].
  rewrite He. eexists. split; [done|]. cbn [sec_start sec_end sec_indent].
  split; [done|]. split; [done|].
  assert (Hge : (s + Z.of_nat (length (h :: rest)) <= e)%Z).
  { destruct Hcases as [[-> _]|(Hr & (l & Hl & Hexit) & _)]; [lia|].
    destruct (Z.le_gt_cases (s + Z.of_nat (length (h :: rest))) e) as [?|Hlt];
      [done|].
    destruct (Hin e) as (l' & Hl' & Hinside); [lia|].
    rewrite Hl in Hl'. injection Hl' as <-.
    by destruct (scope_exit_not_inside _ _ Hexit Hinside). }
  split; [done|].
  intros [->|(l & post & -> & Hexit)].
  - simpl in Hlen. destruct Hcases as [[-> _]|(Hr & _)]; simpl in *; lia.
  - assert (Hl : lookupZ lines (s + Z.of_nat (length (h :: rest)))
                 = Some l).
    { unfold lines.
      change (a ++ h :: rest ++ l :: post)
        with (a ++ (h :: rest) ++ l :: post).
      rewrite app_assoc.
      replace (s + Z.of_nat (length (h :: rest)))%Z
        with (Z.of_nat (length (a ++ h :: rest)))
        by (unfold s; rewrite length_app; lia).
      by rewrite lookupZ_app_length. }
    destruct (Z.le_gt_cases e (s + Z.of_nat (length (h :: rest))))
      as [?|Hgt]; [lia|].
    exfalso.
    assert (Hall : ∀ j, (s < j < e)%Z →
              ∃ l0, lookupZ lines j = Some l0 ∧ inside_block ind l0).
    { destruct Hcases as [[-> Hall]|(_ & _ & Hall)]; exact Hall. }
    assert (Hpos : (0 < Z.of_nat (length (h :: rest)))%Z) by (simpl; lia).
    destruct (Hall (s + Z.of_nat (length (h :: rest)))%Z)
      as (l' & Hl' & Hinside); [lia|].
    rewrite Hl in Hl'. injection Hl' as <-.
    by destruct (scope_exit_not_inside _ _ Hexit Hinside).
Qed.

Lemma confirm_lines (lines block : list jstr) (k : jstr) :
  scan_presets' k lines 0 false = None →
  ∃ a tail,
    match find_presets lines 0 with
    | None => [str "presets:"] ++ block ++ lines
    | Some presetsStart =>
        splice_in lines
          (default (Z.of_nat (length lines))
             (find_top_level (drop (Z.to_nat (presetsStart + 1)) lines)
                (presetsStart + 1)))
          block
    end = a ++ block ++ tail
    ∧ (∀ rest', scan_presets' k (a ++ rest') 0 false
                = scan_presets' k rest' (Z.of_nat (length a)) true)
    ∧ (find_presets lines 0 ≠ None →
       lines = a ++ tail
       ∧ (tail = [] ∨ ∃ l post, tail = l :: post ∧ top_level l = true)).
Proof.
  intros Hnone. pose proof (find_presets_split lines 0) as Hp.
  destruct (find_presets lines 0) as [r|].
  2: { exists [str "presets:"], lines. split; [done|]. split; [|done].
       intros rest'. reflexivity. }
  destruct Hp as (pre & pl & post0 & -> & -> & Hpre & Hpl).
  replace (Z.to_nat (0 + Z.of_nat (length pre) + 1))
    with (length (pre ++ [pl])) by (rewrite length_app; simpl; lia).
  rewrite (cons_middle pl pre post0), app_assoc, drop_app_length.
  rewrite <- app_assoc, <- cons_middle.
  assert (Hstep : ∀ rest', scan_presets' k (pre ++ pl :: rest') 0 false
            = scan_presets' k rest' (Z.of_nat (length pre) + 1) true).
  { intros rest'. rewrite scan_presets'_outside by done.
    cbn [scan_presets']. by rewrite Hpl. }
  rewrite Hstep in Hnone.
  pose proof (find_top_level_split post0 (0 + Z.of_nat (length pre) + 1))
    as Ht.
  destruct (find_top_level post0 (0 + Z.of_nat (length pre) + 1)) as [e|].
  - destruct Ht as (mid & l & post & -> & -> & Hmid & Hl).
    exists (pre ++ pl :: mid), (l :: post). cbn [default from_option id].
    assert (Hlen : Z.to_nat (0 + Z.of_nat (length pre) + 1
                             + Z.of_nat (length mid))
                   = length (pre ++ pl :: mid))
      by (rewrite length_app; simpl; lia).
    assert (Heq : pre ++ pl :: mid ++ l :: post
                  = (pre ++ pl :: mid) ++ l :: post)
      by (by rewrite <- app_assoc).
    split_and!.
    + unfold splice_in. rewrite Hlen, Heq.
      by rewrite take_app_length, drop_app_length.
    + intros rest'. rewrite <- app_assoc. cbn [app]. rewrite Hstep.
      rewrite (scan_presets'_inside k mid (l :: post)) by done.
      f_equal. rewrite length_app. simpl. lia.
    + intros _. split; [done|]. right. by exists l, post.
  - exists (pre ++ pl :: post0), []. cbn [default from_option id].
    split_and!.
    + unfold splice_in. rewrite Nat2Z.id, take_ge, drop_ge by lia.
      done.
    + intros rest'. rewrite <- app_assoc. cbn [app]. rewrite Hstep.
      rewrite <- (app_nil_r post0) in Hnone.
      rewrite (scan_presets'_inside k post0 []) by done.
      f_equal. rewrite length_app. simpl. lia.
    + intros _. split; [by rewrite app_nil_r|]. by left.
Qed.

Lemma valid_key_nl_free (k : jstr) : valid_key k = true → nl_free k.
Proof.
  intros [_ Hk]%valid_key_plain Hin.
  eapply Forall_forall in Hk as [Hs _]; [|exact Hin]. done.
Qed.

Lemma empty_preset_head (key : jstr) :
  valid_key key = true →
  match_indented_key (str "  " ++ key ++ str ":") = Some (str "  ", key)
  ∧ top_level (str "  " ++ key ++ str ":") = false.
Proof.
  intros Hk%valid_key_plain. split; [|done].
  unfold match_indented_key.
  change (str "  " ++ key ++ str ":")
    with (replicate 2 c_space ++ key ++ [c_colon] ++ []).
  by rewrite key_colon_written.
Qed.

Lemma empty_preset_inside (key name desc : jstr) :
  Forall (inside_block 2) (tail (empty_preset_lines key name desc)).
Proof.
  unfold empty_preset_lines. cbn [tail].
  repeat (apply Forall_cons_2; [try (right; vm_compute; reflexivity)|]).
  - left. reflexivity.
  - apply Forall_nil_2.
Qed.

Lemma empty_preset_split (key name desc : jstr) :
  valid_key key = true → nl_free name → nl_free desc →
  split_lines (buildEmptyPresetBlock key name desc)
  = empty_preset_lines key name desc.
Proof.
  intros Hk%valid_key_nl_free Hn Hd.
  unfold buildEmptyPresetBlock, split_lines, join_lines.
  apply split_on_join; [done|].
  unfold empty_preset_lines, nl_free in *.
  repeat (apply Forall_cons_2;
          [rewrite ?not_elem_of_app; repeat split; try done;
           apply (bool_decide_unpack _); by vm_compute|]).
  apply Forall_nil_2.
Qed.

Lemma selectTimelinePreset_total (C name : jstr) :
  is_Some (selectTimelinePreset C name).
Proof.
  unfold selectTimelinePreset. cbv zeta.
  destruct (scan_schedule (split_lines C) 0 false) as [idx|] eqn:Hscan;
    [|done].
  destruct (scan_schedule_found _ _ _ _ Hscan) as (Hidx & line & Hline & _).
  rewrite Z.sub_0_r in Hline.
  assert (Hl : lookupZ (split_lines C) idx = Some line)
    by (apply lookupZ_Some; auto).
  rewrite Hl. done.
Qed.

Lemma findPresetSection_none_scan (lines : list jstr) (k : jstr) :
  eqb_str k (str "custom") = false →
  findPresetSection lines k = None →
  scan_presets' k lines 0 false = None.
Proof.
  unfold findPresetSection. intros -> H.
  destruct (scan_presets' k lines 0 false) as [[s ind]|] eqn:Hs; [|done].
  pose proof (scan_presets'_range _ _ _ _ _ _ Hs) as Hr.
  destruct (findBlockEnd_total lines s ind (Z.of_nat (length lines)))
    as (e & He & _); [lia|lia|].
  by rewrite He in H.
Qed.

(** The timeline document after [confirmTlNewPreset] with the blank
    template, and the section that [findPresetSection] finds in it. *)
Lemma confirm_section (T C key_input name_input desc_input : jstr) :
  let key := trim key_input in
  let block :=
    empty_preset_lines key (trim name_input) (trim desc_input) in
  valid_key key = true → key ≠ str "custom" → trim name_input ≠ [] →
  nl_free (trim name_input) → nl_free (trim desc_input) →
  findPresetSection (split_lines T) key = None →
  ∃ (C' : jstr) (a after : list jstr) (info : sectionInfo),
    confirmTlNewPreset false None T C key_input name_input desc_input
    = Some (join_lines (a ++ block ++ after), C')
    ∧ selectTimelinePreset C key = Some C'
    ∧ split_lines (join_lines (a ++ block ++ after)) = a ++ block ++ after
    ∧ findPresetSection (a ++ block ++ after) key = Some info
    ∧ sec_start info = Z.of_nat (length a)
    ∧ sec_indent info = 2%Z
    ∧ (Z.of_nat (length a) + 25 <= sec_end info)%Z
    ∧ (find_presets (split_lines T) 0 ≠ None →
       split_lines T = a ++ after
       ∧ sec_end info = (Z.of_nat (length a) + 25)%Z).
Proof.
  intros key block Hk Hc Hname Hnn Hnd Habsent.
  assert (Hce : eqb_str key (str "custom") = false)
    by (by apply eqb_str_false).
  assert (Hke : eqb_str key [] = false).
  { apply eqb_str_false. intros E. by rewrite E in Hk. }
  assert (Hne : eqb_str (trim name_input) [] = false)
    by (by apply eqb_str_false).
  apply findPresetSection_none_scan in Habsent; [|done].
  destruct (selectTimelinePreset_total C key) as [C' HC].
  unfold confirmTlNewPreset. cbv zeta. fold key.
  rewrite Hke, Hk, Hne, Hce, HC. cbn [negb default from_option id].
  rewrite empty_preset_split by done. fold block.
  pose proof (split_lines_nl_free T) as Hfree.
  revert Habsent Hfree. generalize (split_lines T) as lines.
  intros lines Habsent Hfree.
  destruct (confirm_lines lines block key Habsent)
    as (a & after & Hlines & Hscan & Hcase).
  assert (Hb : Forall nl_free block).
  { unfold block. rewrite <- (empty_preset_split key) by done.
    apply split_lines_nl_free. }
  assert (Hall : Forall nl_free (a ++ block ++ after)).
  { rewrite <- Hlines. destruct (find_presets lines 0) as [r|].
    - unfold splice_in. rewrite !Forall_app.
      split_and!; [by apply Forall_take|done|by apply Forall_drop].
    - rewrite !Forall_app. split_and!; try done.
      constructor; [|done]. apply (bool_decide_unpack _). by vm_compute. }
  destruct (empty_preset_head key Hk) as [Hm Htop].
  pose proof (empty_preset_inside key (trim name_input) (trim desc_input))
    as Hin.
  destruct (findPresetSection_block key a (List.tail block) after
              (str "  " ++ key ++ str ":") (str "  ") Hce Hscan Htop Hm Hin)
    as (info & Hinfo & Hs & Hind & Hge & Hend).
  change ((str "  " ++ key ++ str ":") :: List.tail block) with block in *.
  exists C', a, after, info. rewrite Hlines. cbn [mbind option_bind].
  split; [done|]. split; [done|]. split.
  { unfold split_lines, join_lines. apply split_on_join; [|done].
    intros E. apply app_eq_nil in E as [_ E]. by apply app_eq_nil in E as [E _]. }
  split; [done|]. split; [done|]. split; [done|].
  split; [exact Hge|].
  intros Hp. destruct (Hcase Hp) as [El Ht]. split; [done|].
  apply Hend. destruct Ht as [->|(l & post & -> & Hl)]; [by left|].
  right. exists l, post. split; [done|].
  by apply top_level_scope_exit.
Qed.

(** X22. A preset created from the blank template is found again.  For a
    key that passes the test of the dialog and is not [custom], a name
    that is not blank, a name and a description without line feed, and a
    timeline document in which [findPresetSection] does not find the key:
    [confirmTlNewPreset] writes a document in which [findPresetSection]
    finds the key, indented by two, on the first of the twenty-five lines
    of [buildEmptyPresetBlock], all of them inside the section; the
    settings document is the one that [selectTimelinePreset] gives for the
    key. *)
Theorem confirmTlNewPreset_found
    (T C key_input name_input desc_input : jstr) :
  valid_key (trim key_input) = true → trim key_input ≠ str "custom" →
  trim name_input ≠ [] →
  nl_free (trim name_input) → nl_free (trim desc_input) →
  findPresetSection (split_lines T) (trim key_input) = None →
  ∃ (T' C' : jstr) (info : sectionInfo),
    confirmTlNewPreset false None T C key_input name_input desc_input
    = Some (T', C')
    ∧ selectTimelinePreset C (trim key_input) = Some C'
    ∧ findPresetSection (split_lines T') (trim key_input) = Some info
    ∧ sec_indent info = 2%Z
    ∧ take 25 (drop (Z.to_nat (sec_start info)) (split_lines T'))
      = empty_preset_lines (trim key_input) (trim name_input)
          (trim desc_input)
    ∧ (sec_start info + 25 <= sec_end info)%Z.
Proof.
  intros Hk Hc Hname Hnn Hnd Habsent.
  destruct (confirm_section T C key_input name_input desc_input
              Hk Hc Hname Hnn Hnd Habsent)
    as (C' & a & after & info & Hr & HC & Hsplit & Hinfo & Hs & Hind & Hge
        & _).
  eexists _, C', info. split; [exact Hr|]. rewrite Hsplit.
  split; [done|]. split; [done|]. split; [done|]. split; [|lia].
  rewrite Hs, Nat2Z.id, drop_app_length.
  by rewrite (take_app_length' _ _ 25).
Qed.

Lemma confirmTlNewPreset_found_witness :
  ∃ (T' C' : jstr) (info : sectionInfo),
    confirmTlNewPreset false None
      (join_lines [str "presets:"; str "  day:"; str "    name: Day";
                   str "custom:"])
      (join_lines [str "schedule:"; str "  preset: day"])
      (str " night ") (str "Night") []
    = Some (T', C')
    ∧ selectTimelinePreset
        (join_lines [str "schedule:"; str "  preset: day"])
        (trim (str " night ")) = Some C'
    ∧ findPresetSection (split_lines T') (trim (str " night ")) = Some info
    ∧ sec_indent info = 2%Z
    ∧ take 25 (drop (Z.to_nat (sec_start info)) (split_lines T'))
      = empty_preset_lines (trim (str " night ")) (trim (str "Night"))
          (trim [])
    ∧ (sec_start info + 25 <= sec_end info)%Z.
Proof.
  apply (confirmTlNewPreset_found
           (join_lines [str "presets:"; str "  day:"; str "    name: Day";
                        str "custom:"])
           (join_lines [str "schedule:"; str "  preset: day"])
           (str " night ") (str "Night") []).
  - vm_compute. reflexivity.
  - vm_compute. discriminate.
  - vm_compute. discriminate.
  - apply (bool_decide_unpack _). vm_compute. reflexivity.
  - apply (bool_decide_unpack _). vm_compute. reflexivity.
  - vm_compute. reflexivity.
Defined.

(** X23. Creating a preset and deleting it again restores the document.
    Under the hypotheses of X22, for a key that is not one of the four
    protected names and a timeline document that has a line starting with
    [presets:], [deleteTlPreset], once confirmed, applied to the document
    that [confirmTlNewPreset] wrote gives back the text of the
    document. *)
Theorem deleteTlPreset_after_confirmTlNewPreset
    (T C key_input name_input desc_input : jstr) :
  valid_key (trim key_input) = true → trim key_input ≠ str "custom" →
  existsb (eqb_str (trim key_input)) PROTECTED_PRESETS = false →
  trim name_input ≠ [] →
  nl_free (trim name_input) → nl_free (trim desc_input) →
  findPresetSection (split_lines T) (trim key_input) = None →
  find_presets (split_lines T) 0 ≠ None →
  ∃ T' C' : jstr,
    confirmTlNewPreset false None T C key_input name_input desc_input
    = Some (T', C')
    ∧ deleteTlPreset true T' (trim key_input) = Some T.
Proof.
  intros Hk Hc Hprot Hname Hnn Hnd Habsent Hp.
  destruct (confirm_section T C key_input name_input desc_input
              Hk Hc Hname Hnn Hnd Habsent)
    as (C' & a & after & info & Hr & HC & Hsplit & Hinfo & Hs & Hind & Hge
        & Hcase).
  destruct (Hcase Hp) as [El He].
  eexists _, C'. split; [exact Hr|].
  unfold deleteTlPreset. rewrite Hprot.
  replace (eqb_str (trim key_input) (str "custom")) with false
    by (symmetry; by apply eqb_str_false).
  cbn [negb]. cbv zeta. rewrite Hsplit, Hinfo. f_equal.
  rewrite <- (join_split_on c_nl T). fold (split_lines T). rewrite El.
  f_equal. unfold splice_out. rewrite Hs, He, Nat2Z.id.
  rewrite take_app_length.
  replace (length a + Z.to_nat (Z.of_nat (length a) + 25 - Z.of_nat (length a)))%nat
    with (length a + 25)%nat by lia.
  rewrite <- drop_drop, drop_app_length.
  by rewrite (drop_app_length' _ _ 25).
Qed.

Lemma deleteTlPreset_after_confirmTlNewPreset_witness :
  ∃ T' C' : jstr,
    confirmTlNewPreset false None
      (join_lines [str "presets:"; str "  day:"; str "    name: Day";
                   str "custom:"])
      (join_lines [str "schedule:"; str "  preset: day"])
      (str " night ") (str "Night") []
    = Some (T', C')
    ∧ deleteTlPreset true T' (trim (str " night "))
      = Some (join_lines [str "presets:"; str "  day:"; str "    name: Day";
                          str "custom:"]).
Proof.
  apply (deleteTlPreset_after_confirmTlNewPreset
           (join_lines [str "presets:"; str "  day:"; str "    name: Day";
                        str "custom:"])
           (join_lines [str "schedule:"; str "  preset: day"])
           (str " night ") (str "Night") []).
  - vm_compute. reflexivity.
  - vm_compute. discriminate.
  - vm_compute. reflexivity.
  - vm_compute. discriminate.
  - apply (bool_decide_unpack _). vm_compute. reflexivity.
  - apply (bool_decide_unpack _). vm_compute. reflexivity.
  - vm_compute. reflexivity.
  - vm_compute. discriminate.
Defined.

(** ** The list of platforms in the settings document *)

Lemma scan_sources_spec (suf : list jstr) :
  ∀ (pre : list jstr) (st st' : sources_scan) (broke : option Z),
    scan_ok (pre ++ suf) (Z.of_nat (length pre)) st →
    scan_sources suf (Z.of_nat (length pre)) st = (st', broke) →
    scan_ok (pre ++ suf) (Z.of_nat (length (pre ++ suf))) st'
    ∧ ∀ e, broke = Some e →
        if (0 <=? lastDataLineIndex st')%Z
        then e = (lastDataLineIndex st' + 1)%Z
        else (e = 0%Z ∧ inSources st' = true)
             ∨ (1 <= e)%Z
               ∧ (Z.of_nat (length pre) <= e
                  < Z.of_nat (length (pre ++ suf)))%Z.
Proof.
  induction suf as [|line rest IH]; intros pre st st' broke Hok H.
  { simpl in H. injection H as <- <-. rewrite app_nil_r in *.
    split; [done|]. intros e [=]. }
  assert (Hidx : (Z.of_nat (length pre) + 1)%Z
                 = Z.of_nat (length (pre ++ [line])))
    by (rewrite length_app; simpl; lia).
  assert (Hfull : pre ++ line :: rest = (pre ++ [line]) ++ rest)
    by (by rewrite <- app_assoc).
  assert (Hhere : lookupZ (pre ++ line :: rest) (Z.of_nat (length pre))
                  = Some line) by (by rewrite lookupZ_app_length).
  assert (Hlt : (Z.of_nat (length pre)
                 < Z.of_nat (length (pre ++ line :: rest)))%Z)
    by (rewrite length_app; simpl; lia).
  destruct Hok as (Hplat & Hsrc & Hlast).
  assert (Hrec : ∀ st1,
            scan_ok (pre ++ line :: rest) (Z.of_nat (length pre) + 1) st1 →
            scan_sources rest (Z.of_nat (length pre) + 1) st1
            = (st', broke) →
            scan_ok (pre ++ line :: rest)
              (Z.of_nat (length (pre ++ line :: rest))) st'
            ∧ ∀ e, broke = Some e →
                if (0 <=? lastDataLineIndex st')%Z
                then e = (lastDataLineIndex st' + 1)%Z
                else (e = 0%Z ∧ inSources st' = true)
                     ∨ (1 <= e)%Z
                       ∧ (Z.of_nat (length pre) <= e
                          < Z.of_nat (length (pre ++ line :: rest)))%Z).
  { intros st1 Hok1 H1. rewrite Hidx, Hfull in *.
    destruct (IH _ _ _ _ Hok1 H1) as [Ha Hb]. split; [done|].
    intros e He. specialize (Hb e He).
    destruct (0 <=? lastDataLineIndex st')%Z; [done|].
    destruct Hb as [?|[? ?]]; [by left|right]. split; [done|]. lia. }
  simpl in H.
  destruct (startsWith line (str "platforms:")) eqn:Hp.
  { apply Hrec in H; [done|]. split_and!; simpl.
    - intros _. lia.
    - intros Hs. destruct (Hsrc Hs) as [? ?]. split; [lia|done].
    - destruct Hlast as [?|[? ?]]; [by left|right]. split; [done|lia]. }
  destruct (inPlatforms st && negb (inSources st)
            && startsWith (trim line) (str "sources:")) eqn:Hsl.
  { apply andb_true_iff in Hsl as [Hsl Hst].
    apply andb_true_iff in Hsl as [_ Hns]. apply negb_true_iff in Hns.
    apply Hrec in H; [done|]. split_and!; simpl.
    - intros _. lia.
    - intros _. split; [lia|]. exists line.
      by replace (Z.of_nat (length pre) + 1 - 1)%Z
        with (Z.of_nat (length pre)) by lia.
    - left. destruct Hlast as [?|[? _]]; [done|congruence]. }
  set (step := if inSources st then _ else _) in H.
  assert (Hstep : match step with
                  | None => inSources st = true
                  | Some last =>
                      last = lastDataLineIndex st
                      ∨ inSources st = true
                        ∧ last = Z.of_nat (length pre)
                  end).
  { unfold step. destruct (inSources st); [|by left].
    destruct (startsWith (trim line) (str "-")); [by right|].
    destruct (data_text (trim line)
              && (baseIndent st <=? search_nonspace line)%Z); [by right|].
    destruct (data_text (trim line)
              && (search_nonspace line <? baseIndent st)%Z); [done|by left]. }
  destruct step as [last|].
  2: { injection H as <- <-. split.
       - split_and!.
         + intros _. rewrite length_app. simpl. lia.
         + intros Hs. destruct (Hsrc Hs) as [? ?]. split; [lia|done].
         + destruct Hlast as [?|[? ?]]; [by left|right]. split; [done|lia].
       - intros e [= <-].
         destruct (Z.leb_spec 0 (lastDataLineIndex st)); [done|].
         left. split; [|done]. destruct Hlast as [?|[Hs ?]]; [lia|].
         destruct (Hsrc Hs) as [? _]. lia. }
  set (st1 := SourcesScan (inPlatforms st) (inSources st) (sourcesStart st)
                (baseIndent st) last) in H.
  assert (Hok1 : scan_ok (pre ++ line :: rest) (Z.of_nat (length pre) + 1)
                   st1).
  { split_and!; simpl.
    - intros _. lia.
    - intros Hs. destruct (Hsrc Hs) as [? ?]. split; [lia|done].
    - destruct Hstep as [->|[Hs ->]].
      + destruct Hlast as [?|[? ?]]; [by left|right]. split; [done|lia].
      + right. split; [done|]. destruct (Hsrc Hs) as [? _]. lia. }
  destruct (inPlatforms st && bool_decide (is_Some (module_key line))
            && negb false) eqn:Hmod.
  2: { by apply Hrec in H. }
  injection H as <- <-. split.
  - destruct Hok1 as (_ & Ha & Hb). split_and!.
    + intros _. rewrite length_app. simpl. lia.
    + intros Hs. destruct (Ha Hs) as [? ?]. split; [lia|done].
    + destruct Hb as [?|[? ?]]; [by left|right]. split; [done|lia].
  - intros e [= <-]. simpl.
    destruct (Z.leb_spec 0 last); [done|]. right.
    apply andb_true_iff in Hmod as [Hmod _].
    apply andb_true_iff in Hmod as [Hmod _].
    specialize (Hplat Hmod). split; lia.
Qed.

Lemma slice_range {A} (l : list A) (a b : Z) :
  (0 <= a <= b)%Z → (b <= Z.of_nat (length l))%Z →
  slice l a b = take (Z.to_nat b - Z.to_nat a) (drop (Z.to_nat a) l).
Proof.
  intros Ha Hb. unfold slice.
  destruct (Z.ltb_spec a 0) as [?|_]; [lia|].
  destruct (Z.ltb_spec b 0) as [?|_]; [lia|].
  rewrite !Z.min_l by lia. f_equal. lia.
Qed.

Lemma scan_sources_start (lines : list jstr) :
  scan_ok ([] ++ lines) (Z.of_nat (length (@nil jstr)))
    (SourcesScan false false (-1) 0 (-1)).
Proof. split_and!; simpl; [done|done|by left]. Qed.

(** X24. The region that [updatePlatformsInYaml] rewrites, when the scan
    has seen an entry of the list ([lastDataLineIndex] is not negative).
    The region starts after a line whose text starts with [sources:] and
    ends right after the last entry seen.  The lines up to the [sources:]
    line and the lines after the last entry are kept as they are; between
    them stand the comment and blank lines at the head of the old region
    and the new entries. *)
Theorem updatePlatformsInYaml_region (T : jstr) (P : list (jstr * jstr)) :
  let lines := split_lines T in
  let st := (scan_sources lines 0 (SourcesScan false false (-1) 0 (-1))).1 in
  (0 <= lastDataLineIndex st)%Z →
  ∃ s e : nat,
    Z.of_nat s = sourcesStart st
    ∧ Z.of_nat e = (lastDataLineIndex st + 1)%Z
    ∧ (1 <= s < e)%nat ∧ (e <= length lines)%nat
    ∧ (∃ l, lines !! (s - 1)%nat = Some l
            ∧ startsWith (trim l) (str "sources:") = true)
    ∧ updatePlatformsInYaml T P
      = join_lines
          (take s lines
           ++ leading_comments (take (e - s) (drop s lines))
           ++ [join_lines (platform_entry <$> P)]
           ++ drop e lines).
Proof.
  intros lines st Hlast. unfold updatePlatformsInYaml. fold lines.
  subst st.
  destruct (scan_sources lines 0 (SourcesScan false false (-1) 0 (-1)))
    as [st broke] eqn:Hscan.
  simpl in Hlast.
  destruct (scan_sources_spec lines [] _ _ _ (scan_sources_start lines) Hscan)
    as [(_ & Hsrc & Hl) Hb].
  simpl in Hsrc, Hl, Hb.
  destruct Hl as [?|[Hs Hr]]; [lia|].
  destruct (Hsrc Hs) as [Hrange (l & Hline & Hstart)].
  assert (He : (if (default (-1) broke =? -1)%Z
                then if (0 <=? lastDataLineIndex st)%Z
                     then (lastDataLineIndex st + 1)%Z
                     else Z.of_nat (length lines)
                else default (-1)%Z broke)
               = (lastDataLineIndex st + 1)%Z).
  { destruct (Z.leb_spec 0 (lastDataLineIndex st)) as [_|?]; [|lia].
    destruct broke as [e|]; simpl; [|done].
    specialize (Hb e eq_refl). subst e.
    destruct (Z.eqb_spec (lastDataLineIndex st + 1) (-1)); [lia|done]. }
  rewrite He.
  exists (Z.to_nat (sourcesStart st)), (Z.to_nat (lastDataLineIndex st + 1)).
  cbn [fst]. split; [lia|]. split; [lia|]. split; [lia|]. split; [lia|]. split.
  { exists l. split; [|done]. apply lookupZ_Some in Hline as [_ Hline].
    by replace (Z.to_nat (sourcesStart st) - 1)%nat
      with (Z.to_nat (sourcesStart st - 1)) by lia. }
  rewrite !slice_range by lia.
  rewrite Nat2Z.id. change (Z.to_nat 0) with 0%nat.
  rewrite Nat.sub_0_r, drop_0.
  by rewrite (take_ge (drop (Z.to_nat (lastDataLineIndex st + 1)) lines))
    by (rewrite length_drop; lia).
Qed.

Lemma updatePlatformsInYaml_region_witness :
  let T := join_lines [str "platforms:"; str "  sources:"; str "    # top";
                       str "    - id: a"; str "      name: A"; str "  # end";
                       str "other: 1"] in
  let lines := split_lines T in
  let st := (scan_sources lines 0 (SourcesScan false false (-1) 0 (-1))).1 in
  ∃ s e : nat,
    Z.of_nat s = sourcesStart st
    ∧ Z.of_nat e = (lastDataLineIndex st + 1)%Z
    ∧ (1 <= s < e)%nat ∧ (e <= length lines)%nat
    ∧ (∃ l, lines !! (s - 1)%nat = Some l
            ∧ startsWith (trim l) (str "sources:") = true)
    ∧ updatePlatformsInYaml T [(str "b", str "B")]
      = join_lines
          (take s lines
           ++ leading_comments (take (e - s) (drop s lines))
           ++ [join_lines (platform_entry <$> [(str "b", str "B")])]
           ++ drop e lines).
Proof.
  apply (updatePlatformsInYaml_region
           (join_lines [str "platforms:"; str "  sources:"; str "    # top";
                        str "    - id: a"; str "      name: A";
                        str "  # end"; str "other: 1"])
           [(str "b", str "B")]).
  vm_compute. discriminate.
Defined.

(** X25. The empty list of platforms.  When the first loop of
    [updatePlatformsInYaml] stops with [sourcesEnd] at [0], which it does
    on a line of the sources block that is neither blank nor a comment and
    is indented less than the entries, met before any entry, nothing is
    taken out of the document: what is written is the lines up to the
    [sources:] line, then the new entries, then all the lines of the
    document from its first line on. *)
Theorem updatePlatformsInYaml_empty_block (T : jstr)
    (P : list (jstr * jstr)) (st : sources_scan) :
  scan_sources (split_lines T) 0 (SourcesScan false false (-1) 0 (-1))
  = (st, Some 0%Z) →
  lastDataLineIndex st = (-1)%Z
  ∧ (1 <= sourcesStart st <= Z.of_nat (length (split_lines T)))%Z
  ∧ updatePlatformsInYaml T P
    = join_lines
        (take (Z.to_nat (sourcesStart st)) (split_lines T)
         ++ [join_lines (platform_entry <$> P)]
         ++ split_lines T).
Proof.
  intros Hscan. unfold updatePlatformsInYaml. rewrite Hscan.
  destruct (scan_sources_spec (split_lines T) [] _ _ _
              (scan_sources_start (split_lines T)) Hscan)
    as [(_ & Hsrc & Hl) Hb].
  simpl in Hsrc, Hl, Hb. specialize (Hb 0%Z eq_refl).
  destruct (Z.leb_spec 0 (lastDataLineIndex st)) as [?|Hneg]; [lia|].
  destruct Hb as [[_ Hs]|[? _]]; [|lia].
  destruct (Hsrc Hs) as [Hrange _].
  destruct Hl as [Hl|[_ ?]]; [|lia].
  split; [done|]. split; [done|].
  cbn [default from_option id]. change (0 =? -1)%Z with false. cbv iota.
  rewrite (slice_range _ 0 (sourcesStart st)) by lia.
  rewrite (slice_range _ 0 (Z.of_nat (length (split_lines T)))) by lia.
  change (Z.to_nat 0) with 0%nat. rewrite !Nat.sub_0_r, drop_0.
  rewrite Nat2Z.id, firstn_all.
  assert (Hempty : slice (split_lines T) (sourcesStart st) 0 = []).
  { unfold slice. destruct (Z.ltb_spec (sourcesStart st) 0); [lia|].
    change (0 <? 0)%Z with false. cbv iota.
    rewrite Z.min_l, Z.min_l by lia.
    replace (Z.to_nat (0 - sourcesStart st)) with 0%nat by lia. done. }
  rewrite Hempty. done.
Qed.

Lemma updatePlatformsInYaml_empty_block_witness :
  let T := join_lines [str "platforms:"; str "  sources:"; str "other: 1"] in
  let st := SourcesScan true true 2 4 (-1) in
  lastDataLineIndex st = (-1)%Z
  ∧ (1 <= sourcesStart st <= Z.of_nat (length (split_lines T)))%Z
  ∧ updatePlatformsInYaml T [(str "b", str "B")]
    = join_lines
        (take (Z.to_nat (sourcesStart st)) (split_lines T)
         ++ [join_lines (platform_entry <$> [(str "b", str "B")])]
         ++ split_lines T).
Proof.
  apply (updatePlatformsInYaml_empty_block
           (join_lines [str "platforms:"; str "  sources:"; str "other: 1"])
           [(str "b", str "B")] (SourcesScan true true 2 4 (-1))).
  vm_compute. reflexivity.
Defined.

(** ** The highlight layer and the attribute escape *)

Lemma replace_all_elem (c x : N) (by_ s : jstr) :
  x ∈ replace_all c by_ s → x ∈ by_ ∨ (x ∈ s ∧ x ≠ c).
Proof.
  unfold replace_all. induction s as [|d s IH]; simpl.
  - by intros ?%elem_of_nil.
  - intros [H|H]%elem_of_app.
    + destruct (N.eqb_spec d c) as [->|Hne]; [by left|].
      apply list_elem_of_singleton in H as ->. right. split; [|done].
      by apply elem_of_cons; left.
    + destruct (IH H) as [?|[? ?]]; [by left|right]. split; [|done].
      by apply elem_of_cons; right.
Qed.

Lemma slice_elem {A} (l : list A) (a b : Z) (x : A) :
  x ∈ slice l a b → x ∈ l.
Proof.
  unfold slice. intros H.
  eapply elem_of_sublist; [|apply sublist_drop].
  eapply elem_of_sublist; [exact H|apply sublist_take].
Qed.

Lemma escape_elem (x : N) (s : jstr) :
  x ∈ escape s →
  x ∈ str "&gt;" ∨ x ∈ str "&lt;" ∨ x ∈ str "&amp;"
  ∨ (x ∈ s ∧ x ≠ c_gt ∧ x ≠ c_lt ∧ x ≠ c_amp).
Proof.
  unfold escape. intros H.
  apply replace_all_elem in H as [?|[H ?]]; [by left|].
  apply replace_all_elem in H as [?|[H ?]]; [by right; left|].
  apply replace_all_elem in H as [?|[H ?]]; [by right; right; left|].
  by right; right; right.
Qed.

Lemma escape_free (x : N) (s : jstr) :
  x ∉ str "&gt;" → x ∉ str "&lt;" → x ∉ str "&amp;" →
  (x ∈ s → x = c_gt ∨ x = c_lt ∨ x = c_amp) → x ∉ escape s.
Proof.
  intros H1 H2 H3 Hs H.
  apply escape_elem in H as [?|[?|[?|(Hin & ? & ? & ?)]]]; try done.
  destruct (Hs Hin) as [?|[?|?]]; done.
Qed.

Lemma indexOf_absent (s : jstr) (c : N) : c ∉ s → indexOf s c = (-1)%Z.
Proof.
  induction s as [|d s IH]; intros H; [done|]. simpl.
  apply not_elem_of_cons in H as [Hne Hs].
  destruct (N.eqb_spec d c) as [->|_]; [done|]. by rewrite IH.
Qed.

Lemma highlight_line_nl_free (line : jstr) :
  nl_free line → nl_free (highlight_line line).
Proof.
  unfold nl_free, highlight_line. intros Hl. cbv zeta.
  assert (He : ∀ s, (c_nl ∈ s → c_nl ∈ line) → c_nl ∉ escape s).
  { intros s Hs. apply escape_free;
      try (apply (bool_decide_unpack _); by vm_compute).
    intros Hin. by destruct (Hl (Hs Hin)). }
  destruct (indexOf line c_hash =? -1)%Z; [by apply He|].
  rewrite !not_elem_of_app. split_and!.
  - apply He. apply slice_elem.
  - apply (bool_decide_unpack _). by vm_compute.
  - apply He. apply slice_elem.
  - apply (bool_decide_unpack _). by vm_compute.
Qed.

(** X26. The highlight layer has the lines of the text: line by line,
    what [applyHighlight] returns is the highlight of the line of the
    text at the same place, so that the layer and the text have the same
    number of lines; and the highlight of a line that holds no hash sign
    holds no angle bracket. *)
Theorem applyHighlight_lines (text : jstr) :
  split_lines (applyHighlight text) = highlight_line <$> split_lines text
  ∧ length (split_lines (applyHighlight text)) = length (split_lines text)
  ∧ ∀ line, c_hash ∉ line →
      ¬ (c_lt ∈ highlight_line line) ∧ ¬ (c_gt ∈ highlight_line line).
Proof.
  assert (E : split_lines (applyHighlight text)
              = highlight_line <$> split_lines text).
  { unfold applyHighlight, split_lines, join_lines. apply split_on_join.
    - pose proof (split_on_nonempty c_nl text).
      by destruct (split_on c_nl text).
    - apply Forall_fmap. eapply Forall_impl; [apply split_lines_nl_free|].
      intros l Hl. by apply highlight_line_nl_free. }
  split; [done|]. split; [by rewrite E, length_fmap|].
  intros line Hh. unfold highlight_line. rewrite indexOf_absent by done.
  change (-1 =? -1)%Z with true. cbv iota.
  split; apply escape_free;
    try (apply (bool_decide_unpack _); by vm_compute); auto.
Qed.

(** X27. What [escapeAttr] returns holds no double quote, whatever its
    argument, [null] included. *)
Theorem escapeAttr_no_dquote (s : option jstr) : c_dquote ∉ escapeAttr s.
Proof.
  unfold escapeAttr. intros H.
  apply replace_all_elem in H as [H|[_ ?]]; [|done].
  revert H. apply (bool_decide_unpack _). by vm_compute.
Qed.
